(** * scrago: a shallow embedding of the scheduling / dispatch core

    Go packages are rendered as modules of the same name:
    [request], [response], [scheduler], [middleware], [downloader],
    [engine].  Go [int], [int64] and [time.Duration] values are integers
    in [Z]; the 64-bit wrap-around of the statistics counters is written
    out with [wrap64].  Slice indices and lengths are natural numbers. *)

From Stdlib Require Import ZArith Lia Ascii.
From stdpp Require Import base list sorting strings gmap.

(** ** Machine integers *)

(** Signed 64-bit wrap-around, as Go computes [+] on [int64] and [int]. *)
Definition wrap64 (z : Z) : Z := ((z + 2 ^ 63) mod 2 ^ 64 - 2 ^ 63)%Z.

Definition add64 (a b : Z) : Z := wrap64 (a + b).

Definition int64_range (z : Z) : Prop := (- 2 ^ 63 <= z < 2 ^ 63)%Z.

(** Go's [error] values, by the way this program builds them. *)
Inductive error :=
  | errors_New (msg : string)                 (* errors.New, fmt.Errorf without %w *)
  | fmt_Errorf (prefix : string) (err : error) (* fmt.Errorf(prefix + ": %w", err) *)
  | url_Error (op url : string) (err : error). (* the *url.Error of http.Client.Do *)

(** ** package request *)

Module request.

Record Cookie := { Name : string; Value : string }.

(** [request.Request].  [Headers] is [http.Header]
    (map[string][]string); the values of [Meta] (interface{}) are opaque
    to the core and kept by their printed form. *)
Record Request := {
  Method : string;
  URL : string;
  Headers : gmap string (list string);
  Body : list Byte.byte;
  Meta : gmap string string;
  Cookies : list Cookie;
  Priority : Z;
  RetryTimes : Z;
  DontRetry : bool;
  Callback : string;
  Proxy : string;
  Timeout : Z;
  DontRedirect : bool
}.

(** [NewRequest]: 30 s default timeout, in nanoseconds. *)
Definition NewRequest (method rawURL : string) : Request :=
  {| Method := method; URL := rawURL; Headers := ∅; Body := [];
     Meta := ∅; Cookies := []; Priority := 0; RetryTimes := 0;
     DontRetry := false; Callback := ""; Proxy := "";
     Timeout := 30 * 1000000000; DontRedirect := false |}.

Definition SetPriority (priority : Z) (r : Request) : Request :=
  {| Method := Method r; URL := URL r; Headers := Headers r; Body := Body r;
     Meta := Meta r; Cookies := Cookies r; Priority := priority;
     RetryTimes := RetryTimes r; DontRetry := DontRetry r;
     Callback := Callback r; Proxy := Proxy r; Timeout := Timeout r;
     DontRedirect := DontRedirect r |}.

(** The assignment [r.RetryTimes = n]. *)
Definition SetRetryTimes (n : Z) (r : Request) : Request :=
  {| Method := Method r; URL := URL r; Headers := Headers r; Body := Body r;
     Meta := Meta r; Cookies := Cookies r; Priority := Priority r;
     RetryTimes := n; DontRetry := DontRetry r;
     Callback := Callback r; Proxy := Proxy r; Timeout := Timeout r;
     DontRedirect := DontRedirect r |}.

(** *** [http.Header], as the request's methods and the middlewares use it

    [Get], [Set] and [Add] of net/http address the map by the canonical
    form of the key, [textproto.CanonicalMIMEHeaderKey]; [Get] returns
    the first value under the key, or the empty string. *)

Section Header.

Variable CanonicalMIMEHeaderKey : string → string.

Definition Header_Get (h : gmap string (list string)) (key : string) : string :=
  match h !! CanonicalMIMEHeaderKey key with
  | Some (v :: _) => v
  | _ => ""
  end.

Definition Header_Set (h : gmap string (list string)) (key value : string)
    : gmap string (list string) :=
  <[CanonicalMIMEHeaderKey key := [value]]> h.

Definition Header_Add (h : gmap string (list string)) (key value : string)
    : gmap string (list string) :=
  <[CanonicalMIMEHeaderKey key :=
      default [] (h !! CanonicalMIMEHeaderKey key) ++ [value]]> h.

(** The assignment [r.Headers = h] (the methods write into the map). *)
Definition set_Headers (h : gmap string (list string)) (r : Request) : Request :=
  {| Method := Method r; URL := URL r; Headers := h; Body := Body r;
     Meta := Meta r; Cookies := Cookies r; Priority := Priority r;
     RetryTimes := RetryTimes r; DontRetry := DontRetry r;
     Callback := Callback r; Proxy := Proxy r; Timeout := Timeout r;
     DontRedirect := DontRedirect r |}.

Definition SetHeader (key value : string) (r : Request) : Request :=
  set_Headers (Header_Set (Headers r) key value) r.

Definition AddHeader (key value : string) (r : Request) : Request :=
  set_Headers (Header_Add (Headers r) key value) r.

End Header.

Definition SetMeta (key value : string) (r : Request) : Request :=
  {| Method := Method r; URL := URL r; Headers := Headers r; Body := Body r;
     Meta := <[key := value]> (Meta r); Cookies := Cookies r;
     Priority := Priority r; RetryTimes := RetryTimes r;
     DontRetry := DontRetry r; Callback := Callback r; Proxy := Proxy r;
     Timeout := Timeout r; DontRedirect := DontRedirect r |}.

(** [r.Meta[key]]: [None] is the nil of a missing key. *)
Definition GetMeta (key : string) (r : Request) : option string := Meta r !! key.

Definition SetProxy (proxy : string) (r : Request) : Request :=
  {| Method := Method r; URL := URL r; Headers := Headers r; Body := Body r;
     Meta := Meta r; Cookies := Cookies r; Priority := Priority r;
     RetryTimes := RetryTimes r; DontRetry := DontRetry r;
     Callback := Callback r; Proxy := proxy; Timeout := Timeout r;
     DontRedirect := DontRedirect r |}.

Definition SetTimeout (timeout : Z) (r : Request) : Request :=
  {| Method := Method r; URL := URL r; Headers := Headers r; Body := Body r;
     Meta := Meta r; Cookies := Cookies r; Priority := Priority r;
     RetryTimes := RetryTimes r; DontRetry := DontRetry r;
     Callback := Callback r; Proxy := Proxy r; Timeout := timeout;
     DontRedirect := DontRedirect r |}.

(** [r.Cookies = append(r.Cookies, cookie)] *)
Definition AddCookie (cookie : Cookie) (r : Request) : Request :=
  {| Method := Method r; URL := URL r; Headers := Headers r; Body := Body r;
     Meta := Meta r; Cookies := Cookies r ++ [cookie]; Priority := Priority r;
     RetryTimes := RetryTimes r; DontRetry := DontRetry r;
     Callback := Callback r; Proxy := Proxy r; Timeout := Timeout r;
     DontRedirect := DontRedirect r |}.

(** Go's built-in [copy(dst, src)]: the first min(len(dst), len(src))
    elements of [src] replace those of [dst]. *)
Definition slice_copy {A : Type} (dst src : list A) : list A :=
  take (length dst) src ++ drop (length src) dst.

(** [for k, v := range m { dst[k] = v }] into a fresh map; the order in
    which [range] visits the entries does not show in the result. *)
Definition map_copy {V : Type} (m : gmap string V) : gmap string V :=
  map_fold (λ k v dst, <[k := v]> dst) ∅ m.

(** [Copy]: [Body] and [Cookies] are made with the length of the
    original ([make] gives zero bytes and nil pointers) and filled by
    [copy]. *)
Definition Copy (r : Request) : Request :=
  {| Method := Method r; URL := URL r;
     Headers := map_copy (Headers r);
     Body := slice_copy (replicate (length (Body r)) Byte.x00) (Body r);
     Meta := map_copy (Meta r);
     Cookies :=
       omap id (slice_copy (replicate (length (Cookies r)) None)
                           (Some <$> Cookies r));
     Priority := Priority r; RetryTimes := RetryTimes r;
     DontRetry := DontRetry r; Callback := Callback r; Proxy := Proxy r;
     Timeout := Timeout r; DontRedirect := DontRedirect r |}.

(** [String]: the method, a blank, the address. *)
Definition String (r : Request) : string := Method r +:+ " " +:+ URL r.

End request.

(** ** package response *)

Module response.

(** [selector] is the private field that caches the selector of the
    response: [None] is nil, and a selector is kept by the document
    [selector.NewSelector] built it from. *)
Record Response := {
  URL : string;
  StatusCode : Z;
  Headers : gmap string (list string);
  Body : list Byte.byte;
  Request : request.Request;
  Meta : gmap string string;
  Encoding : string;
  selector : option (list Byte.byte)
}.

Definition NewResponse (url : string) (statusCode : Z)
    (headers : gmap string (list string)) (body : list Byte.byte)
    (req : request.Request) : Response :=
  {| URL := url; StatusCode := statusCode; Headers := headers; Body := body;
     Request := req; Meta := ∅; Encoding := "utf-8"; selector := None |}.

(** [if r.selector == nil { r.selector = selector.NewSelector(string(
    r.Body)) }; return r.selector]: the selector and the response
    afterwards. *)
Definition Selector (r : Response) : list Byte.byte * Response :=
  match selector r with
  | Some sel => (sel, r)
  | None =>
      (Body r,
       {| URL := URL r; StatusCode := StatusCode r; Headers := Headers r;
          Body := Body r; Request := Request r; Meta := Meta r;
          Encoding := Encoding r; selector := Some (Body r) |})
  end.

Definition GetMeta (key : string) (r : Response) : option string := Meta r !! key.

Definition SetMeta (key value : string) (r : Response) : Response :=
  {| URL := URL r; StatusCode := StatusCode r; Headers := Headers r;
     Body := Body r; Request := Request r; Meta := <[key := value]> (Meta r);
     Encoding := Encoding r; selector := selector r |}.

(** [Copy]: the request is shared; the cached selector is not taken
    over, the field of the copy is nil. *)
Definition Copy (r : Response) : Response :=
  {| URL := URL r; StatusCode := StatusCode r;
     Headers := request.map_copy (Headers r);
     Body := request.slice_copy (replicate (length (Body r)) Byte.x00) (Body r);
     Request := Request r;
     Meta := request.map_copy (Meta r);
     Encoding := Encoding r; selector := None |}.

(** *** Following links

    [url.Parse] and the methods [ResolveReference] and [String] of
    [url.URL] (net/url) are taken as they are. *)

Section Follow.

Context {url_URL : Type}.
Variable url_Parse : string → url_URL + error.
Variable ResolveReference : url_URL → url_URL → url_URL.
Variable URL_String : url_URL → string.

Definition urljoin (r : Response) (href : string) : string :=
  match url_Parse (URL r) with
  | inr _ => href
  | inl base =>
      match url_Parse href with
      | inr _ => href
      | inl ref => URL_String (ResolveReference base ref)
      end
  end.

Definition Follow (r : Response) (href : string) : request.Request :=
  request.NewRequest "GET" (urljoin r href).

(** [for _, href := range hrefs { requests = append(requests,
    r.Follow(href)) }] *)
Fixpoint FollowAll_loop (r : Response) (requests : list request.Request)
    (hrefs : list string) : list request.Request :=
  match hrefs with
  | [] => requests
  | href :: rest => FollowAll_loop r (requests ++ [Follow r href]) rest
  end.

Definition FollowAll (r : Response) (hrefs : list string) : list request.Request :=
  FollowAll_loop r [] hrefs.

End Follow.

End response.

(** ** package scheduler *)

Module scheduler.

(** *** FIFOScheduler *)

Module FIFOScheduler.

Record t := { queue : list request.Request }.

Definition NewFIFOScheduler : t := {| queue := [] |}.

Definition Enqueue (req : request.Request) (s : t) : t :=
  {| queue := queue s ++ [req] |}.

(** [None] is Go's [nil] result. *)
Definition Dequeue (s : t) : option request.Request * t :=
  match queue s with
  | [] => (None, s)
  | req :: rest => (Some req, {| queue := rest |})
  end.

Definition Empty (s : t) : bool := bool_decide (length (queue s) = 0).

Definition Size (s : t) : Z := Z.of_nat (length (queue s)).

End FIFOScheduler.

(** *** LIFOScheduler *)

Module LIFOScheduler.

Record t := { stack : list request.Request }.

Definition NewLIFOScheduler : t := {| stack := [] |}.

Definition Enqueue (req : request.Request) (s : t) : t :=
  {| stack := stack s ++ [req] |}.

(** [s.stack[len(s.stack)-1]] and [s.stack[:len(s.stack)-1]]. *)
Definition Dequeue (s : t) : option request.Request * t :=
  match last (stack s) with
  | None => (None, s)
  | Some req => (Some req, {| stack := take (length (stack s) - 1) (stack s) |})
  end.

Definition Empty (s : t) : bool := bool_decide (length (stack s) = 0).

Definition Size (s : t) : Z := Z.of_nat (length (stack s)).

End LIFOScheduler.

(** *** PriorityQueue: the [heap.Interface] implementation

    A [None] result of an operation of this part is a Go run-time panic
    (index out of range); for the fuelled loops of container/heap it
    also stands for running out of fuel. *)

Record PriorityItem := {
  Request : request.Request;
  Priority : Z;
  Index : Z
}.

(** The assignment [item.Index = i]. *)
Definition setIndex (i : Z) (item : PriorityItem) : PriorityItem :=
  {| Request := Request item; Priority := Priority item; Index := i |}.

(** [type PriorityQueue []*PriorityItem] *)
Abbreviation PriorityQueue := (list PriorityItem).

Definition Len (pq : PriorityQueue) : nat := length pq.

(** [pq[i].Priority > pq[j].Priority] *)
Definition Less (pq : PriorityQueue) (i j : nat) : option bool :=
  a ← pq !! i; b ← pq !! j; Some (Priority b <? Priority a)%Z.

(** [pq[i], pq[j] = pq[j], pq[i]; pq[i].Index = i; pq[j].Index = j] *)
Definition Swap (pq : PriorityQueue) (i j : nat) : option PriorityQueue :=
  a ← pq !! i; b ← pq !! j;
  Some (<[j := setIndex (Z.of_nat j) a]> (<[i := setIndex (Z.of_nat i) b]> pq)).

Definition Push (pq : PriorityQueue) (x : PriorityItem) : PriorityQueue :=
  pq ++ [setIndex (Z.of_nat (length pq)) x].

(** [item := old[n-1]; item.Index = -1; *pq = old[0 : n-1]] *)
Definition Pop (pq : PriorityQueue) : option (PriorityItem * PriorityQueue) :=
  match length pq with
  | O => None
  | S n' => item ← pq !! n'; Some (setIndex (-1) item, take n' pq)
  end.

(** *** container/heap of the Go standard library, over [PriorityQueue]

    [up], [down], [Init], [Push] and [Pop] follow the library's source;
    the loops take fuel. *)

Module heap.

(** [for { i := (j - 1) / 2; if i == j || !h.Less(j, i) { break };
          h.Swap(i, j); j = i }].  Go's [/] truncates towards zero, so
    the parent of the root is the root, as with natural numbers. *)
Fixpoint up (fuel : nat) (h : PriorityQueue) (j : nat) : option PriorityQueue :=
  match fuel with
  | O => None
  | S fuel' =>
      let i := (j - 1) / 2 in
      if decide (i = j) then Some h
      else
        lt ← Less h j i;
        if negb (lt : bool) then Some h
        else h' ← Swap h i j; up fuel' h' i
  end.

(** The loop of [down(h, i0, n)]; the result carries the final [i]. *)
Fixpoint down_loop (fuel : nat) (h : PriorityQueue) (i n : nat)
    : option (PriorityQueue * nat) :=
  match fuel with
  | O => None
  | S fuel' =>
      let j1 := 2 * i + 1 in
      if decide (n <= j1) then Some (h, i)
      else
        lt21 ← (if decide (j1 + 1 < n) then Less h (j1 + 1) j1 else Some false);
        let j := if (lt21 : bool) then j1 + 1 else j1 in
        lt ← Less h j i;
        if negb (lt : bool) then Some (h, i)
        else h' ← Swap h i j; down_loop fuel' h' j n
  end.

(** [down] returns whether the element moved ([i > i0]). *)
Definition down (h : PriorityQueue) (i0 n : nat) : option (PriorityQueue * bool) :=
  '(h', i) ← down_loop (S n) h i0 n; Some (h', bool_decide (i0 < i)).

(** [for i := n/2 - 1; i >= 0; i-- { down(h, i, n) }]: [k] counts the
    iterations left, so the index visited is [k - 1]. *)
Fixpoint Init_loop (k : nat) (h : PriorityQueue) (n : nat) : option PriorityQueue :=
  match k with
  | O => Some h
  | S k' => '(h', _) ← down h k' n; Init_loop k' h' n
  end.

Definition Init (h : PriorityQueue) : option PriorityQueue :=
  Init_loop (Len h / 2) h (Len h).

(** [h.Push(x); up(h, h.Len()-1)] *)
Definition Push (h : PriorityQueue) (x : PriorityItem) : option PriorityQueue :=
  let h' := scheduler.Push h x in
  up (Len h') h' (Len h' - 1).

(** [n := h.Len() - 1; h.Swap(0, n); down(h, 0, n); return h.Pop()] *)
Definition Pop (h : PriorityQueue) : option (PriorityItem * PriorityQueue) :=
  let n := Len h - 1 in
  h1 ← Swap h 0 n;
  '(h2, _) ← down h1 0 n;
  scheduler.Pop h2.

End heap.

(** *** PriorityScheduler *)

Module PriorityScheduler.

Record t := { queue : PriorityQueue }.

(** [pq := make(PriorityQueue, 0); heap.Init(&pq)] *)
Definition NewPriorityScheduler : option t :=
  pq ← heap.Init []; Some {| queue := pq |}.

(** [item := &PriorityItem{Request: req, Priority: req.Priority}];
    the [Index] field starts at its zero value. *)
Definition Enqueue (req : request.Request) (s : t) : option t :=
  let item := {| Request := req; Priority := request.Priority req; Index := 0 |} in
  pq ← heap.Push (queue s) item; Some {| queue := pq |}.

Definition Dequeue (s : t) : option (option request.Request * t) :=
  if decide (Len (queue s) = 0) then Some (None, s)
  else '(item, pq) ← heap.Pop (queue s); Some (Some (Request item), {| queue := pq |}).

Definition Empty (s : t) : bool := bool_decide (Len (queue s) = 0).

Definition Size (s : t) : Z := Z.of_nat (Len (queue s)).

End PriorityScheduler.

(** *** ChannelScheduler

    [requestChan] is a buffered channel of capacity [bufferSize].  The
    goroutines that [Enqueue] detaches when the buffer is full are part
    of the state: [spawned] holds those that have not reached their send
    yet, [sendq] those blocked in [s.requestChan <- req] (the channel's
    queue of waiting senders, oldest first), and [counting] counts those
    whose send has completed and whose [atomic.AddInt64(&s.size, 1)] is
    still to run.  Each operation below is one atomic step of an
    interleaving. *)

Module ChannelScheduler.

Record t := {
  bufferSize : nat;
  requestChan : list request.Request;
  size : Z;
  spawned : list request.Request;
  sendq : list request.Request;
  counting : nat
}.

Definition NewChannelScheduler (bufferSize : nat) : t :=
  {| bufferSize := bufferSize; requestChan := []; size := 0;
     spawned := []; sendq := []; counting := 0 |}.

(** [select { case s.requestChan <- req: atomic.AddInt64(&s.size, 1)
             default: go func() { ... }() }]: the send case is ready
    exactly when the buffer has room ([Dequeue] never waits, so no
    receiver is ever parked on the channel). *)
Definition Enqueue (req : request.Request) (s : t) : t :=
  if decide (length (requestChan s) < bufferSize s) then
    {| bufferSize := bufferSize s; requestChan := requestChan s ++ [req];
       size := add64 (size s) 1;
       spawned := spawned s; sendq := sendq s; counting := counting s |}
  else
    {| bufferSize := bufferSize s; requestChan := requestChan s;
       size := size s;
       spawned := spawned s ++ [req]; sendq := sendq s; counting := counting s |}.

(** The [k]-th detached goroutine executes [s.requestChan <- req]: the
    send completes when the buffer has room, and parks the goroutine on
    the channel otherwise. *)
Definition go_send (k : nat) (s : t) : t :=
  match spawned s !! k with
  | None => s
  | Some req =>
      if decide (length (requestChan s) < bufferSize s) then
        {| bufferSize := bufferSize s; requestChan := requestChan s ++ [req];
           size := size s;
           spawned := delete k (spawned s); sendq := sendq s;
           counting := S (counting s) |}
      else
        {| bufferSize := bufferSize s; requestChan := requestChan s;
           size := size s;
           spawned := delete k (spawned s); sendq := sendq s ++ [req];
           counting := counting s |}
  end.

(** A detached goroutine whose send has completed executes
    [atomic.AddInt64(&s.size, 1)]. *)
Definition go_add (s : t) : t :=
  match counting s with
  | O => s
  | S c =>
      {| bufferSize := bufferSize s; requestChan := requestChan s;
         size := add64 (size s) 1;
         spawned := spawned s; sendq := sendq s; counting := c |}
  end.

(** [select { case req := <-s.requestChan: atomic.AddInt64(&s.size, -1);
             return req
             default: return nil }].  A receive takes the oldest
    buffered element and moves the value of the first parked sender into
    the buffer; on an unbuffered channel it takes the value of the first
    parked sender directly.  Either way that sender's send completes. *)
Definition Dequeue (s : t) : option request.Request * t :=
  match requestChan s, sendq s with
  | req :: rest, [] =>
      (Some req,
       {| bufferSize := bufferSize s; requestChan := rest;
          size := add64 (size s) (-1);
          spawned := spawned s; sendq := []; counting := counting s |})
  | req :: rest, r :: q =>
      (Some req,
       {| bufferSize := bufferSize s; requestChan := rest ++ [r];
          size := add64 (size s) (-1);
          spawned := spawned s; sendq := q; counting := S (counting s) |})
  | [], r :: q =>
      (Some r,
       {| bufferSize := bufferSize s; requestChan := [];
          size := add64 (size s) (-1);
          spawned := spawned s; sendq := q; counting := S (counting s) |})
  | [], [] => (None, s)
  end.

Definition Empty (s : t) : bool := bool_decide (size s = 0%Z).

Definition Size (s : t) : Z := size s.

(** The tasks accepted by [Enqueue] and not yet handed out. *)
Definition held (s : t) : list request.Request :=
  requestChan s ++ sendq s ++ spawned s.

(** One step of an interleaving of a caller with the detached
    goroutines. *)
Inductive Action :=
  | ActEnqueue (req : request.Request)
  | ActDequeue
  | ActGoSend (k : nat)
  | ActGoAdd.

(** The state after an action, and what a [Dequeue] returned. *)
Definition step (a : Action) (s : t) : t * list request.Request :=
  match a with
  | ActEnqueue req => (Enqueue req s, [])
  | ActDequeue =>
      match Dequeue s with
      | (Some req, s') => (s', [req])
      | (None, s') => (s', [])
      end
  | ActGoSend k => (go_send k s, [])
  | ActGoAdd => (go_add s, [])
  end.

Fixpoint exec (acts : list Action) (s : t) : t * list request.Request :=
  match acts with
  | [] => (s, [])
  | a :: rest =>
      let '(s1, out1) := step a s in
      let '(s2, out2) := exec rest s1 in
      (s2, out1 ++ out2)
  end.

Definition enqueued (acts : list Action) : list request.Request :=
  flat_map (λ a, match a with ActEnqueue req => [req] | _ => [] end) acts.

(** Let every detached goroutine run, then receive until nothing is
    left: [n] bounds the number of receives. *)
Fixpoint receive_all (n : nat) (s : t) : list request.Request :=
  match n with
  | O => []
  | S n' =>
      match Dequeue s with
      | (Some req, s') => req :: receive_all n' s'
      | (None, _) => []
      end
  end.

Definition flush (s : t) : t :=
  fst (exec (replicate (length (spawned s)) (ActGoSend 0)) s).

Definition drain (s : t) : list request.Request :=
  receive_all (length (held s)) (flush s).

End ChannelScheduler.

(** *** The [Scheduler] interface, for the lock-guarded variants

    [Enqueue] and [Dequeue] are partial because the priority variant
    goes through container/heap; [None] is a panic. *)

Class Scheduler (Q : Type) := {
  sched_new : option Q;
  sched_Enqueue : request.Request → Q → option Q;
  sched_Dequeue : Q → option (option request.Request * Q);
  sched_Empty : Q → bool;
  sched_Size : Q → Z
}.

#[global] Instance FIFO_Scheduler : Scheduler FIFOScheduler.t := {|
  sched_new := Some FIFOScheduler.NewFIFOScheduler;
  sched_Enqueue req s := Some (FIFOScheduler.Enqueue req s);
  sched_Dequeue s := Some (FIFOScheduler.Dequeue s);
  sched_Empty := FIFOScheduler.Empty;
  sched_Size := FIFOScheduler.Size
|}.

#[global] Instance LIFO_Scheduler : Scheduler LIFOScheduler.t := {|
  sched_new := Some LIFOScheduler.NewLIFOScheduler;
  sched_Enqueue req s := Some (LIFOScheduler.Enqueue req s);
  sched_Dequeue s := Some (LIFOScheduler.Dequeue s);
  sched_Empty := LIFOScheduler.Empty;
  sched_Size := LIFOScheduler.Size
|}.

#[global] Instance Priority_Scheduler : Scheduler PriorityScheduler.t := {|
  sched_new := PriorityScheduler.NewPriorityScheduler;
  sched_Enqueue := PriorityScheduler.Enqueue;
  sched_Dequeue := PriorityScheduler.Dequeue;
  sched_Empty := PriorityScheduler.Empty;
  sched_Size := PriorityScheduler.Size
|}.

(** A single-threaded use of a scheduler: a sequence of calls. *)
Inductive Op :=
  | OpEnqueue (req : request.Request)
  | OpDequeue.

(** The state after the calls, with the tasks the dequeues returned (a
    dequeue on an empty queue returns nil and contributes nothing). *)
Fixpoint run `{Scheduler Q} (ops : list Op) (s : Q)
    : option (Q * list request.Request) :=
  match ops with
  | [] => Some (s, [])
  | OpEnqueue req :: rest => s' ← sched_Enqueue req s; run rest s'
  | OpDequeue :: rest =>
      '(r, s') ← sched_Dequeue s;
      '(s'', out) ← run rest s';
      Some (s'', match r with Some req => req :: out | None => out end)
  end.

Definition run_new `{Scheduler Q} (ops : list Op) : option (Q * list request.Request) :=
  s ← sched_new; run ops s.

Definition enqueues (ops : list Op) : list request.Request :=
  flat_map (λ o, match o with OpEnqueue req => [req] | OpDequeue => [] end) ops.

End scheduler.

(** ** package middleware *)

Module middleware.

(** *** RetryMiddleware *)

Record RetryMiddleware := {
  maxRetries : Z;
  retryHTTPCodes : list Z
}.

Definition NewRetryMiddleware (maxRetries : Z) (retryHTTPCodes : list Z)
    : RetryMiddleware :=
  {| maxRetries := maxRetries;
     retryHTTPCodes :=
       if decide (length retryHTTPCodes = 0) then [500; 502; 503; 504; 408; 429]%Z
       else retryHTTPCodes |}.

(** [for _, code := range m.retryHTTPCodes { if statusCode == code
    { return true } }; return false] *)
Fixpoint shouldRetry_loop (codes : list Z) (statusCode : Z) : bool :=
  match codes with
  | [] => false
  | code :: rest =>
      if decide (statusCode = code) then true else shouldRetry_loop rest statusCode
  end.

Definition shouldRetry (m : RetryMiddleware) (statusCode : Z) : bool :=
  shouldRetry_loop (retryHTTPCodes m) statusCode.

Definition ProcessRequest (m : RetryMiddleware) (req : request.Request)
    : request.Request := req.

(** The method writes through the pointer [req] and returns [resp]:
    the result is the request as the method leaves it, and the returned
    response.  ([req.RetryTimes++] on a Go [int]; the [fmt.Printf] is
    not part of the state.) *)
Definition ProcessResponse (m : RetryMiddleware) (req : request.Request)
    (resp : response.Response) : request.Request * response.Response :=
  if shouldRetry m (response.StatusCode resp)
     && bool_decide (request.RetryTimes req < maxRetries m)%Z
  then (request.SetRetryTimes (add64 (request.RetryTimes req) 1) req, resp)
  else (req, resp).

(** *** [strings.Split] with a separator of one byte

    The pieces of [s] between the occurrences of [sep], in order: one
    piece more than there are occurrences, so never an empty result. *)
Fixpoint strings_Split (s : string) (sep : Ascii.ascii) : list string :=
  match s with
  | EmptyString => [EmptyString]
  | String c rest =>
      if decide (c = sep) then EmptyString :: strings_Split rest sep
      else
        match strings_Split rest sep with
        | piece :: pieces => String c piece :: pieces
        | [] => [String c EmptyString]
        end
  end.

(** *** UserAgentMiddleware and ProxyMiddleware

    [rand.Intn(n)] draws from the outside world; it returns a number
    in [[0, n)].  A [None] result of [ProcessRequest] is a Go run-time
    panic (index out of range). *)

Module UserAgentMiddleware.

Record t := {
  userAgents : list string;
  random : bool
}.

Definition NewUserAgentMiddleware (userAgents : list string) (random : bool) : t :=
  {| userAgents :=
       if decide (length userAgents = 0) then
         ["Mozilla/5.0 (Windows NT 10.0; Win64; x64) AppleWebKit/537.36 (KHTML, like Gecko) Chrome/91.0.4472.124 Safari/537.36";
          "Mozilla/5.0 (Macintosh; Intel Mac OS X 10_15_7) AppleWebKit/537.36 (KHTML, like Gecko) Chrome/91.0.4472.124 Safari/537.36";
          "Mozilla/5.0 (X11; Linux x86_64) AppleWebKit/537.36 (KHTML, like Gecko) Chrome/91.0.4472.124 Safari/537.36"]
       else userAgents;
     random := random |}.

Section Methods.

Context {World : Type}.
Variable CanonicalMIMEHeaderKey : string → string.
Variable rand_Intn : nat → World → nat * World.

Definition ProcessRequest (m : t) (req : request.Request) (w : World)
    : option (request.Request * World) :=
  if decide (request.Header_Get CanonicalMIMEHeaderKey (request.Headers req)
               "User-Agent" = "") then
    if random m && bool_decide (1 < length (userAgents m)) then
      let '(i, w') := rand_Intn (length (userAgents m)) w in
      userAgent ← userAgents m !! i;
      Some (request.SetHeader CanonicalMIMEHeaderKey "User-Agent" userAgent req, w')
    else
      userAgent ← userAgents m !! 0;
      Some (request.SetHeader CanonicalMIMEHeaderKey "User-Agent" userAgent req, w)
  else Some (req, w).

Definition ProcessResponse (m : t) (req : request.Request)
    (resp : response.Response) : response.Response := resp.

End Methods.

End UserAgentMiddleware.

Module ProxyMiddleware.

Record t := {
  proxies : list string;
  random : bool
}.

Definition NewProxyMiddleware (proxies : list string) (random : bool) : t :=
  {| proxies := proxies; random := random |}.

Section Methods.

Context {World : Type}.
Variable rand_Intn : nat → World → nat * World.

Definition ProcessRequest (m : t) (req : request.Request) (w : World)
    : option (request.Request * World) :=
  if bool_decide (request.Proxy req = "") && bool_decide (0 < length (proxies m)) then
    if random m && bool_decide (1 < length (proxies m)) then
      let '(i, w') := rand_Intn (length (proxies m)) w in
      proxy ← proxies m !! i;
      Some (request.SetProxy proxy req, w')
    else
      proxy ← proxies m !! 0;
      Some (request.SetProxy proxy req, w)
  else Some (req, w).

Definition ProcessResponse (m : t) (req : request.Request)
    (resp : response.Response) : response.Response := resp.

End Methods.

End ProxyMiddleware.

(** *** CookieMiddleware

    [ProcessResponse] writes into the jar: its result is the middleware
    as the call leaves it, with the response.  [strings.TrimSpace] is
    taken as it is. *)

Module CookieMiddleware.

Record t := {
  cookieJar : gmap string (list request.Cookie)
}.

Definition NewCookieMiddleware : t := {| cookieJar := ∅ |}.

(** [parts := strings.Split(url, "/"); if len(parts) >= 3 { return
    parts[2] }; return url] *)
Definition getDomain (url : string) : string :=
  let parts := strings_Split url "/"%char in
  if decide (3 ≤ length parts) then default url (parts !! 2) else url.

Section Methods.

Variable strings_TrimSpace : string → string.

Definition parseCookie (setCookie : string) : option request.Cookie :=
  match strings_Split setCookie ";"%char with
  | [] => None
  | part0 :: _ =>
      match strings_Split (strings_TrimSpace part0) "="%char with
      | [name; value] => Some {| request.Name := name; request.Value := value |}
      | _ => None
      end
  end.

Definition ProcessRequest (m : t) (req : request.Request) : request.Request :=
  match cookieJar m !! getDomain (request.URL req) with
  | Some cookies => foldl (λ r cookie, request.AddCookie cookie r) req cookies
  | None => req
  end.

(** [m.cookieJar[domain] = append(m.cookieJar[domain], cookie)] for one
    header value. *)
Definition store (domain : string) (m : t) (setCookie : string) : t :=
  match parseCookie setCookie with
  | Some cookie =>
      {| cookieJar :=
           <[domain := default [] (cookieJar m !! domain) ++ [cookie]]> (cookieJar m) |}
  | None => m
  end.

(** [resp.Headers["Set-Cookie"]] reads the map directly, under that
    very key. *)
Definition ProcessResponse (m : t) (req : request.Request)
    (resp : response.Response) : t * response.Response :=
  let setCookies := default [] (response.Headers resp !! "Set-Cookie") in
  if decide (0 < length setCookies) then
    (foldl (store (getDomain (request.URL req))) m setCookies, resp)
  else (m, resp).

End Methods.

End CookieMiddleware.

(** *** HeaderMiddleware

    [for key, value := range m.headers] visits the entries of the map
    in an order Go leaves open: [range_order] is the order taken, some
    arrangement of the entries. *)

Module HeaderMiddleware.

Record t := {
  headers : gmap string string
}.

Definition NewHeaderMiddleware (headers : gmap string string) : t :=
  {| headers := headers |}.

Section Methods.

Variable CanonicalMIMEHeaderKey : string → string.
Variable range_order : gmap string string → list (string * string).

Definition ProcessRequest (m : t) (req : request.Request) : request.Request :=
  foldl (λ req kv,
           if decide (request.Header_Get CanonicalMIMEHeaderKey
                        (request.Headers req) kv.1 = "")
           then request.SetHeader CanonicalMIMEHeaderKey kv.1 kv.2 req
           else req)
        req (range_order (headers m)).

Definition ProcessResponse (m : t) (req : request.Request)
    (resp : response.Response) : response.Response := resp.

End Methods.

End HeaderMiddleware.

End middleware.

(** ** package downloader *)

Module downloader.

(** [AsyncResult]: [Response] and [Error] are nilable. *)
Record AsyncResult := {
  Request : request.Request;
  Response : option response.Response;
  Error : option error
}.

(** An [*http.Response] as [Download] reads it: [finalURL] is
    [httpResp.Request.URL.String()]. *)
Record HTTPResponse := {
  finalURL : string;
  StatusCode : Z;
  Header : gmap string (list string);
  RawBody : list Byte.byte
}.

(** What one request on the wire yields to [http.Client.Do]: a transport
    failure, a redirect response that the client would follow (with the
    upcoming request it builds from the Location header), or any other
    response. *)
Inductive RoundTrip (HTTPRequest : Type) :=
  | TransportError (err : error)
  | Redirect (next : HTTPRequest)
  | Final (resp : HTTPResponse).
Arguments TransportError {HTTPRequest} err.
Arguments Redirect {HTTPRequest} next.
Arguments Final {HTTPRequest} resp.

Record HTTPDownloader := {
  userAgent : string;
  clientProxy : string
}.

Definition NewHTTPDownloader : HTTPDownloader :=
  {| userAgent := "Go-Scrapy/1.0"; clientProxy := "" |}.

(** [CheckRedirect] of the client built by [NewHTTPDownloader]:
    [if len(via) >= 10 { return fmt.Errorf("stopped after 10 redirects") };
     return nil].  Per net/http, [via] holds the requests made already,
    oldest first, and [req] is the upcoming request. *)
Definition CheckRedirect {HTTPRequest : Type} (req : HTTPRequest)
    (via : list HTTPRequest) : option error :=
  if decide (10 ≤ length via) then Some (errors_New "stopped after 10 redirects")
  else None.

(** The redirects a fetch has followed when it has made the requests
    [made]: all but the original request. *)
Definition redirects_followed {HTTPRequest : Type} (made : list HTTPRequest) : nat :=
  length made - 1.

Section Net.

(** The outside world (network, clock) and the net/http, net/url,
    compress/gzip and brotli operations [Download] calls. *)
Context {World HTTPRequest : Type}.
Variable http_NewRequest : string → string → list Byte.byte → HTTPRequest + error.
Variable Header_Add : string → string → HTTPRequest → HTTPRequest.
Variable Header_Get : string → HTTPRequest → string.
Variable Header_Set : string → string → HTTPRequest → HTTPRequest.
Variable AddCookie : request.Cookie → HTTPRequest → HTTPRequest.
Variable requestURL : HTTPRequest → string.
Variable requestMethod : HTTPRequest → string.
Variable url_Parse : string → option error.
(** One request on the wire, through the given proxy ([""]: none) and
    under the client's timeout. *)
Variable roundTrip : string → Z → HTTPRequest → World → RoundTrip HTTPRequest * World.
Variable gzip_NewReader : HTTPResponse → option error.
(** [io.ReadAll] of the body under the given content encoding. *)
Variable io_ReadAll : string → HTTPResponse → list Byte.byte + error.

(** [buildHTTPRequest] *)
Definition buildHTTPRequest (d : HTTPDownloader) (req : request.Request)
    : HTTPRequest + error :=
  match http_NewRequest (request.Method req) (request.URL req) (request.Body req) with
  | inr err => inr err
  | inl httpReq =>
      let httpReq :=
        foldl (λ h kv, foldl (λ h value, Header_Add kv.1 value h) h kv.2)
              httpReq (map_to_list (request.Headers req)) in
      let httpReq :=
        if decide (Header_Get "User-Agent" httpReq = "")
        then Header_Set "User-Agent" (userAgent d) httpReq else httpReq in
      inl (foldl (λ h cookie, AddCookie cookie h) httpReq (request.Cookies req))
  end.

(** The operation named in the [*url.Error]: the first request's method. *)
Definition urlErrorOp (reqs : list HTTPRequest) : string :=
  from_option requestMethod "" (head reqs).

(** The redirect loop of [http.Client.Do] (net/http): [reqs] are the
    requests made already.  Each turn sends [req]; a redirect response
    is followed only if [CheckRedirect] accepts the upcoming request
    against the requests made so far, this one included.  The result
    carries the requests made. *)
Fixpoint client_do (fuel : nat) (proxy : string) (timeout : Z)
    (reqs : list HTTPRequest) (req : HTTPRequest) (w : World)
    : option ((HTTPResponse + error) * list HTTPRequest * World) :=
  match fuel with
  | O => None
  | S fuel' =>
      let reqs := reqs ++ [req] in
      match roundTrip proxy timeout req w with
      | (TransportError err, w') =>
          Some (inr (url_Error (urlErrorOp reqs) (requestURL req) err), reqs, w')
      | (Final resp, w') => Some (inl resp, reqs, w')
      | (Redirect next, w') =>
          match CheckRedirect next reqs with
          | Some err =>
              Some (inr (url_Error (urlErrorOp reqs) (requestURL next) err), reqs, w')
          | None => client_do fuel' proxy timeout reqs next w'
          end
      end
  end.

(** [client.Do(httpReq)]: eleven turns always suffice for this
    [CheckRedirect]. *)
Definition client_Do (proxy : string) (timeout : Z) (req : HTTPRequest) (w : World)
    : option ((HTTPResponse + error) * list HTTPRequest * World) :=
  client_do 11 proxy timeout [] req w.

Definition contentEncoding (resp : HTTPResponse) : string :=
  match Header resp !! "Content-Encoding" with
  | Some (v :: _) => v
  | _ => ""
  end.

(** [Download]: the response or the error, the requests that went on
    the wire, and the world afterwards.  [None] (no result at all)
    would mean the redirect loop ran out of fuel. *)
Definition Download_trace (d : HTTPDownloader) (req : request.Request) (w : World)
    : option ((response.Response + error) * list HTTPRequest * World) :=
  match buildHTTPRequest d req with
  | inr err => Some (inr (fmt_Errorf "build request failed" err), [], w)
  | inl httpReq =>
      let proxy_or_err :=
        if decide (request.Proxy req ≠ "") then
          match url_Parse (request.Proxy req) with
          | Some err => inr (fmt_Errorf "invalid proxy URL" err)
          | None => inl (request.Proxy req)
          end
        else inl (clientProxy d) in
      match proxy_or_err with
      | inr err => Some (inr err, [], w)
      | inl proxy =>
          let timeout :=
            if decide (0 < request.Timeout req)%Z then request.Timeout req
            else (10 * 1000000000)%Z in
          '(res, made, w') ← client_Do proxy timeout httpReq w;
          match res with
          | inr err => Some (inr (fmt_Errorf "request failed" err), made, w')
          | inl httpResp =>
              let enc := contentEncoding httpResp in
              let gz :=
                if decide (enc = "gzip") then gzip_NewReader httpResp else None in
              match gz with
              | Some err =>
                  Some (inr (fmt_Errorf "gzip decompression failed" err), made, w')
              | None =>
                  match io_ReadAll enc httpResp with
                  | inr err =>
                      Some (inr (fmt_Errorf "read response body failed" err), made, w')
                  | inl body =>
                      Some (inl (response.NewResponse (finalURL httpResp)
                                   (StatusCode httpResp) (Header httpResp) body req),
                            made, w')
                  end
              end
          end
      end
  end.

(** [Download] as the caller sees it.  The last branch is never taken
    ([client_Do] always returns, see [client_Do_returns]). *)
Definition Download (d : HTTPDownloader) (req : request.Request) (w : World)
    : (response.Response + error) * World :=
  match Download_trace d req w with
  | Some (res, _, w') => (res, w')
  | None => (inr (errors_New "redirect loop without end"), w)
  end.

End Net.

(** *** DownloadAsync and DownloadBatch, over any [Download] *)

Section Batch.

Context {World : Type}.
Variable Download : request.Request → World → (response.Response + error) * World.

(** The [AsyncResult] a goroutine builds from [resp, err := d.Download(r)]. *)
Definition mkResult (r : request.Request) (res : response.Response + error)
    : AsyncResult :=
  match res with
  | inl resp => {| Request := r; Response := Some resp; Error := None |}
  | inr err => {| Request := r; Response := None; Error := Some err |}
  end.

(** [DownloadAsync]: one goroutine, a channel of capacity 1; the value
    the single receive yields. *)
Definition DownloadAsync (req : request.Request) (w : World) : AsyncResult * World :=
  let '(res, w') := Download req w in (mkResult req res, w').

(** The state of one [DownloadBatch] call after it has returned:
    [launched] are the goroutines still inside [d.Download(r)],
    [holding] those at [resultChan <- result], [finishing] counts those
    that have sent and have their deferred [wg.Done()] still to run;
    [resultChan] is the buffer of the channel, [wg] the WaitGroup
    counter, [closed] whether the closing goroutine has run
    [close(resultChan)]. *)
Record Batch := {
  capacity : nat;
  launched : list request.Request;
  holding : list AsyncResult;
  finishing : nat;
  resultChan : list AsyncResult;
  wg : nat;
  closed : bool;
  world : World
}.

(** [resultChan := make(chan *AsyncResult, len(reqs))]; one [wg.Add(1)]
    and one goroutine per request; the closing goroutine is started
    after the loop. *)
Definition DownloadBatch (reqs : list request.Request) (w : World) : Batch :=
  {| capacity := length reqs; launched := reqs; holding := []; finishing := 0;
     resultChan := []; wg := length reqs; closed := false; world := w |}.

Inductive BatchAction :=
  | BFetch (k : nat)   (* the k-th launched goroutine returns from d.Download *)
  | BSend (k : nat)    (* the k-th holding goroutine runs resultChan <- result *)
  | BDone              (* a goroutine that has sent runs its deferred wg.Done() *)
  | BClose             (* the closing goroutine: wg.Wait() returns, close(resultChan) *)
  | BRecv.             (* the consumer receives one result *)

(** One step; the second component is what the consumer received.  A
    send on a full buffer and a receive on an empty one wait: the state
    stays as it is. *)
Definition batch_step (a : BatchAction) (b : Batch) : Batch * list AsyncResult :=
  match a with
  | BFetch k =>
      match launched b !! k with
      | None => (b, [])
      | Some r =>
          let '(res, w') := Download r (world b) in
          ({| capacity := capacity b; launched := delete k (launched b);
              holding := holding b ++ [mkResult r res]; finishing := finishing b;
              resultChan := resultChan b; wg := wg b; closed := closed b;
              world := w' |}, [])
      end
  | BSend k =>
      match holding b !! k with
      | None => (b, [])
      | Some result =>
          if decide (length (resultChan b) < capacity b) then
            ({| capacity := capacity b; launched := launched b;
                holding := delete k (holding b); finishing := S (finishing b);
                resultChan := resultChan b ++ [result]; wg := wg b;
                closed := closed b; world := world b |}, [])
          else (b, [])
      end
  | BDone =>
      match finishing b with
      | O => (b, [])
      | S f =>
          ({| capacity := capacity b; launched := launched b;
              holding := holding b; finishing := f;
              resultChan := resultChan b; wg := wg b - 1;
              closed := closed b; world := world b |}, [])
      end
  | BClose =>
      if decide (wg b = 0) then
        ({| capacity := capacity b; launched := launched b;
            holding := holding b; finishing := finishing b;
            resultChan := resultChan b; wg := wg b;
            closed := true; world := world b |}, [])
      else (b, [])
  | BRecv =>
      match resultChan b with
      | [] => (b, [])
      | result :: rest =>
          ({| capacity := capacity b; launched := launched b;
              holding := holding b; finishing := finishing b;
              resultChan := rest; wg := wg b;
              closed := closed b; world := world b |}, [result])
      end
  end.

Fixpoint batch_exec (acts : list BatchAction) (b : Batch) : Batch * list AsyncResult :=
  match acts with
  | [] => (b, [])
  | a :: rest =>
      let '(b1, got1) := batch_step a b in
      let '(b2, got2) := batch_exec rest b1 in
      (b2, got1 ++ got2)
  end.

(** The results a [range] over the channel has ended with: the channel
    is closed and empty. *)
Definition range_ended (b : Batch) : bool :=
  closed b && bool_decide (resultChan b = []).

(** Every goroutine runs to its end, the channel is closed and the
    consumer receives what is buffered. *)
Definition finish (b : Batch) : list BatchAction :=
  replicate (length (launched b)) (BFetch 0) ++
  replicate (length (launched b) + length (holding b)) (BSend 0) ++
  replicate (length (launched b) + length (holding b) + finishing b) BDone ++
  [BClose] ++
  replicate (length (launched b) + length (holding b) + length (resultChan b)) BRecv.

(** What [for asyncResult := range resultChan] yields in all, when the
    goroutines have interleaved as [acts] says and then run to their
    end: the results in the order received, and the world afterwards. *)
Definition DownloadBatch_results (acts : list BatchAction)
    (reqs : list request.Request) (w : World) : list AsyncResult * World :=
  let '(b1, got1) := batch_exec acts (DownloadBatch reqs w) in
  let '(b2, got2) := batch_exec (finish b1) b1 in
  (got1 ++ got2, world b2).

End Batch.

Arguments Batch World : clear implicits.

(** *** DownloadBatchWithContext

    As [DownloadBatch], with a context: a goroutine that finds the
    context done at its start does not fetch and sends an outcome
    that carries [ctx.Err()]; one that has fetched sends its outcome
    or, when the context is done, may leave without sending it.
    [ctx_Err] is what [ctx.Err()] returns once the context is done. *)

Module WithContext.

Section Ctx.

Context {World : Type}.
Variable Download : request.Request → World → (response.Response + error) * World.
Variable ctx_Err : error.

(** [launched] are the goroutines before their first [select],
    [refusing] those at the send of the [ctx.Done()] case, [holding]
    those at the second [select], after [d.Download(r)]; [ctxDone]
    says whether the channel [ctx.Done()] is closed. *)
Record t := {
  capacity : nat;
  launched : list request.Request;
  refusing : list AsyncResult;
  holding : list AsyncResult;
  finishing : nat;
  resultChan : list AsyncResult;
  wg : nat;
  closed : bool;
  ctxDone : bool;
  world : World
}.

(** [resultChan := make(chan *AsyncResult, len(reqs))]; one [wg.Add(1)]
    and one goroutine per request; [done] is the state of the context
    the caller passes. *)
Definition DownloadBatchWithContext (done : bool) (reqs : list request.Request)
    (w : World) : t :=
  {| capacity := length reqs; launched := reqs; refusing := []; holding := [];
     finishing := 0; resultChan := []; wg := length reqs; closed := false;
     ctxDone := done; world := w |}.

Inductive Action :=
  | CCancel            (* the context is cancelled, or its deadline passes *)
  | CStart (k : nat)   (* the k-th launched goroutine runs its first select *)
  | CRefuse (k : nat)  (* the k-th refusing goroutine runs resultChan <- result *)
  | CSend (k : nat)    (* the k-th holding goroutine takes the send case *)
  | CDrop (k : nat)    (* the k-th holding goroutine takes the ctx.Done() case *)
  | CDone              (* a goroutine that has left its select runs wg.Done() *)
  | CClose             (* the closing goroutine: wg.Wait() returns, close(resultChan) *)
  | CRecv.             (* the consumer receives one result *)

(** One step; the second component is what the consumer received.  A
    case of a [select] that is not ready, a send on a full buffer and a
    receive on an empty one leave the state as it is. *)
Definition step (a : Action) (b : t) : t * list AsyncResult :=
  match a with
  | CCancel =>
      ({| capacity := capacity b; launched := launched b; refusing := refusing b;
          holding := holding b; finishing := finishing b;
          resultChan := resultChan b; wg := wg b; closed := closed b;
          ctxDone := true; world := world b |}, [])
  | CStart k =>
      match launched b !! k with
      | None => (b, [])
      | Some r =>
          if ctxDone b then
            ({| capacity := capacity b; launched := delete k (launched b);
                refusing := refusing b
                  ++ [{| Request := r; Response := None; Error := Some ctx_Err |}];
                holding := holding b; finishing := finishing b;
                resultChan := resultChan b; wg := wg b; closed := closed b;
                ctxDone := ctxDone b; world := world b |}, [])
          else
            let '(res, w') := Download r (world b) in
            ({| capacity := capacity b; launched := delete k (launched b);
                refusing := refusing b;
                holding := holding b ++ [mkResult r res]; finishing := finishing b;
                resultChan := resultChan b; wg := wg b; closed := closed b;
                ctxDone := ctxDone b; world := w' |}, [])
      end
  | CRefuse k =>
      match refusing b !! k with
      | None => (b, [])
      | Some result =>
          if decide (length (resultChan b) < capacity b) then
            ({| capacity := capacity b; launched := launched b;
                refusing := delete k (refusing b);
                holding := holding b; finishing := S (finishing b);
                resultChan := resultChan b ++ [result]; wg := wg b;
                closed := closed b; ctxDone := ctxDone b; world := world b |}, [])
          else (b, [])
      end
  | CSend k =>
      match holding b !! k with
      | None => (b, [])
      | Some result =>
          if decide (length (resultChan b) < capacity b) then
            ({| capacity := capacity b; launched := launched b;
                refusing := refusing b;
                holding := delete k (holding b); finishing := S (finishing b);
                resultChan := resultChan b ++ [result]; wg := wg b;
                closed := closed b; ctxDone := ctxDone b; world := world b |}, [])
          else (b, [])
      end
  | CDrop k =>
      match holding b !! k with
      | None => (b, [])
      | Some result =>
          if ctxDone b then
            ({| capacity := capacity b; launched := launched b;
                refusing := refusing b;
                holding := delete k (holding b); finishing := S (finishing b);
                resultChan := resultChan b; wg := wg b;
                closed := closed b; ctxDone := ctxDone b; world := world b |}, [])
          else (b, [])
      end
  | CDone =>
      match finishing b with
      | O => (b, [])
      | S f =>
          ({| capacity := capacity b; launched := launched b;
              refusing := refusing b; holding := holding b; finishing := f;
              resultChan := resultChan b; wg := wg b - 1;
              closed := closed b; ctxDone := ctxDone b; world := world b |}, [])
      end
  | CClose =>
      if decide (wg b = 0) then
        ({| capacity := capacity b; launched := launched b;
            refusing := refusing b; holding := holding b;
            finishing := finishing b; resultChan := resultChan b; wg := wg b;
            closed := true; ctxDone := ctxDone b; world := world b |}, [])
      else (b, [])
  | CRecv =>
      match resultChan b with
      | [] => (b, [])
      | result :: rest =>
          ({| capacity := capacity b; launched := launched b;
              refusing := refusing b; holding := holding b;
              finishing := finishing b; resultChan := rest; wg := wg b;
              closed := closed b; ctxDone := ctxDone b; world := world b |},
           [result])
      end
  end.

Fixpoint exec (acts : list Action) (b : t) : t * list AsyncResult :=
  match acts with
  | [] => (b, [])
  | a :: rest =>
      let '(b1, got1) := step a b in
      let '(b2, got2) := exec rest b1 in
      (b2, got1 ++ got2)
  end.

End Ctx.

Arguments t World : clear implicits.

End WithContext.

End downloader.

(** ** package pipeline

    An item is a [map[string]interface{}]; as in the engine its values
    are kept by their printed form, which is what [fmt.Sprintf("%v",
    value)] gives.  [None] for an item is Go's nil. *)

Module pipeline.

Abbreviation Item := (gmap string string).

Module ConsolePipeline.

Definition ProcessItem (item : Item) : option Item := Some item.

Definition Open : option error := None.

Definition Close : option error := None.

End ConsolePipeline.

Module FilterPipeline.

(** [filterFunc] may be nil. *)
Record t := {
  filterFunc : option (Item → bool)
}.

Definition NewFilterPipeline (filterFunc : option (Item → bool)) : t :=
  {| filterFunc := filterFunc |}.

(** [if p.filterFunc != nil && !p.filterFunc(item) { return nil };
    return item] *)
Definition ProcessItem (p : t) (item : Item) : option Item :=
  match filterFunc p with
  | Some f => if negb (f item) then None else Some item
  | None => Some item
  end.

Definition Open (p : t) : option error := None.

Definition Close (p : t) : option error := None.

End FilterPipeline.

Module TransformPipeline.

Record t := {
  transformFunc : option (Item → option Item)
}.

Definition NewTransformPipeline (transformFunc : option (Item → option Item)) : t :=
  {| transformFunc := transformFunc |}.

Definition ProcessItem (p : t) (item : Item) : option Item :=
  match transformFunc p with
  | Some f => f item
  | None => Some item
  end.

Definition Open (p : t) : option error := None.

Definition Close (p : t) : option error := None.

End TransformPipeline.

(** *** CSVPipeline

    [writer] is nil until [Open] has succeeded.  [written] are the
    records handed to [csv.Writer.Write] since the file was created,
    oldest first: what the file holds, row by row. *)

Module CSVPipeline.

Record t := {
  filename : string;
  writer : bool;
  headers : list string;
  headerSet : bool;
  written : list (list string)
}.

Definition NewCSVPipeline (filename : string) (headers : list string) : t :=
  {| filename := filename; writer := false; headers := headers;
     headerSet := false; written := [] |}.

(** [p.writer.Write(record)] *)
Definition Write (record : list string) (p : t) : t :=
  {| filename := filename p; writer := writer p; headers := headers p;
     headerSet := headerSet p; written := written p ++ [record] |}.

(** [record := make([]string, len(p.headers)); for i, header := range
    p.headers { if value, exists := item[header]; exists { record[i] =
    fmt.Sprintf("%v", value) } }] *)
Definition record_of (headers : list string) (item : Item) : list string :=
  (λ header, default "" (item !! header)) <$> headers.

Definition ProcessItem (p : t) (item : Item) : t * option Item :=
  if negb (writer p) then (p, Some item)
  else
    let p :=
      if negb (headerSet p) && bool_decide (0 < length (headers p)) then
        {| filename := filename p; writer := writer p; headers := headers p;
           headerSet := true; written := written p ++ [headers p] |}
      else p in
    (Write (record_of (headers p) item) p, Some item).

(** [Open]: [mkdir] and [create] are what [os.MkdirAll] and
    [os.Create] answer; [os.Create] truncates the file. *)
Definition Open (mkdir create : option error) (p : t) : t * option error :=
  match mkdir with
  | Some err => (p, Some (fmt_Errorf "create directory failed" err))
  | None =>
      match create with
      | Some err => (p, Some (fmt_Errorf "create file failed" err))
      | None =>
          ({| filename := filename p; writer := true; headers := headers p;
              headerSet := headerSet p; written := [] |}, None)
      end
  end.

(** [Close]: [close] is what [p.file.Close()] answers; the file is
    there exactly when the writer is. *)
Definition Close (close : option error) (p : t) : t * option error :=
  if writer p then (p, close) else (p, None).

End CSVPipeline.

End pipeline.

(** ** package settings

    A value of type [interface{}] is kept with its dynamic type.
    [Custom] is a map that may be nil ([None]): reading a nil map finds
    nothing, writing to it is a run-time panic. *)

Module settings.

Record FeedExportSettings := {
  Format : string;
  URI : string;
  Fields : list string;
  Encoding : string;
  Headers : gmap string string
}.

Inductive Value :=
  | VString (s : string)
  | VInt (n : Z)
  | VDuration (d : Z)
  | VBool (b : bool)
  | VIntSlice (l : list Z)
  | VMapInt (m : gmap string Z)
  | VMapString (m : gmap string string)
  | VFeeds (m : gmap string FeedExportSettings)
  | VOther (typ repr : string).

Record Settings := {
  BotName : string;
  UserAgent : string;
  RobotstxtObey : bool;
  ConcurrentRequests : Z;
  ConcurrentRequestsPerDomain : Z;
  DownloadDelay : Z;
  RandomizeDownloadDelay : bool;
  DownloadTimeout : Z;
  RetryEnabled : bool;
  RetryTimes : Z;
  RetryHTTPCodes : list Z;
  DownloaderMiddlewares : gmap string Z;
  SpiderMiddlewares : gmap string Z;
  ItemPipelines : gmap string Z;
  FeedsExport : gmap string FeedExportSettings;
  LogLevel : string;
  LogFile : string;
  LogStdout : bool;
  CacheEnabled : bool;
  CacheExpire : Z;
  CacheDir : string;
  Custom : option (gmap string Value)
}.

Definition Millisecond : Z := 1000000.

Definition Second : Z := 1000000000.

(** Go's [*] on [int]. *)
Definition mul64 (a b : Z) : Z := wrap64 (a * b).

Definition json_feed (name : string) : gmap string FeedExportSettings :=
  {[ name := {| Format := "json"; URI := name; Fields := [];
                Encoding := "utf-8"; Headers := ∅ |} ]}.

(** [DefaultSettings]; [numCPU] is what [runtime.NumCPU()] answers. *)
Definition DefaultSettings (numCPU : Z) : Settings :=
  let concurrency := mul64 numCPU 4 in
  let concurrency := if decide (48 < concurrency)%Z then 48%Z else concurrency in
  let concurrency := if decide (concurrency < 4)%Z then 4%Z else concurrency in
  {| BotName := "go-scrapy";
     UserAgent := "go-scrapy/1.0 (+https://github.com/go-scrapy/go-scrapy)";
     RobotstxtObey := false;
     ConcurrentRequests := concurrency;
     ConcurrentRequestsPerDomain := 8;
     DownloadDelay := 100 * Millisecond;
     RandomizeDownloadDelay := true;
     DownloadTimeout := 30 * Second;
     RetryEnabled := true;
     RetryTimes := 3;
     RetryHTTPCodes := [500; 502; 503; 504; 408; 429]%Z;
     DownloaderMiddlewares :=
       {[ "UserAgentMiddleware" := 400%Z; "DelayMiddleware" := 500%Z ]};
     SpiderMiddlewares := ∅;
     ItemPipelines := {[ "ConsolePipeline" := 100%Z; "JSONPipeline" := 200%Z ]};
     FeedsExport := json_feed "items.json";
     LogLevel := "INFO";
     LogFile := "";
     LogStdout := true;
     CacheEnabled := false;
     CacheExpire := 3600;
     CacheDir := ".scrapy/cache";
     Custom := Some ∅ |}.

(** [s.Custom[key] = value] *)
Definition set_Custom (key : string) (value : Value) (s : Settings) : option Settings :=
  c ← Custom s;
  Some {| BotName := BotName s; UserAgent := UserAgent s;
          RobotstxtObey := RobotstxtObey s;
          ConcurrentRequests := ConcurrentRequests s;
          ConcurrentRequestsPerDomain := ConcurrentRequestsPerDomain s;
          DownloadDelay := DownloadDelay s;
          RandomizeDownloadDelay := RandomizeDownloadDelay s;
          DownloadTimeout := DownloadTimeout s;
          RetryEnabled := RetryEnabled s; RetryTimes := RetryTimes s;
          RetryHTTPCodes := RetryHTTPCodes s;
          DownloaderMiddlewares := DownloaderMiddlewares s;
          SpiderMiddlewares := SpiderMiddlewares s;
          ItemPipelines := ItemPipelines s; FeedsExport := FeedsExport s;
          LogLevel := LogLevel s; LogFile := LogFile s; LogStdout := LogStdout s;
          CacheEnabled := CacheEnabled s; CacheExpire := CacheExpire s;
          CacheDir := CacheDir s;
          Custom := Some (<[key := value]> c) |}.

(** The assignments to single fields that the settings functions make. *)
Definition set_BotName (v : string) (s : Settings) : Settings :=
  {| BotName := v; UserAgent := UserAgent s;
     RobotstxtObey := RobotstxtObey s;
     ConcurrentRequests := ConcurrentRequests s;
     ConcurrentRequestsPerDomain := ConcurrentRequestsPerDomain s;
     DownloadDelay := DownloadDelay s;
     RandomizeDownloadDelay := RandomizeDownloadDelay s;
     DownloadTimeout := DownloadTimeout s;
     RetryEnabled := RetryEnabled s; RetryTimes := RetryTimes s;
     RetryHTTPCodes := RetryHTTPCodes s;
     DownloaderMiddlewares := DownloaderMiddlewares s;
     SpiderMiddlewares := SpiderMiddlewares s;
     ItemPipelines := ItemPipelines s; FeedsExport := FeedsExport s;
     LogLevel := LogLevel s; LogFile := LogFile s; LogStdout := LogStdout s;
     CacheEnabled := CacheEnabled s; CacheExpire := CacheExpire s;
     CacheDir := CacheDir s; Custom := Custom s |}.

Definition set_UserAgent (v : string) (s : Settings) : Settings :=
  {| BotName := BotName s; UserAgent := v;
     RobotstxtObey := RobotstxtObey s;
     ConcurrentRequests := ConcurrentRequests s;
     ConcurrentRequestsPerDomain := ConcurrentRequestsPerDomain s;
     DownloadDelay := DownloadDelay s;
     RandomizeDownloadDelay := RandomizeDownloadDelay s;
     DownloadTimeout := DownloadTimeout s;
     RetryEnabled := RetryEnabled s; RetryTimes := RetryTimes s;
     RetryHTTPCodes := RetryHTTPCodes s;
     DownloaderMiddlewares := DownloaderMiddlewares s;
     SpiderMiddlewares := SpiderMiddlewares s;
     ItemPipelines := ItemPipelines s; FeedsExport := FeedsExport s;
     LogLevel := LogLevel s; LogFile := LogFile s; LogStdout := LogStdout s;
     CacheEnabled := CacheEnabled s; CacheExpire := CacheExpire s;
     CacheDir := CacheDir s; Custom := Custom s |}.

Definition set_ConcurrentRequests (v : Z) (s : Settings) : Settings :=
  {| BotName := BotName s; UserAgent := UserAgent s;
     RobotstxtObey := RobotstxtObey s;
     ConcurrentRequests := v;
     ConcurrentRequestsPerDomain := ConcurrentRequestsPerDomain s;
     DownloadDelay := DownloadDelay s;
     RandomizeDownloadDelay := RandomizeDownloadDelay s;
     DownloadTimeout := DownloadTimeout s;
     RetryEnabled := RetryEnabled s; RetryTimes := RetryTimes s;
     RetryHTTPCodes := RetryHTTPCodes s;
     DownloaderMiddlewares := DownloaderMiddlewares s;
     SpiderMiddlewares := SpiderMiddlewares s;
     ItemPipelines := ItemPipelines s; FeedsExport := FeedsExport s;
     LogLevel := LogLevel s; LogFile := LogFile s; LogStdout := LogStdout s;
     CacheEnabled := CacheEnabled s; CacheExpire := CacheExpire s;
     CacheDir := CacheDir s; Custom := Custom s |}.

Definition set_DownloadDelay (v : Z) (s : Settings) : Settings :=
  {| BotName := BotName s; UserAgent := UserAgent s;
     RobotstxtObey := RobotstxtObey s;
     ConcurrentRequests := ConcurrentRequests s;
     ConcurrentRequestsPerDomain := ConcurrentRequestsPerDomain s;
     DownloadDelay := v;
     RandomizeDownloadDelay := RandomizeDownloadDelay s;
     DownloadTimeout := DownloadTimeout s;
     RetryEnabled := RetryEnabled s; RetryTimes := RetryTimes s;
     RetryHTTPCodes := RetryHTTPCodes s;
     DownloaderMiddlewares := DownloaderMiddlewares s;
     SpiderMiddlewares := SpiderMiddlewares s;
     ItemPipelines := ItemPipelines s; FeedsExport := FeedsExport s;
     LogLevel := LogLevel s; LogFile := LogFile s; LogStdout := LogStdout s;
     CacheEnabled := CacheEnabled s; CacheExpire := CacheExpire s;
     CacheDir := CacheDir s; Custom := Custom s |}.

(** The other fields that [DoubanSettings] and [FastSettings] assign. *)
Definition set_tuning (randomize : bool) (timeout retryTimes : Z)
    (feeds : gmap string FeedExportSettings) (s : Settings) : Settings :=
  {| BotName := BotName s; UserAgent := UserAgent s;
     RobotstxtObey := RobotstxtObey s;
     ConcurrentRequests := ConcurrentRequests s;
     ConcurrentRequestsPerDomain := ConcurrentRequestsPerDomain s;
     DownloadDelay := DownloadDelay s;
     RandomizeDownloadDelay := randomize;
     DownloadTimeout := timeout;
     RetryEnabled := RetryEnabled s; RetryTimes := retryTimes;
     RetryHTTPCodes := RetryHTTPCodes s;
     DownloaderMiddlewares := DownloaderMiddlewares s;
     SpiderMiddlewares := SpiderMiddlewares s;
     ItemPipelines := ItemPipelines s; FeedsExport := feeds;
     LogLevel := LogLevel s; LogFile := LogFile s; LogStdout := LogStdout s;
     CacheEnabled := CacheEnabled s; CacheExpire := CacheExpire s;
     CacheDir := CacheDir s; Custom := Custom s |}.

(** [DoubanSettings]; [None] would be the panic of a write to a nil
    [Custom] map. *)
Definition DoubanSettings (numCPU : Z) : option Settings :=
  let s := DefaultSettings numCPU in
  let s := set_BotName "douban-spider" s in
  let s := set_ConcurrentRequests (mul64 numCPU 3) s in
  let s := if decide (36 < ConcurrentRequests s)%Z
           then set_ConcurrentRequests 36 s else s in
  let s := set_DownloadDelay (50 * Millisecond) s in
  let s := set_tuning (RandomizeDownloadDelay s) (20 * Second) 2 (FeedsExport s) s in
  let s := set_UserAgent
             "Mozilla/5.0 (Windows NT 10.0; Win64; x64) AppleWebKit/537.36 (KHTML, like Gecko) Chrome/120.0.0.0 Safari/537.36"
             s in
  let s := set_tuning (RandomizeDownloadDelay s) (DownloadTimeout s) (RetryTimes s)
             (json_feed "douban_movies.json") s in
  s ← set_Custom "douban_api_base"
        (VString "https://movie.douban.com/j/search_subjects") s;
  set_Custom "douban_headers"
    (VMapString
       {[ "accept" := "application/json, text/plain, */*";
          "accept-language" := "zh-CN,zh;q=0.9,en;q=0.8";
          "cache-control" := "no-cache";
          "origin" := "https://movie.douban.com";
          "referer" := "https://movie.douban.com/explore" ]}) s.

(** [FastSettings] *)
Definition FastSettings (numCPU : Z) : option Settings :=
  s ← DoubanSettings numCPU;
  let s := set_BotName "fast-douban-spider" s in
  let s := set_ConcurrentRequests (mul64 numCPU 4) s in
  let s := if decide (48 < ConcurrentRequests s)%Z
           then set_ConcurrentRequests 48 s else s in
  let s := set_DownloadDelay (30 * Millisecond) s in
  let s := set_tuning false (DownloadTimeout s) 1 (FeedsExport s) s in
  Some (set_tuning (RandomizeDownloadDelay s) (DownloadTimeout s) (RetryTimes s)
          (json_feed "fast_douban_movies.json") s).

(** The keys that [Get] answers from a field of their own. *)
Definition field_keys : list string :=
  ["BOT_NAME"; "USER_AGENT"; "ROBOTSTXT_OBEY"; "CONCURRENT_REQUESTS";
   "CONCURRENT_REQUESTS_PER_DOMAIN"; "DOWNLOAD_DELAY";
   "RANDOMIZE_DOWNLOAD_DELAY"; "DOWNLOAD_TIMEOUT"; "RETRY_ENABLED";
   "RETRY_TIMES"; "RETRY_HTTP_CODES"; "DOWNLOADER_MIDDLEWARES";
   "SPIDER_MIDDLEWARES"; "ITEM_PIPELINES"; "FEEDS_EXPORT"; "LOG_LEVEL";
   "LOG_FILE"; "LOG_STDOUT"; "CACHE_ENABLED"; "CACHE_EXPIRE"; "CACHE_DIR"].

(** [Get] *)
Definition Get (s : Settings) (key : string) (defaultValue : Value) : Value :=
  if decide (key = "BOT_NAME") then VString (BotName s)
  else if decide (key = "USER_AGENT") then VString (UserAgent s)
  else if decide (key = "ROBOTSTXT_OBEY") then VBool (RobotstxtObey s)
  else if decide (key = "CONCURRENT_REQUESTS") then VInt (ConcurrentRequests s)
  else if decide (key = "CONCURRENT_REQUESTS_PER_DOMAIN")
       then VInt (ConcurrentRequestsPerDomain s)
  else if decide (key = "DOWNLOAD_DELAY") then VDuration (DownloadDelay s)
  else if decide (key = "RANDOMIZE_DOWNLOAD_DELAY")
       then VBool (RandomizeDownloadDelay s)
  else if decide (key = "DOWNLOAD_TIMEOUT") then VDuration (DownloadTimeout s)
  else if decide (key = "RETRY_ENABLED") then VBool (RetryEnabled s)
  else if decide (key = "RETRY_TIMES") then VInt (RetryTimes s)
  else if decide (key = "RETRY_HTTP_CODES") then VIntSlice (RetryHTTPCodes s)
  else if decide (key = "DOWNLOADER_MIDDLEWARES")
       then VMapInt (DownloaderMiddlewares s)
  else if decide (key = "SPIDER_MIDDLEWARES") then VMapInt (SpiderMiddlewares s)
  else if decide (key = "ITEM_PIPELINES") then VMapInt (ItemPipelines s)
  else if decide (key = "FEEDS_EXPORT") then VFeeds (FeedsExport s)
  else if decide (key = "LOG_LEVEL") then VString (LogLevel s)
  else if decide (key = "LOG_FILE") then VString (LogFile s)
  else if decide (key = "LOG_STDOUT") then VBool (LogStdout s)
  else if decide (key = "CACHE_ENABLED") then VBool (CacheEnabled s)
  else if decide (key = "CACHE_EXPIRE") then VInt (CacheExpire s)
  else if decide (key = "CACHE_DIR") then VString (CacheDir s)
  else
    match Custom s ≫= (λ c, c !! key) with
    | Some val => val
    | None => defaultValue
    end.

(** [Set]: a value of another dynamic type than the field's is ignored;
    [None] is the panic of a write to a nil [Custom] map. *)
Definition Set_ (s : Settings) (key : string) (value : Value) : option Settings :=
  if decide (key = "BOT_NAME") then
    Some (match value with VString v => set_BotName v s | _ => s end)
  else if decide (key = "USER_AGENT") then
    Some (match value with VString v => set_UserAgent v s | _ => s end)
  else if decide (key = "CONCURRENT_REQUESTS") then
    Some (match value with VInt v => set_ConcurrentRequests v s | _ => s end)
  else if decide (key = "DOWNLOAD_DELAY") then
    Some (match value with VDuration v => set_DownloadDelay v s | _ => s end)
  else set_Custom key value s.

End settings.

(** ** package spider *)

Module spider.

Record BaseSpider := {
  name : string;
  startUrls : list string;
  allowedDomains : list string
}.

Definition NewBaseSpider (name : string) (startUrls : list string) : BaseSpider :=
  {| name := name; startUrls := startUrls; allowedDomains := [] |}.

Definition Name (s : BaseSpider) : string := name s.

(** [for _, url := range s.startUrls { requests = append(requests,
    request.NewRequest("GET", url)) }] *)
Fixpoint StartRequests_loop (requests : list request.Request) (urls : list string)
    : list request.Request :=
  match urls with
  | [] => requests
  | url :: rest => StartRequests_loop (requests ++ [request.NewRequest "GET" url]) rest
  end.

Definition StartRequests (s : BaseSpider) : list request.Request :=
  StartRequests_loop [] (startUrls s).

End spider.

(** ** package engine *)

Module engine.

Record Stats := {
  RequestsTotal : Z;
  RequestsSuccess : Z;
  RequestsFailed : Z;
  ItemsScraped : Z
}.

(** An element of a parse result ([]interface{}) by its dynamic type:
    a [*request.Request], a [map[string]interface{}], or a value of any
    other type (kept by the printed form of its type and of itself). *)
Inductive Any :=
  | AnyRequest (r : request.Request)
  | AnyMap (item : gmap string string)
  | AnyOther (typ data : string).

(** *** The worker's polling loop *)

(** A worker goroutine is inside its [for] loop with its [emptyCount],
    or has returned. *)
Inductive WorkerState :=
  | Looping (emptyCount : Z)
  | Returned.

(** What one turn of the loop observes: [ctx.Done()] is ready, or
    [Dequeue] gave a request, or it gave nil and [Empty()] said true,
    or it gave nil and [Empty()] said false. *)
Inductive Poll :=
  | PollCtxDone
  | PollRequest (req : request.Request)
  | PollNilEmpty
  | PollNilNonEmpty.

Definition maxEmptyCount : Z := 100.

(** One turn of the loop: the state afterwards and the request to
    process, if any. *)
Definition worker_turn (emptyCount : Z) (p : Poll)
    : WorkerState * option request.Request :=
  match p with
  | PollCtxDone => (Returned, None)
  | PollRequest req => (Looping 0, Some req)
  | PollNilEmpty =>
      let emptyCount := add64 emptyCount 1 in
      if decide (maxEmptyCount ≤ emptyCount)%Z then (Returned, None)
      else (Looping emptyCount, None)
  | PollNilNonEmpty => (Looping 0, None)
  end.

(** The loop over a sequence of observations, from a given state: the
    state afterwards and the requests handed to [processRequest]. *)
Fixpoint worker_loop (st : WorkerState) (polls : list Poll)
    : WorkerState * list request.Request :=
  match st, polls with
  | Returned, _ => (Returned, [])
  | Looping _, [] => (st, [])
  | Looping emptyCount, p :: rest =>
      let '(st1, req) := worker_turn emptyCount p in
      let '(st2, reqs) := worker_loop st1 rest in
      (st2, from_option (λ r, [r]) [] req ++ reqs)
  end.

(** [worker] starts with [emptyCount := 0]. *)
Definition worker (polls : list Poll) : WorkerState * list request.Request :=
  worker_loop (Looping 0) polls.

Section Engine.

(** The outside world (network, the spider's and the middlewares' own
    state, the pipelines' outputs), and the downloader. *)
Context {World : Type}.
Variable Download : request.Request → World → (response.Response + error) * World.

(** [middleware.Middleware]: [None] is a nil result.  [ProcessResponse]
    may write through [req]; the request as it leaves it is part of the
    result. *)
Record Middleware := {
  ProcessRequest : request.Request → World → option request.Request * World;
  ProcessResponse : request.Request → response.Response → World →
                    request.Request * option response.Response * World
}.

(** A [*middleware.RetryMiddleware] as a [middleware.Middleware]. *)
Definition RetryMiddleware (m : middleware.RetryMiddleware) : Middleware :=
  {| ProcessRequest req w := (Some (middleware.ProcessRequest m req), w);
     ProcessResponse req resp w :=
       let '(req', resp') := middleware.ProcessResponse m req resp in
       (req', Some resp', w) |}.

(** [pipeline.Pipeline] *)
Record Pipeline := {
  Open : World → option error * World;
  Close : World → option error * World;
  ProcessItem : gmap string string → World → option (gmap string string) * World
}.

(** [spider.Spider] *)
Record Spider := {
  Name : string;
  StartRequests : World → list request.Request * World;
  Parse : response.Response → World → list Any * World
}.

(** [Engine]: the goroutines it has started are part of the state.
    [workers] are the goroutines of [e.wg]; [resultPool] is the buffer
    of the channel and [resultSenders] the detached
    [go func(r) { e.resultPool <- r }] still to deliver; [batches] are
    the detached [processBatchRequestsDirectly] calls counted by
    [e.batchWg] that have not run yet. *)
Record Engine := {
  scheduler : scheduler.ChannelScheduler.t;
  pipelines : list Pipeline;
  middlewares : list Middleware;
  concurrency : nat;
  workers : list WorkerState;
  resultPool : list Any;
  resultPoolCap : nat;
  resultSenders : list Any;
  resultWorkers : nat;
  currentSpider : option Spider;
  batches : list (list request.Request);
  ctxDone : bool;
  stats : Stats;
  world : World
}.

Definition set_scheduler (x : scheduler.ChannelScheduler.t) (e : Engine) : Engine :=
  {| scheduler := x; pipelines := pipelines e; middlewares := middlewares e;
     concurrency := concurrency e; workers := workers e;
     resultPool := resultPool e; resultPoolCap := resultPoolCap e;
     resultSenders := resultSenders e; resultWorkers := resultWorkers e;
     currentSpider := currentSpider e; batches := batches e;
     ctxDone := ctxDone e; stats := stats e; world := world e |}.

Definition set_pipelines (x : list Pipeline) (e : Engine) : Engine :=
  {| scheduler := scheduler e; pipelines := x; middlewares := middlewares e;
     concurrency := concurrency e; workers := workers e;
     resultPool := resultPool e; resultPoolCap := resultPoolCap e;
     resultSenders := resultSenders e; resultWorkers := resultWorkers e;
     currentSpider := currentSpider e; batches := batches e;
     ctxDone := ctxDone e; stats := stats e; world := world e |}.

Definition set_middlewares (x : list Middleware) (e : Engine) : Engine :=
  {| scheduler := scheduler e; pipelines := pipelines e; middlewares := x;
     concurrency := concurrency e; workers := workers e;
     resultPool := resultPool e; resultPoolCap := resultPoolCap e;
     resultSenders := resultSenders e; resultWorkers := resultWorkers e;
     currentSpider := currentSpider e; batches := batches e;
     ctxDone := ctxDone e; stats := stats e; world := world e |}.

Definition set_concurrency (x : nat) (e : Engine) : Engine :=
  {| scheduler := scheduler e; pipelines := pipelines e; middlewares := middlewares e;
     concurrency := x; workers := workers e;
     resultPool := resultPool e; resultPoolCap := resultPoolCap e;
     resultSenders := resultSenders e; resultWorkers := resultWorkers e;
     currentSpider := currentSpider e; batches := batches e;
     ctxDone := ctxDone e; stats := stats e; world := world e |}.

Definition set_workers (x : list WorkerState) (e : Engine) : Engine :=
  {| scheduler := scheduler e; pipelines := pipelines e; middlewares := middlewares e;
     concurrency := concurrency e; workers := x;
     resultPool := resultPool e; resultPoolCap := resultPoolCap e;
     resultSenders := resultSenders e; resultWorkers := resultWorkers e;
     currentSpider := currentSpider e; batches := batches e;
     ctxDone := ctxDone e; stats := stats e; world := world e |}.

Definition set_resultPool (x : list Any) (e : Engine) : Engine :=
  {| scheduler := scheduler e; pipelines := pipelines e; middlewares := middlewares e;
     concurrency := concurrency e; workers := workers e;
     resultPool := x; resultPoolCap := resultPoolCap e;
     resultSenders := resultSenders e; resultWorkers := resultWorkers e;
     currentSpider := currentSpider e; batches := batches e;
     ctxDone := ctxDone e; stats := stats e; world := world e |}.

Definition set_resultSenders (x : list Any) (e : Engine) : Engine :=
  {| scheduler := scheduler e; pipelines := pipelines e; middlewares := middlewares e;
     concurrency := concurrency e; workers := workers e;
     resultPool := resultPool e; resultPoolCap := resultPoolCap e;
     resultSenders := x; resultWorkers := resultWorkers e;
     currentSpider := currentSpider e; batches := batches e;
     ctxDone := ctxDone e; stats := stats e; world := world e |}.

Definition set_currentSpider (x : option Spider) (e : Engine) : Engine :=
  {| scheduler := scheduler e; pipelines := pipelines e; middlewares := middlewares e;
     concurrency := concurrency e; workers := workers e;
     resultPool := resultPool e; resultPoolCap := resultPoolCap e;
     resultSenders := resultSenders e; resultWorkers := resultWorkers e;
     currentSpider := x; batches := batches e;
     ctxDone := ctxDone e; stats := stats e; world := world e |}.

Definition set_batches (x : list (list request.Request)) (e : Engine) : Engine :=
  {| scheduler := scheduler e; pipelines := pipelines e; middlewares := middlewares e;
     concurrency := concurrency e; workers := workers e;
     resultPool := resultPool e; resultPoolCap := resultPoolCap e;
     resultSenders := resultSenders e; resultWorkers := resultWorkers e;
     currentSpider := currentSpider e; batches := x;
     ctxDone := ctxDone e; stats := stats e; world := world e |}.

Definition set_ctxDone (x : bool) (e : Engine) : Engine :=
  {| scheduler := scheduler e; pipelines := pipelines e; middlewares := middlewares e;
     concurrency := concurrency e; workers := workers e;
     resultPool := resultPool e; resultPoolCap := resultPoolCap e;
     resultSenders := resultSenders e; resultWorkers := resultWorkers e;
     currentSpider := currentSpider e; batches := batches e;
     ctxDone := x; stats := stats e; world := world e |}.

Definition set_stats (x : Stats) (e : Engine) : Engine :=
  {| scheduler := scheduler e; pipelines := pipelines e; middlewares := middlewares e;
     concurrency := concurrency e; workers := workers e;
     resultPool := resultPool e; resultPoolCap := resultPoolCap e;
     resultSenders := resultSenders e; resultWorkers := resultWorkers e;
     currentSpider := currentSpider e; batches := batches e;
     ctxDone := ctxDone e; stats := x; world := world e |}.

Definition set_world (x : World) (e : Engine) : Engine :=
  {| scheduler := scheduler e; pipelines := pipelines e; middlewares := middlewares e;
     concurrency := concurrency e; workers := workers e;
     resultPool := resultPool e; resultPoolCap := resultPoolCap e;
     resultSenders := resultSenders e; resultWorkers := resultWorkers e;
     currentSpider := currentSpider e; batches := batches e;
     ctxDone := ctxDone e; stats := stats e; world := x |}.

(** [NewEngine]: concurrency 16, a channel scheduler of capacity 64, a
    result pool of capacity 128 and 8 result workers. *)
Definition NewEngine (w : World) : Engine :=
  {| scheduler := scheduler.ChannelScheduler.NewChannelScheduler (16 * 4);
     pipelines := []; middlewares := [];
     concurrency := 16; workers := [];
     resultPool := []; resultPoolCap := 16 * 8;
     resultSenders := [];
     resultWorkers := (if decide (16 / 2 < 2) then 2 else 16 / 2);
     currentSpider := None; batches := [];
     ctxDone := false;
     stats := {| RequestsTotal := 0; RequestsSuccess := 0;
                 RequestsFailed := 0; ItemsScraped := 0 |};
     world := w |}.

Definition AddPipeline (p : Pipeline) (e : Engine) : Engine :=
  set_pipelines (pipelines e ++ [p]) e.

Definition AddMiddleware (m : Middleware) (e : Engine) : Engine :=
  set_middlewares (middlewares e ++ [m]) e.

Definition SetConcurrency (n : nat) (e : Engine) : Engine :=
  set_concurrency n e.

(** [updateStats] *)
Definition updateStats (key : string) (value : Z) (e : Engine) : Engine :=
  let st := stats e in
  if decide (key = "request_total") then
    set_stats {| RequestsTotal := add64 (RequestsTotal st) value;
                 RequestsSuccess := RequestsSuccess st;
                 RequestsFailed := RequestsFailed st;
                 ItemsScraped := ItemsScraped st |} e
  else if decide (key = "request_success") then
    set_stats {| RequestsTotal := RequestsTotal st;
                 RequestsSuccess := add64 (RequestsSuccess st) value;
                 RequestsFailed := RequestsFailed st;
                 ItemsScraped := ItemsScraped st |} e
  else if decide (key = "request_failed") then
    set_stats {| RequestsTotal := RequestsTotal st;
                 RequestsSuccess := RequestsSuccess st;
                 RequestsFailed := add64 (RequestsFailed st) value;
                 ItemsScraped := ItemsScraped st |} e
  else if decide (key = "items_scraped") then
    set_stats {| RequestsTotal := RequestsTotal st;
                 RequestsSuccess := RequestsSuccess st;
                 RequestsFailed := RequestsFailed st;
                 ItemsScraped := add64 (ItemsScraped st) value |} e
  else e.

(** [for _, mw := range e.middlewares { req = mw.ProcessRequest(req);
    if req == nil { ... } }]: the request that is left, or nil. *)
Fixpoint applyRequestMiddlewares (mws : list Middleware) (req : request.Request)
    (w : World) : option request.Request * World :=
  match mws with
  | [] => (Some req, w)
  | mw :: rest =>
      match ProcessRequest mw req w with
      | (None, w') => (None, w')
      | (Some req', w') => applyRequestMiddlewares rest req' w'
      end
  end.

(** [for _, mw := range e.middlewares { resp = mw.ProcessResponse(req,
    resp); if resp == nil { ... } }] *)
Fixpoint applyResponseMiddlewares (mws : list Middleware) (req : request.Request)
    (resp : response.Response) (w : World) : option response.Response * World :=
  match mws with
  | [] => (Some resp, w)
  | mw :: rest =>
      match ProcessResponse mw req resp w with
      | (_, None, w') => (None, w')
      | (req', Some resp', w') => applyResponseMiddlewares rest req' resp' w'
      end
  end.

(** [select { case e.resultPool <- r: default: go func(r interface{})
    { e.resultPool <- r }(r) }] *)
Definition deliver (r : Any) (e : Engine) : Engine :=
  if decide (length (resultPool e) < resultPoolCap e)
  then set_resultPool (resultPool e ++ [r]) e
  else set_resultSenders (resultSenders e ++ [r]) e.

(** The type switch that separates requests from items. *)
Definition requests_of (results : list Any) : list request.Request :=
  omap (λ r, match r with AnyRequest req => Some req | _ => None end) results.

Definition items_of (results : list Any) : list Any :=
  omap (λ r, match r with AnyRequest _ => None | _ => Some r end) results.

(** [processResultsConcurrently].  With more than one request:
    [e.batchWg.Add(1); go func() { defer e.batchWg.Done();
    e.processBatchRequestsDirectly(requests) }()]. *)
Definition processResultsConcurrently (results : list Any) (e : Engine) : Engine :=
  if decide (length results = 0) then e
  else
    let requests := requests_of results in
    let items := items_of results in
    let e :=
      if decide (1 < length requests) then set_batches (batches e ++ [requests]) e
      else foldl (λ e req, deliver (AnyRequest req) e) e requests in
    foldl (λ e item, deliver item e) e items.

(** The body of the loop over the results of a batch, for one result. *)
Definition processBatchResult (asyncResult : downloader.AsyncResult) (e : Engine)
    : Engine :=
  match downloader.Error asyncResult with
  | Some _ => updateStats "request_failed" 1 e
  | None =>
      match downloader.Response asyncResult with
      | None => updateStats "request_failed" 1 e
      | Some resp =>
          let e := updateStats "request_success" 1 e in
          let req := downloader.Request asyncResult in
          match applyResponseMiddlewares (middlewares e) req resp (world e) with
          | (None, w) => set_world w e
          | (Some resp, w) =>
              let e := set_world w e in
              match currentSpider e with
              | None => e
              | Some currentSpider =>
                  let '(results, w) := Parse currentSpider resp (world e) in
                  processResultsConcurrently results (set_world w e)
              end
          end
      end
  end.

(** The first loop of [processBatchRequestsDirectly]: every request is
    counted, then passed through the request middlewares; those left
    are collected. *)
Fixpoint collectValid (requests : list request.Request) (e : Engine)
    : list request.Request * Engine :=
  match requests with
  | [] => ([], e)
  | req :: rest =>
      let e := updateStats "request_total" 1 e in
      let '(req', w) := applyRequestMiddlewares (middlewares e) req (world e) in
      let '(valid, e) := collectValid rest (set_world w e) in
      (from_option (λ r, [r]) [] req' ++ valid, e)
  end.

(** [processBatchRequestsDirectly]; [acts] is how the goroutines of the
    [DownloadBatch] call interleave. *)
Definition processBatchRequestsDirectly (acts : list downloader.BatchAction)
    (requests : list request.Request) (e : Engine) : Engine :=
  if decide (length requests = 0) then e
  else
    let '(validReqs, e) := collectValid requests e in
    if decide (length validReqs = 0) then e
    else
      let '(results, w) :=
        downloader.DownloadBatch_results Download acts validReqs (world e) in
      foldl (λ e asyncResult, processBatchResult asyncResult e) (set_world w e) results.

(** [processRequest] *)
Definition processRequest (req : request.Request) (s : Spider) (e : Engine) : Engine :=
  let e := updateStats "request_total" 1 e in
  match applyRequestMiddlewares (middlewares e) req (world e) with
  | (None, w) => set_world w e
  | (Some req, w) =>
      match Download req w with
      | (inr err, w) => updateStats "request_failed" 1 (set_world w e)
      | (inl resp, w) =>
          let e := updateStats "request_success" 1 (set_world w e) in
          match applyResponseMiddlewares (middlewares e) req resp (world e) with
          | (None, w) => set_world w e
          | (Some resp, w) =>
              let '(results, w) := Parse s resp w in
              processResultsConcurrently results (set_world w e)
          end
      end
  end.

(** [processItem] and [processAnyItem] *)
Fixpoint applyPipelines (ps : list Pipeline) (item : gmap string string) (w : World)
    : World :=
  match ps with
  | [] => w
  | p :: rest =>
      match ProcessItem p item w with
      | (None, w') => w'
      | (Some item', w') => applyPipelines rest item' w'
      end
  end.

Definition processItem (item : gmap string string) (e : Engine) : Engine :=
  let e := updateStats "items_scraped" 1 e in
  set_world (applyPipelines (pipelines e) item (world e)) e.

Definition processAnyItem (item : Any) (e : Engine) : Engine :=
  let e := updateStats "items_scraped" 1 e in
  let mapItem :=
    match item with
    | AnyMap m => m
    | AnyOther typ data => <["data" := data]> (<["type" := typ]> ∅)
    | AnyRequest r => <["data" := request.URL r]> (<["type" := "*request.Request"]> ∅)
    end in
  set_world (applyPipelines (pipelines e) mapItem (world e)) e.

(** [processResult] *)
Definition processResult (result : Any) (e : Engine) : Engine :=
  match result with
  | AnyRequest r => set_scheduler (scheduler.ChannelScheduler.Enqueue r (scheduler e)) e
  | AnyMap m => processItem m e
  | AnyOther _ _ => processAnyItem result e
  end.

(** What a turn of worker's loop observes in the engine. *)
Definition observe (e : Engine) : Poll * scheduler.ChannelScheduler.t :=
  if ctxDone e then (PollCtxDone, scheduler e)
  else
    match scheduler.ChannelScheduler.Dequeue (scheduler e) with
    | (Some req, q) => (PollRequest req, q)
    | (None, q) =>
        if scheduler.ChannelScheduler.Empty q then (PollNilEmpty, q)
        else (PollNilNonEmpty, q)
    end.

(** One turn of the loop of worker [i], for the spider of the run. *)
Definition worker_iter (i : nat) (s : Spider) (e : Engine) : Engine :=
  match workers e !! i with
  | Some (Looping emptyCount) =>
      let '(p, q) := observe e in
      let '(st, req) := worker_turn emptyCount p in
      let e := set_workers (<[i := st]> (workers e)) (set_scheduler q e) in
      match req with
      | Some req => processRequest req s e
      | None => e
      end
  | _ => e
  end.

(** The goroutines of a run, as steps of an interleaving. *)
Inductive Action :=
  | AWorker (i : nat)
  | AResultWorker
  | AResultSender (k : nat)
  | ABatch (k : nat) (acts : list downloader.BatchAction)
  | ASchedulerSend (k : nat)
  | ASchedulerAdd.

Definition step (s : Spider) (a : Action) (e : Engine) : Engine :=
  match a with
  | AWorker i => worker_iter i s e
  | AResultWorker =>
      if ctxDone e then e
      else
        match resultPool e with
        | [] => e
        | result :: rest => processResult result (set_resultPool rest e)
        end
  | AResultSender k =>
      match resultSenders e !! k with
      | Some r =>
          if decide (length (resultPool e) < resultPoolCap e)
          then set_resultPool (resultPool e ++ [r])
                 (set_resultSenders (delete k (resultSenders e)) e)
          else e
      | None => e
      end
  | ABatch k acts =>
      match batches e !! k with
      | Some requests =>
          processBatchRequestsDirectly acts requests
            (set_batches (delete k (batches e)) e)
      | None => e
      end
  | ASchedulerSend k =>
      set_scheduler (scheduler.ChannelScheduler.go_send k (scheduler e)) e
  | ASchedulerAdd =>
      set_scheduler (scheduler.ChannelScheduler.go_add (scheduler e)) e
  end.

Definition exec (s : Spider) (acts : list Action) (e : Engine) : Engine :=
  foldl (λ e a, step s a e) e acts.

(** [Run], up to the start of the workers: the pipelines are opened
    (an error ends the run), the spider is recorded, the start requests
    are enqueued, and [e.concurrency] workers are started. *)
Fixpoint openPipelines (ps : list Pipeline) (w : World) : option error * World :=
  match ps with
  | [] => (None, w)
  | p :: rest =>
      match Open p w with
      | (Some err, w') => (Some (fmt_Errorf "failed to open pipeline" err), w')
      | (None, w') => openPipelines rest w'
      end
  end.

Definition Run_start (s : Spider) (e : Engine) : Engine + error :=
  match openPipelines (pipelines e) (world e) with
  | (Some err, _) => inr err
  | (None, w) =>
      let e := set_currentSpider (Some s) (set_world w e) in
      let '(startRequests, w) := StartRequests s (world e) in
      let e := set_world w e in
      let e :=
        foldl (λ e req,
                 set_scheduler (scheduler.ChannelScheduler.Enqueue req (scheduler e)) e)
              e startRequests in
      inl (set_workers (workers e ++ replicate (concurrency e) (Looping 0)) e)
  end.

(** [e.wg.Wait()] and [e.batchWg.Wait()] return. *)
Definition all_returned (e : Engine) : bool :=
  forallb (λ st, match st with Returned => true | Looping _ => false end) (workers e)
  && bool_decide (batches e = []).

(** The deferred calls of [Run]: every pipeline is closed (an error is
    only printed), and the context is cancelled. *)
Definition closePipelines (ps : list Pipeline) (w : World) : World :=
  foldl (λ w p, (Close p w).2) w ps.

Definition Run_deferred (e : Engine) : Engine :=
  set_ctxDone true (set_world (closePipelines (pipelines e) (world e)) e).

(** [close(e.resultPool); e.resultWg.Wait(); e.printStats()] and the
    deferred calls: the result workers receive what the buffer still
    holds.  A detached sender still waiting at the close panics (send
    on closed channel), and the run reports nothing. *)
Definition Run_end (e : Engine) : option Engine :=
  if decide (resultSenders e = []) then
    Some (Run_deferred
            (foldl (λ e result, processResult result e)
                   (set_resultPool [] e) (resultPool e)))
  else None.

(** [Run]: [Some (inr err)] when the run returned the error, [Some (inl
    e')] when it returned nil after printing the statistics of [e'],
    [None] when the interleaving [acts] does not bring the run to its
    end. *)
Definition Run (s : Spider) (acts : list Action) (e : Engine)
    : option (Engine + error) :=
  match Run_start s e with
  | inr err => Some (inr err)
  | inl e =>
      let e := exec s acts e in
      if all_returned e then inl <$> Run_end e else None
  end.

End Engine.

Arguments Middleware World : clear implicits.
Arguments Pipeline World : clear implicits.
Arguments Spider World : clear implicits.
Arguments Engine World : clear implicits.

End engine.

(** ** package commands *)

Module commands.

(** [removeDuplicates]: [keys] is the [map[string]bool] of the items
    seen; a missing key reads as false. *)
Fixpoint removeDuplicates_loop (keys : gmap string bool) (result : list string)
    (slice : list string) : list string :=
  match slice with
  | [] => result
  | item :: rest =>
      if negb (default false (keys !! item)) && negb (bool_decide (item = "")) then
        removeDuplicates_loop (<[item := true]> keys) (result ++ [item]) rest
      else removeDuplicates_loop keys result rest
  end.

Definition removeDuplicates (slice : list string) : list string :=
  removeDuplicates_loop ∅ [] slice.

(** [primary := names[0]; for _, name := range names { if len(name) <
    len(primary) { primary = name } }] *)
Fixpoint selectPrimaryName_loop (primary : string) (names : list string) : string :=
  match names with
  | [] => primary
  | name :: rest =>
      if decide (String.length name < String.length primary)
      then selectPrimaryName_loop name rest
      else selectPrimaryName_loop primary rest
  end.

Definition selectPrimaryName (names : list string) : string :=
  match names with
  | [] => ""
  | name0 :: _ => selectPrimaryName_loop name0 names
  end.

End commands.

(** ** The concrete pipelines and spiders as the engine sees them

    A pipeline without a state of its own leaves the world alone; the
    CSV pipeline is the world of an engine that writes through it. *)

Section Installed.

Context {World : Type}.

Definition ConsolePipeline : engine.Pipeline World :=
  {| engine.Open w := (pipeline.ConsolePipeline.Open, w);
     engine.Close w := (pipeline.ConsolePipeline.Close, w);
     engine.ProcessItem item w := (pipeline.ConsolePipeline.ProcessItem item, w) |}.

Definition FilterPipeline (p : pipeline.FilterPipeline.t) : engine.Pipeline World :=
  {| engine.Open w := (pipeline.FilterPipeline.Open p, w);
     engine.Close w := (pipeline.FilterPipeline.Close p, w);
     engine.ProcessItem item w := (pipeline.FilterPipeline.ProcessItem p item, w) |}.

Definition TransformPipeline (p : pipeline.TransformPipeline.t) : engine.Pipeline World :=
  {| engine.Open w := (pipeline.TransformPipeline.Open p, w);
     engine.Close w := (pipeline.TransformPipeline.Close p, w);
     engine.ProcessItem item w := (pipeline.TransformPipeline.ProcessItem p item, w) |}.

(** A [*spider.BaseSpider]: its [Parse] returns an empty slice. *)
Definition BaseSpider (s : spider.BaseSpider) : engine.Spider World :=
  {| engine.Name := spider.Name s;
     engine.StartRequests w := (spider.StartRequests s, w);
     engine.Parse resp w := ([], w) |}.

End Installed.

(** The CSV pipeline of an engine whose world is that pipeline;
    [mkdir], [create] and [close] are the answers of the file system. *)
Definition CSVPipeline (mkdir create close : option error)
    : engine.Pipeline pipeline.CSVPipeline.t :=
  {| engine.Open p :=
       let '(p', err) := pipeline.CSVPipeline.Open mkdir create p in (err, p');
     engine.Close p :=
       let '(p', err) := pipeline.CSVPipeline.Close close p in (err, p');
     engine.ProcessItem item p :=
       let '(p', item') := pipeline.CSVPipeline.ProcessItem p item in (item', p') |}.

(** * Vocabulary of the properties *)

(** ** The heap order of the priority queue *)

Section HeapVocabulary.

Import scheduler.

Implicit Types (h : PriorityQueue) (i j k c n : nat).

Definition core (it : PriorityItem) : request.Request * Z := (Request it, Priority it).

Definition coreAt h k : option (request.Request * Z) := core <$> h !! k.

Definition pri h k : Z := from_option snd 0%Z (coreAt h k).

Definition tr i j k : nat := if decide (k = i) then j else if decide (k = j) then i else k.

Definition child p c : Prop := c = 2 * p + 1 ∨ c = 2 * p + 2.

Definition heap_upto n h : Prop :=
  ∀ p c, c < n → child p c → (pri h c ≤ pri h p)%Z.

Definition heap_ordered h : Prop := heap_upto (length h) h.

Definition up_inv h j : Prop :=
  (∀ p c, c < length h → child p c → c ≠ j → (pri h c ≤ pri h p)%Z) ∧
  (∀ g c, c < length h → child j c → child g j → (pri h c ≤ pri h g)%Z).

Definition down_inv h i n : Prop :=
  (∀ p c, c < n → child p c → p ≠ i → (pri h c ≤ pri h p)%Z) ∧
  (∀ g c, c < n → child i c → child g i → (pri h c ≤ pri h g)%Z).

Definition item_ok (c : request.Request * Z) : Prop := c.2 = request.Priority c.1.

Definition pending (s : PriorityScheduler.t) : list request.Request :=
  Request <$> PriorityScheduler.queue s.

Definition pq_inv (s : PriorityScheduler.t) : Prop :=
  heap_ordered (PriorityScheduler.queue s) ∧
  Forall item_ok (core <$> PriorityScheduler.queue s).

(** The dequeues among [ops] that are made while a task is waiting,
    when [waiting] tasks wait at the start: an enqueue adds a waiting
    task, such a dequeue takes one away, and a dequeue that finds none
    waiting is not counted. *)
Fixpoint answered_from (waiting : nat) (ops : list Op) : nat :=
  match ops with
  | [] => 0
  | OpEnqueue _ :: rest => answered_from (S waiting) rest
  | OpDequeue :: rest =>
      match waiting with
      | O => answered_from 0 rest
      | S n => S (answered_from n rest)
      end
  end.

Definition answered (ops : list Op) : nat := answered_from 0 ops.

(** Every dequeue made while a task is waiting returns a task, and a
    dequeue on an empty scheduler returns nil; [Size()] is the number
    of enqueues minus the number of dequeues made while a task was
    waiting, and [Empty()] says whether it is zero. *)
Definition size_exact (Q : Type) `{Scheduler Q} : Prop :=
  ∀ ops : list Op, ∃ (s : Q) (out : list request.Request),
    run_new ops = Some (s, out) ∧
    length out = answered ops ∧
    sched_Size s = (Z.of_nat (length (enqueues ops)) - Z.of_nat (answered ops))%Z ∧
    sched_Empty s = bool_decide (sched_Size s = 0%Z).

End HeapVocabulary.

(** ** The worker's polls *)

Section WorkerVocabulary.

Import engine.

Definition no_cancel (polls : list Poll) : Prop :=
  Forall (λ p, p ≠ PollCtxDone) polls.

End WorkerVocabulary.

(** ** The state of a batch *)

Section BatchVocabulary.

Import downloader.

Context {World : Type}.

Implicit Types (b : Batch World) (got : list AsyncResult).

(** What every interleaving keeps true of a batch over [reqs], given
    the results [got] received so far. *)
Definition batch_inv (reqs : list request.Request) b got : Prop :=
  capacity b = length reqs ∧
  wg b = length (launched b) + length (holding b) + finishing b ∧
  (Request <$> got ++ resultChan b ++ holding b) ++ launched b ≡ₚ reqs ∧
  (closed b = true → wg b = 0).

(** The outcome is what a fetch of its request returned, from some
    state of the world. *)
Definition fetched
    (Download : request.Request → World → (response.Response + error) * World)
    (r : AsyncResult) : Prop :=
  ∃ w, r = mkResult (Request r) (Download (Request r) w).1.

End BatchVocabulary.

(** ** The engine's result pool and counters *)

Section EngineVocabulary.

Import engine.

Context {World : Type}.

Implicit Types (e : Engine World) (s : Spider World) (mws : list (Middleware World)).

(** The state after the elements [xs] have been handed to the result
    pool one after the other: those the buffer has room for are in the
    buffer, the rest is with detached senders. *)
Definition handed (xs : list Any) e : Engine World :=
  let room := resultPoolCap e - length (resultPool e) in
  set_resultSenders (resultSenders e ++ drop room xs)
    (set_resultPool (resultPool e ++ take room xs) e).

(** No request middleware of the list ever returns nil. *)
Definition nodrop mws : Prop :=
  ∀ mw, mw ∈ mws → ∀ req w, (ProcessRequest mw req w).1 ≠ None.

(** The request counters and the middlewares are the same. *)
Definition counts_same e e' : Prop :=
  RequestsTotal (stats e') = RequestsTotal (stats e) ∧
  RequestsSuccess (stats e') = RequestsSuccess (stats e) ∧
  RequestsFailed (stats e') = RequestsFailed (stats e) ∧
  middlewares e' = middlewares e.

End EngineVocabulary.

(** ** The requests that the request middlewares drop in a run *)

Section DropVocabulary.

Import engine.

Context {World : Type}.
Variable Download : request.Request → World → (response.Response + error) * World.

Implicit Types (e : Engine World) (s : Spider World).

(** One if the request middlewares of [e] return nil for [req] in the
    world of [e], zero if they let it through. *)
Definition dropped_alone (req : request.Request) e : nat :=
  match (applyRequestMiddlewares (middlewares e) req (world e)).1 with
  | None => 1
  | Some _ => 0
  end.

(** The requests of a batch that the first loop of
    [processBatchRequestsDirectly] does not collect: those for which
    the request middlewares return nil. *)
Definition dropped_of_batch (requests : list request.Request) e : nat :=
  length requests - length (collectValid requests e).1.

(** The requests dropped in one step of a run: by [processRequest] when
    a worker has taken a request, by the first loop of a batch call. *)
Definition dropped_in_step (a : Action) e : nat :=
  match a with
  | AWorker i =>
      match workers e !! i with
      | Some (Looping emptyCount) =>
          match (worker_turn emptyCount (observe e).1).2 with
          | Some req => dropped_alone req e
          | None => 0
          end
      | _ => 0
      end
  | ABatch k acts =>
      match batches e !! k with
      | Some requests =>
          dropped_of_batch requests (set_batches (delete k (batches e)) e)
      | None => 0
      end
  | _ => 0
  end.

Fixpoint dropped_in s (acts : list Action) e : nat :=
  match acts with
  | [] => 0
  | a :: rest => dropped_in_step a e + dropped_in s rest (step Download s a e)
  end.

(** The requests dropped between the start of the workers and the
    return of [Run]. *)
Definition dropped_in_run s (acts : list Action) e : nat :=
  match Run_start s e with
  | inl e0 => dropped_in s acts e0
  | inr _ => 0
  end.

(** Of the requests counted in the total, [d] were dropped by a request
    middleware and [k] are not settled yet. *)
Definition owes (installed : list (Middleware World)) (d k : Z) e : Prop :=
  middlewares e = installed ∧
  RequestsTotal (stats e) =
    wrap64 (RequestsSuccess (stats e) + RequestsFailed (stats e) + d + k).

End DropVocabulary.

(** ** Order and bookkeeping of the schedulers *)

Section SchedulerVocabulary.

Import scheduler.

(** [a] may come out before [b]: its priority is not lower. *)
Definition by_priority (a b : request.Request) : Prop :=
  (request.Priority b ≤ request.Priority a)%Z.

(** Every item of the queue carries its own position in [Index]. *)
Definition indexed (h : PriorityQueue) : Prop :=
  ∀ k it, h !! k = Some it → Index it = Z.of_nat k.

(** The counter of a channel scheduler is the number of buffered tasks
    less the completed sends of detached goroutines that are not
    counted yet; the buffer holds no more than its capacity, and a
    sender is parked only on a full buffer. *)
Definition size_inv (s : ChannelScheduler.t) : Prop :=
  ChannelScheduler.size s
    = wrap64 (Z.of_nat (length (ChannelScheduler.requestChan s))
              - Z.of_nat (ChannelScheduler.counting s)) ∧
  length (ChannelScheduler.requestChan s) ≤ ChannelScheduler.bufferSize s ∧
  (ChannelScheduler.sendq s ≠ [] →
   length (ChannelScheduler.requestChan s) = ChannelScheduler.bufferSize s).

(** No detached goroutine is under way. *)
Definition quiescent (s : ChannelScheduler.t) : Prop :=
  ChannelScheduler.spawned s = [] ∧ ChannelScheduler.sendq s = [] ∧
  ChannelScheduler.counting s = 0.

(** The dequeues among [acts] that are made while a task is buffered,
    when [waiting] tasks are buffered at the start and every enqueue
    finds room in the buffer: an enqueue adds a buffered task, such a
    dequeue takes one away, and a dequeue on an empty buffer is not
    counted. *)
Fixpoint received_from (waiting : nat) (acts : list ChannelScheduler.Action) : nat :=
  match acts with
  | [] => 0
  | ChannelScheduler.ActEnqueue _ :: rest => received_from (S waiting) rest
  | ChannelScheduler.ActDequeue :: rest =>
      match waiting with
      | O => received_from 0 rest
      | S n => S (received_from n rest)
      end
  | _ :: rest => received_from waiting rest
  end.

End SchedulerVocabulary.

(** ** Headers, cookies and the middlewares *)

Section MiddlewareVocabulary.

(** [rand.Intn(n)] answers with a number below [n]. *)
Definition draws_in_range {World : Type} (rand_Intn : nat → World → nat * World) : Prop :=
  ∀ n w, 0 < n → (rand_Intn n w).1 < n.

(** The byte [c] occurs in [s]. *)
Definition has_byte (c : ascii) (s : string) : Prop :=
  c ∈ String.list_ascii_of_string s.

(** A [range] over a map visits every entry once, in some order. *)
Definition visits_every_entry
    (range_order : gmap string string → list (string * string)) : Prop :=
  ∀ m, range_order m ≡ₚ map_to_list m.

(** The body of the loop of [HeaderMiddleware.ProcessRequest]. *)
Definition fill_header (CanonicalMIMEHeaderKey : string → string)
    (req : request.Request) (kv : string * string) : request.Request :=
  if decide (request.Header_Get CanonicalMIMEHeaderKey (request.Headers req) kv.1 = "")
  then request.SetHeader CanonicalMIMEHeaderKey kv.1 kv.2 req else req.

(** The request after the retry middleware has seen the responses
    [resps] for it, one after the other. *)
Definition after_responses (m : middleware.RetryMiddleware) (req : request.Request)
    (resps : list response.Response) : request.Request :=
  foldl (λ req resp, (middleware.ProcessResponse m req resp).1) req resps.

End MiddlewareVocabulary.

(** ** Settings *)

Section SettingsVocabulary.

(** The keys that [Set] writes to a field of their own. *)
Definition typed_keys : list string :=
  ["BOT_NAME"; "USER_AGENT"; "CONCURRENT_REQUESTS"; "DOWNLOAD_DELAY"].

(** What [Get] answers for a key right after [Set] has written it. *)
Definition read_back (s : settings.Settings) (key : string) (value d : settings.Value)
    : option settings.Value :=
  s' ← settings.Set_ s key value; Some (settings.Get s' key d).

End SettingsVocabulary.

(** ** Items through the pipelines *)

Section PipelineVocabulary.

(** The CSV pipeline after the items have gone through it. *)
Definition process_items (p : pipeline.CSVPipeline.t) (items : list (gmap string string))
    : pipeline.CSVPipeline.t :=
  foldl (λ p item, (pipeline.CSVPipeline.ProcessItem p item).1) p items.

(** The engine after [processItem] has run for each of the items. *)
Definition scraped {World : Type} (items : list (gmap string string))
    (e : engine.Engine World) : engine.Engine World :=
  foldl (λ e item, engine.processItem item e) e items.

(** The header row, where one goes out ahead of [n] records. *)
Definition header_row (headers : list string) (n : nat) : list (list string) :=
  if decide (headers = [] ∨ n = 0) then [] else [headers].

End PipelineVocabulary.

(** ** Runs of the engine *)

Section RunVocabulary.

Import engine.

Context {World : Type}.

Implicit Types (e : Engine World) (s : Spider World).

(** The requests among the polls of a worker. *)
Definition polled (polls : list Poll) : list request.Request :=
  omap (λ p, match p with PollRequest req => Some req | _ => None end) polls.

(** An engine between runs: nothing is in flight and the scheduler is
    empty. *)
Definition at_rest e : Prop :=
  workers e = [] ∧ resultPool e = [] ∧ resultSenders e = [] ∧ batches e = [] ∧
  ctxDone e = false ∧ quiescent (scheduler e) ∧
  scheduler.ChannelScheduler.requestChan (scheduler e) = [].

(** The spider never yields anything from a page. *)
Definition yields_nothing s : Prop :=
  ∀ resp w, (Parse s resp w).1 = [].

(** What a run over a spider that yields nothing keeps true, from a
    total of [T0] and [n] start requests: nothing is routed or
    detached, every task taken from the buffer is counted, and a worker
    has returned only if the buffer is empty. *)
Definition quiet (T0 : Z) (n : nat) (I0 : Z) e : Prop :=
  resultPool e = [] ∧ resultSenders e = [] ∧ batches e = [] ∧
  ctxDone e = false ∧ quiescent (scheduler e) ∧
  RequestsTotal (stats e)
    = wrap64 (T0 + Z.of_nat n
              - Z.of_nat (length (scheduler.ChannelScheduler.requestChan (scheduler e)))) ∧
  (Exists (λ st, st = Returned) (workers e) →
   scheduler.ChannelScheduler.requestChan (scheduler e) = []) ∧
  0 < length (workers e) ∧ ItemsScraped (stats e) = I0.

(** An engine without workers and with nothing routed. *)
Definition parked e : Prop :=
  workers e = [] ∧ resultPool e = [] ∧ resultSenders e = [] ∧ batches e = [].

(** A new engine with the middlewares and the pipelines added and the
    concurrency set, as a command does before it calls [Run]. *)
Definition configured (w : World) (mws : list (Middleware World))
    (ps : list (Pipeline World)) (c : nat) : Engine World :=
  SetConcurrency c
    (foldl (λ e p, AddPipeline p e)
           (foldl (λ e m, AddMiddleware m e) (NewEngine w) mws) ps).

End RunVocabulary.

(** ** Batches under a context *)

Section ContextVocabulary.

Import downloader.

Context {World : Type}.

Implicit Types (b : WithContext.t World) (got : list AsyncResult).

(** The requests whose outcome is delivered or still on its way. *)
Definition accounted b got : list request.Request :=
  (Request <$> got ++ WithContext.resultChan b ++ WithContext.refusing b
                ++ WithContext.holding b) ++ WithContext.launched b.

(** What every interleaving keeps true of a batch over [reqs] under a
    context, given the results [got] received so far: no request has
    two outcomes, and none is lost while the context is not done. *)
Definition ctx_inv (reqs : list request.Request) b got : Prop :=
  WithContext.capacity b = length reqs ∧
  WithContext.wg b
    = length (WithContext.launched b) + length (WithContext.refusing b)
      + length (WithContext.holding b) + WithContext.finishing b ∧
  accounted b got ⊆+ reqs ∧
  (WithContext.ctxDone b = false → accounted b got ≡ₚ reqs) ∧
  (WithContext.closed b = true → WithContext.wg b = 0).

(** The outcome of a request that was not fetched because the context
    was done. *)
Definition refused_by (ctx_Err : error) (r : request.Request) : AsyncResult :=
  {| Request := r; Response := None; Error := Some ctx_Err |}.

(** The outcomes received, buffered or about to be sent, with the
    outcomes that the goroutines still to start will build when they
    find the context done. *)
Definition refusals (ctx_Err : error) b got : list AsyncResult :=
  (got ++ WithContext.resultChan b ++ WithContext.refusing b)
  ++ (refused_by ctx_Err <$> WithContext.launched b).

(** Every goroutine starts, sends and ends in turn, the channel is
    closed and the consumer receives everything: a schedule for a batch
    of [n] requests whose context is done from the start. *)
Definition refuse_all (n : nat) : list WithContext.Action :=
  replicate n (WithContext.CStart 0) ++ replicate n (WithContext.CRefuse 0) ++
  replicate n WithContext.CDone ++ [WithContext.CClose] ++
  replicate n WithContext.CRecv.

End ContextVocabulary.

(** ** Scenarios *)

(** A server that answers the first ten requests it sees with a
    redirect and every later one with a page; the world counts the
    requests answered.  Requests are rendered by their address. *)
Definition ten_redirects (proxy : string) (timeout : Z) (hreq : string) (w : nat)
    : downloader.RoundTrip string * nat :=
  (if decide (w < 10) then downloader.Redirect hreq
   else downloader.Final {| downloader.finalURL := hreq; downloader.StatusCode := 200;
                            downloader.Header := ∅; downloader.RawBody := [] |},
   S w).

Definition fetch_behind_ten_redirects
    : option ((response.Response + error) * list string * nat) :=
  downloader.Download_trace
    (λ method url body, inl url) (λ key value h, h) (λ key h, "")
    (λ key value h, h) (λ cookie h, h) (λ h, h) (λ h, "Get") (λ raw, None)
    ten_redirects (λ resp, None) (λ enc resp, inl (downloader.RawBody resp))
    downloader.NewHTTPDownloader (request.NewRequest "GET" "http://a/") 0.

Definition refused (req : request.Request) (w : unit)
    : (response.Response + error) * unit :=
  (inr (errors_New "connection refused"), w).

Definition one_page : engine.Spider unit :=
  {| engine.Name := "one";
     engine.StartRequests w := ([request.NewRequest "GET" "http://a/"], w);
     engine.Parse resp w := ([], w) |}.

(** The single worker takes the request, then polls the empty queue 100
    times and returns. *)
Definition one_worker_schedule : list engine.Action :=
  replicate 101 (engine.AWorker 0).

Definition one_worker_engine : engine.Engine unit :=
  engine.SetConcurrency 1 (engine.NewEngine tt).

(** A request middleware that drops every request. *)
Definition drop_all : engine.Middleware unit :=
  {| engine.ProcessRequest req w := (None, w);
     engine.ProcessResponse req resp w := (req, Some resp, w) |}.

(** A fetch that always succeeds with an empty page. *)
Definition served (req : request.Request) (w : unit)
    : (response.Response + error) * unit :=
  (inl (response.NewResponse (request.URL req) 200 ∅ [] req), w).

(** A spider whose first page links to a second one. *)
Definition next_page : engine.Spider unit :=
  {| engine.Name := "next";
     engine.StartRequests w := ([request.NewRequest "GET" "http://a/"], w);
     engine.Parse resp w :=
       (if decide (response.URL resp = "http://a/")
        then [engine.AnyRequest (request.NewRequest "GET" "http://a/2")] else [], w) |}.

(** A random source that always draws 0. *)
Definition draws_zero (n : nat) (w : unit) : nat * unit := (0, w).

(** * Properties *)

(** ** Arithmetic of the 64-bit counters *)

Lemma wrap64_small (z : Z) : int64_range z → wrap64 z = z.
Proof.
  unfold int64_range, wrap64. intros Hz.
  rewrite Z.mod_small by lia. lia.
Qed.

Lemma wrap64_range (z : Z) : int64_range (wrap64 z).
Proof.
  unfold int64_range, wrap64.
  pose proof (Z.mod_pos_bound (z + 2 ^ 63) (2 ^ 64) ltac:(lia)). lia.
Qed.

Lemma wrap64_add_l (a b : Z) : wrap64 (wrap64 a + b) = wrap64 (a + b).
Proof.
  unfold wrap64. f_equal.
  replace ((a + 2 ^ 63) mod 2 ^ 64 - 2 ^ 63 + b + 2 ^ 63)%Z
    with ((a + 2 ^ 63) mod 2 ^ 64 + b)%Z by lia.
  rewrite Zplus_mod_idemp_l. f_equal. lia.
Qed.

Lemma wrap64_add_r (a b : Z) : wrap64 (a + wrap64 b) = wrap64 (a + b).
Proof. rewrite (Z.add_comm a), wrap64_add_l. f_equal. lia. Qed.

(** ** The priority queue is a binary max-heap *)

Section HeapFacts.

Import scheduler.

Implicit Types (h : PriorityQueue) (i j k c n : nat).

Lemma parent_cases c : 0 < c → c = 2 * ((c - 1) / 2) + 1 ∨ c = 2 * ((c - 1) / 2) + 2.
Proof.
  intros Hc. pose proof (Nat.div_mod_eq (c - 1) 2) as E.
  pose proof (Nat.mod_upper_bound (c - 1) 2 ltac:(lia)) as B. lia.
Qed.

Lemma parent_of_child p c : c = 2 * p + 1 ∨ c = 2 * p + 2 → (c - 1) / 2 = p.
Proof.
  intros [-> | ->].
  - replace (2 * p + 1 - 1) with (p * 2) by lia. apply Nat.div_mul. lia.
  - replace (2 * p + 2 - 1) with (1 + p * 2) by lia. rewrite Nat.div_add by lia. reflexivity.
Qed.

Lemma parent_root_iff j : (j - 1) / 2 = j ↔ j = 0.
Proof.
  split.
  - intros E. destruct (decide (j = 0)) as [|Hn]; [done|].
    pose proof (parent_cases j ltac:(lia)). lia.
  - intros ->. reflexivity.
Qed.

Lemma core_setIndex z it : core (setIndex z it) = core it.
Proof. reflexivity. Qed.

Lemma insert_head_perm {A} (l : list A) k a x :
  l !! k = Some a → a :: <[k := x]> l ≡ₚ x :: l.
Proof.
  revert k. induction l as [|y l IH]; intros [|k] Hk; simplify_eq/=.
  - apply perm_swap.
  - etrans; [apply perm_swap|]. etrans; [|apply perm_swap]. apply perm_skip. by apply IH.
Qed.

Lemma swap_perm {A} (l : list A) i j a b :
  l !! i = Some a → l !! j = Some b → <[j := a]> (<[i := b]> l) ≡ₚ l.
Proof.
  revert i j. induction l as [|y l IH]; intros [|i] [|j] Hi Hj; simplify_eq/=; try done.
  - by apply insert_head_perm.
  - by apply insert_head_perm.
  - by rewrite IH.
Qed.

Lemma Swap_Some h i j : i < length h → j < length h → is_Some (Swap h i j).
Proof.
  intros Hi Hj. unfold Swap.
  destruct (lookup_lt_is_Some_2 h i Hi) as [a ->].
  destruct (lookup_lt_is_Some_2 h j Hj) as [b ->]. simpl. eauto.
Qed.

Lemma Swap_inv h i j h' :
  Swap h i j = Some h' →
  i < length h ∧ j < length h ∧ length h' = length h ∧
  (∀ k, coreAt h' k = coreAt h (tr i j k)) ∧
  core <$> h' ≡ₚ core <$> h.
Proof.
  unfold Swap. intros E.
  destruct (h !! i) as [a|] eqn:Ha; simplify_eq/=.
  destruct (h !! j) as [b|] eqn:Hb; simplify_eq/=.
  pose proof (lookup_lt_Some _ _ _ Ha). pose proof (lookup_lt_Some _ _ _ Hb).
  split_and!; try done.
  - by rewrite !length_insert.
  - intros k. unfold coreAt, tr.
    destruct (decide (k = j)) as [->|Hkj].
    + rewrite list_lookup_insert_eq by (by rewrite length_insert).
      case_decide; subst; simpl; by rewrite ?Ha, ?Hb.
    + rewrite list_lookup_insert_ne by done.
      destruct (decide (k = i)) as [->|Hki].
      * rewrite list_lookup_insert_eq by done. by rewrite Hb.
      * by rewrite list_lookup_insert_ne.
  - rewrite !list_fmap_insert, !core_setIndex.
    apply swap_perm; by rewrite list_lookup_fmap, ?Ha, ?Hb.
Qed.

Lemma pri_tr h h' i j :
  (∀ k, coreAt h' k = coreAt h (tr i j k)) → ∀ k, pri h' k = pri h (tr i j k).
Proof. intros E k. unfold pri. by rewrite E. Qed.

Lemma Less_Some h i j :
  i < length h → j < length h → Less h i j = Some (bool_decide (pri h j < pri h i)%Z).
Proof.
  intros Hi Hj. unfold Less, pri, coreAt.
  destruct (lookup_lt_is_Some_2 h i Hi) as [a ->].
  destruct (lookup_lt_is_Some_2 h j Hj) as [b ->]. simpl.
  f_equal. destruct (Z.ltb_spec (Priority b) (Priority a)); by rewrite ?bool_decide_true, ?bool_decide_false by lia.
Qed.

(** Identify index expressions that linear arithmetic proves equal, so
    that [lia] sees one atom per heap slot. *)
Ltac pri_norm :=
  repeat match goal with
  | |- context [pri ?h ?a] =>
      match goal with
      | H : context [pri h ?b] |- _ =>
          lazymatch a with b => fail | _ => idtac end;
          let E := fresh "E" in
          assert (a = b) as E by lia; rewrite E in *; clear E
      end
  | H1 : context [pri ?h ?a], H2 : context [pri ?h ?b] |- _ =>
      lazymatch a with b => fail | _ => idtac end;
      let E := fresh "E" in
      assert (a = b) as E by lia; rewrite E in *; clear E
  end.

Lemma up_unfold fuel h j :
  heap.up (S fuel) h j =
  if decide ((j - 1) / 2 = j) then Some h
  else match Less h j ((j - 1) / 2) with
       | None => None
       | Some true =>
           match Swap h ((j - 1) / 2) j with
           | None => None
           | Some h' => heap.up fuel h' ((j - 1) / 2)
           end
       | Some false => Some h
       end.
Proof.
  cbn [heap.up]. case_decide; [done|].
  destruct (Less h j ((j - 1) / 2)) as [[]|]; try done.
Qed.

Lemma up_correct fuel : ∀ h j,
  j < fuel → j < length h → up_inv h j →
  ∃ h', heap.up fuel h j = Some h' ∧ heap_ordered h' ∧ length h' = length h ∧
        core <$> h' ≡ₚ core <$> h.
Proof.
  induction fuel as [|fuel IH]; intros h j Hf Hj [U1 U2]; [lia|].
  rewrite up_unfold.
  case_decide as Hroot.
  { exists h. split_and!; try done. intros p c Hc Hpc. apply U1; [done..|].
    apply parent_root_iff in Hroot. unfold child in Hpc. lia. }
  assert (0 < j) as Hj0 by (destruct (decide (j = 0)) as [->|]; [done|lia]).
  pose proof (parent_cases j Hj0) as Hpj.
  generalize dependent ((j - 1) / 2). intros i Hroot Hpj.
  rewrite Less_Some by lia.
  case_bool_decide as Hlt.
  2:{ exists h. split_and!; try done. intros p c Hc Hpc.
      destruct (decide (c = j)) as [->|]; [|by apply U1].
      unfold child in Hpc. assert (p = i) as -> by lia. lia. }
  destruct (Swap_Some h i j) as [h' Hs]; [lia..|]. rewrite Hs.
  destruct (Swap_inv _ _ _ _ Hs) as (_ & _ & Hlen & Hc & Hperm).
  pose proof (pri_tr _ _ _ _ Hc) as Hp.
  destruct (IH h' i) as (h'' & E & Ho & Hl & Hpm); [lia|lia| |].
  2:{ exists h''. split_and!; try done; [congruence|by etrans]. }
  split.
  - intros p c Hcr Hpc Hci. rewrite Hlen in Hcr. rewrite !Hp. unfold tr.
    pose proof (U1 p c Hcr) as X1. pose proof (U1 i c Hcr) as X2.
    pose proof (U2 i c Hcr) as X3.
    unfold child in *.
    repeat case_decide; subst; try lia.
  - intros g c Hcr Hic Hgi. rewrite Hlen in Hcr. rewrite !Hp. unfold tr.
    pose proof (U1 g i ltac:(lia)) as X1. pose proof (U1 i c Hcr) as X2.
    unfold child in *.
    repeat case_decide; subst; try lia.
Qed.

Lemma down_unfold fuel h i n :
  heap.down_loop (S fuel) h i n =
  if decide (n ≤ 2 * i + 1) then Some (h, i)
  else
    match (if decide (2 * i + 1 + 1 < n) then Less h (2 * i + 1 + 1) (2 * i + 1)
           else Some false) with
    | None => None
    | Some lt21 =>
        match Less h (if lt21 then 2 * i + 1 + 1 else 2 * i + 1) i with
        | None => None
        | Some true =>
            match Swap h i (if lt21 then 2 * i + 1 + 1 else 2 * i + 1) with
            | None => None
            | Some h' =>
                heap.down_loop fuel h' (if lt21 then 2 * i + 1 + 1 else 2 * i + 1) n
            end
        | Some false => Some (h, i)
        end
    end.
Proof.
  cbn [heap.down_loop]. case_decide; [done|].
  destruct (if decide (2 * i + 1 + 1 < n) then _ else _) as [lt21|]; [|done].
  cbn [mbind option_bind].
  destruct (Less h _ i) as [[]|]; try done.
Qed.

Lemma down_correct fuel : ∀ h i n,
  n ≤ length h → n - i < fuel → down_inv h i n →
  ∃ h' i', heap.down_loop fuel h i n = Some (h', i') ∧ heap_upto n h' ∧
    length h' = length h ∧ core <$> h' ≡ₚ core <$> h ∧
    (∀ k, n ≤ k → coreAt h' k = coreAt h k).
Proof.
  induction fuel as [|fuel IH]; intros h i n Hn Hf [D1 D2]; [lia|].
  rewrite down_unfold.
  case_decide as Hleaf.
  { exists h, i. split_and!; try done. intros p c Hc Hpc.
    apply D1; [done..|]. unfold child in Hpc. lia. }
  assert (∃ lt21 : bool,
    (if decide (2 * i + 1 + 1 < n) then Less h (2 * i + 1 + 1) (2 * i + 1)
     else Some false) = Some lt21 ∧
    (if lt21 then 2 * i + 1 + 1 < n ∧ (pri h (2 * i + 1) < pri h (2 * i + 1 + 1))%Z
     else 2 * i + 1 + 1 < n → (pri h (2 * i + 1 + 1) ≤ pri h (2 * i + 1))%Z))
    as (lt21 & -> & Hsib).
  { case_decide as H2.
    - rewrite Less_Some by lia. eexists; split; [done|].
      case_bool_decide; [done|lia].
    - exists false. split; [done|lia]. }
  set (j := if lt21 then 2 * i + 1 + 1 else 2 * i + 1).
  assert (j < n ∧ child i j) as [Hjn Hij].
  { unfold j, child. destruct lt21; lia. }
  assert (∀ c, c < n → child i c → c ≠ j → (pri h c ≤ pri h j)%Z) as Hmax.
  { intros c Hc Hic Hcj. unfold j, child in *. destruct lt21; pri_norm; lia. }
  clearbody j. clear Hsib.
  rewrite Less_Some by (unfold child in Hij; lia).
  case_bool_decide as Hlt.
  2:{ exists h, i. split_and!; try done. intros p c Hc Hpc.
      destruct (decide (p = i)) as [->|]; [|by apply D1].
      destruct (decide (c = j)) as [->|]; [lia|].
      specialize (Hmax c Hc Hpc). lia. }
  destruct (Swap_Some h i j) as [h' Hs]; [unfold child in Hij; lia..|]. rewrite Hs.
  destruct (Swap_inv _ _ _ _ Hs) as (_ & _ & Hlen & Hc & Hperm).
  pose proof (pri_tr _ _ _ _ Hc) as Hp.
  destruct (IH h' j n) as (h'' & i' & E & Ho & Hl & Hpm & Hhi);
    [lia|unfold child in Hij; lia| |].
  2:{ exists h'', i'. split_and!; try done; [congruence|by etrans|].
      intros k Hk. rewrite Hhi, Hc by done. unfold tr, child in *.
      repeat case_decide; subst; try lia; done. }
  split.
  - intros p c Hcr Hpc Hpj. rewrite !Hp. unfold tr.
    pose proof (D1 p c Hcr) as X1. pose proof (D2 p j Hjn) as X2.
    pose proof (Hmax c Hcr) as X3.
    unfold child in *.
    repeat case_decide; subst; try lia.
  - intros g c Hcr Hjc Hgj. rewrite !Hp. unfold tr.
    pose proof (D1 j c Hcr) as X1.
    unfold child in *.
    repeat case_decide; subst; try lia.
Qed.

Lemma heap_top_max h k : heap_ordered h → k < length h → (pri h k ≤ pri h 0)%Z.
Proof.
  intros Ho. induction (lt_wf k) as [k _ IH]. intros Hk.
  destruct (decide (k = 0)) as [->|Hk0]; [done|].
  pose proof (parent_cases k ltac:(lia)) as Hp.
  etrans; [apply (Ho ((k - 1) / 2) k Hk Hp)|].
  apply IH; lia.
Qed.

Lemma coreAt_app_l h l k : k < length h → coreAt (h ++ l) k = coreAt h k.
Proof. intros Hk. unfold coreAt. by rewrite lookup_app_l. Qed.

Lemma coreAt_take h n k : k < n → coreAt (take n h) k = coreAt h k.
Proof. intros Hk. unfold coreAt. by rewrite lookup_take_lt. Qed.

Lemma heap_Push_correct h x :
  heap_ordered h →
  ∃ h', heap.Push h x = Some h' ∧ heap_ordered h' ∧
        core <$> h' ≡ₚ core x :: (core <$> h).
Proof.
  intros Ho. unfold heap.Push, Len, scheduler.Push.
  set (h0 := h ++ [setIndex (Z.of_nat (length h)) x]).
  assert (length h0 = S (length h)) as Hl0.
  { unfold h0. rewrite length_app. simpl. lia. }
  destruct (up_correct (length h0) h0 (length h0 - 1)) as (h' & E & Ho' & _ & Hp);
    [lia..| |].
  - split.
    + intros p c Hc Hpc Hne. unfold pri, h0.
      rewrite !coreAt_app_l by (unfold child in Hpc; lia).
      apply Ho; [lia|done].
    + intros g c Hc Hjc _. unfold child in Hjc. lia.
  - exists h'. split_and!; try done. rewrite Hp. unfold h0.
    rewrite fmap_app. simpl. by rewrite Permutation_app_comm.
Qed.

Lemma heap_Pop_correct h :
  heap_ordered h → 0 < length h →
  ∃ item h', heap.Pop h = Some (item, h') ∧ heap_ordered h' ∧
    coreAt h 0 = Some (core item) ∧
    core <$> h ≡ₚ core item :: (core <$> h').
Proof.
  intros Ho Hlen. unfold heap.Pop, heap.down, Len.
  set (n := length h - 1).
  destruct (Swap_Some h 0 n) as [h1 Hs]; [lia..|]. rewrite Hs.
  destruct (Swap_inv _ _ _ _ Hs) as (_ & _ & Hl1 & Hc1 & Hp1).
  destruct (down_correct (S n) h1 0 n) as (h2 & i' & E & Ho2 & Hl2 & Hp2 & Hhi);
    [lia..| |].
  { split.
    - intros p c Hc Hpc Hp0. rewrite !(pri_tr _ _ _ _ Hc1). unfold tr, child in *.
      repeat case_decide; try lia. apply Ho; [lia|done].
    - intros g c _ _ Hg. unfold child in Hg. lia. }
  cbn [mbind option_bind]. rewrite E. cbn [mbind option_bind].
  unfold scheduler.Pop.
  assert (length h2 = S n) as Hl2' by lia. rewrite Hl2'.
  destruct (lookup_lt_is_Some_2 h2 n ltac:(lia)) as [item0 Hi0]. rewrite Hi0.
  cbn [mbind option_bind].
  exists (setIndex (-1) item0), (take n h2). split_and!; try done.
  - intros p c Hc Hpc. rewrite length_take in Hc. unfold pri.
    rewrite !coreAt_take by (unfold child in Hpc; lia).
    apply Ho2; [lia|done].
  - rewrite core_setIndex. transitivity (coreAt h2 n); [|by unfold coreAt; rewrite Hi0].
    rewrite Hhi, Hc1 by done. f_equal. unfold tr. repeat case_decide; lia.
  - rewrite core_setIndex, <- Hp1, <- Hp2.
    rewrite <- (take_drop n h2) at 1.
    rewrite (drop_S h2 item0 n Hi0), drop_ge by lia.
    rewrite fmap_app. simpl. by rewrite Permutation_app_comm.
Qed.

(** The scheduler's invariant, and its consequences. *)

Lemma pending_core s : pending s = fst <$> (core <$> PriorityScheduler.queue s).
Proof. unfold pending. rewrite <- list_fmap_compose. done. Qed.

Lemma New_inv : ∃ s, PriorityScheduler.NewPriorityScheduler = Some s ∧ pq_inv s ∧ pending s = [].
Proof.
  eexists. split; [reflexivity|]. split; [|done]. split.
  - intros p c Hc. simpl in Hc. lia.
  - constructor.
Qed.

Lemma Enqueue_correct req s :
  pq_inv s →
  ∃ s', PriorityScheduler.Enqueue req s = Some s' ∧ pq_inv s' ∧
        pending s' ≡ₚ req :: pending s.
Proof.
  intros [Ho Hok]. unfold PriorityScheduler.Enqueue.
  destruct (heap_Push_correct (PriorityScheduler.queue s)
    {| Request := req; Priority := request.Priority req; Index := 0 |} Ho)
    as (h' & -> & Ho' & Hp).
  cbn [mbind option_bind]. eexists. split; [done|]. split; [split|].
  - exact Ho'.
  - simpl. rewrite Hp. by constructor.
  - rewrite !pending_core. simpl. by rewrite Hp.
Qed.

Lemma Dequeue_correct s :
  pq_inv s →
  match PriorityScheduler.queue s with
  | [] => PriorityScheduler.Dequeue s = Some (None, s)
  | _ :: _ =>
      ∃ r s', PriorityScheduler.Dequeue s = Some (Some r, s') ∧ pq_inv s' ∧
        pending s ≡ₚ r :: pending s' ∧
        ∀ r', r' ∈ pending s → (request.Priority r' ≤ request.Priority r)%Z
  end.
Proof.
  intros [Ho Hok]. unfold PriorityScheduler.Dequeue, Len.
  destruct (PriorityScheduler.queue s) as [|it0 h0] eqn:Eq; [done|].
  rewrite decide_False by (simpl; lia).
  destruct (heap_Pop_correct (it0 :: h0) Ho ltac:(simpl; lia))
    as (item & h' & -> & Ho' & Htop & Hp).
  cbn [mbind option_bind]. eexists _, _. split; [done|].
  assert (Forall item_ok (core item :: (core <$> h'))) as Hok' by by rewrite <- Hp.
  apply Forall_cons in Hok' as [Hitem Hok'].
  split; [done|]. split.
  - rewrite !pending_core, Eq. simpl PriorityScheduler.queue. by rewrite Hp.
  - intros r' Hr'. unfold pending in Hr'. rewrite Eq in Hr'.
    apply list_elem_of_fmap in Hr' as (it & -> & Hit).
    apply list_elem_of_lookup in Hit as [k Hk].
    pose proof (heap_top_max _ k Ho (lookup_lt_Some _ _ _ Hk)) as Hmax.
    unfold pri in Hmax. rewrite Htop in Hmax. unfold coreAt in Hmax. rewrite Hk in Hmax.
    simpl in Hmax.
    assert (item_ok (core it)) as Hit.
    { rewrite Forall_forall in Hok. apply Hok. apply list_elem_of_fmap.
      exists it. split; [done|]. apply list_elem_of_lookup. eauto. }
    unfold item_ok in *. simpl in *. lia.
Qed.

Lemma run_correct ops : ∀ s,
  pq_inv s →
  ∃ s' out, run ops s = Some (s', out) ∧ pq_inv s' ∧
    enqueues ops ++ pending s ≡ₚ out ++ pending s'.
Proof.
  induction ops as [|[req|] ops IH]; intros s Hs.
  - exists s, []. done.
  - cbn [run]. change (sched_Enqueue req s) with (PriorityScheduler.Enqueue req s).
    destruct (Enqueue_correct req s Hs) as (s1 & -> & Hs1 & Hp1).
    cbn [mbind option_bind].
    destruct (IH s1 Hs1) as (s' & out & -> & Hs' & Hp).
    exists s', out. split_and!; try done.
    rewrite <- Hp, Hp1. simpl. by rewrite Permutation_middle.
  - cbn [run]. change (sched_Dequeue s) with (PriorityScheduler.Dequeue s).
    pose proof (Dequeue_correct s Hs) as Hd.
    destruct (PriorityScheduler.queue s) as [|it0 h0] eqn:Eq.
    + rewrite Hd. cbn [mbind option_bind].
      destruct (IH s Hs) as (s' & out & -> & Hs' & Hp).
      exists s', out. done.
    + destruct Hd as (r & s1 & -> & Hs1 & Hp1 & _).
      cbn [mbind option_bind].
      destruct (IH s1 Hs1) as (s' & out & -> & Hs' & Hp).
      exists s', (r :: out). split_and!; try done.
      simpl. rewrite Hp1. rewrite <- Permutation_middle. by rewrite Hp.
Qed.

End HeapFacts.

(** ** Size and emptiness of the lock-guarded schedulers *)

Section SizeFacts.

Import scheduler.

Lemma FIFO_run ops : ∀ s : FIFOScheduler.t,
  ∃ s' out, run ops s = Some (s', out) ∧
    length (FIFOScheduler.queue s') + length out =
    length (enqueues ops) + length (FIFOScheduler.queue s).
Proof.
  induction ops as [|[req|] ops IH]; intros s.
  - exists s, []. simpl. split; [done|lia].
  - cbn [run]. cbn [sched_Enqueue FIFO_Scheduler mbind option_bind].
    destruct (IH (FIFOScheduler.Enqueue req s)) as (s' & out & -> & Hl).
    exists s', out. split; [done|]. rewrite Hl. simpl. rewrite length_app. simpl. lia.
  - cbn [run]. cbn [sched_Dequeue FIFO_Scheduler mbind option_bind].
    unfold FIFOScheduler.Dequeue.
    destruct (FIFOScheduler.queue s) as [|r rest] eqn:Eq.
    + destruct (IH s) as (s' & out & -> & Hl). cbn [mbind option_bind].
      exists s', out. split; [done|]. rewrite Hl, Eq. done.
    + destruct (IH {| FIFOScheduler.queue := rest |}) as (s' & out & -> & Hl).
      cbn [mbind option_bind].
      exists s', (r :: out). split; [done|]. simpl in *. lia.
Qed.

Lemma LIFO_run ops : ∀ s : LIFOScheduler.t,
  ∃ s' out, run ops s = Some (s', out) ∧
    length (LIFOScheduler.stack s') + length out =
    length (enqueues ops) + length (LIFOScheduler.stack s).
Proof.
  induction ops as [|[req|] ops IH]; intros s.
  - exists s, []. simpl. split; [done|lia].
  - cbn [run]. cbn [sched_Enqueue LIFO_Scheduler mbind option_bind].
    destruct (IH (LIFOScheduler.Enqueue req s)) as (s' & out & -> & Hl).
    exists s', out. split; [done|]. rewrite Hl. simpl. rewrite length_app. simpl. lia.
  - cbn [run]. cbn [sched_Dequeue LIFO_Scheduler mbind option_bind].
    unfold LIFOScheduler.Dequeue.
    destruct (last (LIFOScheduler.stack s)) as [r|] eqn:El.
    + destruct (IH {| LIFOScheduler.stack :=
          take (length (LIFOScheduler.stack s) - 1) (LIFOScheduler.stack s) |})
        as (s' & out & -> & Hl).
      cbn [mbind option_bind].
      exists s', (r :: out). split; [done|]. simpl in *.
      rewrite length_take in Hl.
      assert (0 < length (LIFOScheduler.stack s)).
      { destruct (LIFOScheduler.stack s); [done|simpl; lia]. }
      lia.
    + destruct (IH s) as (s' & out & -> & Hl). cbn [mbind option_bind].
      exists s', out. split; [done|]. done.
Qed.

Lemma Priority_run_new ops :
  ∃ s out, run_new ops = Some (s, out) ∧ pq_inv s ∧ enqueues ops ≡ₚ out ++ pending s.
Proof.
  unfold run_new. cbn [sched_new Priority_Scheduler].
  destruct New_inv as (s0 & -> & Hs0 & Hp0). cbn [mbind option_bind].
  destruct (run_correct ops s0 Hs0) as (s & out & -> & Hs & Hp).
  exists s, out. split_and!; try done. rewrite <- Hp, Hp0. by rewrite app_nil_r.
Qed.

(** The dequeues that return a task are those made while one waits. *)
Lemma FIFO_answered ops : ∀ (s s' : FIFOScheduler.t) out,
  run ops s = Some (s', out) →
  length out = answered_from (length (FIFOScheduler.queue s)) ops.
Proof.
  induction ops as [|[req|] ops IH]; intros s s' out H.
  - cbn in H. by simplify_eq.
  - cbn [run] in H. cbn [sched_Enqueue FIFO_Scheduler mbind option_bind] in H.
    apply IH in H. cbn [answered_from]. rewrite H.
    cbn [FIFOScheduler.Enqueue FIFOScheduler.queue]. rewrite length_app. cbn [length].
    by rewrite Nat.add_1_r.
  - cbn [run] in H. cbn [sched_Dequeue FIFO_Scheduler mbind option_bind] in H.
    unfold FIFOScheduler.Dequeue in H. cbn [answered_from].
    destruct (FIFOScheduler.queue s) as [|r rest] eqn:Eq.
    + destruct (run ops s) as [[s1 out1]|] eqn:E1; [|done]. cbn in H. simplify_eq.
      apply IH in E1. by rewrite Eq in E1.
    + destruct (run ops {| FIFOScheduler.queue := rest |}) as [[s1 out1]|] eqn:E1; [|done].
      cbn in H. simplify_eq. apply IH in E1. cbn in *. by rewrite E1.
Qed.

Lemma LIFO_answered ops : ∀ (s s' : LIFOScheduler.t) out,
  run ops s = Some (s', out) →
  length out = answered_from (length (LIFOScheduler.stack s)) ops.
Proof.
  induction ops as [|[req|] ops IH]; intros s s' out H.
  - cbn in H. by simplify_eq.
  - cbn [run] in H. cbn [sched_Enqueue LIFO_Scheduler mbind option_bind] in H.
    apply IH in H. cbn [answered_from]. rewrite H.
    cbn [LIFOScheduler.Enqueue LIFOScheduler.stack]. rewrite length_app. cbn [length].
    by rewrite Nat.add_1_r.
  - cbn [run] in H. cbn [sched_Dequeue LIFO_Scheduler mbind option_bind] in H.
    unfold LIFOScheduler.Dequeue in H. cbn [answered_from].
    destruct (last (LIFOScheduler.stack s)) as [r|] eqn:El.
    + destruct (run ops _) as [[s1 out1]|] eqn:E1; [|done].
      cbn in H. simplify_eq. apply IH in E1. cbn [LIFOScheduler.stack] in E1.
      destruct (LIFOScheduler.stack s) as [|x l]; [done|].
      assert (length (take (length (x :: l) - 1) (x :: l)) = length l) as Hl
        by (rewrite length_take; simpl; lia).
      rewrite Hl in E1. cbn [length]. by rewrite E1.
    + destruct (run ops s) as [[s1 out1]|] eqn:E1; [|done]. cbn in H. simplify_eq.
      apply IH in E1. apply last_None in El. by rewrite El in *.
Qed.

Lemma Priority_answered ops : ∀ (s s' : PriorityScheduler.t) out,
  pq_inv s →
  run ops s = Some (s', out) →
  length out = answered_from (length (PriorityScheduler.queue s)) ops.
Proof.
  induction ops as [|[req|] ops IH]; intros s s' out Hs H.
  - cbn in H. by simplify_eq.
  - cbn [run] in H. change (sched_Enqueue req s) with (PriorityScheduler.Enqueue req s) in H.
    destruct (Enqueue_correct req s Hs) as (s1 & E1 & Hs1 & Hp1). rewrite E1 in H.
    cbn [mbind option_bind] in H. apply (IH _ _ _ Hs1) in H.
    apply Permutation_length in Hp1. unfold pending in Hp1.
    cbn [length] in Hp1. rewrite !length_fmap in Hp1.
    cbn [answered_from]. by rewrite H, Hp1.
  - cbn [run] in H. change (sched_Dequeue s) with (PriorityScheduler.Dequeue s) in H.
    pose proof (Dequeue_correct s Hs) as Hd. cbn [answered_from].
    destruct (PriorityScheduler.queue s) as [|it0 h0] eqn:Eq.
    + rewrite Hd in H. cbn [mbind option_bind] in H.
      destruct (run ops s) as [[s1 out1]|] eqn:E1; [|done]. cbn in H. simplify_eq.
      apply (IH _ _ _ Hs) in E1. by rewrite Eq in E1.
    + destruct Hd as (r & s1 & E & Hs1 & Hp1 & _). rewrite E in H.
      cbn [mbind option_bind] in H.
      destruct (run ops s1) as [[s2 out2]|] eqn:E1; [|done]. cbn in H. simplify_eq.
      apply (IH _ _ _ Hs1) in E1.
      apply Permutation_length in Hp1. unfold pending in Hp1. rewrite Eq in Hp1.
      cbn [length fmap list_fmap] in Hp1. rewrite !length_fmap in Hp1.
      cbn [length]. injection Hp1 as Hp1. by rewrite E1, Hp1.
Qed.

Lemma Priority_answered_new ops (s : PriorityScheduler.t) out :
  run_new ops = Some (s, out) → length out = answered ops.
Proof.
  unfold run_new. cbn [sched_new Priority_Scheduler].
  destruct New_inv as (s0 & E0 & Hs0 & Hp0). rewrite E0. cbn [mbind option_bind].
  intros H. rewrite (Priority_answered ops _ _ _ Hs0 H).
  unfold pending in Hp0. apply fmap_nil_inv in Hp0. by rewrite Hp0.
Qed.

End SizeFacts.

(** C5.  Under single-threaded use of the priority scheduler, after any
    sequence of enqueues and dequeues: the tasks held ([pending]) are
    those enqueued and not yet returned, and a dequeue returns one of
    them whose priority is maximal among them (nil when none is held).
    In particular tasks of priorities 1, 5, 3 come out as 5, 3, 1.
    Equal priorities come out in heap order, not insertion order:
    tasks a, b, c of priority 0 come out as a, c, b. *)
Theorem priority_dequeue_returns_a_maximal_task :
  (∀ ops : list scheduler.Op,
     ∃ (s : scheduler.PriorityScheduler.t) (out : list request.Request),
       scheduler.run_new ops = Some (s, out) ∧
       scheduler.enqueues ops ≡ₚ out ++ pending s ∧
       match pending s with
       | [] => scheduler.PriorityScheduler.Dequeue s = Some (None, s)
       | _ :: _ =>
           ∃ r s', scheduler.PriorityScheduler.Dequeue s = Some (Some r, s') ∧
             r ∈ pending s ∧ pending s ≡ₚ r :: pending s' ∧
             ∀ r', r' ∈ pending s → (request.Priority r' ≤ request.Priority r)%Z
       end) ∧
  (∀ r1 r5 r3 : request.Request,
     request.Priority r1 = 1%Z → request.Priority r5 = 5%Z →
     request.Priority r3 = 3%Z →
     ∃ s : scheduler.PriorityScheduler.t,
       scheduler.run_new
         [scheduler.OpEnqueue r1; scheduler.OpEnqueue r5; scheduler.OpEnqueue r3;
          scheduler.OpDequeue; scheduler.OpDequeue; scheduler.OpDequeue]
       = Some (s, [r5; r3; r1])) ∧
  (∃ s : scheduler.PriorityScheduler.t,
     scheduler.run_new
       [scheduler.OpEnqueue (request.NewRequest "GET" "a");
        scheduler.OpEnqueue (request.NewRequest "GET" "b");
        scheduler.OpEnqueue (request.NewRequest "GET" "c");
        scheduler.OpDequeue; scheduler.OpDequeue; scheduler.OpDequeue]
     = Some (s, [request.NewRequest "GET" "a"; request.NewRequest "GET" "c";
                 request.NewRequest "GET" "b"])).
Proof.
  split_and!.
  - intros ops. destruct (Priority_run_new ops) as (s & out & -> & Hs & Hp).
    exists s, out. split_and!; try done.
    pose proof (Dequeue_correct s Hs) as Hd. unfold pending at 1.
    destruct (scheduler.PriorityScheduler.queue s) as [|it0 h0] eqn:Eq; [done|].
    destruct Hd as (r & s' & E & _ & Hperm & Hmax).
    exists r, s'. split_and!; try done.
    rewrite Hperm. by left.
  - intros [] [] [] H1 H5 H3. simpl in *. subst.
    eexists. vm_compute. reflexivity.
  - eexists. vm_compute. reflexivity.
Qed.

(** C6.  For the FIFO, the LIFO and the priority scheduler, after any
    single-threaded sequence of enqueues and dequeues, [Size()] is the
    number N of enqueues minus the number M of dequeues that were made
    while a task was waiting.  Each of those M dequeues returned a
    task, and a dequeue on an empty queue returns nil and is not
    counted, so M is also the number of tasks returned.  [Empty()] is
    true exactly when [Size()] is 0. *)
Theorem scheduler_size_is_enqueues_minus_dequeues :
  size_exact scheduler.FIFOScheduler.t ∧
  size_exact scheduler.LIFOScheduler.t ∧
  size_exact scheduler.PriorityScheduler.t.
Proof.
  split_and!; intros ops.
  - unfold scheduler.run_new. cbn [scheduler.sched_new scheduler.FIFO_Scheduler mbind option_bind].
    destruct (FIFO_run ops scheduler.FIFOScheduler.NewFIFOScheduler) as (s & out & E & Hl).
    pose proof (FIFO_answered ops _ _ _ E) as Ha. rewrite E.
    exists s, out. split; [done|]. simpl in Hl, Ha. split; [exact Ha|].
    fold (answered ops) in Ha.
    cbn [scheduler.sched_Size scheduler.sched_Empty scheduler.FIFO_Scheduler].
    unfold scheduler.FIFOScheduler.Size, scheduler.FIFOScheduler.Empty.
    split; [lia|]. apply bool_decide_ext. lia.
  - unfold scheduler.run_new. cbn [scheduler.sched_new scheduler.LIFO_Scheduler mbind option_bind].
    destruct (LIFO_run ops scheduler.LIFOScheduler.NewLIFOScheduler) as (s & out & E & Hl).
    pose proof (LIFO_answered ops _ _ _ E) as Ha. rewrite E.
    exists s, out. split; [done|]. simpl in Hl, Ha. split; [exact Ha|].
    fold (answered ops) in Ha.
    cbn [scheduler.sched_Size scheduler.sched_Empty scheduler.LIFO_Scheduler].
    unfold scheduler.LIFOScheduler.Size, scheduler.LIFOScheduler.Empty.
    split; [lia|]. apply bool_decide_ext. lia.
  - destruct (Priority_run_new ops) as (s & out & E & _ & Hp).
    pose proof (Priority_answered_new ops _ _ E) as Ha. rewrite E.
    exists s, out. split; [done|]. split; [exact Ha|].
    apply Permutation_length in Hp. rewrite length_app in Hp.
    unfold pending in Hp. rewrite length_fmap in Hp.
    cbn [scheduler.sched_Size scheduler.sched_Empty scheduler.Priority_Scheduler].
    unfold scheduler.PriorityScheduler.Size, scheduler.PriorityScheduler.Empty, scheduler.Len.
    split; [lia|]. apply bool_decide_ext. lia.
Qed.

(** ** The channel scheduler defers, and does not drop *)

Section ChannelFacts.

Import scheduler.ChannelScheduler.

Implicit Types (s : t) (req : request.Request).

Lemma Dequeue_head s :
  match requestChan s ++ sendq s with
  | [] => Dequeue s = (None, s)
  | req :: rest =>
      ∃ s', Dequeue s = (Some req, s') ∧ requestChan s' ++ sendq s' = rest ∧
            spawned s' = spawned s
  end.
Proof.
  unfold Dequeue.
  destruct (requestChan s) as [|x buf]; destruct (sendq s) as [|y q]; simpl.
  - done.
  - eexists. split; [done|]. done.
  - eexists. split; [done|]. simpl. by rewrite app_nil_r.
  - eexists. split; [done|]. simpl. by rewrite <- app_assoc.
Qed.

Lemma step_conserves a s :
  enqueued [a] ++ held s ≡ₚ (step a s).2 ++ held (step a s).1.
Proof.
  destruct a as [req| |k|]; simpl.
  - unfold Enqueue, held. case_decide; simpl; rewrite <- ?app_assoc.
    + simpl. apply Permutation_middle.
    + rewrite !app_assoc. apply Permutation_cons_append.
  - pose proof (Dequeue_head s) as Hd. unfold held.
    rewrite (app_assoc (requestChan s)).
    destruct (requestChan s ++ sendq s) as [|req rest] eqn:E.
    + rewrite Hd. simpl. by rewrite app_assoc, E.
    + destruct Hd as (s' & -> & Hrest & Hsp). simpl.
      by rewrite app_assoc, Hrest, Hsp.
  - unfold go_send, held.
    destruct (spawned s !! k) as [req|] eqn:Ek; [|done].
    pose proof (delete_Permutation _ _ _ Ek) as Hp.
    case_decide; simpl;
      (etrans; [do 2 apply Permutation_app_head; exact Hp|]);
      rewrite <- ?app_assoc; simpl; apply Permutation_app_head.
    + symmetry. apply Permutation_middle.
    + done.
  - unfold go_add, held. destruct (counting s); done.
Qed.

Lemma exec_conserves acts : ∀ s,
  enqueued acts ++ held s ≡ₚ (exec acts s).2 ++ held (exec acts s).1.
Proof.
  induction acts as [|a acts IH]; intros s; [done|].
  cbn [exec]. pose proof (step_conserves a s) as H1.
  destruct (step a s) as [s1 out1]. specialize (IH s1).
  destruct (exec acts s1) as [s2 out2]. cbn [fst snd] in *.
  assert (enqueued (a :: acts) = enqueued [a] ++ enqueued acts) as ->.
  { unfold enqueued. simpl. by rewrite app_nil_r. }
  rewrite <- !app_assoc.
  etrans; [apply Permutation_app_swap_app|].
  etrans; [apply Permutation_app_head, H1|].
  etrans; [apply Permutation_app_swap_app|].
  apply Permutation_app_head, IH.
Qed.

Lemma receive_all_take n : ∀ s,
  receive_all n s = take n (requestChan s ++ sendq s).
Proof.
  induction n as [|n IH]; intros s; [done|].
  cbn [receive_all]. pose proof (Dequeue_head s) as Hd.
  destruct (requestChan s ++ sendq s) as [|req rest] eqn:E.
  - by rewrite Hd.
  - destruct Hd as (s' & -> & Hrest & _). simpl. by rewrite IH, Hrest.
Qed.

Lemma flush_spec n : ∀ s,
  length (spawned s) = n →
  let s' := (exec (replicate n (ActGoSend 0)) s).1 in
  spawned s' = [] ∧ held s' ≡ₚ held s.
Proof.
  induction n as [|n IH]; intros s Hn; simpl.
  - split; [|done]. by apply nil_length_inv.
  - pose proof (step_conserves (ActGoSend 0) s) as Hc. simpl in Hc.
    assert (length (spawned (go_send 0 s)) = n) as Hn'.
    { unfold go_send. destruct (spawned s) as [|req sp]; [done|]. simpl.
      case_decide; simpl in *; lia. }
    destruct (IH _ Hn') as [Hsp Hh].
    destruct (exec (replicate n (ActGoSend 0)) (go_send 0 s)) as [s2 out2].
    simpl in *. split; [done|]. by rewrite Hh, <- Hc.
Qed.

Lemma drain_held s : drain s ≡ₚ held s.
Proof.
  unfold drain, flush. destruct (flush_spec _ s eq_refl) as [Hsp Hh].
  set (s' := (exec _ s).1) in *.
  rewrite receive_all_take.
  rewrite <- (Permutation_length Hh). unfold held at 1. rewrite Hsp, app_nil_r.
  rewrite firstn_all. rewrite <- Hh. unfold held. by rewrite Hsp, app_nil_r.
Qed.

End ChannelFacts.

(** C10.  For the channel scheduler: (1) when the buffer is full,
    [Enqueue] returns with the size counter, the buffer and the answers
    of [Size()] and [Empty()] as they were, and the task in the hands
    of a detached goroutine; (2) a detached goroutine's send leaves the
    counter alone, and the counter is incremented for it only by the
    [AddInt64] that follows a completed send; (3) so right after such
    an [Enqueue], [Empty()] can be true and [Size()] 0 while a task is
    held (on a scheduler of capacity 0, and on one of capacity 1 whose
    buffer a detached send has just filled); (4) no task is dropped:
    in every interleaving the tasks enqueued are those handed out plus
    those held, and letting the detached goroutines run and then
    dequeuing hands out every held task. *)
Theorem channel_enqueue_on_full_buffer_defers_the_task :
  (∀ (s : scheduler.ChannelScheduler.t) (req : request.Request),
     ¬ length (scheduler.ChannelScheduler.requestChan s)
       < scheduler.ChannelScheduler.bufferSize s →
     let s' := scheduler.ChannelScheduler.Enqueue req s in
     scheduler.ChannelScheduler.size s' = scheduler.ChannelScheduler.size s ∧
     scheduler.ChannelScheduler.Size s' = scheduler.ChannelScheduler.Size s ∧
     scheduler.ChannelScheduler.Empty s' = scheduler.ChannelScheduler.Empty s ∧
     scheduler.ChannelScheduler.requestChan s' = scheduler.ChannelScheduler.requestChan s ∧
     scheduler.ChannelScheduler.sendq s' = scheduler.ChannelScheduler.sendq s ∧
     scheduler.ChannelScheduler.spawned s' = scheduler.ChannelScheduler.spawned s ++ [req] ∧
     scheduler.ChannelScheduler.held s' ≡ₚ req :: scheduler.ChannelScheduler.held s) ∧
  (∀ (s : scheduler.ChannelScheduler.t) (k : nat),
     scheduler.ChannelScheduler.size (scheduler.ChannelScheduler.go_send k s)
     = scheduler.ChannelScheduler.size s) ∧
  (∀ s : scheduler.ChannelScheduler.t,
     match scheduler.ChannelScheduler.counting s with
     | O => scheduler.ChannelScheduler.go_add s = s
     | S c =>
         scheduler.ChannelScheduler.size (scheduler.ChannelScheduler.go_add s)
         = add64 (scheduler.ChannelScheduler.size s) 1 ∧
         scheduler.ChannelScheduler.counting (scheduler.ChannelScheduler.go_add s) = c
     end) ∧
  (∀ req : request.Request,
     let s := scheduler.ChannelScheduler.Enqueue req
                (scheduler.ChannelScheduler.NewChannelScheduler 0) in
     scheduler.ChannelScheduler.Empty s = true ∧
     scheduler.ChannelScheduler.Size s = 0%Z ∧
     scheduler.ChannelScheduler.held s = [req]) ∧
  (∀ a b c : request.Request,
     let s := (scheduler.ChannelScheduler.exec
                 [scheduler.ChannelScheduler.ActEnqueue a;
                  scheduler.ChannelScheduler.ActEnqueue b;
                  scheduler.ChannelScheduler.ActDequeue;
                  scheduler.ChannelScheduler.ActGoSend 0;
                  scheduler.ChannelScheduler.ActEnqueue c]
                 (scheduler.ChannelScheduler.NewChannelScheduler 1)).1 in
     scheduler.ChannelScheduler.Empty s = true ∧
     scheduler.ChannelScheduler.Size s = 0%Z ∧
     scheduler.ChannelScheduler.requestChan s = [b] ∧
     scheduler.ChannelScheduler.spawned s = [c]) ∧
  (∀ (acts : list scheduler.ChannelScheduler.Action) (n : nat),
     let r := scheduler.ChannelScheduler.exec acts
                (scheduler.ChannelScheduler.NewChannelScheduler n) in
     scheduler.ChannelScheduler.enqueued acts
       ≡ₚ r.2 ++ scheduler.ChannelScheduler.held r.1 ∧
     scheduler.ChannelScheduler.drain r.1 ≡ₚ scheduler.ChannelScheduler.held r.1).
Proof.
  split_and!.
  - intros s req Hfull. unfold scheduler.ChannelScheduler.Enqueue.
    rewrite decide_False by done. simpl. split_and!; try done.
    unfold scheduler.ChannelScheduler.held. simpl.
    rewrite !app_assoc. by rewrite (Permutation_app_comm _ [req]).
  - intros s k. unfold scheduler.ChannelScheduler.go_send.
    destruct (_ !! k); [|done]. by case_decide.
  - intros s. unfold scheduler.ChannelScheduler.go_add.
    by destruct (scheduler.ChannelScheduler.counting s).
  - intros req. done.
  - intros a b c. done.
  - intros acts n. split.
    + pose proof (exec_conserves acts (scheduler.ChannelScheduler.NewChannelScheduler n)) as H.
      rewrite <- H. unfold scheduler.ChannelScheduler.held at 1. simpl.
      by rewrite app_nil_r.
    + apply drain_held.
Qed.

(** ** The retry middleware only counts *)

Lemma shouldRetry_loop_elem (codes : list Z) (statusCode : Z) :
  middleware.shouldRetry_loop codes statusCode = true ↔ statusCode ∈ codes.
Proof.
  induction codes as [|code codes IH]; simpl.
  - split; [done|]. by intros ?%elem_of_nil.
  - case_decide as Hc.
    + subst. split; [intros _; by left|done].
    + rewrite IH. split; [by right|].
      intros [?|?]%elem_of_cons; [done|done].
Qed.

(** C9.  [RetryMiddleware.ProcessResponse] returns the response it was
    given.  The request it leaves behind is the request it was given,
    with [RetryTimes] one higher when the status code is one of the
    configured retry codes and [RetryTimes] is below the maximum, and
    untouched otherwise; no other field changes.  [ProcessRequest]
    returns the request as it is.  Installed in the engine, the
    middleware hands the response on and leaves the world alone: all it
    gives back is the response, so nothing is enqueued or fetched again
    on its account. *)
Theorem retry_middleware_only_increments_RetryTimes
    (m : middleware.RetryMiddleware) (req : request.Request)
    (resp : response.Response) :
  int64_range (request.RetryTimes req) →
  int64_range (middleware.maxRetries m) →
  let retry :=
    bool_decide (response.StatusCode resp ∈ middleware.retryHTTPCodes m
                 ∧ (request.RetryTimes req < middleware.maxRetries m)%Z) in
  let req' := (middleware.ProcessResponse m req resp).1 in
  (middleware.ProcessResponse m req resp).2 = resp ∧
  request.RetryTimes req' =
    (if retry then request.RetryTimes req + 1 else request.RetryTimes req)%Z ∧
  req' = request.SetRetryTimes (request.RetryTimes req') req ∧
  (retry = false → req' = req) ∧
  middleware.ProcessRequest m req = req ∧
  (∀ (World : Type) (w : World),
     engine.applyResponseMiddlewares [engine.RetryMiddleware m] req resp w
     = (Some resp, w)).
Proof.
  intros Hr Hm retry req'.
  assert (middleware.shouldRetry m (response.StatusCode resp)
          && bool_decide (request.RetryTimes req < middleware.maxRetries m)%Z = retry)
    as Hcond.
  { unfold retry, middleware.shouldRetry.
    destruct (middleware.shouldRetry_loop _ _) eqn:E; simpl.
    - apply shouldRetry_loop_elem in E. apply bool_decide_ext. tauto.
    - symmetry. apply bool_decide_eq_false. intros [H _].
      apply shouldRetry_loop_elem in H. congruence. }
  assert (middleware.ProcessResponse m req resp =
          (if retry then request.SetRetryTimes (request.RetryTimes req + 1) req
           else req, resp)) as E.
  { unfold middleware.ProcessResponse. rewrite Hcond.
    destruct retry eqn:Er; [|done].
    unfold add64. rewrite wrap64_small; [done|].
    apply bool_decide_eq_true in Er as [_ Hlt].
    unfold int64_range in *. lia. }
  unfold req'. rewrite E. simpl.
  split_and!; try done.
  - by destruct retry.
  - destruct retry; [done|]. by destruct req.
  - by intros ->.
  - intros World w. simpl. by rewrite E.
Qed.

(** The hypotheses hold of a request that has been retried once, under
    a maximum of three retries and a 503 response. *)
Lemma retry_middleware_only_increments_RetryTimes_witness :
  let m := middleware.NewRetryMiddleware 3 [] in
  let req := request.SetRetryTimes 1 (request.NewRequest "GET" "http://example.com/") in
  let resp := response.NewResponse "http://example.com/" 503 ∅ [] req in
  int64_range (request.RetryTimes req) ∧
  int64_range (middleware.maxRetries m) ∧
  (middleware.ProcessResponse m req resp).2 = resp ∧
  request.RetryTimes (middleware.ProcessResponse m req resp).1 = 2%Z.
Proof.
  intros m req resp.
  assert (int64_range (request.RetryTimes req)) as H1 by (vm_compute; split; [discriminate|done]).
  assert (int64_range (middleware.maxRetries m)) as H2 by (vm_compute; split; [discriminate|done]).
  split; [exact H1|]. split; [exact H2|].
  pose proof (retry_middleware_only_increments_RetryTimes m req resp H1 H2) as H.
  cbv zeta in H. destruct H as (Hresp & Hcount & _).
  split; [exact Hresp|]. rewrite Hcount. reflexivity.
Defined.

(** ** The worker's polling loop *)

Section WorkerFacts.

Import engine.

Lemma worker_turn_empty (c : Z) :
  (0 ≤ c < 100)%Z →
  worker_turn c PollNilEmpty =
    if decide (c = 99)%Z then (Returned, None) else (Looping (c + 1), None).
Proof.
  intros Hc. unfold worker_turn, add64, maxEmptyCount.
  rewrite wrap64_small by (unfold int64_range; lia).
  repeat case_decide; try done; lia.
Qed.

Lemma worker_loop_Returned (polls : list Poll) :
  worker_loop Returned polls = (Returned, []).
Proof. by destruct polls. Qed.

Lemma replicate_S_app {A} (n : nat) (x : A) (l post : list A) :
  x :: l = replicate (S n) x ++ post ↔ l = replicate n x ++ post.
Proof. simpl. split; [by intros [= ->]|by intros ->]. Qed.

(** From a counter [c], the loop returns exactly when the polls start
    with [100 - c] empty polls in a row or hold 100 in a row later.
    ([n] is 99.) *)
Lemma worker_loop_returns_gen (n : nat) (polls : list Poll) : ∀ c : Z,
  Z.of_nat n = 99%Z →
  (0 ≤ c < 100)%Z → no_cancel polls →
  (worker_loop (Looping c) polls).1 = Returned ↔
  (∃ post, polls = replicate (Z.to_nat (100 - c)) PollNilEmpty ++ post) ∨
  (∃ pre post, polls = pre ++ replicate (S n) PollNilEmpty ++ post).
Proof.
  intros c H99. revert c.
  induction polls as [|p polls IH]; intros c Hc Hn.
  - simpl. split; [done|]. intros [[post E]|(pre & post & E)].
    + replace (Z.to_nat (100 - c)) with (S (Z.to_nat (99 - c))) in E by lia. done.
    + destruct pre; done.
  - apply Forall_cons in Hn as [Hp Hn]. cbn [worker_loop].
    destruct p; [done| | |].
    + (* a request: the counter is reset *)
      cbn [worker_turn]. specialize (IH 0%Z ltac:(lia) Hn).
      destruct (worker_loop (Looping 0) polls) as [st reqs] eqn:E. cbn [fst] in *.
      rewrite IH. split.
      * intros [[post ->]|(pre & post & ->)]; right.
        -- exists [PollRequest req], post. do 3 f_equal. lia.
        -- by exists (PollRequest req :: pre), post.
      * intros [[post E']|(pre & post & E')].
        -- replace (Z.to_nat (100 - c)) with (S (Z.to_nat (99 - c))) in E' by lia. done.
        -- destruct pre as [|p pre]; [done|]. simplify_eq/=. right. eauto.
    + (* nil and empty: the counter goes up, or the worker returns *)
      rewrite worker_turn_empty by done. case_decide as Hc99.
      * subst. rewrite worker_loop_Returned. simpl. split; [|done].
        intros _. left. by exists polls.
      * specialize (IH (c + 1)%Z ltac:(lia) Hn).
        destruct (worker_loop (Looping (c + 1)) polls) as [st reqs] eqn:E. cbn [fst] in *.
        rewrite IH.
        replace (Z.to_nat (100 - c)) with (S (Z.to_nat (100 - (c + 1)))) by lia.
        split.
        -- intros [[post ->]|(pre & post & ->)].
           ++ left. by exists post.
           ++ right. by exists (PollNilEmpty :: pre), post.
        -- intros [[post E']|(pre & post & E')].
           ++ left. exists post. cbn [replicate app] in E'. by simplify_eq.
           ++ destruct pre as [|p pre].
              ** left. cbn [replicate app] in E'. injection E' as ->.
                 exists (replicate (n - Z.to_nat (100 - (c + 1))) PollNilEmpty ++ post).
                 rewrite app_assoc, <- replicate_add. do 2 f_equal. lia.
              ** right. simplify_eq/=. eauto.
    + (* nil, yet not empty: the counter is reset *)
      cbn [worker_turn]. specialize (IH 0%Z ltac:(lia) Hn).
      destruct (worker_loop (Looping 0) polls) as [st reqs] eqn:E. cbn [fst] in *.
      rewrite IH. split.
      * intros [[post ->]|(pre & post & ->)]; right.
        -- exists [PollNilNonEmpty], post. do 3 f_equal. lia.
        -- by exists (PollNilNonEmpty :: pre), post.
      * intros [[post E']|(pre & post & E')].
        -- replace (Z.to_nat (100 - c)) with (S (Z.to_nat (99 - c))) in E' by lia. done.
        -- destruct pre as [|p pre]; [done|]. simplify_eq/=. right. eauto.
Qed.

Lemma worker_loop_returns (polls : list Poll) (c : Z) :
  (0 ≤ c < 100)%Z → no_cancel polls →
  (worker_loop (Looping c) polls).1 = Returned ↔
  (∃ post, polls = replicate (Z.to_nat (100 - c)) PollNilEmpty ++ post) ∨
  (∃ pre post, polls = pre ++ replicate 100 PollNilEmpty ++ post).
Proof. apply (worker_loop_returns_gen 99). lia. Qed.

End WorkerFacts.

(** ** The redirect bound of a fetch *)

Section RedirectFacts.

Import downloader.

Context {World HTTPRequest : Type}.
Variable http_NewRequest : string → string → list Byte.byte → HTTPRequest + error.
Variable Header_Add : string → string → HTTPRequest → HTTPRequest.
Variable Header_Get : string → HTTPRequest → string.
Variable Header_Set : string → string → HTTPRequest → HTTPRequest.
Variable AddCookie : request.Cookie → HTTPRequest → HTTPRequest.
Variable requestURL : HTTPRequest → string.
Variable requestMethod : HTTPRequest → string.
Variable url_Parse : string → option error.
Variable roundTrip : string → Z → HTTPRequest → World → RoundTrip HTTPRequest * World.
Variable gzip_NewReader : HTTPResponse → option error.
Variable io_ReadAll : string → HTTPResponse → list Byte.byte + error.

Local Abbreviation client_do := (client_do requestURL requestMethod roundTrip).

(** With enough fuel for the requests [CheckRedirect] still allows,
    the loop returns, having made at most 10 requests in all (or one
    more than were made before it, if those were 10 or more). *)
Lemma client_do_returns (fuel : nat) : ∀ proxy timeout reqs req w,
  10 - length reqs < fuel →
  ∃ res made w',
    client_do fuel proxy timeout reqs req w = Some (res, made, w') ∧
    length reqs < length made ∧
    length made ≤ Nat.max 10 (S (length reqs)).
Proof.
  induction fuel as [|fuel IH]; intros proxy timeout reqs req w Hf; [lia|].
  cbn [downloader.client_do].
  destruct (roundTrip proxy timeout req w) as [[err|next|resp] w'].
  - eexists _, _, _. split; [done|]. rewrite length_app. simpl. lia.
  - unfold CheckRedirect. case_decide as Hlen.
    + eexists _, _, _. split; [done|]. rewrite length_app. simpl. lia.
    + rewrite length_app in Hlen. simpl in Hlen.
      destruct (IH proxy timeout (reqs ++ [req]) next w') as (res & made & w'' & E & H1 & H2).
      { rewrite length_app. simpl. lia. }
      rewrite length_app in H1, H2. simpl in H1, H2.
      eexists _, _, _. split; [exact E|]. lia.
  - eexists _, _, _. split; [done|]. rewrite length_app. simpl. lia.
Qed.

Local Abbreviation Download_trace :=
  (Download_trace http_NewRequest Header_Add Header_Get Header_Set AddCookie
     requestURL requestMethod url_Parse roundTrip gzip_NewReader io_ReadAll).
Local Abbreviation Download :=
  (Download http_NewRequest Header_Add Header_Get Header_Set AddCookie
     requestURL requestMethod url_Parse roundTrip gzip_NewReader io_ReadAll).

(** C7, as the code has it.  [Download] always returns: a response or
    an error value, never a panic.  It puts at most 10 requests on the
    wire, so it follows at most 9 redirects: the redirect that answers
    the n-th request of a fetch (the original request is the first) is
    followed when n < 10, and when n >= 10 the fetch fails with the
    error "stopped after 10 redirects", which [Download] returns
    wrapped as its error value.  The error of a failed fetch is the
    [Error] of the outcome that [DownloadAsync] delivers, with a nil
    response. *)
Theorem fetch_follows_redirects_until_ten_requests_are_made
    (d : HTTPDownloader) (req : request.Request) (w : World) :
  (∃ res made w',
     Download_trace d req w = Some (res, made, w') ∧
     Download d req w = (res, w') ∧
     length made ≤ 10 ∧ redirects_followed made ≤ 9 ∧
     DownloadAsync (Download d) req w = (mkResult req res, w') ∧
     ∀ err, res = inr err →
       mkResult req res = {| Request := req; Response := None; Error := Some err |}) ∧
  (∀ (next : HTTPRequest) (via : list HTTPRequest),
     CheckRedirect next via =
       if decide (10 ≤ length via) then Some (errors_New "stopped after 10 redirects")
       else None) ∧
  (∀ fuel proxy timeout reqs hreq w0 next w1,
     roundTrip proxy timeout hreq w0 = (Redirect next, w1) →
     (length (reqs ++ [hreq]) < 10 →
      client_do (S fuel) proxy timeout reqs hreq w0
      = client_do fuel proxy timeout (reqs ++ [hreq]) next w1) ∧
     (10 ≤ length (reqs ++ [hreq]) →
      client_do (S fuel) proxy timeout reqs hreq w0
      = Some (inr (url_Error (urlErrorOp requestMethod (reqs ++ [hreq]))
                     (requestURL next)
                     (errors_New "stopped after 10 redirects")),
              reqs ++ [hreq], w1))) ∧
  (∀ proxy timeout hreq w0 err made w1,
     buildHTTPRequest http_NewRequest Header_Add Header_Get Header_Set AddCookie d req
       = inl hreq →
     request.Proxy req = "" →
     client_Do requestURL requestMethod roundTrip proxy timeout hreq w0
       = Some (inr err, made, w1) →
     proxy = clientProxy d →
     timeout = (if decide (0 < request.Timeout req)%Z then request.Timeout req
                else 10 * 1000000000)%Z →
     Download d req w0 = (inr (fmt_Errorf "request failed" err), w1)).
Proof.
  split_and!.
  - assert (∃ res made w',
      Download_trace d req w = Some (res, made, w') ∧ length made ≤ 10)
      as (res & made & w' & E & Hlen).
    { unfold downloader.Download_trace.
      destruct (buildHTTPRequest _ _ _ _ _ d req) as [hreq|err].
      2:{ eexists _, _, _. split; [done|]. simpl. lia. }
      destruct (if decide (request.Proxy req ≠ "") then _ else _) as [proxy|err].
      2:{ eexists _, _, _. split; [done|]. simpl. lia. }
      unfold client_Do.
      destruct (client_do_returns 11 proxy
        (if decide (0 < request.Timeout req)%Z then request.Timeout req
         else (10 * 1000000000)%Z) [] hreq w ltac:(simpl; lia))
        as (res & made & w' & E & H1 & H2).
      rewrite E. cbn [mbind option_bind]. simpl in H2.
      destruct res as [httpResp|err]; [|by eexists _, _, _].
      destruct (if decide (contentEncoding httpResp = "gzip") then _ else _) as [err|];
        [by eexists _, _, _|].
      destruct (io_ReadAll _ httpResp) as [body|err]; by eexists _, _, _. }
    exists res, made, w'.
    assert (Download d req w = (res, w')) as ED.
    { unfold downloader.Download. by rewrite E. }
    split_and!; try done.
    + unfold redirects_followed. lia.
    + unfold DownloadAsync. by rewrite ED.
    + by intros err ->.
  - done.
  - intros fuel proxy timeout reqs hreq w0 next w1 Hrt. split; intros Hlen.
    + cbn [downloader.client_do]. rewrite Hrt. unfold CheckRedirect.
      by rewrite decide_False by lia.
    + cbn [downloader.client_do]. rewrite Hrt. unfold CheckRedirect.
      by rewrite decide_True by lia.
  - intros proxy timeout hreq w0 err made w1 Hb Hp Hdo -> ->.
    unfold Download, downloader.Download, downloader.Download_trace.
    rewrite Hb. rewrite decide_False by (by intros ?). rewrite Hdo. done.
Qed.

End RedirectFacts.

(** C7 as stated fails: a page behind ten redirects is not fetched.
    The fetch stops with the error on its tenth request, when it has
    followed nine redirects, not ten. *)
Lemma fetch_behind_ten_redirects_fails_after_nine :
  fetch_behind_ten_redirects =
    Some (inr (fmt_Errorf "request failed"
                 (url_Error "Get" "http://a/"
                    (errors_New "stopped after 10 redirects"))),
          replicate 10 "http://a/", 10) ∧
  downloader.redirects_followed (replicate 10 "http://a/") = 9.
Proof. split; vm_compute; reflexivity. Qed.

(** ** One outcome per request from DownloadBatch *)

Section BatchFacts.

Import downloader.

Context {World : Type}.
Variable Download : request.Request → World → (response.Response + error) * World.

Local Abbreviation batch_step := (batch_step Download).
Local Abbreviation batch_exec := (batch_exec Download).

Implicit Types (b : Batch World) (got : list AsyncResult).

Lemma mkResult_Request r res : Request (mkResult r res) = r.
Proof. by destruct res. Qed.

Lemma batch_inv_init reqs (w : World) : batch_inv reqs (DownloadBatch reqs w) [].
Proof.
  unfold batch_inv, DownloadBatch. simpl. split_and!; try done. lia.
Qed.

Lemma batch_inv_length reqs b got :
  batch_inv reqs b got →
  length got + length (resultChan b) + length (holding b) + length (launched b)
  = length reqs.
Proof.
  intros (_ & _ & Hp & _). apply Permutation_length in Hp.
  rewrite length_app, length_fmap, !length_app in Hp. lia.
Qed.

Lemma batch_step_inv reqs a b got :
  batch_inv reqs b got →
  batch_inv reqs (batch_step a b).1 (got ++ (batch_step a b).2).
Proof.
  intros Hinv. pose proof (batch_inv_length _ _ _ Hinv) as Hlen.
  destruct Hinv as (Hcap & Hwg & Hp & Hcl). unfold batch_inv.
  destruct a as [k|k| | |]; cbn [downloader.batch_step].
  - destruct (launched b !! k) as [r|] eqn:Ek.
    2:{ simpl. rewrite app_nil_r. by split_and!. }
    destruct (Download r (world b)) as [res w'] eqn:Ed. simpl.
    pose proof (delete_Permutation _ _ _ Ek) as Hd.
    pose proof (length_delete _ k (mk_is_Some _ _ Ek)) as Hld.
    pose proof (lookup_lt_Some _ _ _ Ek) as Hlk.
    rewrite app_nil_r. split_and!; try done.
    + rewrite length_app. simpl. lia.
    + rewrite <- Hp. rewrite !app_assoc, !fmap_app. simpl.
      rewrite mkResult_Request. rewrite <- !app_assoc. simpl.
      do 2 apply Permutation_app_head.
      etrans; [|apply Permutation_app_head; symmetry; exact Hd].
      simpl. done.
  - destruct (holding b !! k) as [result|] eqn:Ek.
    2:{ simpl. rewrite app_nil_r. by split_and!. }
    pose proof (delete_Permutation _ _ _ Ek) as Hd.
    pose proof (length_delete _ k (mk_is_Some _ _ Ek)) as Hld.
    pose proof (lookup_lt_Some _ _ _ Ek) as Hlk.
    case_decide as Hroom; simpl; rewrite app_nil_r.
    2:{ by split_and!. }
    split_and!; try done.
    + lia.
    + rewrite <- Hp. apply Permutation_app_tail. apply fmap_Permutation.
      apply Permutation_app_head. rewrite <- app_assoc. apply Permutation_app_head.
      simpl. symmetry. exact Hd.
  - destruct (finishing b) as [|f] eqn:Ef; simpl; rewrite app_nil_r.
    + split_and!; try done. lia.
    + split_and!; try done; [lia|]. intros Hc. specialize (Hcl Hc). lia.
  - case_decide as Hz; simpl; rewrite app_nil_r; by split_and!.
  - destruct (resultChan b) as [|result rest] eqn:Er; simpl.
    + rewrite app_nil_r. split_and!; try done. by rewrite Er.
    + split_and!; try done. rewrite <- Hp.
      apply Permutation_app_tail. apply fmap_Permutation.
      rewrite <- !app_assoc. done.
Qed.

Lemma batch_exec_inv reqs acts : ∀ b got,
  batch_inv reqs b got →
  batch_inv reqs (batch_exec acts b).1 (got ++ (batch_exec acts b).2).
Proof.
  induction acts as [|a acts IH]; intros b got Hinv.
  - simpl. by rewrite app_nil_r.
  - cbn [downloader.batch_exec].
    pose proof (batch_step_inv reqs a b got Hinv) as H1.
    destruct (batch_step a b) as [b1 got1]. specialize (IH b1 _ H1).
    destruct (batch_exec acts b1) as [b2 got2]. simpl in *.
    by rewrite app_assoc.
Qed.

Lemma batch_exec_app acts1 acts2 b :
  batch_exec (acts1 ++ acts2) b =
  ((batch_exec acts2 (batch_exec acts1 b).1).1,
   (batch_exec acts1 b).2 ++ (batch_exec acts2 (batch_exec acts1 b).1).2).
Proof.
  revert b. induction acts1 as [|a acts1 IH]; intros b.
  - simpl. by destruct (batch_exec acts2 b).
  - cbn [app downloader.batch_exec]. destruct (batch_step a b) as [b1 got1].
    rewrite IH. destruct (batch_exec acts1 b1) as [b2 got2]. simpl.
    destruct (batch_exec acts2 b2) as [b3 got3]. simpl. by rewrite app_assoc.
Qed.

Lemma batch_exec_single a b : (batch_exec [a] b).1 = (batch_step a b).1.
Proof. cbn [downloader.batch_exec]. by destruct (batch_step a b). Qed.

Lemma fetch_phase n : ∀ b,
  length (launched b) ≤ n →
  let b' := (batch_exec (replicate n (BFetch 0)) b).1 in
  launched b' = [] ∧
  length (holding b') = length (holding b) + length (launched b) ∧
  finishing b' = finishing b ∧ resultChan b' = resultChan b ∧
  capacity b' = capacity b ∧ wg b' = wg b.
Proof.
  induction n as [|n IH]; intros b Hn.
  - simpl. destruct (launched b); simpl in *; [by split_and!|lia].
  - cbn [replicate downloader.batch_exec downloader.batch_step].
    destruct (launched b) as [|r rest] eqn:El.
    + simpl. specialize (IH b ltac:(rewrite El; simpl; lia)).
      destruct (batch_exec (replicate n (BFetch 0)) b) as [b2 got2].
      simpl in *. rewrite El in IH. done.
    + simpl. destruct (Download r (world b)) as [res w'].
      set (b1 := {| capacity := capacity b; launched := rest |}).
      specialize (IH b1 ltac:(simpl in *; lia)).
      destruct (batch_exec (replicate n (BFetch 0)) b1) as [b2 got2].
      simpl in *. destruct IH as (? & Hh & ? & ? & ? & ?).
      split_and!; try done. rewrite Hh, length_app. simpl. lia.
Qed.

Lemma send_phase n : ∀ b,
  launched b = [] → length (holding b) ≤ n →
  length (resultChan b) + length (holding b) ≤ capacity b →
  let b' := (batch_exec (replicate n (BSend 0)) b).1 in
  launched b' = [] ∧ holding b' = [] ∧
  length (resultChan b') = length (resultChan b) + length (holding b) ∧
  finishing b' = finishing b + length (holding b) ∧ wg b' = wg b.
Proof.
  induction n as [|n IH]; intros b Hl Hn Hroom.
  - simpl. destruct (holding b); simpl in *; [split_and!; try done; lia|lia].
  - cbn [replicate downloader.batch_exec downloader.batch_step].
    destruct (holding b) as [|result rest] eqn:Eh.
    + simpl. specialize (IH b Hl ltac:(rewrite Eh; simpl; lia) ltac:(rewrite Eh; done)).
      destruct (batch_exec (replicate n (BSend 0)) b) as [b2 got2].
      simpl in *. rewrite Eh in IH. done.
    + simpl in *. rewrite decide_True by lia.
      set (b1 := {| capacity := capacity b; holding := rest |}).
      specialize (IH b1 Hl ltac:(simpl; lia)
                    ltac:(simpl; rewrite length_app; simpl; lia)).
      destruct (batch_exec (replicate n (BSend 0)) b1) as [b2 got2].
      simpl in *. destruct IH as (? & ? & Hr & Hf & ?).
      split_and!; try done; [rewrite Hr, length_app; simpl; lia|lia].
Qed.

Lemma done_phase n : ∀ b,
  finishing b ≤ n →
  let b' := (batch_exec (replicate n BDone) b).1 in
  finishing b' = 0 ∧ launched b' = launched b ∧ holding b' = holding b ∧
  resultChan b' = resultChan b ∧ wg b' = wg b - finishing b.
Proof.
  induction n as [|n IH]; intros b Hn.
  - simpl. split_and!; try done; lia.
  - cbn [replicate downloader.batch_exec downloader.batch_step].
    destruct (finishing b) as [|f] eqn:Ef.
    + specialize (IH b ltac:(lia)).
      destruct (batch_exec (replicate n BDone) b) as [b2 got2].
      simpl in *. rewrite Ef in IH. done.
    + set (b1 := {| capacity := capacity b; finishing := f |}).
      specialize (IH b1 ltac:(simpl; lia)).
      destruct (batch_exec (replicate n BDone) b1) as [b2 got2].
      simpl in *. destruct IH as (? & ? & ? & ? & Hw).
      split_and!; try done. lia.
Qed.

Lemma recv_phase n : ∀ b,
  length (resultChan b) ≤ n →
  let b' := (batch_exec (replicate n BRecv) b).1 in
  resultChan b' = [] ∧ closed b' = closed b.
Proof.
  induction n as [|n IH]; intros b Hn.
  - simpl. destruct (resultChan b); simpl in *; [done|lia].
  - cbn [replicate downloader.batch_exec downloader.batch_step].
    destruct (resultChan b) as [|result rest] eqn:Er.
    + specialize (IH b ltac:(rewrite Er; simpl; lia)).
      destruct (batch_exec (replicate n BRecv) b) as [b2 got2]. done.
    + set (b1 := {| capacity := capacity b; resultChan := rest |}).
      specialize (IH b1 ltac:(simpl in *; lia)).
      destruct (batch_exec (replicate n BRecv) b1) as [b2 got2]. done.
Qed.

(** Once every goroutine has run to its end, the channel is closed and
    empty, and the consumer holds one result per request. *)
Lemma finish_spec reqs b got :
  batch_inv reqs b got →
  let r := batch_exec (finish b) b in
  range_ended r.1 = true ∧ Request <$> (got ++ r.2) ≡ₚ reqs.
Proof.
  intros Hinv r.
  pose proof (batch_exec_inv reqs (finish b) b got Hinv) as Hend. fold r in Hend.
  pose proof (batch_inv_length _ _ _ Hinv) as Hlen.
  destruct Hinv as (Hcap & Hwg & _ & _).
  assert (range_ended r.1 = true) as Hre.
  { unfold r, finish. rewrite !batch_exec_app. cbn [fst snd].
    set (b1 := (batch_exec (replicate (length (launched b)) (BFetch 0)) b).1).
    destruct (fetch_phase _ b (le_n _)) as (Hl1 & Hh1 & Hf1 & Hr1 & Hc1 & Hw1).
    fold b1 in Hl1, Hh1, Hf1, Hr1, Hc1, Hw1.
    set (n2 := length (launched b) + length (holding b)).
    set (b2 := (batch_exec (replicate n2 (BSend 0)) b1).1).
    destruct (send_phase n2 b1 Hl1 ltac:(unfold n2; lia) ltac:(rewrite Hr1; lia))
      as (Hl2 & Hh2 & Hr2 & Hf2 & Hw2). fold b2 in Hl2, Hh2, Hr2, Hf2, Hw2.
    set (n3 := n2 + finishing b).
    set (b3 := (batch_exec (replicate n3 BDone) b2).1).
    destruct (done_phase n3 b2 ltac:(unfold n3, n2; lia)) as (Hf3 & Hl3 & Hh3 & Hr3 & Hw3).
    fold b3 in Hf3, Hl3, Hh3, Hr3, Hw3.
    assert (wg b3 = 0) as Hz by lia.
    rewrite batch_exec_single.
    cbn [downloader.batch_step]. rewrite decide_True by done.
    cbn [fst snd].
    set (b4 := {| capacity := capacity b3; closed := true |}).
    set (n5 := n2 + length (resultChan b)).
    destruct (recv_phase n5 b4 ltac:(simpl; unfold n5, n2; rewrite Hr3, Hr2, Hr1; lia))
      as (Hr5 & Hc5).
    unfold range_ended. rewrite Hr5, Hc5. done. }
  split; [done|].
  destruct Hend as (_ & Hwg' & Hp & Hcl).
  unfold range_ended in Hre. apply andb_true_iff in Hre as [Hc Hr].
  apply bool_decide_eq_true in Hr. specialize (Hcl Hc).
  assert (launched r.1 = [] ∧ holding r.1 = []) as [Hl Hh].
  { split; apply nil_length_inv; lia. }
  rewrite Hr, Hl, Hh, !app_nil_r in Hp. done.
Qed.

Lemma DownloadBatch_results_perm (acts : list BatchAction)
    (reqs : list request.Request) (w : World) :
  Request <$> (DownloadBatch_results Download acts reqs w).1 ≡ₚ reqs.
Proof.
  unfold DownloadBatch_results.
  pose proof (batch_exec_inv reqs acts _ [] (batch_inv_init reqs w)) as Hinv.
  destruct (batch_exec acts (DownloadBatch reqs w)) as [b1 got1]. simpl in Hinv.
  pose proof (finish_spec reqs b1 got1 Hinv) as [_ Hp].
  by destruct (batch_exec (finish b1) b1).
Qed.

(** Every outcome of a batch is what a fetch of its request returned. *)
Lemma fetched_step a b got :
  Forall (fetched Download) (got ++ resultChan b ++ holding b) →
  Forall (fetched Download)
    ((got ++ (batch_step a b).2) ++ resultChan (batch_step a b).1
       ++ holding (batch_step a b).1).
Proof.
  intros H. apply Forall_app in H as [Hg H]. apply Forall_app in H as [Hc Hh].
  destruct a as [k|k| | |]; cbn [downloader.batch_step].
  - destruct (launched b !! k) as [r|] eqn:Ek.
    2:{ simpl. rewrite app_nil_r. by rewrite !Forall_app. }
    destruct (Download r (world b)) as [res w'] eqn:Ed. simpl. rewrite app_nil_r.
    rewrite !Forall_app. split_and!; try done.
    apply Forall_singleton. exists (world b). by rewrite mkResult_Request, Ed.
  - destruct (holding b !! k) as [result|] eqn:Ek.
    2:{ simpl. rewrite app_nil_r. by rewrite !Forall_app. }
    case_decide; simpl; rewrite app_nil_r; rewrite !Forall_app; [|done].
    split_and!; try done.
    + apply Forall_singleton. eapply Forall_forall; [exact Hh|].
      by eapply list_elem_of_lookup_2.
    + apply Forall_forall. intros x Hx. eapply Forall_forall; [exact Hh|].
      by eapply list_elem_of_delete_inv.
  - destruct (finishing b); simpl; rewrite app_nil_r; by rewrite !Forall_app.
  - case_decide; simpl; rewrite app_nil_r; by rewrite !Forall_app.
  - destruct (resultChan b) as [|result rest] eqn:Er; simpl.
    + rewrite app_nil_r, Er. by rewrite !Forall_app.
    + apply Forall_cons in Hc as [Hr Hc]. rewrite !Forall_app. split_and!; try done.
      by apply Forall_singleton.
Qed.

Lemma fetched_exec acts : ∀ b got,
  Forall (fetched Download) (got ++ resultChan b ++ holding b) →
  Forall (fetched Download)
    ((got ++ (batch_exec acts b).2) ++ resultChan (batch_exec acts b).1
       ++ holding (batch_exec acts b).1).
Proof.
  induction acts as [|a acts IH]; intros b got H.
  - simpl. by rewrite app_nil_r.
  - cbn [downloader.batch_exec].
    pose proof (fetched_step a b got H) as H1.
    destruct (batch_step a b) as [b1 got1]. specialize (IH b1 _ H1).
    destruct (batch_exec acts b1) as [b2 got2]. cbn [fst snd] in *.
    by rewrite (app_assoc got).
Qed.

Lemma DownloadBatch_results_fetched (acts : list BatchAction)
    (reqs : list request.Request) (w : World) :
  Forall (fetched Download) (DownloadBatch_results Download acts reqs w).1.
Proof.
  unfold DownloadBatch_results.
  pose proof (fetched_exec acts (DownloadBatch reqs w) [] ltac:(by constructor)) as H1.
  destruct (batch_exec acts (DownloadBatch reqs w)) as [b1 got1]. cbn [fst snd app] in H1.
  pose proof (fetched_exec (finish b1) b1 got1 H1) as H2.
  destruct (batch_exec (finish b1) b1) as [b2 got2]. cbn [fst snd] in *.
  by apply Forall_app in H2 as [H2 _].
Qed.

End BatchFacts.

(** C2.  For every list [reqs] of N requests (N = 0 included, failing
    fetches included) and every interleaving of the goroutines of a
    [DownloadBatch] call: the result channel has capacity N; the
    results received, buffered or about to be sent, with the requests
    still being fetched, are the requests of the call, one result per
    request; never more than N results have been delivered; a goroutine
    about to send finds room in the buffer; and once the channel is
    closed every request has had its result delivered, N in all.  When
    the goroutines run to their end the channel is closed and drained,
    and the consumer has received exactly N results, one per request:
    that is what [DownloadBatch_results] returns. *)
Theorem DownloadBatch_delivers_one_outcome_per_request {World : Type}
    (Download : request.Request → World → (response.Response + error) * World)
    (reqs : list request.Request) (w : World)
    (acts : list downloader.BatchAction) :
  let r := downloader.batch_exec Download acts (downloader.DownloadBatch reqs w) in
  let b := r.1 in
  let got := r.2 in
  downloader.capacity b = length reqs ∧
  (downloader.Request <$> got ++ downloader.resultChan b ++ downloader.holding b)
    ++ downloader.launched b ≡ₚ reqs ∧
  length (got ++ downloader.resultChan b) ≤ length reqs ∧
  (downloader.holding b ≠ [] →
   length (downloader.resultChan b) < downloader.capacity b) ∧
  (downloader.closed b = true →
   downloader.launched b = [] ∧ downloader.holding b = [] ∧
   downloader.Request <$> (got ++ downloader.resultChan b) ≡ₚ reqs ∧
   length (got ++ downloader.resultChan b) = length reqs) ∧
  let f := downloader.batch_exec Download (downloader.finish b) b in
  downloader.range_ended f.1 = true ∧
  downloader.Request <$> (got ++ f.2) ≡ₚ reqs ∧
  length (got ++ f.2) = length reqs ∧
  (downloader.DownloadBatch_results Download acts reqs w).1 = got ++ f.2.
Proof.
  intros r b got.
  pose proof (batch_exec_inv Download reqs acts _ [] (batch_inv_init reqs w)) as Hinv.
  fold r in Hinv. simpl in Hinv. fold b got in Hinv.
  pose proof (batch_inv_length _ _ _ Hinv) as Hlen.
  pose proof (finish_spec Download reqs b got Hinv) as [Hre Hp].
  destruct Hinv as (Hcap & Hwg & Hperm & Hcl).
  split_and!; try done.
  - rewrite length_app. lia.
  - intros Hh.
    assert (length (downloader.holding b) ≠ 0) by (by intros E%nil_length_inv).
    lia.
  - intros Hc. specialize (Hcl Hc).
    assert (downloader.launched b = [] ∧ downloader.holding b = []) as [Hl Hh].
    { split; apply nil_length_inv; lia. }
    rewrite Hl, Hh, !app_nil_r in Hperm. rewrite Hl, Hh in Hlen. simpl in Hlen.
    split_and!; try done. rewrite length_app. lia.
  - intros f. split_and!; try done.
    + apply Permutation_length in Hp. by rewrite length_fmap in Hp.
    + unfold downloader.DownloadBatch_results, f. fold r. unfold b, got.
      destruct r as [b1 got1]. simpl.
      by destruct (downloader.batch_exec Download (downloader.finish b1) b1).
Qed.

(** ** The engine: routing, failures and the statistics *)

Section EngineFacts.

Import engine.

Context {World : Type}.
Variable Download : request.Request → World → (response.Response + error) * World.

Implicit Types (e : Engine World) (s : Spider World) (mws : list (Middleware World)).

(** *** Routing of a parse result *)

Lemma Engine_eta e :
  e = {| scheduler := scheduler e; pipelines := pipelines e;
         middlewares := middlewares e; concurrency := concurrency e;
         workers := workers e; resultPool := resultPool e;
         resultPoolCap := resultPoolCap e; resultSenders := resultSenders e;
         resultWorkers := resultWorkers e; currentSpider := currentSpider e;
         batches := batches e; ctxDone := ctxDone e; stats := stats e;
         world := world e |}.
Proof. by destruct e. Qed.

Lemma deliver_all xs : ∀ e, foldl (λ e x, deliver x e) e xs = handed xs e.
Proof.
  induction xs as [|x xs IH]; intros e.
  - unfold handed. simpl. rewrite drop_nil, take_nil, !app_nil_r.
    unfold set_resultSenders, set_resultPool. simpl. by rewrite <- Engine_eta.
  - simpl. rewrite IH. unfold deliver, handed.
    case_decide as Hroom.
    + unfold set_resultSenders, set_resultPool. simpl. rewrite length_app. simpl.
      destruct (resultPoolCap e - length (resultPool e)) as [|room] eqn:Er; [lia|].
      replace (resultPoolCap e - (length (resultPool e) + 1)) with room by lia.
      simpl. by rewrite <- !app_assoc.
    + unfold set_resultSenders, set_resultPool. simpl.
      replace (resultPoolCap e - length (resultPool e)) with 0 by lia.
      simpl. rewrite take_0, drop_0, !app_nil_r. by rewrite <- !app_assoc.
Qed.

Lemma deliver_requests (reqs : list request.Request) e :
  foldl (λ e req, deliver (AnyRequest req) e) e reqs = handed (AnyRequest <$> reqs) e.
Proof.
  rewrite <- deliver_all. revert e. induction reqs as [|r reqs IH]; intros e; [done|].
  simpl. by rewrite IH.
Qed.

Lemma handed_app xs ys e : handed ys (handed xs e) = handed (xs ++ ys) e.
Proof. by rewrite <- !deliver_all, foldl_app. Qed.

Lemma results_partition (results : list Any) :
  results ≡ₚ (AnyRequest <$> requests_of results) ++ items_of results ∧
  Forall (λ r, ∀ req, r ≠ AnyRequest req) (items_of results).
Proof.
  unfold requests_of, items_of.
  induction results as [|r results [IH1 IH2]]; [done|].
  destruct r; simpl.
  - split; [by constructor|done].
  - split; [|by constructor]. rewrite <- Permutation_middle. by constructor.
  - split; [|by constructor]. rewrite <- Permutation_middle. by constructor.
Qed.

(** *** The statistics *)

Lemma updateStats_total e :
  updateStats "request_total" 1 e =
  set_stats {| RequestsTotal := add64 (RequestsTotal (stats e)) 1;
               RequestsSuccess := RequestsSuccess (stats e);
               RequestsFailed := RequestsFailed (stats e);
               ItemsScraped := ItemsScraped (stats e) |} e.
Proof. reflexivity. Qed.

Lemma updateStats_success e :
  updateStats "request_success" 1 e =
  set_stats {| RequestsTotal := RequestsTotal (stats e);
               RequestsSuccess := add64 (RequestsSuccess (stats e)) 1;
               RequestsFailed := RequestsFailed (stats e);
               ItemsScraped := ItemsScraped (stats e) |} e.
Proof. reflexivity. Qed.

Lemma updateStats_failed e :
  updateStats "request_failed" 1 e =
  set_stats {| RequestsTotal := RequestsTotal (stats e);
               RequestsSuccess := RequestsSuccess (stats e);
               RequestsFailed := add64 (RequestsFailed (stats e)) 1;
               ItemsScraped := ItemsScraped (stats e) |} e.
Proof. reflexivity. Qed.

Lemma updateStats_items e :
  updateStats "items_scraped" 1 e =
  set_stats {| RequestsTotal := RequestsTotal (stats e);
               RequestsSuccess := RequestsSuccess (stats e);
               RequestsFailed := RequestsFailed (stats e);
               ItemsScraped := add64 (ItemsScraped (stats e)) 1 |} e.
Proof. reflexivity. Qed.

(** The middlewares installed for the run. *)
Variable installed : list (Middleware World).

Lemma counts_same_refl e : counts_same e e.
Proof. done. Qed.

Lemma counts_same_trans e1 e2 e3 :
  counts_same e1 e2 → counts_same e2 e3 → counts_same e1 e3.
Proof. unfold counts_same. intros (-> & -> & -> & ->) (-> & -> & -> & ->). done. Qed.

Lemma counts_same_handed xs e : counts_same e (handed xs e).
Proof. done. Qed.

Lemma processResultsConcurrently_closed (results : list Any) e :
  processResultsConcurrently results e =
  if decide (1 < length (requests_of results))
  then handed (items_of results)
         (set_batches (batches e ++ [requests_of results]) e)
  else handed ((AnyRequest <$> requests_of results) ++ items_of results) e.
Proof.
  unfold processResultsConcurrently. case_decide as Hnil.
  - destruct results; [|done]. simpl. by rewrite <- deliver_all.
  - case_decide.
    + by rewrite deliver_all.
    + by rewrite deliver_requests, deliver_all, handed_app.
Qed.

Lemma counts_same_route (results : list Any) e :
  counts_same e (processResultsConcurrently results e).
Proof. rewrite processResultsConcurrently_closed. by case_decide. Qed.

Lemma counts_same_processResult (result : Any) e :
  counts_same e (processResult result e).
Proof. by destruct result. Qed.

Lemma counts_same_enqueue_all (reqs : list request.Request) : ∀ e,
  counts_same e
    (foldl (λ e req,
              set_scheduler (scheduler.ChannelScheduler.Enqueue req (scheduler e)) e)
           e reqs).
Proof.
  induction reqs as [|r reqs IH]; intros e; [done|].
  simpl. eapply counts_same_trans; [|apply IH]. done.
Qed.

(** *** The context of a run is not cancelled before [Run] returns *)

Lemma ctxDone_updateStats key value e : ctxDone (updateStats key value e) = ctxDone e.
Proof. unfold updateStats. by repeat case_decide. Qed.

Lemma ctxDone_route (results : list Any) e :
  ctxDone (processResultsConcurrently results e) = ctxDone e.
Proof. rewrite processResultsConcurrently_closed. by case_decide. Qed.

Lemma ctxDone_processRequest req s e :
  ctxDone (processRequest Download req s e) = ctxDone e.
Proof.
  unfold processRequest.
  repeat (case_match; simpl; rewrite ?ctxDone_route, ?ctxDone_updateStats; simpl;
          rewrite ?ctxDone_updateStats; try done).
Qed.

Lemma ctxDone_processBatchResult (r : downloader.AsyncResult) e :
  ctxDone (processBatchResult r e) = ctxDone e.
Proof.
  unfold processBatchResult.
  repeat (case_match; simpl; rewrite ?ctxDone_route, ?ctxDone_updateStats; simpl;
          rewrite ?ctxDone_updateStats; try done).
Qed.

Lemma ctxDone_collectValid (requests : list request.Request) : ∀ e,
  ctxDone (collectValid requests e).2 = ctxDone e.
Proof.
  induction requests as [|req requests IH]; intros e; [done|].
  cbn [collectValid].
  destruct (applyRequestMiddlewares _ req _) as [req' w].
  specialize (IH (set_world w (updateStats "request_total" 1 e))).
  destruct (collectValid requests _) as [valid e2]. simpl in *.
  by rewrite IH.
Qed.

Lemma ctxDone_processBatch (acts : list downloader.BatchAction)
    (requests : list request.Request) e :
  ctxDone (processBatchRequestsDirectly Download acts requests e) = ctxDone e.
Proof.
  unfold processBatchRequestsDirectly. case_decide; [done|].
  pose proof (ctxDone_collectValid requests e) as Hc.
  destruct (collectValid requests e) as [validReqs e1]. simpl in Hc.
  case_decide; [done|].
  destruct (downloader.DownloadBatch_results _ _ _ _) as [results w].
  rewrite <- Hc. change (ctxDone e1) with (ctxDone (set_world w e1)).
  generalize (set_world w e1). clear.
  induction results as [|r results IH]; intros e; [done|].
  simpl. by rewrite IH, ctxDone_processBatchResult.
Qed.

Lemma ctxDone_processResult (result : Any) e :
  ctxDone (processResult result e) = ctxDone e.
Proof. by destruct result. Qed.

Lemma ctxDone_step s (a : Action) e : ctxDone (step Download s a e) = ctxDone e.
Proof.
  destruct a as [i| |k|k acts|k|]; cbn [step].
  - unfold worker_iter. destruct (workers e !! i) as [[c|]|]; try done.
    destruct (observe e) as [p q]. destruct (worker_turn c p) as [st [req|]]; [|done].
    by rewrite ctxDone_processRequest.
  - destruct (ctxDone e) eqn:E; [done|].
    destruct (resultPool e); [done|]. by rewrite ctxDone_processResult.
  - destruct (resultSenders e !! k); [|done]. by case_decide.
  - destruct (batches e !! k); [|done]. by rewrite ctxDone_processBatch.
  - done.
  - done.
Qed.

Lemma ctxDone_exec s (acts : list Action) : ∀ e,
  ctxDone (exec Download s acts e) = ctxDone e.
Proof.
  unfold exec. induction acts as [|a acts IH]; intros e; [done|].
  simpl. by rewrite IH, ctxDone_step.
Qed.

Lemma ctxDone_Run_start s e e1 : Run_start s e = inl e1 → ctxDone e1 = ctxDone e.
Proof.
  unfold Run_start. intros E.
  destruct (openPipelines (pipelines e) (world e)) as [[err|] w]; [done|].
  destruct (StartRequests s _) as [startRequests w1]. simplify_eq. simpl.
  change (ctxDone e)
    with (ctxDone (set_world w1 (set_currentSpider (Some s) (set_world w e)))).
  generalize (set_world w1 (set_currentSpider (Some s) (set_world w e))).
  induction startRequests as [|r rs IH]; intros e0; [done|].
  simpl. by rewrite IH.
Qed.

(** *** What a batch call does to the counters *)

Lemma collectValid_counts (requests : list request.Request) : ∀ e,
  let e' := (collectValid requests e).2 in
  RequestsTotal (stats e')
    = (if decide (requests = []) then RequestsTotal (stats e)
       else wrap64 (RequestsTotal (stats e) + Z.of_nat (length requests))) ∧
  RequestsSuccess (stats e') = RequestsSuccess (stats e) ∧
  RequestsFailed (stats e') = RequestsFailed (stats e).
Proof.
  induction requests as [|req requests IH]; intros e; cbv zeta; [done|].
  cbn [collectValid].
  destruct (applyRequestMiddlewares _ req _) as [req' w].
  specialize (IH (set_world w (updateStats "request_total" 1 e))). cbv zeta in IH.
  destruct (collectValid requests _) as [valid e2]. cbn [snd] in *.
  destruct IH as (HT & HS & HF).
  rewrite updateStats_total in HT, HS, HF.
  cbn [set_world set_stats stats RequestsTotal RequestsSuccess RequestsFailed]
    in HT, HS, HF.
  rewrite decide_False by done. split_and!; [|exact HS|exact HF].
  rewrite HT. unfold add64. case_decide as Hn.
  - by subst.
  - rewrite wrap64_add_l. f_equal. cbn [length]. lia.
Qed.

Lemma processBatchResult_counts (r : downloader.AsyncResult) e :
  let e' := processBatchResult r e in
  RequestsTotal (stats e') = RequestsTotal (stats e) ∧
  wrap64 (RequestsSuccess (stats e') + RequestsFailed (stats e'))
    = wrap64 (RequestsSuccess (stats e) + RequestsFailed (stats e) + 1).
Proof.
  cbv zeta.
  assert (∀ e1, counts_same (updateStats "request_failed" 1 e) e1 →
    RequestsTotal (stats e1) = RequestsTotal (stats e) ∧
    wrap64 (RequestsSuccess (stats e1) + RequestsFailed (stats e1))
      = wrap64 (RequestsSuccess (stats e) + RequestsFailed (stats e) + 1)) as Hf.
  { intros e1 (HT & HS & HF & _). rewrite HT, HS, HF. rewrite updateStats_failed.
    cbn [set_stats stats RequestsTotal RequestsSuccess RequestsFailed].
    split; [done|]. unfold add64. rewrite wrap64_add_r. f_equal. lia. }
  assert (∀ e1, counts_same (updateStats "request_success" 1 e) e1 →
    RequestsTotal (stats e1) = RequestsTotal (stats e) ∧
    wrap64 (RequestsSuccess (stats e1) + RequestsFailed (stats e1))
      = wrap64 (RequestsSuccess (stats e) + RequestsFailed (stats e) + 1)) as Hs.
  { intros e1 (HT & HS & HF & _). rewrite HT, HS, HF. rewrite updateStats_success.
    cbn [set_stats stats RequestsTotal RequestsSuccess RequestsFailed].
    split; [done|]. unfold add64. rewrite wrap64_add_l. f_equal. lia. }
  unfold processBatchResult.
  destruct (downloader.Error r); [by apply Hf|].
  destruct (downloader.Response r) as [resp|]; [|by apply Hf].
  set (e2 := updateStats "request_success" 1 e).
  destruct (applyResponseMiddlewares (middlewares e2) _ resp (world e2)) as [[resp'|] w3].
  2:{ by apply Hs. }
  destruct (currentSpider (set_world w3 e2)) as [sp|].
  2:{ by apply Hs. }
  destruct (Parse sp resp' _) as [results w4].
  apply Hs. eapply counts_same_trans; [|apply counts_same_route]. done.
Qed.

Lemma batch_results_counts (results : list downloader.AsyncResult) : ∀ e,
  let e' := foldl (λ e r, processBatchResult r e) e results in
  RequestsTotal (stats e') = RequestsTotal (stats e) ∧
  wrap64 (RequestsSuccess (stats e') + RequestsFailed (stats e'))
    = wrap64 (RequestsSuccess (stats e) + RequestsFailed (stats e)
              + Z.of_nat (length results)).
Proof.
  induction results as [|r results IH]; intros e; cbv zeta.
  - simpl. split; [done|]. f_equal. lia.
  - cbn [foldl]. destruct (IH (processBatchResult r e)) as [HT HS].
    destruct (processBatchResult_counts r e) as [HT1 HS1]. cbv zeta in *.
    rewrite HT, HT1. split; [done|]. rewrite HS.
    rewrite <- wrap64_add_l, HS1, wrap64_add_l. f_equal. cbn [length]. lia.
Qed.

(** *** The requests dropped are the difference of the counters *)

Local Abbreviation owes := (owes installed).

Lemma owes_same d k e e' : counts_same e e' → owes d k e → owes d k e'.
Proof.
  intros (HT & HS & HF & HM) (Hm & E).
  split; [by rewrite HM|]. by rewrite HT, HS, HF.
Qed.

Lemma owes_total d k e :
  owes d k e → owes d (k + 1) (updateStats "request_total" 1 e).
Proof.
  intros (Hm & E). split; [done|].
  rewrite updateStats_total. simpl.
  rewrite E. unfold add64. rewrite wrap64_add_l. f_equal. lia.
Qed.

Lemma owes_success d k e :
  owes d (k + 1) e → owes d k (updateStats "request_success" 1 e).
Proof.
  intros (Hm & E). split; [done|].
  rewrite updateStats_success. simpl. rewrite E. unfold add64.
  replace (wrap64 (RequestsSuccess (stats e) + 1) + RequestsFailed (stats e) + d + k)%Z
    with (wrap64 (RequestsSuccess (stats e) + 1) + (RequestsFailed (stats e) + d + k))%Z
    by lia.
  rewrite wrap64_add_l. f_equal. lia.
Qed.

Lemma owes_failed d k e :
  owes d (k + 1) e → owes d k (updateStats "request_failed" 1 e).
Proof.
  intros (Hm & E). split; [done|].
  rewrite updateStats_failed. simpl. rewrite E. unfold add64.
  replace (RequestsSuccess (stats e) + wrap64 (RequestsFailed (stats e) + 1) + d + k)%Z
    with (wrap64 (RequestsFailed (stats e) + 1) + (RequestsSuccess (stats e) + d + k))%Z
    by lia.
  rewrite wrap64_add_l. f_equal. lia.
Qed.

(** A request counted and then dropped is owed for good. *)
Lemma owes_shift d k e : owes d (k + 1) e → owes (d + 1) k e.
Proof. intros (Hm & E). split; [done|]. rewrite E. f_equal. lia. Qed.

Lemma owes_eq d d' k k' e : d = d' → k = k' → owes d k e → owes d' k' e.
Proof. by intros -> ->. Qed.

Lemma owes_processRequest d req s e :
  owes d 0 e →
  owes (d + Z.of_nat (dropped_alone req e)) 0 (processRequest Download req s e).
Proof.
  intros H0. unfold processRequest, dropped_alone.
  apply owes_total in H0. simpl in H0.
  set (e1 := updateStats "request_total" 1 e) in *.
  change (middlewares e) with (middlewares e1). change (world e) with (world e1).
  destruct (applyRequestMiddlewares (middlewares e1) req (world e1)) as [[req1|] w1] eqn:Emw;
    cbn [fst].
  2:{ apply (owes_same _ _ e1); [done|]. by apply owes_shift. }
  rewrite Z.add_0_r.
  destruct (Download req1 w1) as [[resp|err] w2].
  2:{ apply owes_failed. by apply (owes_same _ _ e1). }
  set (e2 := updateStats "request_success" 1 (set_world w2 e1)).
  assert (owes d 0 e2) as H2.
  { apply owes_success. by apply (owes_same _ _ e1). }
  destruct (applyResponseMiddlewares (middlewares e2) req1 resp (world e2)) as [[resp'|] w3].
  2:{ by apply (owes_same _ _ e2). }
  destruct (Parse s resp' w3) as [results w4].
  eapply owes_same; [|exact H2].
  eapply counts_same_trans; [|apply counts_same_route]. done.
Qed.

Lemma owes_processBatchResult d k (asyncResult : downloader.AsyncResult) e :
  owes d (k + 1) e → owes d k (processBatchResult asyncResult e).
Proof.
  intros H1. unfold processBatchResult.
  destruct (downloader.Error asyncResult); [by apply owes_failed|].
  destruct (downloader.Response asyncResult) as [resp|]; [|by apply owes_failed].
  set (e2 := updateStats "request_success" 1 e).
  assert (owes d k e2) as H2 by by apply owes_success.
  destruct (applyResponseMiddlewares (middlewares e2) _ resp (world e2)) as [[resp'|] w3].
  2:{ by apply (owes_same _ _ e2). }
  destruct (currentSpider (set_world w3 e2)) as [sp|].
  2:{ by apply (owes_same _ _ e2). }
  destruct (Parse sp resp' _) as [results w4].
  eapply owes_same; [|exact H2].
  eapply counts_same_trans; [|apply counts_same_route]. done.
Qed.

Lemma owes_batch_results d (results : list downloader.AsyncResult) : ∀ k e,
  owes d (k + Z.of_nat (length results)) e →
  owes d k (foldl (λ e r, processBatchResult r e) e results).
Proof.
  induction results as [|r results IH]; intros k e H.
  - simpl in *. by rewrite Z.add_0_r in H.
  - simpl. apply IH. apply owes_processBatchResult.
    replace (k + Z.of_nat (length results) + 1)%Z
      with (k + Z.of_nat (length (r :: results)))%Z by (simpl; lia). done.
Qed.

Lemma collectValid_length (requests : list request.Request) : ∀ e,
  length (collectValid requests e).1 ≤ length requests.
Proof.
  induction requests as [|req requests IH]; intros e; [done|].
  cbn [collectValid].
  destruct (applyRequestMiddlewares _ req _) as [req' w].
  specialize (IH (set_world w (updateStats "request_total" 1 e))).
  destruct (collectValid requests _) as [valid e2]. cbn [fst] in *.
  rewrite length_app. destruct req'; cbn; lia.
Qed.

Lemma owes_collectValid (requests : list request.Request) : ∀ d k e,
  owes d k e →
  owes (d + Z.of_nat (dropped_of_batch requests e))
       (k + Z.of_nat (length (collectValid requests e).1))
       (collectValid requests e).2.
Proof.
  unfold dropped_of_batch.
  induction requests as [|req requests IH]; intros d k e H.
  - simpl. by rewrite !Z.add_0_r.
  - pose proof (collectValid_length (req :: requests) e) as Hle.
    cbn [collectValid] in *.
    apply owes_total in H.
    set (e1 := updateStats "request_total" 1 e) in *.
    destruct (applyRequestMiddlewares (middlewares e1) req (world e1)) as [[req1|] w1] eqn:Emw.
    + specialize (IH d (k + 1)%Z (set_world w1 e1) ltac:(by apply (owes_same _ _ e1))).
      pose proof (collectValid_length requests (set_world w1 e1)) as Hle1.
      destruct (collectValid requests (set_world w1 e1)) as [valid e2].
      cbn [fst snd from_option app length] in *.
      eapply owes_eq; [| |exact IH]; lia.
    + assert (owes (d + 1) k e1) as H1 by by apply owes_shift.
      specialize (IH (d + 1)%Z k (set_world w1 e1) ltac:(by apply (owes_same _ _ e1))).
      pose proof (collectValid_length requests (set_world w1 e1)) as Hle1.
      destruct (collectValid requests (set_world w1 e1)) as [valid e2].
      cbn [fst snd from_option app length] in *.
      eapply owes_eq; [| |exact IH]; lia.
Qed.

Lemma owes_processBatch d (acts : list downloader.BatchAction)
    (requests : list request.Request) e :
  owes d 0 e →
  owes (d + Z.of_nat (dropped_of_batch requests e)) 0
       (processBatchRequestsDirectly Download acts requests e).
Proof.
  intros H0. unfold processBatchRequestsDirectly.
  case_decide as Hn.
  { unfold dropped_of_batch. destruct requests; [|done]. simpl. by rewrite Z.add_0_r. }
  pose proof (owes_collectValid requests d 0 e H0) as H1.
  destruct (collectValid requests e) as [validReqs e1] eqn:Ec.
  assert (dropped_of_batch requests e = length requests - length validReqs) as Ed.
  { unfold dropped_of_batch. by rewrite Ec. }
  cbn [fst snd] in H1. rewrite Ed in *.
  case_decide as Hv.
  { eapply owes_eq; [reflexivity| |exact H1]. rewrite Hv. done. }
  pose proof (DownloadBatch_results_perm Download acts validReqs (world e1)) as Hp.
  destruct (downloader.DownloadBatch_results Download acts validReqs (world e1))
    as [results w'].
  apply Permutation_length in Hp. simpl in Hp. rewrite length_fmap in Hp.
  apply owes_batch_results. rewrite Hp.
  by apply (owes_same _ _ e1).
Qed.

Lemma owes_processResult d (result : Any) e :
  owes d 0 e → owes d 0 (processResult result e).
Proof. apply owes_same, counts_same_processResult. Qed.

Lemma owes_step d s (a : Action) e :
  owes d 0 e →
  owes (d + Z.of_nat (dropped_in_step a e)) 0 (step Download s a e).
Proof.
  intros H0. destruct a as [i| |k|k acts|k|]; cbn [step dropped_in_step];
    rewrite ?Z.add_0_r.
  - unfold worker_iter.
    destruct (workers e !! i) as [[c|]|]; rewrite ?Z.add_0_r; try done.
    destruct (observe e) as [p q]. cbn [fst].
    destruct (worker_turn c p) as [st [req|]]; cbn [snd]; rewrite ?Z.add_0_r.
    + change (dropped_alone req e)
        with (dropped_alone req (set_workers (<[i:=st]> (workers e)) (set_scheduler q e))).
      apply owes_processRequest. by eapply owes_same.
    + by eapply owes_same.
  - destruct (ctxDone e); [done|].
    destruct (resultPool e) as [|result rest]; [done|].
    apply owes_processResult. by eapply owes_same.
  - destruct (resultSenders e !! k); [|done].
    case_decide; [|done]. by eapply owes_same.
  - destruct (batches e !! k) as [requests|]; rewrite ?Z.add_0_r; [|done].
    apply owes_processBatch. by eapply owes_same.
  - by eapply owes_same.
  - by eapply owes_same.
Qed.

Lemma owes_exec s (acts : list Action) : ∀ d e,
  owes d 0 e →
  owes (d + Z.of_nat (dropped_in Download s acts e)) 0 (exec Download s acts e).
Proof.
  unfold exec. induction acts as [|a acts IH]; intros d e H0.
  - simpl. by rewrite Z.add_0_r.
  - cbn [foldl dropped_in]. eapply owes_eq; [|reflexivity|].
    2:{ apply IH. apply owes_step. exact H0. }
    lia.
Qed.

Lemma owes_Run s (acts : list Action) e e' :
  Run Download s acts e = Some (inl e') →
  owes 0 0 e → owes (Z.of_nat (dropped_in_run Download s acts e)) 0 e'.
Proof.
  unfold Run, dropped_in_run. intros E H0.
  destruct (Run_start s e) as [e1|err] eqn:E1; [|done].
  assert (owes 0 0 e1) as H1.
  { unfold Run_start in E1.
    destruct (openPipelines (pipelines e) (world e)) as [[err|] w]; [done|].
    destruct (StartRequests s _) as [startRequests w1]. simplify_eq.
    eapply owes_same; [|exact H0].
    eapply (counts_same_trans _ (set_world w1 (set_currentSpider (Some s) (set_world w e))));
      [done|].
    eapply counts_same_trans; [apply counts_same_enqueue_all|done]. }
  destruct (all_returned _); [|done].
  destruct (Run_end _) as [e2|] eqn:E2; simplify_eq/=.
  pose proof (owes_exec s acts 0 e1 H1) as H2. rewrite Z.add_0_l in H2.
  unfold Run_end in E2. case_decide; [|done]. simplify_eq.
  eapply owes_same; [|exact H2].
  assert (∀ (results : list Any) e0,
            counts_same e0 (foldl (λ e result, processResult result e) e0 results)) as Hr.
  { induction results as [|r results IH]; intros e0; [done|].
    simpl. eapply counts_same_trans; [apply counts_same_processResult|apply IH]. }
  eapply counts_same_trans; [|done].
  eapply (counts_same_trans _ (set_resultPool [] (exec Download s acts e1))); [done|].
  apply Hr.
Qed.

(** Middlewares that never return nil drop nothing. *)
Lemma nodrop_apply mws req (w : World) :
  nodrop mws → (applyRequestMiddlewares mws req w).1 ≠ None.
Proof.
  revert req w. induction mws as [|mw mws IH]; intros req w Hnd; [done|].
  simpl. destruct (ProcessRequest mw req w) as [[req'|] w1] eqn:Emw.
  - apply IH. intros m Hm. apply Hnd. by right.
  - exfalso. apply (Hnd mw (list_elem_of_here _ _) req w). by rewrite Emw.
Qed.

Lemma nodrop_collectValid (requests : list request.Request) : ∀ e,
  nodrop (middlewares e) →
  length (collectValid requests e).1 = length requests.
Proof.
  induction requests as [|req requests IH]; intros e Hnd; [done|].
  cbn [collectValid].
  pose proof (nodrop_apply (middlewares e) req (world e) Hnd) as Hne.
  change (middlewares (updateStats "request_total" 1 e)) with (middlewares e).
  change (world (updateStats "request_total" 1 e)) with (world e).
  destruct (applyRequestMiddlewares (middlewares e) req (world e)) as [[req1|] w1]; [|done].
  specialize (IH (set_world w1 (updateStats "request_total" 1 e)) Hnd).
  destruct (collectValid requests _) as [valid e2]. cbn in *. by rewrite IH.
Qed.

Lemma nodrop_step (a : Action) e :
  nodrop (middlewares e) → dropped_in_step a e = 0.
Proof.
  intros Hnd. destruct a as [i| |k|k acts|k|]; cbn [dropped_in_step]; try done.
  - destruct (workers e !! i) as [[c|]|]; try done.
    destruct ((worker_turn c (observe e).1).2) as [req|]; [|done].
    unfold dropped_alone.
    pose proof (nodrop_apply (middlewares e) req (world e) Hnd) as Hne.
    by destruct ((applyRequestMiddlewares (middlewares e) req (world e)).1).
  - destruct (batches e !! k) as [requests|]; [|done].
    unfold dropped_of_batch. rewrite nodrop_collectValid by done. lia.
Qed.

Lemma nodrop_exec s (acts : list Action) : ∀ d e,
  owes d 0 e → nodrop installed → dropped_in Download s acts e = 0.
Proof.
  induction acts as [|a acts IH]; intros d e H0 Hnd; [done|].
  cbn [dropped_in].
  rewrite nodrop_step by (by rewrite (proj1 H0)).
  eapply IH; [|done]. by apply owes_step.
Qed.

End EngineFacts.


(** C8.  When the request middlewares let a task through and its fetch
    fails, [processRequest] leaves the engine as it was but for the
    counters, total and failed each one higher, and the world as the
    fetch left it: nothing is parsed, routed or enqueued.  The worker
    that dequeued the task is back in its loop with its counter at
    zero, and the scheduler holds what the dequeue left.  On the batch
    path a result that carries an error raises the failure counter by
    one and does nothing else. *)
Theorem fetch_failure_is_counted_once_and_ends_the_cycle {World : Type}
    (Download : request.Request → World → (response.Response + error) * World)
    (req req1 : request.Request) (s : engine.Spider World)
    (e : engine.Engine World) (w1 w2 : World) (err : error) :
  engine.applyRequestMiddlewares (engine.middlewares e) req (engine.world e)
    = (Some req1, w1) →
  Download req1 w1 = (inr err, w2) →
  engine.processRequest Download req s e =
    engine.set_world w2
      (engine.set_stats
         {| engine.RequestsTotal := add64 (engine.RequestsTotal (engine.stats e)) 1;
            engine.RequestsSuccess := engine.RequestsSuccess (engine.stats e);
            engine.RequestsFailed := add64 (engine.RequestsFailed (engine.stats e)) 1;
            engine.ItemsScraped := engine.ItemsScraped (engine.stats e) |} e) ∧
  (∀ (i : nat) (c : Z) (q : scheduler.ChannelScheduler.t),
     engine.workers e !! i = Some (engine.Looping c) →
     engine.observe e = (engine.PollRequest req, q) →
     let e' := engine.worker_iter Download i s e in
     engine.workers e' !! i = Some (engine.Looping 0) ∧
     engine.scheduler e' = q ∧
     engine.resultPool e' = engine.resultPool e ∧
     engine.resultSenders e' = engine.resultSenders e ∧
     engine.batches e' = engine.batches e ∧
     engine.world e' = w2 ∧
     engine.RequestsFailed (engine.stats e')
       = add64 (engine.RequestsFailed (engine.stats e)) 1 ∧
     engine.RequestsSuccess (engine.stats e')
       = engine.RequestsSuccess (engine.stats e)) ∧
  (∀ (e0 : engine.Engine World) (r : request.Request)
     (resp : option response.Response) (err0 : error),
     engine.processBatchResult
       {| downloader.Request := r; downloader.Response := resp;
          downloader.Error := Some err0 |} e0
     = engine.updateStats "request_failed" 1 e0).
Proof.
  intros Hmw Hdl.
  assert (∀ e0 : engine.Engine World,
    engine.middlewares e0 = engine.middlewares e → engine.world e0 = engine.world e →
    engine.processRequest Download req s e0 =
    engine.set_world w2
      (engine.set_stats
         {| engine.RequestsTotal := add64 (engine.RequestsTotal (engine.stats e0)) 1;
            engine.RequestsSuccess := engine.RequestsSuccess (engine.stats e0);
            engine.RequestsFailed := add64 (engine.RequestsFailed (engine.stats e0)) 1;
            engine.ItemsScraped := engine.ItemsScraped (engine.stats e0) |} e0)) as Hpr.
  { intros e0 Hm Hw. unfold engine.processRequest.
    change (engine.middlewares (engine.updateStats "request_total" 1 e0))
      with (engine.middlewares e0).
    change (engine.world (engine.updateStats "request_total" 1 e0))
      with (engine.world e0).
    rewrite Hm, Hw, Hmw, Hdl. reflexivity. }
  split_and!.
  - by apply Hpr.
  - intros i c q Hi Hobs e'. unfold e', engine.worker_iter.
    rewrite Hi, Hobs. cbn [engine.worker_turn].
    rewrite Hpr by done. simpl.
    split_and!; try done.
    apply list_lookup_insert_eq. by eapply lookup_lt_Some.
  - done.
Qed.

(** *** A run of one request whose fetch fails *)

Lemma fetch_failure_is_counted_once_and_ends_the_cycle_witness :
  let req := request.NewRequest "GET" "http://a/" in
  let e := engine.NewEngine tt in
  engine.applyRequestMiddlewares (engine.middlewares e) req (engine.world e)
    = (Some req, tt) ∧
  refused req tt = (inr (errors_New "connection refused"), tt) ∧
  engine.stats (engine.processRequest refused req one_page e)
    = {| engine.RequestsTotal := 1; engine.RequestsSuccess := 0;
         engine.RequestsFailed := 1; engine.ItemsScraped := 0 |}.
Proof.
  intros req e.
  assert (engine.applyRequestMiddlewares (engine.middlewares e) req (engine.world e)
          = (Some req, tt)) as H1 by reflexivity.
  assert (refused req tt = (inr (errors_New "connection refused"), tt)) as H2
    by reflexivity.
  split; [exact H1|]. split; [exact H2|].
  rewrite (proj1 (fetch_failure_is_counted_once_and_ends_the_cycle
                    refused req req one_page e tt tt _ H1 H2)).
  reflexivity.
Defined.




(** C4.  While its context is not cancelled, a worker returns from its
    polling loop exactly when it has made 100 polls in a row that each
    found the queue empty (nil from [Dequeue], true from [Empty()]).  A
    poll that yields a request, and one that yields nil while the queue
    reports non-empty, set the counter of consecutive empty polls back
    to zero; an empty poll raises it by one, and the worker returns on
    the poll that brings it to 100.  During a run the context is not
    cancelled ([Run] cancels it on its return), so no poll of a worker
    of a run finds it cancelled. *)
Theorem worker_returns_after_100_consecutive_empty_polls (polls : list engine.Poll) :
  no_cancel polls →
  ((engine.worker polls).1 = engine.Returned ↔
   ∃ pre post, polls = pre ++ replicate 100 engine.PollNilEmpty ++ post) ∧
  (∀ (c : Z) (req : request.Request),
     engine.worker_turn c (engine.PollRequest req) = (engine.Looping 0, Some req)) ∧
  (∀ c : Z, engine.worker_turn c engine.PollNilNonEmpty = (engine.Looping 0, None)) ∧
  (∀ c : Z, (0 ≤ c < 100)%Z →
     engine.worker_turn c engine.PollNilEmpty =
       if decide (c = 99)%Z then (engine.Returned, None)
       else (engine.Looping (c + 1), None)) ∧
  (∀ (World : Type)
     (Download : request.Request → World → (response.Response + error) * World)
     (s : engine.Spider World) (acts : list engine.Action)
     (e e1 : engine.Engine World),
     engine.ctxDone e = false →
     engine.Run_start s e = inl e1 →
     (engine.observe (engine.exec Download s acts e1)).1 ≠ engine.PollCtxDone).
Proof.
  intros Hn. split_and!; try done.
  - unfold engine.worker. rewrite (worker_loop_returns polls 0 ltac:(lia) Hn).
    split; [|by right]. intros [[post ->]|H]; [|done]. by exists [], post.
  - intros c Hc. by apply worker_turn_empty.
  - intros World Download s acts e e1 Hctx Hstart. unfold engine.observe.
    rewrite ctxDone_exec, (ctxDone_Run_start s e e1 Hstart), Hctx.
    destruct (scheduler.ChannelScheduler.Dequeue _) as [[req|] q]; [done|].
    by destruct (scheduler.ChannelScheduler.Empty q).
Qed.

(** A worker that polls an empty queue 100 times in a row. *)
Lemma worker_returns_after_100_consecutive_empty_polls_witness :
  no_cancel (replicate 100 engine.PollNilEmpty) ∧
  ((engine.worker (replicate 100 engine.PollNilEmpty)).1 = engine.Returned ↔
   ∃ pre post, replicate 100 engine.PollNilEmpty
               = pre ++ replicate 100 engine.PollNilEmpty ++ post).
Proof.
  assert (no_cancel (replicate 100 engine.PollNilEmpty)) as Hn.
  { apply Forall_replicate. discriminate. }
  split; [exact Hn|].
  exact (proj1 (worker_returns_after_100_consecutive_empty_polls _ Hn)).
Defined.

(** ** Order of the lock-guarded schedulers *)

Section OrderFacts.

Import scheduler.

Lemma FIFO_order ops : ∀ s : FIFOScheduler.t,
  ∃ s' out, run ops s = Some (s', out) ∧
    FIFOScheduler.queue s ++ enqueues ops = out ++ FIFOScheduler.queue s'.
Proof.
  induction ops as [|[req|] ops IH]; intros s.
  - exists s, []. by rewrite app_nil_r.
  - destruct (IH (FIFOScheduler.Enqueue req s)) as (s' & out & Hrun & E).
    exists s', out. split; [exact Hrun|].
    rewrite <- E. unfold enqueues. simpl. by rewrite <- app_assoc.
  - destruct s as [[|r q]].
    + destruct (IH {| FIFOScheduler.queue := [] |}) as (s' & out & Hrun & E).
      exists s', out. split; [|exact E].
      cbn [run sched_Dequeue FIFO_Scheduler]. unfold FIFOScheduler.Dequeue. simpl.
      simpl in Hrun. by rewrite Hrun.
    + destruct (IH {| FIFOScheduler.queue := q |}) as (s' & out & Hrun & E).
      exists s', (r :: out). split.
      * cbn [run sched_Dequeue FIFO_Scheduler]. unfold FIFOScheduler.Dequeue. simpl.
        simpl in Hrun. by rewrite Hrun.
      * simpl in *. by rewrite <- E.
Qed.

(** X1.  The FIFO scheduler hands tasks out in the order in which they
    were enqueued.  [Dequeue] on a queue that holds a task returns the
    oldest task held and leaves the others, in their order; on an
    empty queue it returns nil and leaves the scheduler as it is.
    After any sequence of calls, the tasks that were held at the start
    followed by those enqueued are the tasks the dequeues returned
    followed by those still held, and a task was returned by every
    dequeue made while one was waiting.  So on a fresh scheduler, when
    M dequeues were made while a task was waiting, the tasks returned
    are the first M tasks enqueued, in order, and the tasks held are
    the others. *)
Theorem fifo_scheduler_hands_out_tasks_in_the_order_enqueued :
  (∀ (ops : list Op) (s : FIFOScheduler.t),
     ∃ s' out, run ops s = Some (s', out) ∧
       FIFOScheduler.queue s ++ enqueues ops = out ++ FIFOScheduler.queue s' ∧
       length out = answered_from (length (FIFOScheduler.queue s)) ops) ∧
  (∀ ops : list Op,
     ∃ (s : FIFOScheduler.t) out, run_new ops = Some (s, out) ∧
       out = take (answered ops) (enqueues ops) ∧
       FIFOScheduler.queue s = drop (answered ops) (enqueues ops) ∧
       (FIFOScheduler.Empty s = true → out = enqueues ops)) ∧
  (∀ s : FIFOScheduler.t,
     match FIFOScheduler.queue s with
     | [] => FIFOScheduler.Dequeue s = (None, s)
     | req :: rest =>
         ∃ s', FIFOScheduler.Dequeue s = (Some req, s') ∧ FIFOScheduler.queue s' = rest
     end).
Proof.
  split_and!.
  - intros ops s. destruct (FIFO_order ops s) as (s' & out & Hrun & E).
    exists s', out. split_and!; [exact Hrun|exact E|].
    by eapply FIFO_answered.
  - intros ops. destruct (FIFO_order ops FIFOScheduler.NewFIFOScheduler)
      as (s & out & Hrun & E).
    pose proof (FIFO_answered ops _ _ _ Hrun) as Ha.
    cbn [FIFOScheduler.NewFIFOScheduler FIFOScheduler.queue length app] in Ha, E.
    fold (answered ops) in Ha.
    exists s, out. rewrite <- Ha, E. split_and!; [exact Hrun| | |].
    + by rewrite take_app_length.
    + by rewrite drop_app_length.
    + unfold FIFOScheduler.Empty. intros He%bool_decide_eq_true.
      apply nil_length_inv in He. by rewrite He, app_nil_r.
  - intros s. unfold FIFOScheduler.Dequeue.
    destruct (FIFOScheduler.queue s) as [|req rest]; [done|]. by eexists.
Qed.

Lemma LIFO_Dequeue_snoc (st : list request.Request) (req : request.Request) :
  LIFOScheduler.Dequeue {| LIFOScheduler.stack := st ++ [req] |}
  = (Some req, {| LIFOScheduler.stack := st |}).
Proof.
  unfold LIFOScheduler.Dequeue.
  cbn [LIFOScheduler.stack]. rewrite last_snoc, length_app. cbn [length].
  replace (length st + 1 - 1) with (length st) by lia.
  by rewrite take_app_length.
Qed.

Lemma LIFO_run_pushes (reqs : list request.Request) : ∀ (ops : list Op) (st : list request.Request),
  run ((OpEnqueue <$> reqs) ++ ops) {| LIFOScheduler.stack := st |}
  = run ops {| LIFOScheduler.stack := st ++ reqs |}.
Proof.
  induction reqs as [|r reqs IH]; intros ops st.
  - by rewrite app_nil_r.
  - cbn [fmap list_fmap app run sched_Enqueue LIFO_Scheduler mbind option_bind].
    unfold LIFOScheduler.Enqueue. cbn [LIFOScheduler.stack].
    change (list_fmap _ _ OpEnqueue reqs) with (OpEnqueue <$> reqs).
    rewrite IH. by rewrite <- app_assoc.
Qed.

Lemma LIFO_run_pops (reqs : list request.Request) : ∀ st : list request.Request,
  run (replicate (length reqs) OpDequeue) {| LIFOScheduler.stack := st ++ reqs |}
  = Some ({| LIFOScheduler.stack := st |}, reverse reqs).
Proof.
  induction reqs as [|r reqs IH] using rev_ind; intros st.
  - by rewrite app_nil_r.
  - rewrite length_app. cbn [length].
    replace (length reqs + 1) with (S (length reqs)) by lia.
    cbn [replicate run sched_Dequeue LIFO_Scheduler mbind option_bind].
    rewrite app_assoc, LIFO_Dequeue_snoc. cbn [mbind option_bind].
    rewrite IH. cbn. by rewrite reverse_snoc.
Qed.

(** X2.  The LIFO scheduler is a stack: [Dequeue] right after
    [Enqueue] returns the task just enqueued and leaves the scheduler
    as it was before; tasks r1 .. rn enqueued in a row and then
    dequeued come out as rn .. r1, with the scheduler back in its
    earlier state.  [Dequeue] on an empty stack returns nil. *)
Theorem lifo_scheduler_hands_out_the_newest_task_first :
  (∀ (req : request.Request) (s : LIFOScheduler.t),
     LIFOScheduler.Dequeue (LIFOScheduler.Enqueue req s) = (Some req, s)) ∧
  (∀ (reqs : list request.Request) (s : LIFOScheduler.t),
     run ((OpEnqueue <$> reqs) ++ replicate (length reqs) OpDequeue) s
     = Some (s, reverse reqs)) ∧
  (∀ s : LIFOScheduler.t,
     LIFOScheduler.stack s = [] → LIFOScheduler.Dequeue s = (None, s)).
Proof.
  split_and!.
  - intros req [st]. apply LIFO_Dequeue_snoc.
  - intros reqs [st]. rewrite LIFO_run_pushes. apply LIFO_run_pops.
  - intros s E. unfold LIFOScheduler.Dequeue. by rewrite E.
Qed.

Lemma Priority_drain (n : nat) : ∀ s : PriorityScheduler.t,
  pq_inv s → length (pending s) = n →
  ∃ s' out, run (replicate n OpDequeue) s = Some (s', out) ∧
    pq_inv s' ∧ pending s' = [] ∧ out ≡ₚ pending s ∧
    StronglySorted by_priority out.
Proof.
  induction n as [|n IH]; intros s Hinv Hlen.
  - exists s, []. apply nil_length_inv in Hlen. rewrite Hlen.
    split_and!; try done. constructor.
  - pose proof (Dequeue_correct s Hinv) as Hd.
    unfold pending in Hlen. rewrite length_fmap in Hlen.
    destruct (PriorityScheduler.queue s) as [|it q] eqn:Eq; [done|].
    destruct Hd as (r & s1 & Hdq & Hinv1 & Hperm & Hmax).
    assert (length (pending s1) = n) as Hlen1.
    { apply Permutation_length in Hperm. unfold pending in Hperm at 1.
      rewrite length_fmap, Eq in Hperm. simpl in *. lia. }
    destruct (IH s1 Hinv1 Hlen1) as (s' & out & Hrun & Hinv' & Hp' & Hperm' & Hs).
    exists s', (r :: out).
    split_and!; try done.
    + cbn [replicate run sched_Dequeue Priority_Scheduler].
      rewrite Hdq. cbn [mbind option_bind]. rewrite Hrun. done.
    + rewrite Hperm. by constructor.
    + constructor; [exact Hs|].
      apply Forall_forall. intros x Hx. unfold by_priority.
      apply Hmax. rewrite Hperm. right. by rewrite <- Hperm'.
Qed.

(** X3.  Whatever calls a priority scheduler has served, dequeuing
    until it is empty returns the held tasks by non-increasing
    priority: every task comes out before all tasks of lower priority.
    Together with the tasks returned earlier they are the enqueued
    tasks, none lost and none twice. *)
Theorem priority_scheduler_drains_in_priority_order :
  ∀ ops : list Op,
    ∃ (s : PriorityScheduler.t) (out : list request.Request),
      run_new ops = Some (s, out) ∧
      ∃ (s' : PriorityScheduler.t) (rest : list request.Request),
        run (replicate (length (pending s)) OpDequeue) s = Some (s', rest) ∧
        PriorityScheduler.Empty s' = true ∧
        enqueues ops ≡ₚ out ++ rest ∧
        StronglySorted by_priority rest.
Proof.
  intros ops. destruct (Priority_run_new ops) as (s & out & Hrun & Hinv & Hperm).
  exists s, out. split; [exact Hrun|].
  destruct (Priority_drain (length (pending s)) s Hinv eq_refl)
    as (s' & rest & Hrun' & _ & Hp & Hperm' & Hs).
  exists s', rest. split_and!; try done.
  - unfold PriorityScheduler.Empty, Len. apply bool_decide_eq_true.
    unfold pending in Hp. by destruct (PriorityScheduler.queue s').
  - by rewrite Hperm'.
Qed.

Lemma indexed_Swap h i j h' : indexed h → Swap h i j = Some h' → indexed h'.
Proof.
  intros Hh Hs. unfold Swap in Hs.
  destruct (h !! i) as [a|] eqn:Ea; [|done].
  destruct (h !! j) as [b|] eqn:Eb; [|done].
  simplify_eq/=. intros k it Hk.
  apply list_lookup_insert_Some in Hk as [(-> & <- & _)|[Hne Hk]]; [done|].
  apply list_lookup_insert_Some in Hk as [(-> & <- & _)|[Hne' Hk]]; [done|].
  by apply Hh.
Qed.

Lemma indexed_up fuel : ∀ h j h', indexed h → heap.up fuel h j = Some h' → indexed h'.
Proof.
  induction fuel as [|fuel IH]; intros h j h' Hh Hup; [done|].
  rewrite up_unfold in Hup.
  case_decide; [by simplify_eq|].
  destruct (Less h j ((j - 1) / 2)) as [[]|]; [|by simplify_eq|done].
  destruct (Swap h ((j - 1) / 2) j) as [h1|] eqn:Es; [|done].
  eapply IH; [|exact Hup]. by eapply indexed_Swap.
Qed.

Lemma indexed_down_loop fuel : ∀ h i n r, indexed h → heap.down_loop fuel h i n = Some r → indexed r.1.
Proof.
  induction fuel as [|fuel IH]; intros h i n r Hh Hd; [done|].
  rewrite down_unfold in Hd.
  case_decide; [by simplify_eq|].
  destruct (if decide (2 * i + 1 + 1 < n) then Less h (2 * i + 1 + 1) (2 * i + 1) else Some false)
    as [lt21|]; [|done].
  destruct (Less h _ i) as [[]|]; [|by simplify_eq|done].
  destruct (Swap h i _) as [h1|] eqn:Es; [|done].
  eapply IH; [|exact Hd]. by eapply indexed_Swap.
Qed.

Lemma indexed_down h i n h' b : indexed h → heap.down h i n = Some (h', b) → indexed h'.
Proof.
  intros Hh Hd. unfold heap.down in Hd.
  destruct (heap.down_loop (S n) h i n) as [[h1 i1]|] eqn:E; [|done].
  cbn [mbind option_bind] in Hd. injection Hd as <- _.
  by apply (indexed_down_loop _ _ _ _ _ Hh E).
Qed.

Lemma indexed_Push h x h' : indexed h → heap.Push h x = Some h' → indexed h'.
Proof.
  intros Hh Hp. unfold heap.Push in Hp. cbv zeta in Hp.
  eapply indexed_up; [|exact Hp].
  unfold Push. intros k it Hk.
  apply lookup_app_Some in Hk as [Hk|[Hle Hk]]; [by apply Hh|].
  apply list_lookup_singleton_Some in Hk as [Hk <-]. simpl. lia.
Qed.

Lemma indexed_Pop h item h' :
  indexed h → heap.Pop h = Some (item, h') → Index item = (-1)%Z ∧ indexed h'.
Proof.
  intros Hh Hp. unfold heap.Pop in Hp. cbv zeta in Hp.
  destruct (Swap h 0 (Len h - 1)) as [h1|] eqn:Es; [|done].
  cbn [mbind option_bind] in Hp.
  destruct (heap.down h1 0 (Len h - 1)) as [[h2 b]|] eqn:Ed; [|done].
  cbn [mbind option_bind] in Hp.
  assert (indexed h2) as H2.
  { eapply indexed_down; [|exact Ed]. by eapply indexed_Swap. }
  unfold Pop in Hp. destruct (length h2) as [|n'] eqn:El; [done|].
  destruct (h2 !! n') as [it|] eqn:Eit; simplify_eq/=.
  split; [done|]. intros k it' Hk.
  apply lookup_take_Some in Hk as [Hk _]. by apply H2.
Qed.

Lemma indexed_run ops : ∀ (s s' : PriorityScheduler.t) out,
  indexed (PriorityScheduler.queue s) → run ops s = Some (s', out) →
  indexed (PriorityScheduler.queue s').
Proof.
  induction ops as [|[req|] ops IH]; intros s s' out Hs Hrun.
  - by simplify_eq/=.
  - cbn [run sched_Enqueue Priority_Scheduler] in Hrun.
    unfold PriorityScheduler.Enqueue in Hrun at 1. cbv zeta in Hrun.
    destruct (heap.Push _ _) as [pq|] eqn:Ep; [|done].
    cbn [mbind option_bind] in Hrun.
    eapply IH; [|exact Hrun]. cbn. by eapply indexed_Push.
  - cbn [run sched_Dequeue Priority_Scheduler] in Hrun.
    unfold PriorityScheduler.Dequeue in Hrun at 1.
    case_decide.
    + cbn [mbind option_bind] in Hrun.
      destruct (run ops s) as [[s1 out1]|] eqn:Er; simplify_eq/=. by eapply IH.
    + destruct (heap.Pop _) as [[item pq]|] eqn:Ep; [|done].
      cbn [mbind option_bind] in Hrun.
      destruct (run ops _) as [[s1 out1]|] eqn:Er; simplify_eq/=.
      eapply IH; [|exact Er]. cbn. by eapply indexed_Pop.
Qed.

(** X4.  The priority queue keeps the [Index] field of every item equal
    to the item's position in the slice: [Swap], [heap.Push] and
    [heap.Pop] preserve this, so it holds of the queue of a priority
    scheduler after any sequence of calls.  The item that [heap.Pop]
    removes leaves with [Index] -1. *)
Theorem priority_queue_items_record_their_position :
  (∀ ops : list Op,
     ∃ (s : PriorityScheduler.t) (out : list request.Request),
       run_new ops = Some (s, out) ∧ indexed (PriorityScheduler.queue s)) ∧
  (∀ (h h' : PriorityQueue) (i j : nat),
     indexed h → Swap h i j = Some h' → indexed h') ∧
  (∀ (h h' : PriorityQueue) (x : PriorityItem),
     indexed h → heap.Push h x = Some h' → indexed h') ∧
  (∀ (h h' : PriorityQueue) (item : PriorityItem),
     indexed h → heap.Pop h = Some (item, h') →
     Index item = (-1)%Z ∧ indexed h').
Proof.
  split_and!.
  - intros ops. destruct (Priority_run_new ops) as (s & out & Hrun & _).
    exists s, out. split; [exact Hrun|].
    unfold run_new in Hrun. cbn [sched_new Priority_Scheduler] in Hrun.
    destruct PriorityScheduler.NewPriorityScheduler as [s0|] eqn:E0; [|done].
    cbn [mbind option_bind] in Hrun.
    eapply indexed_run; [|exact Hrun].
    vm_compute in E0. simplify_eq. by intros k it Hk.
  - intros h h' i j. apply indexed_Swap.
  - intros h h' x. apply indexed_Push.
  - intros h h' item. apply indexed_Pop.
Qed.

End OrderFacts.

(** ** The counter and the order of the channel scheduler *)

Section ChannelOrderFacts.

Import scheduler.
Import ChannelScheduler.

Lemma add64_wrap64 x y z : z = (x + y)%Z → add64 (wrap64 x) y = wrap64 z.
Proof. intros ->. unfold add64. apply wrap64_add_l. Qed.

Lemma size_inv_step (a : Action) (s : t) : size_inv s → size_inv (step a s).1.
Proof.
  intros (Hsz & Hcap & Hq). destruct a as [req| |k|]; cbn [step].
  - unfold Enqueue. case_decide; cbn [fst]; unfold size_inv;
      cbn [size requestChan counting bufferSize sendq]; [|done].
    rewrite length_app. cbn [length]. split_and!; [|lia|].
    + rewrite Hsz. apply add64_wrap64. lia.
    + intros Hne. specialize (Hq Hne). lia.
  - unfold Dequeue.
    destruct (requestChan s) as [|r rest] eqn:Er, (sendq s) as [|r' q] eqn:Eq; cbn [fst].
    + unfold size_inv. by rewrite Er, Eq.
    + unfold size_inv; cbn [size requestChan counting bufferSize sendq length].
      rewrite Hsz. cbn [length] in *. split_and!; [|lia|].
      * apply add64_wrap64. lia.
      * intros _. rewrite <- Hq; done.
    + unfold size_inv; cbn [size requestChan counting bufferSize sendq length].
      rewrite Hsz. cbn [length] in *. split_and!; [|lia|done].
      apply add64_wrap64. lia.
    + unfold size_inv; cbn [size requestChan counting bufferSize sendq length].
      rewrite Hsz, length_app. cbn [length] in *. split_and!.
      * apply add64_wrap64. lia.
      * lia.
      * intros _. rewrite <- Hq by done. lia.
  - unfold go_send. destruct (spawned s !! k) as [req|]; [|done].
    case_decide; cbn [fst]; unfold size_inv;
      cbn [size requestChan counting bufferSize sendq].
    + rewrite length_app. cbn [length]. split_and!; [|lia|].
      * rewrite Hsz. f_equal. lia.
      * intros Hne. specialize (Hq Hne). lia.
    + split_and!; [done|done|]. intros _. lia.
  - unfold go_add. destruct (counting s) as [|c] eqn:Ec; cbn [fst]; [by unfold size_inv; rewrite Ec|].
    unfold size_inv; cbn [size requestChan counting bufferSize sendq].
    split_and!; [|done|done]. rewrite Hsz. apply add64_wrap64. lia.
Qed.

Lemma size_inv_exec acts : ∀ s, size_inv s → size_inv (exec acts s).1.
Proof.
  induction acts as [|a acts IH]; intros s Hs; [done|].
  cbn [exec]. pose proof (size_inv_step a s Hs) as H1.
  destruct (step a s) as [s1 out1]. specialize (IH s1 H1).
  destruct (exec acts s1) as [s2 out2]. done.
Qed.

Lemma bufferSize_step (a : Action) (s : t) : bufferSize (step a s).1 = bufferSize s.
Proof.
  destruct a as [req| |k|]; cbn [step].
  - unfold Enqueue. by case_decide.
  - unfold Dequeue. by destruct (requestChan s), (sendq s).
  - unfold go_send. destruct (spawned s !! k); [|done]. by case_decide.
  - unfold go_add. by destruct (counting s).
Qed.

Lemma bufferSize_exec acts : ∀ s, bufferSize (exec acts s).1 = bufferSize s.
Proof.
  induction acts as [|a acts IH]; intros s; [done|].
  cbn [exec]. pose proof (bufferSize_step a s) as H1.
  destruct (step a s) as [s1 out1]. specialize (IH s1).
  destruct (exec acts s1) as [s2 out2]. cbn [fst] in *. congruence.
Qed.

(** X5.  In every interleaving of calls and detached goroutines on a
    channel scheduler of capacity n, [Size()] is the number of buffered
    tasks less the number of detached sends that have completed and
    are not counted yet (in 64-bit arithmetic); the buffer never holds
    more than n tasks and a goroutine is parked only on a full buffer.
    When no detached goroutine is under way, [Size()] is the number of
    tasks held and [Empty()] says whether there is none.  In between
    the counter can be below zero: on a scheduler of capacity 0, after
    an [Enqueue], the detached send and a [Dequeue] that takes the
    task, [Size()] is -1 although nothing is held. *)
Theorem channel_size_counts_buffered_tasks_less_uncounted_sends :
  (∀ (acts : list Action) (n : nat),
     let s := (exec acts (NewChannelScheduler n)).1 in
     Size s = wrap64 (Z.of_nat (length (requestChan s)) - Z.of_nat (counting s)) ∧
     length (requestChan s) ≤ n ∧
     (sendq s ≠ [] → length (requestChan s) = n) ∧
     (quiescent s →
      Size s = wrap64 (Z.of_nat (length (held s))) ∧
      (Z.of_nat (length (held s)) < 2 ^ 63 →
       Empty s = bool_decide (held s = []))%Z)) ∧
  (∀ req : request.Request,
     let r := exec [ActEnqueue req; ActGoSend 0; ActDequeue] (NewChannelScheduler 0) in
     r.2 = [req] ∧ held r.1 = [] ∧ Size r.1 = (-1)%Z ∧ Empty r.1 = false).
Proof.
  split.
  - intros acts n s.
    assert (size_inv s) as (Hsz & Hcap & Hq).
    { apply size_inv_exec. unfold size_inv. simpl. split_and!; [done|lia|done]. }
    assert (bufferSize s = n) as Hb by apply bufferSize_exec.
    rewrite Hb in Hcap, Hq. unfold Size. split_and!; try done.
    intros (Hsp & Hsq & Hc). unfold held. rewrite Hsp, Hsq, !app_nil_r.
    rewrite Hsz, Hc, Z.sub_0_r. split; [done|].
    intros Hlt. unfold Empty. rewrite Hsz, Hc, Z.sub_0_r.
    rewrite wrap64_small by (unfold int64_range; lia).
    apply bool_decide_ext. destruct (requestChan s); simpl; [done|]. split; [lia|done].
  - intros req. vm_compute. done.
Qed.

Lemma fifo_while_room acts : ∀ s,
  quiescent s → length (requestChan s) + length (enqueued acts) ≤ bufferSize s →
  let r := exec acts s in
  quiescent r.1 ∧ requestChan s ++ enqueued acts = r.2 ++ requestChan r.1 ∧
  length r.2 = received_from (length (requestChan s)) acts.
Proof.
  induction acts as [|a acts IH]; intros s Hq Hlen.
  - simpl. by rewrite app_nil_r.
  - destruct Hq as (Hsp & Hsq & Hc).
    assert (enqueued (a :: acts) = enqueued [a] ++ enqueued acts) as Ea.
    { unfold enqueued. simpl. by rewrite app_nil_r. }
    rewrite Ea, length_app in Hlen. rewrite Ea. clear Ea.
    assert (quiescent (step a s).1 ∧
            requestChan s ++ enqueued [a] = (step a s).2 ++ requestChan (step a s).1 ∧
            bufferSize (step a s).1 = bufferSize s ∧
            length (step a s).2
              + received_from (length (requestChan (step a s).1)) acts
            = received_from (length (requestChan s)) (a :: acts))
      as (Hq1 & E1 & Hb1 & Hr1).
    { destruct a as [req| |k|]; cbn [step received_from].
      - unfold Enqueue. unfold enqueued in *. simpl in Hlen.
        rewrite decide_True by lia. cbn. rewrite length_app. cbn.
        by rewrite Nat.add_1_r.
      - unfold Dequeue. rewrite Hsq.
        destruct (requestChan s) as [|r rest] eqn:Er; cbn; rewrite ?Er; cbn.
        + by split_and!.
        + unfold quiescent. cbn. rewrite app_nil_r. by split_and!.
      - unfold go_send. rewrite Hsp. cbn. by rewrite app_nil_r.
      - unfold go_add. rewrite Hc. cbn. by rewrite app_nil_r. }
    cbn [exec]. destruct (step a s) as [s1 out1]. cbn [fst snd] in *.
    specialize (IH s1 Hq1).
    assert (length (requestChan s1) + length (enqueued acts) ≤ bufferSize s1) as Hlen1.
    { apply (f_equal length) in E1. rewrite !length_app in E1. lia. }
    specialize (IH Hlen1). cbv zeta in IH.
    destruct (exec acts s1) as [s2 out2]. cbn [fst snd] in *.
    destruct IH as (Hq2 & E2 & Hr2). split_and!; [done| |].
    + rewrite app_assoc, E1, <- !app_assoc. by rewrite E2.
    + rewrite length_app, Hr2. exact Hr1.
Qed.

(** X6.  As long as no more tasks are enqueued in all than the buffer
    holds, [Enqueue] never finds the buffer full and the channel
    scheduler is a first-in first-out queue: no goroutine is detached;
    every dequeue made while a task is buffered returns a task; when M
    such dequeues were made, the tasks returned are the first M tasks
    enqueued, in the order enqueued, and the buffer holds the others,
    in their order; and [Size()] is the number of tasks held. *)
Theorem channel_scheduler_is_a_fifo_queue_while_its_buffer_has_room
    (acts : list Action) (n : nat) :
  length (enqueued acts) ≤ n →
  let r := exec acts (NewChannelScheduler n) in
  r.2 = take (received_from 0 acts) (enqueued acts) ∧
  requestChan r.1 = drop (received_from 0 acts) (enqueued acts) ∧
  enqueued acts = r.2 ++ requestChan r.1 ∧
  spawned r.1 = [] ∧ sendq r.1 = [] ∧
  held r.1 = requestChan r.1 ∧
  Size r.1 = wrap64 (Z.of_nat (length (held r.1))).
Proof.
  intros Hlen r.
  destruct (fifo_while_room acts (NewChannelScheduler n)) as (Hq & E & Hr).
  { done. }
  { simpl. lia. }
  fold r in Hq, E, Hr. simpl in E, Hr. destruct Hq as (Hsp & Hsq & Hc).
  assert (held r.1 = requestChan r.1) as Hh.
  { unfold held. by rewrite Hsp, Hsq, !app_nil_r. }
  split_and!; try done.
  - by rewrite <- Hr, E, take_app_length.
  - by rewrite <- Hr, E, drop_app_length.
  - pose proof (size_inv_exec acts (NewChannelScheduler n)) as Hs.
    destruct Hs as (Hsz & _).
    { unfold size_inv. simpl. split_and!; [done|lia|done]. }
    fold r in Hsz. unfold Size. rewrite Hsz, Hc, Hh. f_equal. lia.
Qed.

(** Two tasks through a buffer of two, and two dequeues after the
    first: the first task comes out, then the second. *)
Lemma channel_scheduler_is_a_fifo_queue_while_its_buffer_has_room_witness :
  let acts := [ActEnqueue (request.NewRequest "GET" "http://a/");
               ActDequeue;
               ActEnqueue (request.NewRequest "GET" "http://b/");
               ActDequeue] in
  length (enqueued acts) ≤ 2 ∧
  let r := exec acts (NewChannelScheduler 2) in
  r.2 = take (received_from 0 acts) (enqueued acts) ∧
  requestChan r.1 = drop (received_from 0 acts) (enqueued acts) ∧
  enqueued acts = r.2 ++ requestChan r.1 ∧
  spawned r.1 = [] ∧ sendq r.1 = [] ∧
  held r.1 = requestChan r.1 ∧
  Size r.1 = wrap64 (Z.of_nat (length (held r.1))).
Proof.
  intros acts. assert (length (enqueued acts) ≤ 2) as H by (vm_compute; lia).
  split; [exact H|].
  exact (channel_scheduler_is_a_fifo_queue_while_its_buffer_has_room acts 2 H).
Defined.

End ChannelOrderFacts.

(** ** Headers, metadata and copies of a request *)

Section HeaderFacts.

Variable canon : string → string.

Local Abbreviation Get := (request.Header_Get canon).

Lemma Header_Get_Set h key value key' :
  Get (request.Header_Set canon h key value) key' =
  if decide (canon key' = canon key) then value else Get h key'.
Proof.
  unfold request.Header_Get, request.Header_Set. case_decide as E.
  - by rewrite E, lookup_insert_eq.
  - by rewrite lookup_insert_ne.
Qed.

Lemma Header_Get_Add h key value key' :
  Get (request.Header_Add canon h key value) key' =
  if decide (canon key' = canon key) then
    match h !! canon key with
    | Some (v :: _) => v
    | _ => value
    end
  else Get h key'.
Proof.
  unfold request.Header_Get, request.Header_Add. case_decide as E.
  - rewrite E, lookup_insert_eq. by destruct (h !! canon key) as [[|v l]|].
  - by rewrite lookup_insert_ne.
Qed.

(** X7.  [SetHeader] followed by a read of the header under any
    spelling with the same canonical form gives the value set; headers
    of another canonical form read as before, after [SetHeader] and
    after [AddHeader]; [AddHeader] appends, so a header that had a
    value still reads as its first value; no other field of the
    request changes.  [SetMeta] then [GetMeta] of the key gives the
    value, other keys read as before, and a missing key (every key of a
    new request) reads as nil. *)
Theorem request_headers_are_read_as_they_were_set (r : request.Request)
    (key value : string) :
  let set := request.SetHeader canon key value r in
  let added := request.AddHeader canon key value r in
  (∀ key', canon key' = canon key → Get (request.Headers set) key' = value) ∧
  (∀ key', canon key' ≠ canon key →
     Get (request.Headers set) key' = Get (request.Headers r) key' ∧
     Get (request.Headers added) key' = Get (request.Headers r) key') ∧
  (∀ key', canon key' = canon key →
     Get (request.Headers added) key' =
       match request.Headers r !! canon key with
       | Some (v :: _) => v
       | _ => value
       end) ∧
  request.Headers added !! canon key
    = Some (default [] (request.Headers r !! canon key) ++ [value]) ∧
  set = request.set_Headers (request.Headers set) r ∧
  added = request.set_Headers (request.Headers added) r ∧
  (∀ k v, request.GetMeta k (request.SetMeta k v r) = Some v) ∧
  (∀ k k' v, k' ≠ k →
     request.GetMeta k' (request.SetMeta k v r) = request.GetMeta k' r) ∧
  (∀ method url k, request.GetMeta k (request.NewRequest method url) = None ∧
                   Get (request.Headers (request.NewRequest method url)) k = "").
Proof.
  cbv zeta. split_and!.
  - intros key' E. cbn. rewrite Header_Get_Set. by rewrite decide_True.
  - intros key' E. cbn. rewrite Header_Get_Set, Header_Get_Add.
    by rewrite !decide_False.
  - intros key' E. cbn. rewrite Header_Get_Add. by rewrite decide_True.
  - cbn. unfold request.Header_Add. by rewrite lookup_insert_eq.
  - done.
  - done.
  - intros k v. unfold request.GetMeta, request.SetMeta. cbn. by rewrite lookup_insert_eq.
  - intros k k' v Hne. unfold request.GetMeta, request.SetMeta. cbn.
    by rewrite lookup_insert_ne.
  - intros method url k. split; [done|].
    unfold request.Header_Get. cbn. by rewrite lookup_empty.
Qed.

End HeaderFacts.

Lemma map_copy_id {V : Type} (m : gmap string V) : request.map_copy m = m.
Proof.
  unfold request.map_copy.
  apply (map_fold_weak_ind (λ r m, r = m)); [done|].
  intros k v m' r Hk ->. done.
Qed.

Lemma slice_copy_make {A : Type} (n : nat) (zero : A) (l : list A) :
  n = length l → request.slice_copy (replicate n zero) l = l.
Proof.
  intros ->. unfold request.slice_copy. rewrite length_replicate, firstn_all.
  rewrite drop_ge by (rewrite length_replicate; lia). by rewrite app_nil_r.
Qed.

Lemma omap_id_Some {A : Type} (l : list A) : omap id (Some <$> l) = l.
Proof. induction l as [|x l IH]; [done|]. cbn. by rewrite IH. Qed.

(** X8.  [Copy] of a request agrees with the original in every field:
    the maps are copied entry by entry and the slices element by
    element.  [Copy] of a response agrees with the original in every
    exported field and does not take over the cached selector, whose
    field is nil in the copy: the copy equals the original exactly
    when the original has no selector cached, so not once [Selector]
    has been called; [Selector] on the copy builds a selector from the
    body, whatever the original had cached.  In general [copy] into a
    slice keeps the length of the destination and fills its first
    min(len(dst), len(src)) elements from the source. *)
Theorem copy_of_a_request_equals_the_request :
  (∀ r : request.Request, request.Copy r = r) ∧
  (∀ r : response.Response,
     let c := response.Copy r in
     response.URL c = response.URL r ∧
     response.StatusCode c = response.StatusCode r ∧
     response.Headers c = response.Headers r ∧
     response.Body c = response.Body r ∧
     response.Request c = response.Request r ∧
     response.Meta c = response.Meta r ∧
     response.Encoding c = response.Encoding r ∧
     response.selector c = None ∧
     (c = r ↔ response.selector r = None) ∧
     (response.Selector c).1 = response.Body r ∧
     response.Copy (response.Selector r).2 ≠ (response.Selector r).2) ∧
  (∀ (A : Type) (dst src : list A),
     length (request.slice_copy dst src) = length dst ∧
     take (length src) (request.slice_copy dst src) = take (length dst) src).
Proof.
  split_and!.
  - intros r. unfold request.Copy.
    rewrite !map_copy_id, !slice_copy_make, omap_id_Some by by rewrite ?length_fmap.
    by destruct r.
  - intros r c.
    assert (c = {| response.URL := response.URL r;
                   response.StatusCode := response.StatusCode r;
                   response.Headers := response.Headers r;
                   response.Body := response.Body r;
                   response.Request := response.Request r;
                   response.Meta := response.Meta r;
                   response.Encoding := response.Encoding r;
                   response.selector := None |}) as E.
    { unfold c, response.Copy. by rewrite !map_copy_id, !slice_copy_make by done. }
    rewrite E. cbn [response.URL response.StatusCode response.Headers response.Body
                    response.Request response.Meta response.Encoding response.selector].
    split_and!; try done.
    + split.
      * intros H. by rewrite <- H.
      * intros H. destruct r. cbn in *. by subst.
    + unfold response.Selector. destruct (response.selector r) as [sel|] eqn:Es.
      * intros H. apply (f_equal response.selector) in H. cbn in H. congruence.
      * intros H. apply (f_equal response.selector) in H.
        unfold response.Copy in H. cbn in H. done.
  - intros A dst src. unfold request.slice_copy. split.
    + rewrite length_app, length_take, length_drop. lia.
    + rewrite take_app. rewrite length_take.
      destruct (decide (length dst ≤ length src)).
      * rewrite take_take. replace (length src - length dst `min` length src) with (length src - length dst) by lia.
        rewrite take_drop_commute. rewrite (take_ge dst) by lia. rewrite drop_ge by lia.
        rewrite app_nil_r. f_equal. lia.
      * rewrite take_take. replace (length src `min` length dst) with (length src) by lia.
        replace (length src - length dst `min` length src) with 0 by lia.
        rewrite take_0, app_nil_r. by rewrite !take_ge by lia.
Qed.


(** ** The middlewares that fill in a request *)

Section FillFacts.

Import middleware.

Context {World : Type}.
Variable canon : string → string.
Variable rand_Intn : nat → World → nat * World.

Lemma NewUserAgentMiddleware_nonempty uas random :
  UserAgentMiddleware.userAgents (UserAgentMiddleware.NewUserAgentMiddleware uas random) ≠ [].
Proof.
  unfold UserAgentMiddleware.NewUserAgentMiddleware. cbn. case_decide as E; [done|].
  by destruct uas.
Qed.

Lemma UserAgent_ProcessRequest_spec
    (m : UserAgentMiddleware.t) (req : request.Request) (w : World) :
  draws_in_range rand_Intn →
  UserAgentMiddleware.userAgents m ≠ [] →
  ∃ req' w',
    UserAgentMiddleware.ProcessRequest canon rand_Intn m req w = Some (req', w') ∧
    (request.Header_Get canon (request.Headers req) "User-Agent" ≠ "" →
     req' = req ∧ w' = w) ∧
    (request.Header_Get canon (request.Headers req) "User-Agent" = "" →
     ∃ userAgent, userAgent ∈ UserAgentMiddleware.userAgents m ∧
       req' = request.SetHeader canon "User-Agent" userAgent req ∧
       request.Header_Get canon (request.Headers req') "User-Agent" = userAgent ∧
       (UserAgentMiddleware.random m = false →
        head (UserAgentMiddleware.userAgents m) = Some userAgent ∧ w' = w)).
Proof.
  intros Hr Hne. unfold UserAgentMiddleware.ProcessRequest.
  case_decide as Hua.
  - destruct (UserAgentMiddleware.random m && _) eqn:Eb.
    + apply andb_true_iff in Eb as [Hrand Hlen%bool_decide_eq_true].
      pose proof (Hr (length (UserAgentMiddleware.userAgents m)) w ltac:(lia)) as Hi.
      destruct (rand_Intn _ w) as [i w'] eqn:Ei. cbn [fst] in Hi.
      destruct (lookup_lt_is_Some_2 _ _ Hi) as [ua Eua]. rewrite Eua. cbn.
      exists (request.SetHeader canon "User-Agent" ua req), w'.
      split_and!; [done|done|]. intros _. exists ua. split_and!.
      * by eapply list_elem_of_lookup_2.
      * done.
      * cbn. rewrite Header_Get_Set. by rewrite decide_True.
      * intros Hf. by rewrite Hf in Hrand.
    + destruct (UserAgentMiddleware.userAgents m) as [|ua uas] eqn:Euas; [done|]. cbn.
      exists (request.SetHeader canon "User-Agent" ua req), w.
      split_and!; [done|done|]. intros _. exists ua. split_and!.
      * left.
      * done.
      * cbn. rewrite Header_Get_Set. by rewrite decide_True.
      * done.
  - exists req, w. split_and!; done.
Qed.

(** X9.  A User-Agent middleware made by [NewUserAgentMiddleware] never
    holds an empty list (an empty argument is replaced by the three
    built-in agents), so its [ProcessRequest] never indexes out of
    range.  A request that carries a User-Agent header is returned as
    it is; one that carries none gets one of the listed agents under
    that header and is otherwise unchanged: the first of the list
    unless the middleware is random.  A middleware built with an empty
    list directly panics on a request without a User-Agent. *)
Theorem user_agent_middleware_fills_in_a_missing_user_agent
    (userAgents : list string) (random : bool) (req : request.Request) (w : World) :
  draws_in_range rand_Intn →
  let m := UserAgentMiddleware.NewUserAgentMiddleware userAgents random in
  UserAgentMiddleware.userAgents m ≠ [] ∧
  (userAgents ≠ [] → UserAgentMiddleware.userAgents m = userAgents) ∧
  (∃ req' w',
     UserAgentMiddleware.ProcessRequest canon rand_Intn m req w = Some (req', w') ∧
     (request.Header_Get canon (request.Headers req) "User-Agent" ≠ "" →
      req' = req ∧ w' = w) ∧
     (request.Header_Get canon (request.Headers req) "User-Agent" = "" →
      ∃ userAgent, userAgent ∈ UserAgentMiddleware.userAgents m ∧
        req' = request.SetHeader canon "User-Agent" userAgent req ∧
        request.Header_Get canon (request.Headers req') "User-Agent" = userAgent ∧
        (random = false →
         head (UserAgentMiddleware.userAgents m) = Some userAgent ∧ w' = w))) ∧
  (request.Header_Get canon (request.Headers req) "User-Agent" = "" →
   UserAgentMiddleware.ProcessRequest canon rand_Intn
     {| UserAgentMiddleware.userAgents := []; UserAgentMiddleware.random := random |}
     req w = None).
Proof.
  intros Hr m. split_and!.
  - apply NewUserAgentMiddleware_nonempty.
  - intros Hne. unfold m, UserAgentMiddleware.NewUserAgentMiddleware. cbn.
    rewrite decide_False; [done|]. by destruct userAgents.
  - apply UserAgent_ProcessRequest_spec; [done|apply NewUserAgentMiddleware_nonempty].
  - intros Hua. unfold UserAgentMiddleware.ProcessRequest. rewrite decide_True by done.
    cbn. by rewrite andb_false_r.
Qed.

(** X10.  [ProxyMiddleware.ProcessRequest] never indexes out of range.
    A request that names a proxy, and any request when the middleware
    has no proxies, is returned as it is; otherwise the request gets
    one of the listed proxies and is otherwise unchanged: the first of
    the list unless the middleware is random. *)
Theorem proxy_middleware_fills_in_a_missing_proxy
    (m : ProxyMiddleware.t) (req : request.Request) (w : World) :
  draws_in_range rand_Intn →
  ∃ req' w',
    ProxyMiddleware.ProcessRequest rand_Intn m req w = Some (req', w') ∧
    (request.Proxy req ≠ "" ∨ ProxyMiddleware.proxies m = [] → req' = req ∧ w' = w) ∧
    (request.Proxy req = "" → ProxyMiddleware.proxies m ≠ [] →
     ∃ proxy, proxy ∈ ProxyMiddleware.proxies m ∧
       req' = request.SetProxy proxy req ∧
       (ProxyMiddleware.random m = false →
        head (ProxyMiddleware.proxies m) = Some proxy ∧ w' = w)).
Proof.
  intros Hr. unfold ProxyMiddleware.ProcessRequest.
  destruct (bool_decide (request.Proxy req = "") && _) eqn:Ec.
  - apply andb_true_iff in Ec as [Hp%bool_decide_eq_true Hlen0%bool_decide_eq_true].
    destruct (ProxyMiddleware.random m && _) eqn:Eb.
    + apply andb_true_iff in Eb as [Hrand Hlen%bool_decide_eq_true].
      pose proof (Hr (length (ProxyMiddleware.proxies m)) w ltac:(lia)) as Hi.
      destruct (rand_Intn _ w) as [i w'] eqn:Ei. cbn [fst] in Hi.
      destruct (lookup_lt_is_Some_2 _ _ Hi) as [p Ep]. rewrite Ep. cbn.
      exists (request.SetProxy p req), w'. split_and!; [done| |].
      * intros [H|H]; [done|]. rewrite H in Hlen0. simpl in Hlen0. lia.
      * intros _ _. exists p. split_and!; [by eapply list_elem_of_lookup_2|done|].
        intros Hf. by rewrite Hf in Hrand.
    + destruct (ProxyMiddleware.proxies m) as [|p ps] eqn:Eps; [simpl in Hlen0; lia|]. cbn.
      exists (request.SetProxy p req), w. split_and!; [done| |].
      * intros [H|H]; done.
      * intros _ _. exists p. split_and!; [left|done|done].
  - exists req, w. split_and!; [done|done|].
    intros Hp Hne.
    apply andb_false_iff in Ec as [H%bool_decide_eq_false|H%bool_decide_eq_false]; [done|].
    destruct (ProxyMiddleware.proxies m); [done|]. simpl in H. lia.
Qed.

End FillFacts.

Lemma draws_zero_in_range : draws_in_range draws_zero.
Proof. intros n w Hn. exact Hn. Qed.

(** A request without headers through a middleware with two agents. *)
Lemma user_agent_middleware_fills_in_a_missing_user_agent_witness :
  let req := request.NewRequest "GET" "http://a/" in
  draws_in_range draws_zero ∧
  let m := middleware.UserAgentMiddleware.NewUserAgentMiddleware ["A/1"; "B/2"] true in
  middleware.UserAgentMiddleware.userAgents m ≠ [] ∧
  (["A/1"; "B/2"] ≠ [] → middleware.UserAgentMiddleware.userAgents m = ["A/1"; "B/2"]) ∧
  (∃ req' w',
     middleware.UserAgentMiddleware.ProcessRequest id draws_zero m req tt = Some (req', w') ∧
     (request.Header_Get id (request.Headers req) "User-Agent" ≠ "" →
      req' = req ∧ w' = tt) ∧
     (request.Header_Get id (request.Headers req) "User-Agent" = "" →
      ∃ userAgent, userAgent ∈ middleware.UserAgentMiddleware.userAgents m ∧
        req' = request.SetHeader id "User-Agent" userAgent req ∧
        request.Header_Get id (request.Headers req') "User-Agent" = userAgent ∧
        (true = false →
         head (middleware.UserAgentMiddleware.userAgents m) = Some userAgent ∧ w' = tt))) ∧
  (request.Header_Get id (request.Headers req) "User-Agent" = "" →
   middleware.UserAgentMiddleware.ProcessRequest id draws_zero
     {| middleware.UserAgentMiddleware.userAgents := [];
        middleware.UserAgentMiddleware.random := true |}
     req tt = None).
Proof.
  intros req. split; [exact draws_zero_in_range|].
  exact (user_agent_middleware_fills_in_a_missing_user_agent id draws_zero
           ["A/1"; "B/2"] true req tt draws_zero_in_range).
Defined.

(** A request without a proxy through a middleware with one. *)
Lemma proxy_middleware_fills_in_a_missing_proxy_witness :
  let req := request.NewRequest "GET" "http://a/" in
  let m := middleware.ProxyMiddleware.NewProxyMiddleware ["http://p:8080"] false in
  draws_in_range draws_zero ∧
  ∃ req' w',
    middleware.ProxyMiddleware.ProcessRequest draws_zero m req tt = Some (req', w') ∧
    (request.Proxy req ≠ "" ∨ middleware.ProxyMiddleware.proxies m = [] →
     req' = req ∧ w' = tt) ∧
    (request.Proxy req = "" → middleware.ProxyMiddleware.proxies m ≠ [] →
     ∃ proxy, proxy ∈ middleware.ProxyMiddleware.proxies m ∧
       req' = request.SetProxy proxy req ∧
       (middleware.ProxyMiddleware.random m = false →
        head (middleware.ProxyMiddleware.proxies m) = Some proxy ∧ w' = tt)).
Proof.
  intros req m. split; [exact draws_zero_in_range|].
  exact (proxy_middleware_fills_in_a_missing_proxy draws_zero m req tt draws_zero_in_range).
Defined.

(** ** The header middleware *)

Section HeaderMwFacts.

Import middleware.

Variable canon : string → string.
Variable range_order : gmap string string → list (string * string).

Local Abbreviation Get := (λ req, request.Header_Get canon (request.Headers req)).

Local Abbreviation hstep := (fill_header canon).

Lemma Get_canon req k k' : canon k = canon k' → Get req k = Get req k'.
Proof. intros E. unfold request.Header_Get. by rewrite E. Qed.

Lemma Get_hstep req kv key :
  Get (hstep req kv) key =
  if decide (canon key = canon kv.1 ∧ Get req key = "") then kv.2 else Get req key.
Proof.
  unfold fill_header. destruct (decide (Get req kv.1 = "")) as [E|E].
  - cbn. unfold request.Header_Get at 1, request.Header_Set.
    destruct (decide (canon key = canon kv.1)) as [Ec|Ec].
    + rewrite Ec, lookup_insert_eq. rewrite decide_True; [done|].
      split; [done|]. by rewrite (Get_canon _ _ _ Ec).
    + rewrite lookup_insert_ne by done. rewrite decide_False by (intros [? _]; done). done.
  - rewrite decide_False; [done|]. intros [Ec H]. apply E.
    by rewrite <- (Get_canon _ _ _ Ec).
Qed.

Lemma hstep_Headers req kv : hstep req kv = request.set_Headers (request.Headers (hstep req kv)) req.
Proof. unfold fill_header. case_decide; [done|]. by destruct req. Qed.

Lemma fold_keeps order : ∀ req key,
  Get req key ≠ "" → Get (foldl hstep req order) key = Get req key.
Proof.
  induction order as [|kv order IH]; intros req key Hne; [done|].
  cbn [foldl]. rewrite IH; rewrite Get_hstep, decide_False; try done; by intros [_ ?].
Qed.

Lemma fold_fills order : ∀ req key value,
  (key, value) ∈ order → value ≠ "" → Get (foldl hstep req order) key ≠ "".
Proof.
  induction order as [|kv order IH]; intros req key value Hin Hv.
  - by apply elem_of_nil in Hin.
  - cbn [foldl]. apply elem_of_cons in Hin as [<-|Hin]; [|by eapply IH].
    assert (Get (hstep req (key, value)) key ≠ "") as H1.
    { rewrite Get_hstep. cbn. case_decide as Hc; [done|].
      intros E. apply Hc. done. }
    by rewrite fold_keeps.
Qed.

Lemma fold_other order : ∀ req key,
  (∀ k v, (k, v) ∈ order → canon k ≠ canon key) →
  Get (foldl hstep req order) key = Get req key.
Proof.
  induction order as [|kv order IH]; intros req key Hc; [done|].
  cbn [foldl]. rewrite IH.
  - rewrite Get_hstep, decide_False; [done|]. intros [E _].
    destruct kv as [k v]. eapply Hc; [left|]. done.
  - intros k v Hin. apply (Hc k v). by right.
Qed.

Lemma fold_sets order key value : ∀ req,
  (∀ k v, (k, v) ∈ order → canon k = canon key → v = value) →
  Get req key = value ∨
    (Get req key = "" ∧ ∃ k v, (k, v) ∈ order ∧ canon k = canon key) →
  Get (foldl hstep req order) key = value.
Proof.
  induction order as [|[k v] order IH]; intros req Hu Hs.
  - destruct Hs as [H|(_ & k & v & Hin & _)]; [done|]. by apply elem_of_nil in Hin.
  - cbn [foldl]. apply IH.
    + intros k' v' Hin. apply Hu. by right.
    + rewrite Get_hstep. cbn.
      destruct (decide (canon k = canon key)) as [Ec|Ec].
      * assert (v = value) as -> by (eapply Hu; [left|done]).
        left. case_decide as Hd; [done|].
        destruct Hs as [H|[H _]]; [done|]. exfalso. apply Hd. done.
      * rewrite decide_False by (intros [? _]; done).
        destruct Hs as [H|(H & k' & v' & Hin & Ec')]; [by left|].
        right. split; [done|]. exists k', v'. split; [|done].
        apply elem_of_cons in Hin as [[= -> ->]|Hin]; done.
Qed.

Lemma fold_Headers order : ∀ req,
  foldl hstep req order = request.set_Headers (request.Headers (foldl hstep req order)) req.
Proof.
  induction order as [|kv order IH]; intros req; [by destruct req|].
  cbn [foldl]. rewrite IH at 1. rewrite (hstep_Headers req kv) at 2. done.
Qed.

(** X11.  Whatever the order in which [range] visits the configured
    headers, [HeaderMiddleware.ProcessRequest] leaves every header that
    the request carries as it is; afterwards every configured header
    with a non-empty value reads non-empty; a header whose canonical
    form no configured key shares reads as before; and a configured
    header that the request lacked reads as the configured value,
    provided no other configured key has the same canonical form.
    Only the headers of the request change. *)
Theorem header_middleware_adds_only_missing_headers
    (m : HeaderMiddleware.t) (req : request.Request) :
  visits_every_entry range_order →
  let req' := HeaderMiddleware.ProcessRequest canon range_order m req in
  (∀ key, Get req key ≠ "" → Get req' key = Get req key) ∧
  (∀ key value, HeaderMiddleware.headers m !! key = Some value → value ≠ "" →
     Get req' key ≠ "") ∧
  (∀ key, (∀ k v, HeaderMiddleware.headers m !! k = Some v → canon k ≠ canon key) →
     Get req' key = Get req key) ∧
  (∀ key value, HeaderMiddleware.headers m !! key = Some value →
     Get req key = "" →
     (∀ k v, HeaderMiddleware.headers m !! k = Some v → canon k = canon key → k = key) →
     Get req' key = value) ∧
  req' = request.set_Headers (request.Headers req') req.
Proof.
  intros Hperm req'.
  assert (req' = foldl hstep req (range_order (HeaderMiddleware.headers m))) as Ereq by done.
  assert (∀ k v, (k, v) ∈ range_order (HeaderMiddleware.headers m) ↔
                 HeaderMiddleware.headers m !! k = Some v) as Hin.
  { intros k v. rewrite (Hperm _). apply elem_of_map_to_list. }
  rewrite Ereq. split_and!.
  - intros key Hne. by apply fold_keeps.
  - intros key value Hk Hv. eapply fold_fills; [|done]. by apply Hin.
  - intros key Hc. apply fold_other. intros k v Hkv%Hin. by eapply Hc.
  - intros key value Hk Hg Hu. apply fold_sets.
    + intros k v Hkv%Hin Ec. specialize (Hu k v Hkv Ec). subst k. congruence.
    + right. split; [done|]. exists key, value. split; [by apply Hin|done].
  - apply fold_Headers.
Qed.

End HeaderMwFacts.

(** One configured header, on a request without headers. *)
Lemma header_middleware_adds_only_missing_headers_witness :
  let m := middleware.HeaderMiddleware.NewHeaderMiddleware {[ "Accept" := "text/html" ]} in
  let req := request.NewRequest "GET" "http://a/" in
  visits_every_entry map_to_list ∧
  let req' := middleware.HeaderMiddleware.ProcessRequest id map_to_list m req in
  (∀ key, request.Header_Get id (request.Headers req) key ≠ "" →
          request.Header_Get id (request.Headers req') key
          = request.Header_Get id (request.Headers req) key) ∧
  (∀ key value, middleware.HeaderMiddleware.headers m !! key = Some value → value ≠ "" →
     request.Header_Get id (request.Headers req') key ≠ "") ∧
  (∀ key, (∀ k v, middleware.HeaderMiddleware.headers m !! k = Some v → id k ≠ id key) →
     request.Header_Get id (request.Headers req') key
     = request.Header_Get id (request.Headers req) key) ∧
  (∀ key value, middleware.HeaderMiddleware.headers m !! key = Some value →
     request.Header_Get id (request.Headers req) key = "" →
     (∀ k v, middleware.HeaderMiddleware.headers m !! k = Some v → id k = id key → k = key) →
     request.Header_Get id (request.Headers req') key = value) ∧
  req' = request.set_Headers (request.Headers req') req.
Proof.
  intros m req.
  assert (visits_every_entry map_to_list) as H by (by intros hs).
  split; [exact H|].
  exact (header_middleware_adds_only_missing_headers id map_to_list m req H).
Defined.

(** ** The cookie middleware *)

Section SplitFacts.

Import middleware.

Lemma has_byte_String c d s : has_byte c (String d s) ↔ c = d ∨ has_byte c s.
Proof. unfold has_byte. cbn. apply elem_of_cons. Qed.

Lemma has_byte_empty c : ¬ has_byte c "".
Proof. unfold has_byte. cbn. apply not_elem_of_nil. Qed.

Lemma Split_String c s sep :
  strings_Split (String c s) sep =
  if decide (c = sep) then "" :: strings_Split s sep
  else match strings_Split s sep with
       | piece :: pieces => String c piece :: pieces
       | [] => [String c ""]
       end.
Proof. done. Qed.

Lemma append_String c a b : String c a +:+ b = String c (a +:+ b).
Proof. done. Qed.

Lemma append_empty b : "" +:+ b = b.
Proof. done. Qed.

Lemma Split_sep sep a : ∀ b,
  ¬ has_byte sep a →
  strings_Split (a +:+ String sep b) sep = a :: strings_Split b sep.
Proof.
  induction a as [|c a IH]; intros b Ha.
  - rewrite append_empty, Split_String. by rewrite decide_True.
  - rewrite has_byte_String in Ha. rewrite append_String, Split_String.
    rewrite decide_False by (intros ->; apply Ha; by left).
    rewrite IH by (intros H; apply Ha; by right). done.
Qed.

Lemma Split_none sep a : ¬ has_byte sep a → strings_Split a sep = [a].
Proof.
  induction a as [|c a IH]; intros Ha; [done|].
  rewrite has_byte_String in Ha. rewrite Split_String.
  rewrite decide_False by (intros ->; apply Ha; by left).
  rewrite IH by (intros H; apply Ha; by right). done.
Qed.

Lemma Split_inv sep s :
  ∃ p ps, strings_Split s sep = p :: ps ∧ ¬ has_byte sep p ∧
    match ps with
    | [] => s = p
    | _ :: _ => ∃ rest, s = p +:+ String sep rest ∧ strings_Split rest sep = ps
    end.
Proof.
  induction s as [|c s IH].
  - exists "", []. split_and!; [done|apply has_byte_empty|done].
  - rewrite Split_String. case_decide as Hc.
    + subst c. destruct IH as (p & ps & E & _).
      exists "", (strings_Split s sep). split_and!; [done|apply has_byte_empty|].
      rewrite E. by exists s.
    + destruct IH as (p & ps & E & Hp & Hps). rewrite E.
      exists (String c p), ps. split_and!; [done| |].
      * rewrite has_byte_String. intros [->|H]; done.
      * destruct ps as [|q qs]; [by subst|].
        destruct Hps as (rest & -> & Er). by exists rest.
Qed.

(** X12.  [getDomain] cuts the address at every slash and returns the
    third piece when there is one: for scheme://host/path and for
    scheme://host it is the host (with its port), whatever the path;
    an address with fewer than two slashes is returned whole.  The
    result is the address itself or holds no slash. *)
Theorem cookie_domain_is_the_third_piece_of_the_address :
  (∀ scheme host rest : string,
     ¬ has_byte "/" scheme → ¬ has_byte "/" host →
     CookieMiddleware.getDomain (scheme +:+ "//" +:+ host +:+ "/" +:+ rest) = host ∧
     CookieMiddleware.getDomain (scheme +:+ "//" +:+ host) = host) ∧
  (∀ a b : string,
     ¬ has_byte "/" a → ¬ has_byte "/" b →
     CookieMiddleware.getDomain a = a ∧
     CookieMiddleware.getDomain (a +:+ "/" +:+ b) = a +:+ "/" +:+ b) ∧
  (∀ url : string,
     CookieMiddleware.getDomain url = url ∨
     ¬ has_byte "/" (CookieMiddleware.getDomain url)).
Proof.
  split_and!.
  - intros scheme host rest Hs Hh. unfold CookieMiddleware.getDomain. cbv zeta.
    change (scheme +:+ "//" +:+ host +:+ "/" +:+ rest)
      with (scheme +:+ String "/" ("" +:+ String "/" (host +:+ String "/" rest))).
    change (scheme +:+ "//" +:+ host)
      with (scheme +:+ String "/" ("" +:+ String "/" host)).
    rewrite !Split_sep by (done || apply has_byte_empty).
    rewrite (Split_none _ host) by done.
    destruct (Split_inv "/" rest) as (p & ps & -> & _). split; by cbn.
  - intros a b Ha Hb. unfold CookieMiddleware.getDomain. cbv zeta.
    change (a +:+ "/" +:+ b) with (a +:+ String "/" b).
    rewrite Split_sep, !Split_none by done. split; by cbn.
  - intros url. unfold CookieMiddleware.getDomain. cbv zeta.
    case_decide as Hlen; [|by left].
    destruct (Split_inv "/" url) as (p & ps & E & _ & Hps). rewrite E in *.
    destruct ps as [|q qs]; [cbn in Hlen; lia|].
    destruct Hps as (r1 & _ & E1).
    destruct (Split_inv "/" r1) as (p1 & ps1 & E1' & _ & Hps1). rewrite E1' in E1.
    injection E1 as -> ->.
    destruct qs as [|q2 qs2]; [cbn in Hlen; lia|].
    destruct Hps1 as (r2 & _ & E2).
    destruct (Split_inv "/" r2) as (p2 & ps2 & E2' & Hp2 & _). rewrite E2' in E2.
    injection E2 as -> ->. right. by cbn.
Qed.

End SplitFacts.

Section CookieFacts.

Import middleware.

Variable trim : string → string.

Local Abbreviation parseCookie := (CookieMiddleware.parseCookie trim).

(** X13.  [parseCookie] reads a header value name=value, with or
    without attributes after a semicolon, as the cookie of that name
    and value, when the trimmed first piece is name=value and neither
    part holds an equals sign.  Every cookie it returns comes from the
    piece before the first semicolon, trimmed, and neither its name nor
    its value holds an equals sign: a value with an equals sign in it
    (a=b=c) is rejected, the result is nil. *)
Theorem cookie_is_parsed_from_the_piece_before_the_first_semicolon :
  (∀ name value attrs : string,
     ¬ has_byte ";" (name +:+ "=" +:+ value) →
     ¬ has_byte "=" name → ¬ has_byte "=" value →
     trim (name +:+ "=" +:+ value) = name +:+ "=" +:+ value →
     parseCookie (name +:+ "=" +:+ value)
       = Some {| request.Name := name; request.Value := value |} ∧
     parseCookie ((name +:+ "=" +:+ value) +:+ ";" +:+ attrs)
       = Some {| request.Name := name; request.Value := value |}) ∧
  (∀ (setCookie : string) (cookie : request.Cookie),
     parseCookie setCookie = Some cookie →
     ¬ has_byte "=" (request.Name cookie) ∧ ¬ has_byte "=" (request.Value cookie) ∧
     ∃ part0, ¬ has_byte ";" part0 ∧
       trim part0 = request.Name cookie +:+ "=" +:+ request.Value cookie ∧
       (setCookie = part0 ∨ ∃ rest, setCookie = part0 +:+ ";" +:+ rest)) ∧
  (∀ a b c attrs : string,
     ¬ has_byte ";" (a +:+ "=" +:+ b +:+ "=" +:+ c) →
     ¬ has_byte "=" a → ¬ has_byte "=" b →
     trim (a +:+ "=" +:+ b +:+ "=" +:+ c) = a +:+ "=" +:+ b +:+ "=" +:+ c →
     parseCookie ((a +:+ "=" +:+ b +:+ "=" +:+ c) +:+ ";" +:+ attrs) = None).
Proof.
  split_and!.
  - intros name value attrs Hsemi Hn Hv Htrim.
    unfold CookieMiddleware.parseCookie.
    change ((name +:+ "=" +:+ value) +:+ ";" +:+ attrs)
      with ((name +:+ "=" +:+ value) +:+ String ";" attrs).
    rewrite Split_sep, Split_none by done. rewrite Htrim.
    change (name +:+ "=" +:+ value) with (name +:+ String "=" value).
    rewrite Split_sep, Split_none by done. done.
  - intros setCookie cookie Hp. unfold CookieMiddleware.parseCookie in Hp.
    destruct (Split_inv ";" setCookie) as (part0 & ps & E & Hp0 & Hps).
    rewrite E in Hp.
    destruct (Split_inv "=" (trim part0)) as (n & qs & E' & Hn & Hqs).
    rewrite E' in Hp.
    destruct qs as [|v [|]]; [done| |done]. injection Hp as <-. cbn.
    destruct Hqs as (rest & Et & Er).
    destruct (Split_inv "=" rest) as (v' & qs' & Er' & Hv' & Hqs').
    rewrite Er' in Er. injection Er as -> ->. subst rest.
    split_and!; [done|done|]. exists part0. split_and!; [done|done|].
    destruct ps; [by left|]. destruct Hps as (rest & -> & _). right. by exists rest.
  - intros a b c attrs Hsemi Ha Hb Htrim.
    unfold CookieMiddleware.parseCookie.
    change ((a +:+ "=" +:+ b +:+ "=" +:+ c) +:+ ";" +:+ attrs)
      with ((a +:+ "=" +:+ b +:+ "=" +:+ c) +:+ String ";" attrs).
    rewrite Split_sep by done. rewrite Htrim.
    change (a +:+ "=" +:+ b +:+ "=" +:+ c) with (a +:+ String "=" (b +:+ String "=" c)).
    rewrite !Split_sep by done.
    destruct (Split_inv "=" c) as (p & ps & -> & _). done.
Qed.

Local Abbreviation store := (CookieMiddleware.store trim).

Lemma omap_cons_unfold {A B} (f : A → option B) (x : A) (l : list A) :
  omap f (x :: l) = match f x with Some y => y :: omap f l | None => omap f l end.
Proof. done. Qed.

Lemma store_all (domain : string) (setCookies : list string) : ∀ m : CookieMiddleware.t,
  let m' := foldl (store domain) m setCookies in
  let new := omap parseCookie setCookies in
  (∀ d, d ≠ domain → CookieMiddleware.cookieJar m' !! d = CookieMiddleware.cookieJar m !! d) ∧
  (new = [] → m' = m) ∧
  (new ≠ [] →
   CookieMiddleware.cookieJar m' !! domain
   = Some (default [] (CookieMiddleware.cookieJar m !! domain) ++ new)).
Proof.
  induction setCookies as [|sc scs IH]; intros m; cbv zeta.
  - cbn. done.
  - cbn [foldl]. rewrite omap_cons_unfold.
    destruct (parseCookie sc) as [c|] eqn:Ec.
    + set (m1 := {| CookieMiddleware.cookieJar :=
                      <[domain := default [] (CookieMiddleware.cookieJar m !! domain) ++ [c]]>
                        (CookieMiddleware.cookieJar m) |}).
      assert (store domain m sc = m1) as ->.
      { unfold CookieMiddleware.store. by rewrite Ec. }
      destruct (IH m1) as (Hother & Hnil & Hnew). cbv zeta in *.
      split_and!.
      * intros d Hd. rewrite Hother by done. subst m1. cbn.
        by rewrite lookup_insert_ne.
      * done.
      * intros _. destruct (omap parseCookie scs) as [|c' cs'] eqn:Eo.
        -- rewrite Hnil by done. subst m1. cbn. by rewrite lookup_insert_eq.
        -- rewrite Hnew by done. subst m1. cbn. rewrite lookup_insert_eq. cbn.
           by rewrite <- app_assoc.
    + assert (store domain m sc = m) as ->.
      { unfold CookieMiddleware.store. by rewrite Ec. }
      apply IH.
Qed.

(** X14.  [CookieMiddleware.ProcessResponse] returns the response as it
    is and appends the cookies parsed from its Set-Cookie values, in
    order, to the jar entry of the request's domain: nothing already
    in the jar is replaced or removed, and other domains are not
    touched.  [ProcessRequest] on a later request to that domain
    appends the whole jar entry to the request's cookies, the earlier
    cookies first; a request to a domain without an entry is returned
    as it is. *)
Theorem cookies_of_a_response_go_out_with_the_next_request_to_its_domain
    (m : CookieMiddleware.t) (req : request.Request) (resp : response.Response) :
  let r := CookieMiddleware.ProcessResponse trim m req resp in
  let domain := CookieMiddleware.getDomain (request.URL req) in
  let new := omap parseCookie (default [] (response.Headers resp !! "Set-Cookie")) in
  r.2 = resp ∧
  (∀ next : request.Request,
     CookieMiddleware.getDomain (request.URL next) = domain →
     request.Cookies (CookieMiddleware.ProcessRequest r.1 next)
     = request.Cookies next
       ++ default [] (CookieMiddleware.cookieJar m !! domain) ++ new) ∧
  (∀ next : request.Request,
     CookieMiddleware.getDomain (request.URL next) ≠ domain →
     CookieMiddleware.ProcessRequest r.1 next = CookieMiddleware.ProcessRequest m next) ∧
  (∀ next : request.Request,
     CookieMiddleware.cookieJar m !! CookieMiddleware.getDomain (request.URL next) = None →
     CookieMiddleware.ProcessRequest m next = next).
Proof.
  cbv zeta.
  assert (∀ (cookies : list request.Cookie) (next : request.Request),
            request.Cookies (foldl (λ r cookie, request.AddCookie cookie r) next cookies)
            = request.Cookies next ++ cookies) as Hadd.
  { induction cookies as [|c cs IH]; intros next; cbn; [by rewrite app_nil_r|].
    rewrite IH. cbn. by rewrite <- app_assoc. }
  unfold CookieMiddleware.ProcessResponse. cbv zeta.
  set (scs := default [] (response.Headers resp !! "Set-Cookie")).
  set (domain := CookieMiddleware.getDomain (request.URL req)).
  pose proof (store_all domain scs m) as (Hother & Hnil & Hnew). cbv zeta in *.
  assert (∀ next, CookieMiddleware.getDomain (request.URL next) = domain →
     request.Cookies (CookieMiddleware.ProcessRequest (foldl (store domain) m scs) next)
     = request.Cookies next
       ++ default [] (CookieMiddleware.cookieJar m !! domain) ++ omap parseCookie scs) as Hsame.
  { intros next Hd. unfold CookieMiddleware.ProcessRequest. rewrite Hd.
    destruct (omap parseCookie scs) as [|c cs] eqn:Eo.
    - rewrite Hnil by done. rewrite app_nil_r.
      destruct (CookieMiddleware.cookieJar m !! domain) as [cookies|]; cbn.
      + apply Hadd.
      + by rewrite app_nil_r.
    - rewrite Hnew by done. apply Hadd. }
  case_decide as Hlen; cbn [fst snd].
  - split_and!; [done|exact Hsame| |].
    + intros next Hd. unfold CookieMiddleware.ProcessRequest. by rewrite Hother.
    + intros next Hn. unfold CookieMiddleware.ProcessRequest. by rewrite Hn.
  - assert (scs = []) as Hs by (destruct scs; [done|cbn in Hlen; lia]).
    rewrite Hs in Hsame. cbn in Hsame. rewrite Hs. cbn.
    split_and!; [done|exact Hsame|done|].
    intros next Hn. unfold CookieMiddleware.ProcessRequest. by rewrite Hn.
Qed.

End CookieFacts.

(** ** The retry counter over many responses *)

Section RetryBound.

Import middleware.

Lemma ProcessResponse_RetryTimes m req resp :
  int64_range (request.RetryTimes req) → int64_range (maxRetries m) →
  let req' := (ProcessResponse m req resp).1 in
  (request.RetryTimes req ≤ request.RetryTimes req'
   ≤ Z.max (request.RetryTimes req) (maxRetries m))%Z ∧
  (request.RetryTimes req' ≤ request.RetryTimes req + 1)%Z ∧
  req' = request.SetRetryTimes (request.RetryTimes req') req.
Proof.
  intros Hr Hm. unfold ProcessResponse. cbv zeta.
  destruct (shouldRetry m _ && _) eqn:E; cbn.
  - apply andb_true_iff in E as [_ Hlt%bool_decide_eq_true].
    unfold add64. rewrite wrap64_small by (unfold int64_range in *; lia).
    split_and!; [lia|lia|lia|done].
  - split_and!; [lia|lia|lia|by destruct req].
Qed.

(** X15.  Through any sequence of responses, the retry middleware never
    lowers [RetryTimes] and never raises it above the larger of its
    starting value and [maxRetries]; it raises it by at most one per
    response, and changes no other field.  The count depends on the
    request only through [RetryTimes]: two requests that start with the
    same count end with the same count, so [DontRetry] is not
    consulted. *)
Theorem retry_counter_never_passes_the_maximum
    (m : RetryMiddleware) (req : request.Request) (resps : list response.Response) :
  int64_range (request.RetryTimes req) →
  int64_range (maxRetries m) →
  let req' := after_responses m req resps in
  (request.RetryTimes req ≤ request.RetryTimes req'
   ≤ Z.max (request.RetryTimes req) (maxRetries m))%Z ∧
  (request.RetryTimes req' ≤ request.RetryTimes req + Z.of_nat (length resps))%Z ∧
  req' = request.SetRetryTimes (request.RetryTimes req') req ∧
  (∀ other : request.Request,
     request.RetryTimes other = request.RetryTimes req →
     request.RetryTimes (after_responses m other resps) = request.RetryTimes req').
Proof.
  intros Hr Hm. cbv zeta. revert req Hr.
  induction resps as [|resp resps IH]; intros req Hr.
  - cbn. split_and!; [lia|lia|lia|by destruct req|done].
  - unfold after_responses. cbn [foldl].
    fold (after_responses m (ProcessResponse m req resp).1 resps).
    destruct (ProcessResponse_RetryTimes m req resp Hr Hm) as (H1 & H2 & H3).
    cbv zeta in *.
    set (req1 := (ProcessResponse m req resp).1) in *.
    assert (int64_range (request.RetryTimes req1)) as Hr1.
    { unfold int64_range in *. lia. }
    destruct (IH req1 Hr1) as (I1 & I2 & I3 & I4).
    split_and!; [lia|lia| | |].
    + cbn [length]. lia.
    + rewrite I3 at 1. rewrite H3. done.
    + intros other Ho.
      fold (after_responses m (ProcessResponse m other resp).1 resps).
      assert (request.RetryTimes (ProcessResponse m other resp).1 = request.RetryTimes req1) as E1.
      { subst req1. unfold ProcessResponse. rewrite Ho.
        destruct (shouldRetry m _ && _); cbn; by rewrite ?Ho. }
      assert (int64_range (request.RetryTimes (ProcessResponse m other resp).1)) as Hr2
        by by rewrite E1.
      destruct (IH _ Hr2) as (_ & _ & _ & J4).
      rewrite <- (J4 req1); [done|]. done.
Qed.

End RetryBound.

(** Five 503 responses against a maximum of three retries. *)
Lemma retry_counter_never_passes_the_maximum_witness :
  let m := middleware.NewRetryMiddleware 3 [] in
  let req := request.NewRequest "GET" "http://a/" in
  let resps := replicate 5 (response.NewResponse "http://a/" 503 ∅ [] req) in
  int64_range (request.RetryTimes req) ∧ int64_range (middleware.maxRetries m) ∧
  request.RetryTimes (after_responses m req resps) = 3%Z ∧
  let req' := after_responses m req resps in
  (request.RetryTimes req ≤ request.RetryTimes req'
   ≤ Z.max (request.RetryTimes req) (middleware.maxRetries m))%Z ∧
  (request.RetryTimes req' ≤ request.RetryTimes req + Z.of_nat (length resps))%Z ∧
  req' = request.SetRetryTimes (request.RetryTimes req') req ∧
  (∀ other : request.Request,
     request.RetryTimes other = request.RetryTimes req →
     request.RetryTimes (after_responses m other resps) = request.RetryTimes req').
Proof.
  intros m req resps.
  assert (int64_range (request.RetryTimes req)) as H1 by (unfold int64_range; cbn; lia).
  assert (int64_range (middleware.maxRetries m)) as H2 by (unfold int64_range; cbn; lia).
  split_and!; [exact H1|exact H2|vm_compute; reflexivity|].
  exact (retry_counter_never_passes_the_maximum m req resps H1 H2).
Defined.

(** ** The helpers of the list command *)

Section ListFacts.

Import commands.

Lemma removeDuplicates_loop_extends (slice : list string) : ∀ keys result,
  ∃ added, removeDuplicates_loop keys result slice = result ++ added.
Proof.
  induction slice as [|item slice IH]; intros keys result.
  - exists []. by rewrite app_nil_r.
  - cbn [removeDuplicates_loop]. destruct (negb _ && negb _).
    + destruct (IH (<[item := true]> keys) (result ++ [item])) as [added ->].
      exists (item :: added). by rewrite <- app_assoc.
    + apply IH.
Qed.

Lemma removeDuplicates_loop_prefix (slice more : list string) : ∀ keys result,
  removeDuplicates_loop keys result slice
    `prefix_of` removeDuplicates_loop keys result (slice ++ more).
Proof.
  induction slice as [|item slice IH]; intros keys result.
  - cbn. destruct (removeDuplicates_loop_extends more keys result) as [added ->].
    by exists added.
  - cbn [app removeDuplicates_loop]. destruct (negb _ && negb _); apply IH.
Qed.

Lemma removeDuplicates_loop_spec (slice : list string) : ∀ keys result,
  (∀ x, default false (keys !! x) = true ↔ x ∈ result) →
  NoDup result → ("" ∉ result) →
  ∃ added, removeDuplicates_loop keys result slice = result ++ added ∧
    NoDup (result ++ added) ∧ ("" ∉ added) ∧ added `sublist_of` slice ∧
    (∀ x, x ∈ result ++ added ↔ x ∈ result ∨ (x ∈ slice ∧ x ≠ "")) ∧
    (NoDup slice → ("" ∉ slice) → (∀ x, x ∈ slice → x ∉ result) → added = slice).
Proof.
  induction slice as [|item slice IH]; intros keys result Hk Hnd Hne.
  - exists []. rewrite app_nil_r. cbn. split_and!; try done.
    + apply not_elem_of_nil.
    + intros x. split; [by left|]. intros [H|[H _]]; [done|]. by apply elem_of_nil in H.
  - cbn [removeDuplicates_loop].
    destruct (negb (default false (keys !! item)) && negb (bool_decide (item = ""))) eqn:E.
    + apply andb_true_iff in E as [E1%negb_true_iff E2%negb_true_iff].
      apply bool_decide_eq_false in E2.
      assert (item ∉ result) as Hni.
      { intros Hin%Hk. congruence. }
      destruct (IH (<[item := true]> keys) (result ++ [item]))
        as (added & E & H1 & H2 & H3 & H4 & H5).
      * intros x. destruct (decide (x = item)) as [->|Hx].
        -- rewrite lookup_insert_eq. cbn. split; [|done]. intros _.
           apply elem_of_app. right. by left.
        -- rewrite lookup_insert_ne by done. rewrite Hk, elem_of_app, list_elem_of_singleton.
           naive_solver.
      * apply NoDup_app. split_and!; [done| |apply NoDup_singleton].
        intros x Hx ->%list_elem_of_singleton. done.
      * rewrite elem_of_app, list_elem_of_singleton. naive_solver.
      * exists (item :: added). rewrite <- app_assoc in E, H1, H4. cbn in E, H1, H4.
        split_and!; try done.
        -- rewrite elem_of_cons. naive_solver.
        -- by constructor.
        -- intros x. rewrite H4.
           rewrite elem_of_app, list_elem_of_singleton, elem_of_cons. naive_solver.
        -- intros Hnds Hnes Hdis. f_equal. apply NoDup_cons in Hnds as [Hi Hnds].
           apply H5; [done| |].
           ++ intros Hin. apply Hnes. by right.
           ++ intros x Hx. rewrite elem_of_app, list_elem_of_singleton.
              intros [Hr| ->]; [|done]. eapply Hdis; [|done]. by right.
    + destruct (IH keys result Hk Hnd Hne) as (added & E' & H1 & H2 & H3 & H4 & H5).
      exists added. split_and!; try done.
      * by constructor.
      * intros x. rewrite H4, elem_of_cons.
        apply andb_false_iff in E as [E|E].
        -- apply negb_false_iff in E. apply Hk in E. naive_solver.
        -- apply negb_false_iff, bool_decide_eq_true in E. naive_solver.
      * intros Hnds Hnes Hdis. exfalso.
        apply andb_false_iff in E as [E|E].
        -- apply negb_false_iff in E. apply Hk in E. eapply Hdis; [|done]. left.
        -- apply negb_false_iff, bool_decide_eq_true in E. apply Hnes. subst. left.
Qed.

(** X16.  [removeDuplicates] returns the non-empty strings of its
    argument, each once, in the order of their first occurrence: the
    result has no duplicates and no empty string, holds exactly the
    non-empty members of the argument, and is a subsequence of it.
    Appending to the argument only appends to the result; a list
    without duplicates and without empty strings is returned unchanged,
    so the function applied twice gives what it gives once. *)
Theorem removeDuplicates_keeps_the_first_occurrence_of_each_name (slice : list string) :
  let result := removeDuplicates slice in
  NoDup result ∧ ("" ∉ result) ∧
  (∀ x, x ∈ result ↔ x ∈ slice ∧ x ≠ "") ∧
  result `sublist_of` slice ∧
  (∀ more, result `prefix_of` removeDuplicates (slice ++ more)) ∧
  (NoDup slice → ("" ∉ slice) → result = slice) ∧
  removeDuplicates result = result.
Proof.
  cbv zeta. unfold removeDuplicates.
  assert (∀ l, ∃ added, removeDuplicates_loop ∅ [] l = added ∧
            NoDup added ∧ ("" ∉ added) ∧ added `sublist_of` l ∧
            (∀ x, x ∈ added ↔ x ∈ l ∧ x ≠ "") ∧
            (NoDup l → ("" ∉ l) → added = l)) as Hspec.
  { intros l. destruct (removeDuplicates_loop_spec l ∅ []) as (added & E & H1 & H2 & H3 & H4 & H5).
    - intros x. rewrite lookup_empty. cbn. split; [done|]. by intros ?%elem_of_nil.
    - constructor.
    - apply not_elem_of_nil.
    - exists added. cbn in *. split_and!; try done.
      + intros x. rewrite H4. split; [|by right]. intros [H|H]; [by apply elem_of_nil in H|done].
      + intros Hn He. apply H5; [done|done|]. intros x _. apply not_elem_of_nil. }
  destruct (Hspec slice) as (added & E & H1 & H2 & H3 & H4 & H5).
  rewrite E. split_and!; try done.
  - intros more. rewrite <- E. apply removeDuplicates_loop_prefix.
  - destruct (Hspec added) as (added' & -> & _ & _ & _ & _ & H5'). by apply H5'.
Qed.

Lemma selectPrimaryName_loop_spec (names : list string) : ∀ primary,
  let r := selectPrimaryName_loop primary names in
  String.length r ≤ String.length primary ∧
  (∀ n, n ∈ names → String.length r ≤ String.length n) ∧
  (r = primary ∨
   String.length r < String.length primary ∧
   ∃ pre post, names = pre ++ r :: post ∧
     ∀ n, n ∈ pre → String.length r < String.length n).
Proof.
  induction names as [|name names IH]; intros primary; cbv zeta.
  - cbn. split_and!; [done| |by left]. by intros n ?%elem_of_nil.
  - cbn [selectPrimaryName_loop]. case_decide as Hlt.
    + destruct (IH name) as (H1 & H2 & H3). cbv zeta in *.
      generalize dependent (selectPrimaryName_loop name names). intros r H1 H2 H3.
      split_and!; [lia| |].
      * intros n [->|Hn]%elem_of_cons; [done|by apply H2].
      * right. split; [lia|]. destruct H3 as [->|(Hl & pre & post & -> & Hpre)].
        -- exists [], names. split; [done|]. by intros n ?%elem_of_nil.
        -- exists (name :: pre), post. split; [done|].
           intros n [->|Hn]%elem_of_cons; [done|by apply Hpre].
    + destruct (IH primary) as (H1 & H2 & H3). cbv zeta in *.
      generalize dependent (selectPrimaryName_loop primary names). intros r H1 H2 H3.
      split_and!; [done| |].
      * intros n [->|Hn]%elem_of_cons; [lia|by apply H2].
      * destruct H3 as [->|(Hl & pre & post & -> & Hpre)]; [by left|].
        right. split; [done|]. exists (name :: pre), post. split; [done|].
        intros n [->|Hn]%elem_of_cons; [lia|by apply Hpre].
Qed.

(** X17.  [selectPrimaryName] of no names is the empty string.  Of a
    non-empty list it is a shortest name (in bytes), and among the
    shortest the one that comes first: every name before it in the list
    is strictly longer. *)
Theorem selectPrimaryName_picks_the_first_of_the_shortest_names :
  selectPrimaryName [] = "" ∧
  ∀ (name0 : string) (rest : list string),
    let names := name0 :: rest in
    let primary := selectPrimaryName names in
    (∀ n, n ∈ names → String.length primary ≤ String.length n) ∧
    ∃ pre post, names = pre ++ primary :: post ∧
      ∀ n, n ∈ pre → String.length primary < String.length n.
Proof.
  split; [done|]. intros name0 rest. cbv zeta. unfold selectPrimaryName.
  destruct (selectPrimaryName_loop_spec (name0 :: rest) name0) as (H1 & H2 & H3).
  cbv zeta in *.
  generalize dependent (selectPrimaryName_loop name0 (name0 :: rest)). intros r H1 H2 H3.
  split; [exact H2|].
  destruct H3 as [E|(_ & pre & post & E & Hpre)].
  - exists [], rest. rewrite E. split; [done|]. by intros n ?%elem_of_nil.
  - exists pre, post. done.
Qed.

End ListFacts.

(** ** Settings *)

Section SettingsFacts.

Import settings.

Lemma Get_custom s key d :
  key ∉ field_keys → Get s key d = default d (Custom s ≫= (λ c, c !! key)).
Proof.
  intros Hk. unfold field_keys in Hk.
  repeat (apply not_elem_of_cons in Hk as [? Hk]).
  unfold Get. repeat (rewrite decide_False by assumption).
  by destruct (Custom s ≫= _).
Qed.

Lemma Get_field s s' key d d' :
  key ∈ field_keys →
  BotName s' = BotName s → UserAgent s' = UserAgent s →
  RobotstxtObey s' = RobotstxtObey s → ConcurrentRequests s' = ConcurrentRequests s →
  ConcurrentRequestsPerDomain s' = ConcurrentRequestsPerDomain s →
  DownloadDelay s' = DownloadDelay s →
  RandomizeDownloadDelay s' = RandomizeDownloadDelay s →
  DownloadTimeout s' = DownloadTimeout s → RetryEnabled s' = RetryEnabled s →
  RetryTimes s' = RetryTimes s → RetryHTTPCodes s' = RetryHTTPCodes s →
  DownloaderMiddlewares s' = DownloaderMiddlewares s →
  SpiderMiddlewares s' = SpiderMiddlewares s → ItemPipelines s' = ItemPipelines s →
  FeedsExport s' = FeedsExport s → LogLevel s' = LogLevel s → LogFile s' = LogFile s →
  LogStdout s' = LogStdout s → CacheEnabled s' = CacheEnabled s →
  CacheExpire s' = CacheExpire s → CacheDir s' = CacheDir s →
  Get s' key d' = Get s key d.
Proof.
  intros Hk. intros. unfold Get.
  repeat (case_decide; [f_equal; assumption|]).
  exfalso. unfold field_keys in Hk.
  repeat (apply elem_of_cons in Hk as [Hk|Hk]; [contradiction|]).
  by apply elem_of_nil in Hk.
Qed.


Lemma Set__custom s key value :
  key ∉ typed_keys → Set_ s key value = set_Custom key value s.
Proof.
  intros Ht. unfold typed_keys in Ht.
  repeat (apply not_elem_of_cons in Ht as [? Ht]).
  unfold Set_. by repeat (rewrite decide_False by assumption).
Qed.

Lemma typed_keys_field_keys key : key ∈ typed_keys → key ∈ field_keys.
Proof.
  unfold typed_keys, field_keys. intros H.
  repeat (apply elem_of_cons in H as [->|H]; [by repeat constructor|]).
  by apply elem_of_nil in H.
Qed.

(** X18.  [Set] followed by [Get] returns the value set for the four
    keys that [Set] knows (BOT_NAME, USER_AGENT, CONCURRENT_REQUESTS,
    DOWNLOAD_DELAY) when the value has the type of the field, and for
    every key that is not one of the 21 keys of [Get].  For the four
    keys a value of another type is ignored.  For the other 17 keys of
    [Get] (RETRY_TIMES, LOG_LEVEL, ...) [Set] stores the value in
    [Custom] and leaves the fields alone, so [Get] of any of the 21
    keys answers as before: the value set is not read back.  With a nil
    [Custom], [Set] of any key but the four panics.  [Get] of a key
    that is neither a field key nor in [Custom] returns the default. *)
Theorem settings_set_is_read_back_for_four_keys_and_custom_ones :
  (∀ s d v,
     read_back s "BOT_NAME" (VString v) d = Some (VString v) ∧
     read_back s "USER_AGENT" (VString v) d = Some (VString v)) ∧
  (∀ s d n,
     read_back s "CONCURRENT_REQUESTS" (VInt n) d = Some (VInt n) ∧
     read_back s "DOWNLOAD_DELAY" (VDuration n) d = Some (VDuration n)) ∧
  (∀ s value,
     ((∀ v, value ≠ VString v) →
      Set_ s "BOT_NAME" value = Some s ∧ Set_ s "USER_AGENT" value = Some s) ∧
     ((∀ n, value ≠ VInt n) → Set_ s "CONCURRENT_REQUESTS" value = Some s) ∧
     ((∀ n, value ≠ VDuration n) → Set_ s "DOWNLOAD_DELAY" value = Some s)) ∧
  (∀ s key value d c,
     key ∉ field_keys → Custom s = Some c →
     read_back s key value d = Some value) ∧
  (∀ s key value c,
     key ∈ field_keys → key ∉ typed_keys → Custom s = Some c →
     ∃ s', Set_ s key value = Some s' ∧
       Custom s' = Some (<[key := value]> c) ∧
       ∀ k d d', k ∈ field_keys → Get s' k d' = Get s k d) ∧
  (∀ s key value,
     key ∉ typed_keys → Custom s = None → Set_ s key value = None) ∧
  (∀ s key d,
     key ∉ field_keys → Custom s ≫= (λ c, c !! key) = None → Get s key d = d).
Proof.
  split_and!.
  - intros s d v. split; reflexivity.
  - intros s d n. split; reflexivity.
  - intros s value. split_and!.
    + intros Hv. destruct value; try (split; reflexivity). by destruct (Hv s0).
    + intros Hv. destruct value; try reflexivity. by destruct (Hv n).
    + intros Hv. destruct value; try reflexivity. by destruct (Hv d).
  - intros s key value d c Hk Hc. unfold read_back.
    rewrite Set__custom by (intros H%typed_keys_field_keys; done).
    unfold set_Custom. rewrite Hc. cbn [mbind option_bind].
    rewrite Get_custom by done. cbn [Custom mbind option_bind default].
    by rewrite lookup_insert_eq.
  - intros s key value c Hk Ht Hc.
    rewrite Set__custom by done.
    unfold set_Custom. rewrite Hc. cbn [mbind option_bind].
    eexists. split; [reflexivity|]. split; [reflexivity|].
    intros k d d' Hkf. by apply Get_field.
  - intros s key value Ht Hc. rewrite Set__custom by done.
    unfold set_Custom. by rewrite Hc.
  - intros s key d Hk Hc. rewrite Get_custom by done. by rewrite Hc.
Qed.

Lemma set_Custom_spec key value s c :
  Custom s = Some c →
  ∃ s', set_Custom key value s = Some s' ∧
    Custom s' = Some (<[key := value]> c) ∧
    ConcurrentRequests s' = ConcurrentRequests s ∧
    DownloadTimeout s' = DownloadTimeout s ∧
    UserAgent s' = UserAgent s.
Proof.
  intros Hc. unfold set_Custom. rewrite Hc. cbn [mbind option_bind].
  eexists. split_and!; reflexivity.
Qed.

(** X19.  Whatever [runtime.NumCPU] reports, [DefaultSettings] has
    between 4 and 48 concurrent requests, [DoubanSettings] at most 36
    and [FastSettings] at most 48; neither of the latter two panics,
    and [FastSettings] keeps the download timeout, the user agent and
    the custom settings of [DoubanSettings].  For a positive number of
    CPUs (below 2^60) the three values are min(48, max(4, 4n)),
    min(36, 3n) and min(48, 4n): the latter two have no lower bound of
    their own. *)
Theorem default_concurrency_stays_between_4_and_48 (numCPU : Z) :
  (4 ≤ ConcurrentRequests (DefaultSettings numCPU) ≤ 48)%Z ∧
  (∃ douban fast,
     DoubanSettings numCPU = Some douban ∧ FastSettings numCPU = Some fast ∧
     (ConcurrentRequests douban ≤ 36)%Z ∧ (ConcurrentRequests fast ≤ 48)%Z ∧
     DownloadTimeout fast = DownloadTimeout douban ∧
     UserAgent fast = UserAgent douban ∧ Custom fast = Custom douban ∧
     ((0 < numCPU < 2 ^ 60)%Z →
      ConcurrentRequests (DefaultSettings numCPU) = Z.min 48 (Z.max 4 (numCPU * 4)) ∧
      ConcurrentRequests douban = Z.min 36 (numCPU * 3) ∧
      ConcurrentRequests fast = Z.min 48 (numCPU * 4))).
Proof.
  assert (ConcurrentRequests (DefaultSettings numCPU)
          = let c := mul64 numCPU 4 in
            let c := if decide (48 < c)%Z then 48%Z else c in
            if decide (c < 4)%Z then 4%Z else c) as Ed by reflexivity.
  cbv zeta in Ed.
  assert (∃ douban, DoubanSettings numCPU = Some douban ∧
            ConcurrentRequests douban
              = (if decide (36 < mul64 numCPU 3)%Z then 36%Z else mul64 numCPU 3))
    as (douban & Edo & Ecd).
  { unfold DoubanSettings. cbv zeta.
    change (ConcurrentRequests (set_ConcurrentRequests (mul64 numCPU 3)
              (set_BotName "douban-spider" (DefaultSettings numCPU))))
      with (mul64 numCPU 3).
    match goal with
    | |- ∃ d, set_Custom ?k1 ?v1 ?s0 ≫= _ = Some d ∧ _ =>
        destruct (set_Custom_spec k1 v1 s0 ∅) as (s1 & E1 & Hc1 & Hn1 & _);
          [by destruct (decide (36 < mul64 numCPU 3)%Z)|]
    end.
    rewrite E1. cbn [mbind option_bind].
    match goal with
    | |- ∃ d, set_Custom ?k2 ?v2 s1 = Some d ∧ _ =>
        destruct (set_Custom_spec k2 v2 s1 _ Hc1) as (s2 & E2 & Hc2 & Hn2 & _)
    end.
    exists s2. split; [exact E2|]. rewrite Hn2, Hn1.
    by destruct (decide (36 < mul64 numCPU 3)%Z). }
  assert (∃ fast, FastSettings numCPU = Some fast ∧
            ConcurrentRequests fast
              = (if decide (48 < mul64 numCPU 4)%Z then 48%Z else mul64 numCPU 4) ∧
            DownloadTimeout fast = DownloadTimeout douban ∧
            UserAgent fast = UserAgent douban ∧ Custom fast = Custom douban)
    as (fast & Efa & Ecf & Etf & Euf & Ecuf).
  { unfold FastSettings. rewrite Edo. cbn [mbind option_bind]. cbv zeta.
    change (ConcurrentRequests (set_ConcurrentRequests (mul64 numCPU 4)
              (set_BotName "fast-douban-spider" douban)))
      with (mul64 numCPU 4).
    destruct (decide (48 < mul64 numCPU 4)%Z);
      (eexists; split; [reflexivity|split_and!; reflexivity]). }
  split.
  - rewrite Ed. clear.
    destruct (decide (48 < mul64 numCPU 4)%Z); repeat case_decide; lia.
  - exists douban, fast. split; [exact Edo|]. split; [exact Efa|].
    rewrite Ed, Ecd, Ecf. clear Ed Edo Ecd Efa Ecf.
    split_and!; try done.
    + case_decide; lia.
    + case_decide; lia.
    + intros Hn. unfold mul64.
      rewrite !wrap64_small by (unfold int64_range; lia).
      destruct (decide (48 < numCPU * 4)%Z); repeat case_decide; lia.
Qed.

End SettingsFacts.

(** ** The CSV pipeline and the filter *)

Section CSVFacts.

Import pipeline.

Lemma CSV_ProcessItem_opened p item :
  CSVPipeline.writer p = true →
  let p' := (CSVPipeline.ProcessItem p item).1 in
  CSVPipeline.written p' =
    CSVPipeline.written p
    ++ (if CSVPipeline.headerSet p then [] else header_row (CSVPipeline.headers p) 1)
    ++ [CSVPipeline.record_of (CSVPipeline.headers p) item] ∧
  CSVPipeline.writer p' = true ∧
  CSVPipeline.headers p' = CSVPipeline.headers p ∧
  CSVPipeline.headerSet p' =
    CSVPipeline.headerSet p || bool_decide (CSVPipeline.headers p ≠ []).
Proof.
  intros Hw. unfold CSVPipeline.ProcessItem. rewrite Hw. cbn [negb fst]. cbv zeta.
  unfold header_row.
  destruct (CSVPipeline.headerSet p) eqn:Eh; cbn [negb andb orb].
  - unfold CSVPipeline.Write. cbn. done.
  - destruct (CSVPipeline.headers p) as [|h hs] eqn:Ehs; cbn [length].
    + rewrite bool_decide_eq_false_2 by lia. rewrite decide_True by by left.
      unfold CSVPipeline.Write. cbn. by rewrite Ehs.
    + rewrite bool_decide_eq_true_2 by lia.
      rewrite decide_False by (intros [?|?]; done).
      unfold CSVPipeline.Write. cbn. by rewrite <- app_assoc.
Qed.

Lemma process_items_opened items : ∀ p,
  CSVPipeline.writer p = true →
  let p' := process_items p items in
  CSVPipeline.written p' =
    CSVPipeline.written p
    ++ (if CSVPipeline.headerSet p then []
        else header_row (CSVPipeline.headers p) (length items))
    ++ (CSVPipeline.record_of (CSVPipeline.headers p) <$> items) ∧
  CSVPipeline.writer p' = true ∧
  CSVPipeline.headers p' = CSVPipeline.headers p.
Proof.
  induction items as [|item items IH]; intros p Hw; cbv zeta.
  - cbn. unfold header_row. rewrite decide_True by by right.
    destruct (CSVPipeline.headerSet p); by rewrite !app_nil_r.
  - unfold process_items. cbn [foldl]. fold (process_items (CSVPipeline.ProcessItem p item).1 items).
    destruct (CSV_ProcessItem_opened p item Hw) as (E1 & Hw1 & Eh1 & Es1). cbv zeta in *.
    destruct (IH _ Hw1) as (E2 & Hw2 & Eh2). cbv zeta in *.
    rewrite E2, E1, Eh1, Es1, Eh2. split_and!; [|done|done].
    rewrite <- !app_assoc. f_equal. cbn [fmap list_fmap length].
    unfold header_row.
    destruct (CSVPipeline.headerSet p); cbn [orb app]; [done|].
    destruct (CSVPipeline.headers p) as [|h hs] eqn:Ehs.
    + rewrite bool_decide_eq_false_2 by (intros H; done).
      rewrite !decide_True by by left. done.
    + rewrite bool_decide_eq_true_2 by done.
      rewrite !decide_False by (intros [?|?]; done). done.
Qed.

(** X20.  A CSV pipeline that has not been opened writes nothing: it
    hands every item on unchanged and stays as it is.  Once opened it
    writes the header row once, ahead of the first record and only if
    there are headers, and then one record per item, in order; every
    row has as many fields as there are headers (a key that the item
    lacks gives an empty field).  [ProcessItem] always returns the item
    it was given.  When the directory or the file cannot be created,
    [Open] returns a wrapped error and leaves the pipeline unopened. *)
Theorem csv_pipeline_writes_the_header_once_and_a_row_per_item
    (filename : string) (headers : list string) (items : list (gmap string string)) :
  let p0 := CSVPipeline.NewCSVPipeline filename headers in
  let opened := (CSVPipeline.Open None None p0).1 in
  let p := process_items opened items in
  process_items p0 items = p0 ∧
  (CSVPipeline.Open None None p0).2 = None ∧
  CSVPipeline.written p
    = header_row headers (length items) ++ (CSVPipeline.record_of headers <$> items) ∧
  Forall (λ row, length row = length headers) (CSVPipeline.written p) ∧
  (∀ (q : CSVPipeline.t) (item : gmap string string),
     (CSVPipeline.ProcessItem q item).2 = Some item) ∧
  (∀ (mkdir create : option error) (err : error),
     mkdir = Some err ∨ create = Some err →
     ∃ wrapped, CSVPipeline.Open mkdir create p0 = (p0, Some wrapped)).
Proof.
  cbv zeta. split_and!.
  - induction items as [|item items IH]; [done|].
    unfold process_items. cbn [foldl]. exact IH.
  - done.
  - destruct (process_items_opened items (CSVPipeline.Open None None
              (CSVPipeline.NewCSVPipeline filename headers)).1) as (E & _); [done|].
    cbv zeta in E. rewrite E. done.
  - destruct (process_items_opened items (CSVPipeline.Open None None
              (CSVPipeline.NewCSVPipeline filename headers)).1) as (E & _); [done|].
    cbv zeta in E. rewrite E. cbn [CSVPipeline.Open CSVPipeline.NewCSVPipeline fst
      CSVPipeline.written CSVPipeline.headerSet CSVPipeline.headers app].
    apply Forall_app. split.
    + unfold header_row. case_decide; [constructor|]. by repeat constructor.
    + apply Forall_fmap, Forall_forall. intros item _. cbn.
      unfold CSVPipeline.record_of. by rewrite length_fmap.
  - intros q item. unfold CSVPipeline.ProcessItem. by destruct (negb _).
  - intros mkdir create err [->| ->].
    + by eexists.
    + destruct mkdir; by eexists.
Qed.

End CSVFacts.

Section FilterFacts.

Import pipeline.

Lemma length_filter_le {A} (f : A → bool) (l : list A) :
  length (List.filter f l) ≤ length l.
Proof. induction l as [|x l IH]; cbn; [done|]. destruct (f x); cbn; lia. Qed.

Lemma scraped_filter_csv (f : gmap string string → bool) mkdir create close items :
  ∀ e : engine.Engine CSVPipeline.t,
  engine.pipelines e
    = [FilterPipeline (FilterPipeline.NewFilterPipeline (Some f));
       CSVPipeline mkdir create close] →
  int64_range (engine.ItemsScraped (engine.stats e)) →
  let e' := scraped items e in
  engine.world e' = process_items (engine.world e) (List.filter f items) ∧
  engine.ItemsScraped (engine.stats e')
    = wrap64 (engine.ItemsScraped (engine.stats e) + Z.of_nat (length items)) ∧
  engine.RequestsTotal (engine.stats e') = engine.RequestsTotal (engine.stats e) ∧
  engine.pipelines e' = engine.pipelines e.
Proof.
  induction items as [|item items IH]; intros e Hp Hr; cbv zeta.
  - cbn. rewrite Z.add_0_r. split_and!; try done.
    by rewrite wrap64_small.
  - unfold scraped. cbn [foldl]. fold (scraped items (engine.processItem item e)).
    assert (engine.processItem item e =
            engine.set_world
              (if f item then (CSVPipeline.ProcessItem (engine.world e) item).1
               else engine.world e)
              (engine.updateStats "items_scraped" 1 e)) as E1.
    { unfold engine.processItem. cbv zeta. rewrite updateStats_items.
      cbn [engine.set_stats engine.pipelines engine.world]. rewrite Hp.
      cbn [engine.applyPipelines FilterPipeline CSVPipeline engine.ProcessItem
           FilterPipeline.ProcessItem FilterPipeline.NewFilterPipeline
           FilterPipeline.filterFunc].
      destruct (f item); cbn [negb]; [|done].
      by destruct (CSVPipeline.ProcessItem (engine.world e) item) as [p' [item'|]]. }
    rewrite E1. rewrite updateStats_items.
    match goal with |- context [scraped items ?e1] =>
      destruct (IH e1 Hp) as (Hw & Hi & Ht & Hpp); [apply wrap64_range|] end.
    cbv zeta in *. rewrite Hw, Hi, Ht, Hpp.
    cbn [engine.set_world engine.set_stats engine.world engine.stats engine.pipelines
         engine.ItemsScraped engine.RequestsTotal List.filter length].
    split_and!; try done.
    + destruct (f item); done.
    + unfold add64. rewrite wrap64_add_l. f_equal. lia.
Qed.

(** X21.  In an engine whose pipelines are a filter followed by a CSV
    pipeline, [processItem] counts every item in [ItemsScraped],
    whether the filter keeps it or not, and only the items that the
    filter keeps reach the CSV pipeline: the file holds the header row
    and one record per kept item, in order.  The request counters are
    not touched. *)
Theorem filtered_items_are_counted_and_not_written
    (f : gmap string string → bool) (mkdir create close : option error)
    (filename : string) (headers : list string) (items : list (gmap string string)) :
  let opened := (CSVPipeline.Open None None
                   (CSVPipeline.NewCSVPipeline filename headers)).1 in
  let e := engine.AddPipeline (CSVPipeline mkdir create close)
             (engine.AddPipeline
                (FilterPipeline (FilterPipeline.NewFilterPipeline (Some f)))
                (engine.NewEngine opened)) in
  let e' := scraped items e in
  CSVPipeline.written (engine.world e')
    = header_row headers (length (List.filter f items))
      ++ (CSVPipeline.record_of headers <$> List.filter f items) ∧
  engine.ItemsScraped (engine.stats e') = wrap64 (Z.of_nat (length items)) ∧
  engine.RequestsTotal (engine.stats e') = 0%Z.
Proof.
  cbv zeta.
  match goal with |- context [scraped items ?e1] =>
    destruct (scraped_filter_csv f mkdir create close items e1 eq_refl)
      as (Hw & Hi & Ht & _); [unfold int64_range; cbn; lia|] end.
  cbv zeta in *. rewrite Hw, Hi, Ht. split_and!; [|done|done].
  destruct (process_items_opened (List.filter f items)
              (CSVPipeline.Open None None
                 (CSVPipeline.NewCSVPipeline filename headers)).1) as (E & _); [done|].
  cbv zeta in E. exact E.
Qed.

End FilterFacts.

(** ** Workers and the start and the end of a run *)

Section WorkerMore.

Import engine.

Lemma worker_loop_app (pre post : list Poll) : ∀ st,
  worker_loop st (pre ++ post) =
  let '(st1, reqs1) := worker_loop st pre in
  let '(st2, reqs2) := worker_loop st1 post in
  (st2, reqs1 ++ reqs2).
Proof.
  induction pre as [|p pre IH]; intros st.
  - cbn [app]. destruct st as [c|].
    + cbn [worker_loop]. by destruct (worker_loop (Looping c) post).
    + rewrite worker_loop_Returned. cbn. by rewrite worker_loop_Returned.
  - destruct st as [c|]; [|by rewrite !worker_loop_Returned].
    cbn [app worker_loop]. destruct (worker_turn c p) as [st1 req].
    rewrite IH. destruct (worker_loop st1 pre) as [st2 reqs2].
    destruct (worker_loop st2 post) as [st3 reqs3]. by rewrite app_assoc.
Qed.

Lemma worker_loop_polled (polls : list Poll) : ∀ st,
  (worker_loop st polls).2 `prefix_of` polled polls ∧
  ((worker_loop st polls).1 ≠ Returned → (worker_loop st polls).2 = polled polls).
Proof.
  induction polls as [|p polls IH]; intros st.
  - destruct st; cbn; (split; [apply prefix_nil|done]).
  - destruct st as [c|].
    2:{ rewrite worker_loop_Returned. cbn [fst snd]. split; [apply prefix_nil|done]. }
    cbn [worker_loop]. destruct (worker_turn c p) as [st1 req] eqn:Et.
    destruct (IH st1) as [Hp He].
    destruct (worker_loop st1 polls) as [st2 reqs] eqn:El. cbn [fst snd] in *.
    destruct st1 as [c1|].
    2:{ rewrite worker_loop_Returned in El. simplify_eq.
      assert (req = None) as ->.
      { destruct p; cbn in Et; simplify_eq; [done|]. by case_decide; simplify_eq. }
      cbn. split; [apply prefix_nil|done]. }
    assert (polled (p :: polls) = from_option (λ r, [r]) [] req ++ polled polls) as Ep.
    { unfold polled. destruct p; cbn in Et; simplify_eq; cbn; try done.
      by case_decide; simplify_eq. }
    rewrite Ep. split.
    + by apply prefix_app.
    + intros Hne. by rewrite He.
Qed.

(** X22.  A worker whose poll finds the context cancelled returns on
    that poll: later polls change nothing.  The requests a worker
    passes to [processRequest] are requests it took from the scheduler,
    in the order it took them: all of them while it is still looping,
    and a prefix of them once it has returned.  Polling on never takes
    back a request already passed on. *)
Theorem cancelled_worker_returns_at_once (pre post : list Poll) :
  worker (pre ++ PollCtxDone :: post) = (Returned, (worker pre).2) ∧
  (worker pre).2 `prefix_of` polled pre ∧
  ((worker pre).1 ≠ Returned → (worker pre).2 = polled pre) ∧
  (∀ more, (worker pre).2 `prefix_of` (worker (pre ++ more)).2).
Proof.
  unfold worker. split_and!.
  - rewrite worker_loop_app. destruct (worker_loop (Looping 0) pre) as [[c|] reqs].
    + cbn [worker_loop worker_turn]. rewrite worker_loop_Returned.
      cbn [from_option app snd]. by rewrite app_nil_r.
    + rewrite worker_loop_Returned. cbn [snd]. by rewrite app_nil_r.
  - apply worker_loop_polled.
  - apply worker_loop_polled.
  - intros more. rewrite worker_loop_app.
    destruct (worker_loop (Looping 0) pre) as [st1 reqs1].
    destruct (worker_loop st1 more) as [st2 reqs2]. cbn. by apply prefix_app_r.
Qed.

End WorkerMore.

Section RunFacts.

Import engine.

Context {World : Type}.
Variable Download : request.Request → World → (response.Response + error) * World.

Implicit Types (e : Engine World) (s : Spider World).

Lemma openPipelines_app (ps1 : list (Pipeline World)) : ∀ ps2 w w1,
  openPipelines ps1 w = (None, w1) →
  openPipelines (ps1 ++ ps2) w = openPipelines ps2 w1.
Proof.
  induction ps1 as [|p ps1 IH]; intros ps2 w w1 H1.
  - cbn in H1. by simplify_eq.
  - cbn [app openPipelines] in *. destruct (Open p w) as [[err|] w']; [done|].
    by apply IH.
Qed.

Lemma openPipelines_error (ps : list (Pipeline World)) : ∀ w err w',
  openPipelines ps w = (Some err, w') →
  ∃ ps1 p ps2 w1 cause,
    ps = ps1 ++ p :: ps2 ∧ openPipelines ps1 w = (None, w1) ∧
    Open p w1 = (Some cause, w') ∧ err = fmt_Errorf "failed to open pipeline" cause.
Proof.
  induction ps as [|p ps IH]; intros w err w' H; [done|].
  cbn [openPipelines] in H. destruct (Open p w) as [[cause|] w1] eqn:Eo.
  - simplify_eq. exists [], p, ps, w, cause. done.
  - destruct (IH _ _ _ H) as (ps1 & p' & ps2 & w2 & cause & -> & H1 & H2 & ->).
    exists (p :: ps1), p', ps2, w2, cause. split_and!; try done.
    cbn [openPipelines]. by rewrite Eo.
Qed.

(** X23.  [Run] returns an error exactly when one of the engine's
    pipelines fails to open, whatever the spider and the schedule: the
    error is that of the first pipeline that fails, wrapped as
    [failed to open pipeline]. *)
Theorem run_fails_only_when_a_pipeline_fails_to_open :
  (∀ (ps1 ps2 : list (Pipeline World)) (p : Pipeline World) (w w1 w2 : World)
     (cause : error),
     openPipelines ps1 w = (None, w1) →
     Open p w1 = (Some cause, w2) →
     openPipelines (ps1 ++ p :: ps2) w
     = (Some (fmt_Errorf "failed to open pipeline" cause), w2)) ∧
  (∀ s (acts : list Action) e (err : error),
     Run Download s acts e = Some (inr err) ↔
     (openPipelines (pipelines e) (world e)).1 = Some err) ∧
  (∀ s (acts : list Action) e (err : error),
     Run Download s acts e = Some (inr err) →
     ∃ ps1 p ps2 w1 w2 cause,
       pipelines e = ps1 ++ p :: ps2 ∧
       openPipelines ps1 (world e) = (None, w1) ∧
       Open p w1 = (Some cause, w2) ∧
       err = fmt_Errorf "failed to open pipeline" cause).
Proof.
  assert (∀ s (acts : list Action) e (err : error),
     Run Download s acts e = Some (inr err) ↔
     (openPipelines (pipelines e) (world e)).1 = Some err) as Hiff.
  { intros s acts e err. unfold Run, Run_start.
    destruct (openPipelines (pipelines e) (world e)) as [[err'|] w] eqn:Eo; cbn [fst].
    - split; intros; by simplify_eq.
    - destruct (StartRequests s _) as [reqs w1].
      split; [|done]. intros H.
      destruct (all_returned _); [|done].
      destruct (Run_end _); by simplify_eq/=. }
  split_and!.
  - intros ps1 ps2 p w w1 w2 cause H1 Hp.
    rewrite (openPipelines_app _ _ _ _ H1). cbn [openPipelines]. by rewrite Hp.
  - exact Hiff.
  - intros s acts e err H%Hiff.
    destruct (openPipelines (pipelines e) (world e)) as [o w'] eqn:Eo. cbn in H. subst o.
    destruct (openPipelines_error _ _ _ _ Eo) as (ps1 & p & ps2 & w1 & cause & E & H1 & H2 & ->).
    by exists ps1, p, ps2, w1, w', cause.
Qed.

Lemma held_Enqueue req q :
  scheduler.ChannelScheduler.held (scheduler.ChannelScheduler.Enqueue req q)
  ≡ₚ scheduler.ChannelScheduler.held q ++ [req].
Proof.
  pose proof (step_conserves (scheduler.ChannelScheduler.ActEnqueue req) q) as H.
  cbn in H. rewrite <- H. unfold scheduler.ChannelScheduler.enqueued. cbn.
  by rewrite Permutation_app_comm.
Qed.

Lemma processResult_keeps (result : Any) e :
  let e' := processResult result e in
  scheduler.ChannelScheduler.held (scheduler e')
    ≡ₚ scheduler.ChannelScheduler.held (scheduler e) ++ requests_of [result] ∧
  RequestsTotal (stats e') = RequestsTotal (stats e) ∧
  RequestsSuccess (stats e') = RequestsSuccess (stats e) ∧
  RequestsFailed (stats e') = RequestsFailed (stats e) ∧
  workers e' = workers e ∧ resultSenders e' = resultSenders e ∧
  batches e' = batches e ∧ resultPool e' = resultPool e.
Proof.
  destruct result as [r|m|typ data]; cbv zeta.
  - cbn. split_and!; try done. apply held_Enqueue.
  - cbn. by rewrite app_nil_r.
  - cbn. by rewrite app_nil_r.
Qed.

Lemma processResult_all (results : list Any) : ∀ e,
  let e' := foldl (λ e result, processResult result e) e results in
  scheduler.ChannelScheduler.held (scheduler e')
    ≡ₚ scheduler.ChannelScheduler.held (scheduler e) ++ requests_of results ∧
  RequestsTotal (stats e') = RequestsTotal (stats e) ∧
  RequestsSuccess (stats e') = RequestsSuccess (stats e) ∧
  RequestsFailed (stats e') = RequestsFailed (stats e) ∧
  workers e' = workers e ∧ resultSenders e' = resultSenders e ∧
  batches e' = batches e ∧ resultPool e' = resultPool e.
Proof.
  induction results as [|result results IH]; intros e; cbv zeta.
  - cbn. by rewrite app_nil_r.
  - cbn [foldl]. destruct (IH (processResult result e)) as (H1 & H2 & H3 & H4 & H5 & H6 & H7 & H8).
    destruct (processResult_keeps result e) as (K1 & K2 & K3 & K4 & K5 & K6 & K7 & K8).
    cbv zeta in *. rewrite H2, H3, H4, H5, H6, H7, H8. split_and!; try done.
    rewrite H1, K1. rewrite <- app_assoc. f_equal.
    change (result :: results) with ([result] ++ results).
    unfold requests_of. by rewrite omap_app.
Qed.

End RunFacts.

Section QuietRun.

Import engine.

Context {World : Type}.
Variable Download : request.Request → World → (response.Response + error) * World.

Implicit Types (e : Engine World) (s : Spider World).

Local Abbreviation requestChan := scheduler.ChannelScheduler.requestChan.
Local Abbreviation Enqueue := scheduler.ChannelScheduler.Enqueue.

Lemma processRequest_quiet req s e :
  yields_nothing s →
  let e' := processRequest Download req s e in
  resultPool e' = resultPool e ∧ resultSenders e' = resultSenders e ∧
  batches e' = batches e ∧ ctxDone e' = ctxDone e ∧
  scheduler e' = scheduler e ∧ workers e' = workers e ∧
  RequestsTotal (stats e') = add64 (RequestsTotal (stats e)) 1 ∧
  ItemsScraped (stats e') = ItemsScraped (stats e).
Proof.
  intros Hy. cbv zeta. unfold processRequest. rewrite updateStats_total.
  cbn [set_stats middlewares world].
  destruct (applyRequestMiddlewares _ req _) as [[req1|] w1]; [|done].
  destruct (Download req1 w1) as [[resp|err] w2]; [|done].
  rewrite updateStats_success. cbn [set_stats set_world middlewares world].
  destruct (applyResponseMiddlewares _ req1 resp w2) as [[resp'|] w3]; [|done].
  pose proof (Hy resp' w3) as Hp. destruct (Parse s resp' w3) as [results w4].
  cbn in Hp. subst results. done.
Qed.

Lemma quiet_step T0 n I0 s (a : Action) e :
  yields_nothing s → quiet T0 n I0 e → quiet T0 n I0 (step Download s a e).
Proof.
  intros Hy (Hp & Hs & Hb & Hc & Hq & Ht & Hr & Hw & Hi).
  destruct a as [i| |k|k acts| k|]; cbn [step].
  - unfold worker_iter. destruct (workers e !! i) as [[c|]|] eqn:Ei; [|done|done].
    unfold observe. rewrite Hc.
    destruct Hq as (Hsp & Hsq & Hcnt).
    unfold scheduler.ChannelScheduler.Dequeue. rewrite Hsq.
    destruct (requestChan (scheduler e)) as [|r rest] eqn:Er.
    + (* an empty poll *)
      destruct (scheduler.ChannelScheduler.Empty (scheduler e)).
      * destruct (worker_turn c PollNilEmpty) as [st req] eqn:Et.
        assert (req = None) as ->.
        { cbn in Et. by case_decide; simplify_eq. }
        unfold quiet. cbn. rewrite Er. split_and!; try done. by rewrite length_insert.
      * cbn [worker_turn]. unfold quiet. cbn. rewrite Er. split_and!; try done.
        by rewrite length_insert.
    + (* a task *)
      cbn [worker_turn].
      match goal with |- quiet _ _ _ (processRequest _ r s ?e1) =>
        destruct (processRequest_quiet r s e1 Hy) as (P1 & P2 & P3 & P4 & P5 & P6 & P7 & P8)
      end.
      cbv zeta in *. unfold quiet. rewrite P1, P2, P3, P4, P5, P6, P7, P8.
      cbn [set_workers set_scheduler resultPool resultSenders batches ctxDone scheduler
           workers stats scheduler.ChannelScheduler.requestChan].
      split_and!; try done.
      * rewrite Ht. unfold add64. rewrite wrap64_add_l. f_equal. cbn [length]. lia.
      * intros Hex. exfalso.
        assert (Exists (λ st, st = Returned) (workers e)) as Hex'.
        { apply Exists_exists in Hex as (st & Hin & ->).
          apply list_elem_of_lookup in Hin as [j Hj].
          apply list_lookup_insert_Some in Hj as [(_ & ? & _)|[_ Hj]]; [done|].
          apply Exists_exists. exists Returned. split; [|done].
          by eapply list_elem_of_lookup_2. }
        by specialize (Hr Hex').
      * by rewrite length_insert.
  - rewrite Hc, Hp. done.
  - rewrite Hs. by rewrite lookup_nil.
  - rewrite Hb. by rewrite lookup_nil.
  - destruct Hq as (Hsp & Hsq & Hcnt).
    unfold scheduler.ChannelScheduler.go_send. rewrite Hsp, lookup_nil.
    by destruct e.
  - destruct Hq as (Hsp & Hsq & Hcnt).
    unfold scheduler.ChannelScheduler.go_add. rewrite Hcnt. by destruct e.
Qed.

Lemma quiet_exec T0 n I0 s (acts : list Action) : ∀ e,
  yields_nothing s → quiet T0 n I0 e → quiet T0 n I0 (exec Download s acts e).
Proof.
  unfold exec. induction acts as [|a acts IH]; intros e Hy Hq; [done|].
  cbn [foldl]. apply IH; [done|]. by apply quiet_step.
Qed.

Lemma enqueue_all_room (reqs : list request.Request) : ∀ q,
  quiescent q →
  length (requestChan q) + length reqs ≤ scheduler.ChannelScheduler.bufferSize q →
  let q' := foldl (λ q req, Enqueue req q) q reqs in
  quiescent q' ∧ requestChan q' = requestChan q ++ reqs.
Proof.
  induction reqs as [|req reqs IH]; intros q Hq Hlen; cbv zeta.
  - cbn. by rewrite app_nil_r.
  - cbn [foldl]. cbn [length] in Hlen.
    assert (Enqueue req q =
            {| scheduler.ChannelScheduler.bufferSize := scheduler.ChannelScheduler.bufferSize q;
               scheduler.ChannelScheduler.requestChan := requestChan q ++ [req];
               scheduler.ChannelScheduler.size := add64 (scheduler.ChannelScheduler.size q) 1;
               scheduler.ChannelScheduler.spawned := scheduler.ChannelScheduler.spawned q;
               scheduler.ChannelScheduler.sendq := scheduler.ChannelScheduler.sendq q;
               scheduler.ChannelScheduler.counting := scheduler.ChannelScheduler.counting q |})
      as ->.
    { unfold scheduler.ChannelScheduler.Enqueue. by rewrite decide_True by lia. }
    match goal with |- context [foldl _ ?q1 reqs] => destruct (IH q1) as [H1 H2] end.
    + exact Hq.
    + cbn. rewrite length_app. cbn. lia.
    + cbv zeta in *. split; [exact H1|]. rewrite H2. cbn. by rewrite <- app_assoc.
Qed.

Lemma enqueue_all_engine (reqs : list request.Request) : ∀ e,
  foldl (λ e req, set_scheduler (Enqueue req (scheduler e)) e) e reqs
  = set_scheduler (foldl (λ q req, Enqueue req q) (scheduler e) reqs) e.
Proof.
  induction reqs as [|req reqs IH]; intros e; [by destruct e|].
  cbn [foldl]. by rewrite IH.
Qed.


Lemma Run_start_quiet s e e0 :
  at_rest e → 0 < concurrency e →
  Run_start s e = inl e0 →
  ∃ w reqs,
    StartRequests s w = (reqs, world e0) ∧
    (openPipelines (pipelines e) (world e)) = (None, w) ∧
    stats e0 = stats e ∧ pipelines e0 = pipelines e ∧
    (length reqs ≤ scheduler.ChannelScheduler.bufferSize (scheduler e) →
     int64_range (RequestsTotal (stats e)) →
     quiet (RequestsTotal (stats e)) (length reqs) (ItemsScraped (stats e)) e0).
Proof.
  intros (Hw & Hp & Hs & Hb & Hc & Hq & Hr) Hcon. unfold Run_start.
  destruct (openPipelines (pipelines e) (world e)) as [[err|] w] eqn:Eo; [done|].
  cbn [set_currentSpider set_world world].
  destruct (StartRequests s w) as [reqs w1] eqn:Es. intros [= <-].
  exists w, reqs. rewrite enqueue_all_engine.
  cbn [set_workers set_scheduler set_world set_currentSpider world stats pipelines scheduler].
  split_and!; try done.
  intros Hlen Hrange.
  destruct (enqueue_all_room reqs (scheduler e) Hq) as [Hq' Hr'].
  { rewrite Hr. cbn. lia. }
  cbv zeta in *. rewrite Hr in Hr'. cbn in Hr'.
  unfold quiet.
  cbn [set_workers set_scheduler set_world set_currentSpider world stats pipelines scheduler
       resultPool resultSenders batches ctxDone workers].
  rewrite Hr'. split_and!; try done.
  - replace (_ + _ - _)%Z with (RequestsTotal (stats e)) by lia.
    by rewrite wrap64_small.
  - rewrite Hw. cbn [app]. intros Hex. apply Exists_exists in Hex as (st & Hin & ->).
    apply elem_of_replicate in Hin as [? _]. done.
  - rewrite Hw, length_app, length_replicate. cbn. lia.
Qed.

Lemma quiet_Run (s : Spider World) (acts : list Action) (e e' : Engine World) :
  yields_nothing s → at_rest e → 0 < concurrency e →
  RequestsTotal (stats e) = 0%Z →
  Run Download s acts e = Some (inl e') →
  ∃ w reqs w',
    openPipelines (pipelines e) (world e) = (None, w) ∧
    StartRequests s w = (reqs, w') ∧
    (length reqs ≤ scheduler.ChannelScheduler.bufferSize (scheduler e) →
     (Z.of_nat (length reqs) < 2 ^ 63)%Z →
     RequestsTotal (stats e') = Z.of_nat (length reqs) ∧
     scheduler.ChannelScheduler.held (scheduler e') = [] ∧
     ItemsScraped (stats e') = ItemsScraped (stats e) ∧
     Forall (λ st, st = Returned) (workers e')).
Proof.
  intros Hy Hrest Hcon Ht0 Hrun.
  unfold Run in Hrun. destruct (Run_start s e) as [e0|err] eqn:E0; [|done].
  destruct (Run_start_quiet s e e0 Hrest Hcon E0) as (w0 & reqs & Es0 & Eo0 & Est & Epp & Hq).
  exists w0, reqs, (world e0). split_and!; [done|done|]. intros Hlen Hn.
  specialize (Hq Hlen). rewrite Ht0 in Hq. specialize (Hq ltac:(unfold int64_range; lia)).
  pose proof (quiet_exec _ _ _ s acts e0 Hy Hq)
    as (Hp1 & Hs1 & Hb1 & Hc1 & Hq1 & Ht1 & Hr1 & Hw1 & Hi1).
  set (e1 := exec Download s acts e0) in *.
  destruct (all_returned e1) eqn:Ea; [|done].
  unfold Run_end in Hrun. rewrite decide_True in Hrun by done. cbn in Hrun.
  injection Hrun as <-. rewrite Hp1. cbn [foldl].
  unfold Run_deferred.
  cbn [set_ctxDone set_world set_resultPool stats scheduler workers].
  assert (Forall (λ st, st = Returned) (workers e1)) as Hall.
  { unfold all_returned in Ea. apply andb_true_iff in Ea as [Ea _].
    apply Forall_forall. intros st Hst.
    rewrite forallb_forall in Ea. apply list_elem_of_In in Hst.
    specialize (Ea st Hst). by destruct st. }
  assert (requestChan (scheduler e1) = []) as Hempty.
  { apply Hr1. destruct (workers e1) as [|st sts]; [cbn in Hw1; lia|].
    apply Forall_cons in Hall as [-> _]. by left. }
  split_and!; [| |done|done].
  - rewrite Ht1, Hempty. cbn [length].
    rewrite wrap64_small by (unfold int64_range; lia). lia.
  - destruct Hq1 as (Hsp & Hsq & _).
    unfold scheduler.ChannelScheduler.held. by rewrite Hempty, Hsp, Hsq.
Qed.

Lemma parked_step s (a : Action) e :
  parked e →
  let e' := step Download s a e in
  parked e' ∧ stats e' = stats e ∧ world e' = world e ∧ ctxDone e' = ctxDone e ∧
  pipelines e' = pipelines e ∧
  scheduler.ChannelScheduler.held (scheduler e')
    ≡ₚ scheduler.ChannelScheduler.held (scheduler e).
Proof.
  intros (Hw & Hp & Hs & Hb). cbv zeta. unfold parked.
  destruct a as [i| |k|k acts| k|]; cbn [step].
  - unfold worker_iter. rewrite Hw, lookup_nil. by split_and!.
  - rewrite Hp. destruct (ctxDone e) eqn:Ec; by split_and!.
  - rewrite Hs, lookup_nil. by split_and!.
  - rewrite Hb, lookup_nil. by split_and!.
  - cbn. split_and!; try done.
    pose proof (step_conserves (scheduler.ChannelScheduler.ActGoSend k) (scheduler e)) as H.
    cbn in H. by rewrite H.
  - cbn. split_and!; try done.
    pose proof (step_conserves scheduler.ChannelScheduler.ActGoAdd (scheduler e)) as H.
    cbn in H. by rewrite H.
Qed.

Lemma parked_exec s (acts : list Action) : ∀ e,
  parked e →
  let e' := exec Download s acts e in
  parked e' ∧ stats e' = stats e ∧ world e' = world e ∧ ctxDone e' = ctxDone e ∧
  pipelines e' = pipelines e ∧
  scheduler.ChannelScheduler.held (scheduler e')
    ≡ₚ scheduler.ChannelScheduler.held (scheduler e).
Proof.
  unfold exec. induction acts as [|a acts IH]; intros e Hp; cbv zeta; [done|].
  cbn [foldl]. destruct (parked_step s a e Hp) as (P0 & P1 & P2 & P3 & P4 & P5).
  destruct (IH _ P0) as (Q0 & Q1 & Q2 & Q3 & Q4 & Q5). cbv zeta in *.
  rewrite Q1, Q2, Q3, Q4, Q5. done.
Qed.

Lemma held_enqueue_all (reqs : list request.Request) : ∀ q,
  scheduler.ChannelScheduler.held (foldl (λ q req, Enqueue req q) q reqs)
  ≡ₚ scheduler.ChannelScheduler.held q ++ reqs.
Proof.
  induction reqs as [|req reqs IH]; intros q; [by rewrite app_nil_r|].
  cbn [foldl]. rewrite IH.
  pose proof (step_conserves (scheduler.ChannelScheduler.ActEnqueue req) q) as H.
  cbn in H. rewrite <- H. unfold scheduler.ChannelScheduler.enqueued. cbn.
  apply Permutation_middle.
Qed.

Lemma parked_Run (s : Spider World) (acts : list Action) (e : Engine World) :
  parked e → concurrency e = 0 →
  match openPipelines (pipelines e) (world e) with
  | (Some err, _) => Run Download s acts e = Some (inr err)
  | (None, w) =>
      ∃ e', Run Download s acts e = Some (inl e') ∧
        stats e' = stats e ∧ workers e' = [] ∧
        scheduler.ChannelScheduler.held (scheduler e')
          ≡ₚ scheduler.ChannelScheduler.held (scheduler e) ++ (StartRequests s w).1 ∧
        world e' = closePipelines (pipelines e) (StartRequests s w).2
  end.
Proof.
  intros (Hw & Hp & Hs & Hb) Hc. unfold Run, Run_start.
  destruct (openPipelines (pipelines e) (world e)) as [[err|] w] eqn:Eo; [done|].
  cbn [set_currentSpider set_world world].
  destruct (StartRequests s w) as [reqs w1] eqn:Es.
  rewrite enqueue_all_engine.
  cbn [set_workers set_scheduler set_world set_currentSpider world stats pipelines scheduler
       workers concurrency].
  rewrite Hc, Hw. cbn [replicate app].
  match goal with |- context [exec Download s acts ?e0] =>
    destruct (parked_exec s acts e0) as ((Q0w & Q0p & Q0s & Q0b) & Q1 & Q2 & Q3 & Q4 & Q5);
      [done|]; set (e1 := exec Download s acts e0) in * end.
  cbv zeta in *. unfold all_returned. rewrite Q0w, Q0b. cbn [forallb andb].
  rewrite bool_decide_eq_true_2 by done.
  unfold Run_end. rewrite decide_True by done. rewrite Q0p. cbn [foldl fmap option_fmap option_map].
  eexists. split; [reflexivity|]. unfold Run_deferred.
  cbn [set_ctxDone set_world set_resultPool stats scheduler workers world pipelines].
  rewrite Q1, Q2, Q4, Q0w, Q5. cbn [set_scheduler stats scheduler world pipelines fst snd].
  split_and!; try done. apply held_enqueue_all.
Qed.

End QuietRun.

(** X24.  When the workers of a run have returned, [Run] closes the
    result pool and the result workers handle what its buffer still
    holds: a request among it is put into the scheduler, where it stays
    (no worker is left to take it), so it is never fetched and never
    counted.  The request counters of the report are those at the
    return of the workers.  Such a run exists: with one worker that
    polls a hundred times before a result worker is scheduled, the
    link that the first page yields ends in the scheduler and the run
    reports one request. *)
Theorem requests_left_in_the_result_pool_are_enqueued_and_never_fetched :
  (∀ (World : Type) (e e' : engine.Engine World),
     engine.Run_end e = Some e' →
     scheduler.ChannelScheduler.held (engine.scheduler e')
       ≡ₚ scheduler.ChannelScheduler.held (engine.scheduler e)
          ++ engine.requests_of (engine.resultPool e) ∧
     engine.RequestsTotal (engine.stats e') = engine.RequestsTotal (engine.stats e) ∧
     engine.RequestsSuccess (engine.stats e') = engine.RequestsSuccess (engine.stats e) ∧
     engine.RequestsFailed (engine.stats e') = engine.RequestsFailed (engine.stats e) ∧
     engine.workers e' = engine.workers e ∧ engine.resultPool e' = [] ∧
     engine.ctxDone e' = true) ∧
  (∀ (World : Type) Download (s : engine.Spider World) (acts : list engine.Action)
     (e e0 e' : engine.Engine World),
     engine.Run_start s e = inl e0 →
     engine.Run Download s acts e = Some (inl e') →
     engine.Run_end (engine.exec Download s acts e0) = Some e' ∧
     Forall (λ st, st = engine.Returned) (engine.workers e')) ∧
  (∃ e' : engine.Engine unit,
     engine.Run served next_page one_worker_schedule one_worker_engine = Some (inl e') ∧
     scheduler.ChannelScheduler.held (engine.scheduler e')
       = [request.NewRequest "GET" "http://a/2"] ∧
     engine.RequestsTotal (engine.stats e') = 1%Z).
Proof.
  split_and!.
  - intros World e e' H. unfold engine.Run_end in H. case_decide as Hs; [|done].
    simplify_eq.
    destruct (processResult_all (engine.resultPool e) (engine.set_resultPool [] e))
      as (H1 & H2 & H3 & H4 & H5 & H6 & H7 & H8). cbv zeta in *.
    unfold engine.Run_deferred.
    cbn [engine.set_ctxDone engine.set_world engine.scheduler engine.stats
         engine.workers engine.resultPool engine.ctxDone].
    rewrite H2, H3, H4, H5, H8. split_and!; try done.
  - intros World Download s acts e e0 e' Hs Hr. unfold engine.Run in Hr. rewrite Hs in Hr.
    destruct (engine.all_returned _) eqn:Ea; [|done].
    destruct (engine.Run_end _) as [e2|] eqn:E2; simplify_eq/=. split; [done|].
    unfold engine.Run_end in E2. case_decide; [|done]. simplify_eq.
    destruct (processResult_all (engine.resultPool (engine.exec Download s acts e0))
                (engine.set_resultPool [] (engine.exec Download s acts e0)))
      as (_ & _ & _ & _ & H5 & _). cbv zeta in H5.
    unfold engine.Run_deferred. cbn [engine.set_ctxDone engine.set_world engine.workers].
    rewrite H5. cbn [engine.set_resultPool engine.workers].
    unfold engine.all_returned in Ea. apply andb_true_iff in Ea as [Ea _].
    apply Forall_forall. intros st Hst.
    rewrite forallb_forall in Ea. apply list_elem_of_In in Hst.
    specialize (Ea st Hst). by destruct st.
  - eexists. split; [vm_compute; reflexivity|]. split; reflexivity.
Qed.

(** ** Runs of a configured engine *)

Section ConfiguredFacts.

Import engine.

Context {World : Type}.
Variable Download : request.Request → World → (response.Response + error) * World.

Implicit Types (e : Engine World) (s : Spider World).

Lemma AddMiddleware_all (mws : list (Middleware World)) : ∀ e,
  foldl (λ e m, AddMiddleware m e) e mws = set_middlewares (middlewares e ++ mws) e.
Proof.
  induction mws as [|m mws IH]; intros e.
  - rewrite app_nil_r. by destruct e.
  - cbn [foldl]. rewrite IH. unfold AddMiddleware. cbn. by rewrite <- app_assoc.
Qed.

Lemma AddPipeline_all (ps : list (Pipeline World)) : ∀ e,
  foldl (λ e p, AddPipeline p e) e ps = set_pipelines (pipelines e ++ ps) e.
Proof.
  induction ps as [|p ps IH]; intros e.
  - rewrite app_nil_r. by destruct e.
  - cbn [foldl]. rewrite IH. unfold AddPipeline. cbn. by rewrite <- app_assoc.
Qed.

Lemma configured_eq (w : World) mws ps c :
  configured w mws ps c
  = set_concurrency c (set_pipelines ps (set_middlewares mws (NewEngine w))).
Proof. unfold configured. by rewrite AddMiddleware_all, AddPipeline_all. Qed.

Lemma configured_at_rest (w : World) mws ps c : at_rest (configured w mws ps c).
Proof. rewrite configured_eq. by repeat split. Qed.

Lemma StartRequests_loop_map (urls : list string) : ∀ requests,
  spider.StartRequests_loop requests urls
  = requests ++ (request.NewRequest "GET" <$> urls).
Proof.
  induction urls as [|url urls IH]; intros requests; cbn.
  - by rewrite app_nil_r.
  - by rewrite IH, <- app_assoc.
Qed.

(** X25.  With the concurrency set to 0, [Run] starts no worker: under
    every schedule it returns as soon as the pipelines are open, having
    fetched nothing.  The report counts no request and no item, the
    start requests of the spider are left in the scheduler, and the
    pipelines are closed.  If a pipeline fails to open, the run returns
    that error. *)
Theorem run_with_concurrency_zero_returns_without_fetching
    (s : Spider World) (acts : list Action) (w : World)
    (mws : list (Middleware World)) (ps : list (Pipeline World)) :
  match openPipelines ps w with
  | (Some err, _) => Run Download s acts (configured w mws ps 0) = Some (inr err)
  | (None, w1) =>
      ∃ e', Run Download s acts (configured w mws ps 0) = Some (inl e') ∧
        stats e' = {| RequestsTotal := 0; RequestsSuccess := 0;
                      RequestsFailed := 0; ItemsScraped := 0 |} ∧
        workers e' = [] ∧
        scheduler.ChannelScheduler.held (scheduler e') ≡ₚ (StartRequests s w1).1 ∧
        world e' = closePipelines ps (StartRequests s w1).2
  end.
Proof.
  pose proof (parked_Run Download s acts (configured w mws ps 0)) as H.
  assert (pipelines (configured w mws ps 0) = ps) as Ep by (by rewrite configured_eq).
  assert (world (configured w mws ps 0) = w) as Ew by (by rewrite configured_eq).
  assert (stats (configured w mws ps 0)
          = {| RequestsTotal := 0; RequestsSuccess := 0;
               RequestsFailed := 0; ItemsScraped := 0 |}) as Es
    by (by rewrite configured_eq).
  assert (scheduler.ChannelScheduler.held (scheduler (configured w mws ps 0)) = []) as Eh
    by (by rewrite configured_eq).
  rewrite Ep, Ew, Es, Eh in H. apply H; rewrite configured_eq; by repeat split.
Qed.

(** X26.  A run of a spider whose [Parse] yields nothing, on a new
    engine with at least one worker, that comes to its end has opened
    every pipeline and, when the spider gave at most 64 start requests
    (the capacity of the scheduler's buffer), has taken every one of
    them exactly once: the report counts as many requests as there were
    start requests and no item, the scheduler is empty, and every
    worker has returned.  This holds whatever the middlewares, the
    fetches and the schedule.  For a [BaseSpider] the start requests
    are a GET request per start URL, in order. *)
Theorem run_of_a_spider_that_yields_nothing_takes_each_start_request_once
    (s : Spider World) (acts : list Action) (w : World)
    (mws : list (Middleware World)) (ps : list (Pipeline World)) (c : nat)
    (e' : Engine World) :
  yields_nothing s → 0 < c →
  Run Download s acts (configured w mws ps c) = Some (inl e') →
  ∃ w1 reqs w2,
    openPipelines ps w = (None, w1) ∧ StartRequests s w1 = (reqs, w2) ∧
    (∀ b, s = BaseSpider b →
       reqs = (request.NewRequest "GET" <$> spider.startUrls b) ∧ w2 = w1) ∧
    (length reqs ≤ 64 →
     RequestsTotal (stats e') = Z.of_nat (length reqs) ∧
     scheduler.ChannelScheduler.held (scheduler e') = [] ∧
     ItemsScraped (stats e') = 0%Z ∧
     Forall (λ st, st = Returned) (workers e')).
Proof.
  intros Hy Hc Hrun.
  destruct (quiet_Run Download s acts (configured w mws ps c) e' Hy
              (configured_at_rest w mws ps c))
    as (w1 & reqs & w2 & Ho & Hs & H); [by rewrite configured_eq|by rewrite configured_eq|done|].
  rewrite configured_eq in Ho, H.
  cbn [set_concurrency set_pipelines set_middlewares pipelines world scheduler stats] in Ho, H.
  exists w1, reqs, w2. split_and!; [done|done| |].
  - intros b ->. cbn in Hs. simplify_eq. split; [|done].
    unfold spider.StartRequests. by rewrite StartRequests_loop_map.
  - intros Hlen. apply H; [exact Hlen|lia].
Qed.

End ConfiguredFacts.

(** One start URL, one worker, a fetch that fails. *)
Lemma run_of_a_spider_that_yields_nothing_takes_each_start_request_once_witness :
  let s : engine.Spider unit := BaseSpider (spider.NewBaseSpider "b" ["http://a/"]) in
  yields_nothing s ∧ 0 < 1 ∧
  ∃ e' : engine.Engine unit,
    engine.Run refused s one_worker_schedule (configured tt [] [] 1) = Some (inl e') ∧
    ∃ w1 reqs w2,
      engine.openPipelines [] tt = (None, w1) ∧ engine.StartRequests s w1 = (reqs, w2) ∧
      (∀ b, s = BaseSpider b →
         reqs = (request.NewRequest "GET" <$> spider.startUrls b) ∧ w2 = w1) ∧
      (length reqs ≤ 64 →
       engine.RequestsTotal (engine.stats e') = Z.of_nat (length reqs) ∧
       scheduler.ChannelScheduler.held (engine.scheduler e') = [] ∧
       engine.ItemsScraped (engine.stats e') = 0%Z ∧
       Forall (λ st, st = engine.Returned) (engine.workers e')).
Proof.
  intros s.
  assert (yields_nothing s) as Hy by (intros resp w; reflexivity).
  split; [exact Hy|]. split; [exact (le_n 1)|].
  eexists. split; [vm_compute; reflexivity|].
  eapply (run_of_a_spider_that_yields_nothing_takes_each_start_request_once
            refused s one_worker_schedule tt [] [] 1 _ Hy (le_n 1)).
  vm_compute. reflexivity.
Defined.

(** ** Following the links of a response *)

Section FollowFacts.

Import response.

Context {url_URL : Type}.
Variable url_Parse : string → url_URL + error.
Variable ResolveReference : url_URL → url_URL → url_URL.
Variable URL_String : url_URL → string.

Local Abbreviation urljoin := (urljoin url_Parse ResolveReference URL_String).
Local Abbreviation Follow := (Follow url_Parse ResolveReference URL_String).
Local Abbreviation FollowAll := (FollowAll url_Parse ResolveReference URL_String).

Lemma FollowAll_loop_map (r : Response) (hrefs : list string) : ∀ requests,
  FollowAll_loop url_Parse ResolveReference URL_String r requests hrefs
  = requests ++ (Follow r <$> hrefs).
Proof.
  induction hrefs as [|href hrefs IH]; intros requests; cbn.
  - by rewrite app_nil_r.
  - by rewrite IH, <- app_assoc.
Qed.

(** X27.  [FollowAll] returns one request per link, in the order of the
    links, and drops none: the request for a link is what [Follow]
    gives for it, a new GET request that carries nothing but its
    address (no header, cookie or metadata of the response or of its
    request).  The address is the link resolved against the address of
    the response; when either of the two does not parse, it is the
    link as it was given. *)
Theorem follow_all_makes_one_get_request_per_link (r : Response) (hrefs : list string) :
  FollowAll r hrefs = (Follow r <$> hrefs) ∧
  length (FollowAll r hrefs) = length hrefs ∧
  (∀ more, FollowAll r (hrefs ++ more) = FollowAll r hrefs ++ FollowAll r more) ∧
  (∀ req, req ∈ FollowAll r hrefs →
     ∃ href, href ∈ hrefs ∧ req = request.NewRequest "GET" (urljoin r href)) ∧
  (∀ href,
     (∃ err, url_Parse (URL r) = inr err) ∨ (∃ err, url_Parse href = inr err) →
     urljoin r href = href) ∧
  (∀ href base ref,
     url_Parse (URL r) = inl base → url_Parse href = inl ref →
     urljoin r href = URL_String (ResolveReference base ref)).
Proof.
  assert (∀ l, FollowAll r l = (Follow r <$> l)) as E.
  { intros l. unfold response.FollowAll. by rewrite FollowAll_loop_map. }
  split_and!.
  - apply E.
  - by rewrite E, length_fmap.
  - intros more. by rewrite !E, fmap_app.
  - intros req. rewrite E. intros (href & -> & Hin)%list_elem_of_fmap.
    by exists href.
  - intros href [[err He]|[err He]]; unfold response.urljoin.
    + by rewrite He.
    + rewrite He. by destruct (url_Parse (URL r)).
  - intros href base ref Hb Hr. unfold response.urljoin. by rewrite Hb, Hr.
Qed.

End FollowFacts.

(** ** The outcome of a fetch *)

Section DownloadFacts.

Import downloader.

Context {World HTTPRequest : Type}.
Variable http_NewRequest : string → string → list Byte.byte → HTTPRequest + error.
Variable Header_Add : string → string → HTTPRequest → HTTPRequest.
Variable Header_Get : string → HTTPRequest → string.
Variable Header_Set : string → string → HTTPRequest → HTTPRequest.
Variable AddCookie : request.Cookie → HTTPRequest → HTTPRequest.
Variable requestURL : HTTPRequest → string.
Variable requestMethod : HTTPRequest → string.
Variable url_Parse : string → option error.
Variable roundTrip : string → Z → HTTPRequest → World → RoundTrip HTTPRequest * World.
Variable gzip_NewReader : HTTPResponse → option error.
Variable io_ReadAll : string → HTTPResponse → list Byte.byte + error.

Local Abbreviation client_do := (client_do requestURL requestMethod roundTrip).
Local Abbreviation buildHTTPRequest :=
  (buildHTTPRequest http_NewRequest Header_Add Header_Get Header_Set AddCookie).
Local Abbreviation Download_trace :=
  (Download_trace http_NewRequest Header_Add Header_Get Header_Set AddCookie
     requestURL requestMethod url_Parse roundTrip gzip_NewReader io_ReadAll).

Lemma client_do_sends_first (fuel : nat) : ∀ proxy timeout reqs req w res made w',
  client_do fuel proxy timeout reqs req w = Some (res, made, w') →
  (reqs ++ [req]) `prefix_of` made.
Proof.
  induction fuel as [|fuel IH]; intros proxy timeout reqs req w res made w' H; [done|].
  cbn [downloader.client_do] in H.
  destruct (roundTrip proxy timeout req w) as [[err|next|resp] w1].
  - by simplify_eq.
  - destruct (CheckRedirect next (reqs ++ [req])); [by simplify_eq|].
    apply IH in H. etrans; [|exact H]. by apply prefix_app_r.
  - by simplify_eq.
Qed.


End DownloadFacts.

(** ** Outcomes of a batch under a context *)

Section ContextFacts.

Import downloader.

Context {World : Type}.
Variable Download : request.Request → World → (response.Response + error) * World.
Variable ctx_Err : error.

Implicit Types (b : WithContext.t World) (got : list AsyncResult).

Local Abbreviation step := (WithContext.step Download ctx_Err).
Local Abbreviation exec := (WithContext.exec Download ctx_Err).

Lemma accounted_eq b got :
  accounted b got
  = (Request <$> got) ++ (Request <$> WithContext.resultChan b)
    ++ (Request <$> WithContext.refusing b) ++ (Request <$> WithContext.holding b)
    ++ WithContext.launched b.
Proof. unfold accounted. by rewrite !fmap_app, <- !app_assoc. Qed.

Lemma ctx_inv_init done reqs (w : World) :
  ctx_inv reqs (WithContext.DownloadBatchWithContext done reqs w) [].
Proof.
  unfold ctx_inv, accounted, WithContext.DownloadBatchWithContext. simpl.
  split_and!; try done. lia.
Qed.

(** A step loses no request unless the context is done, and makes
    none up. *)
Lemma step_accounted a b got :
  accounted (step a b).1 (got ++ (step a b).2) ⊆+ accounted b got ∧
  (WithContext.ctxDone (step a b).1 = false →
   WithContext.ctxDone b = false ∧
   accounted (step a b).1 (got ++ (step a b).2) ≡ₚ accounted b got).
Proof.
  rewrite !accounted_eq.
  destruct a as [|k|k|k|k| | |]; cbn [WithContext.step].
  - simpl. rewrite app_nil_r. done.
  - destruct (WithContext.launched b !! k) as [r|] eqn:Ek.
    2:{ simpl. rewrite app_nil_r. done. }
    pose proof (delete_Permutation _ _ _ Ek) as Hd.
    assert (∀ x : list request.Request,
              x ++ [r] ++ delete k (WithContext.launched b)
              ≡ₚ x ++ WithContext.launched b) as Hmid.
    { intros x. apply Permutation_app_head. simpl. by symmetry. }
    destruct (WithContext.ctxDone b) eqn:Ec.
    + simpl. rewrite app_nil_r.
      assert ((Request <$> got) ++ (Request <$> WithContext.resultChan b)
              ++ (Request <$> WithContext.refusing b
                    ++ [{| Request := r; Response := None; Error := Some ctx_Err |}])
              ++ (Request <$> WithContext.holding b) ++ delete k (WithContext.launched b)
              ≡ₚ (Request <$> got) ++ (Request <$> WithContext.resultChan b)
              ++ (Request <$> WithContext.refusing b)
              ++ (Request <$> WithContext.holding b) ++ WithContext.launched b) as HP.
      { do 2 apply Permutation_app_head. rewrite fmap_app, <- app_assoc.
        apply Permutation_app_head. simpl. rewrite Hd at 2.
        apply Permutation_middle. }
      split; [by rewrite HP|done].
    + destruct (Download r (WithContext.world b)) as [res w'] eqn:Ed. simpl.
      rewrite app_nil_r.
      assert ((Request <$> got) ++ (Request <$> WithContext.resultChan b)
              ++ (Request <$> WithContext.refusing b)
              ++ (Request <$> WithContext.holding b ++ [mkResult r res])
              ++ delete k (WithContext.launched b)
              ≡ₚ (Request <$> got) ++ (Request <$> WithContext.resultChan b)
              ++ (Request <$> WithContext.refusing b)
              ++ (Request <$> WithContext.holding b) ++ WithContext.launched b) as HP.
      { do 3 apply Permutation_app_head. rewrite fmap_app, <- app_assoc.
        apply Permutation_app_head. simpl. rewrite mkResult_Request. by symmetry. }
      split; [by rewrite HP|]. intros _. split; [done|exact HP].
  - destruct (WithContext.refusing b !! k) as [result|] eqn:Ek.
    2:{ simpl. rewrite app_nil_r. done. }
    pose proof (delete_Permutation _ _ _ Ek) as Hd.
    case_decide as Hroom; simpl; rewrite app_nil_r; [|done].
    assert ((Request <$> got) ++ (Request <$> WithContext.resultChan b ++ [result])
            ++ (Request <$> delete k (WithContext.refusing b))
            ++ (Request <$> WithContext.holding b) ++ WithContext.launched b
            ≡ₚ (Request <$> got) ++ (Request <$> WithContext.resultChan b)
            ++ (Request <$> WithContext.refusing b)
            ++ (Request <$> WithContext.holding b) ++ WithContext.launched b) as HP.
    { apply Permutation_app_head. rewrite fmap_app, <- app_assoc.
      apply Permutation_app_head. rewrite Hd at 2. done. }
    split; [by rewrite HP|]. intros Hc. split; [done|exact HP].
  - destruct (WithContext.holding b !! k) as [result|] eqn:Ek.
    2:{ simpl. rewrite app_nil_r. done. }
    pose proof (delete_Permutation _ _ _ Ek) as Hd.
    case_decide as Hroom; simpl; rewrite app_nil_r; [|done].
    assert ((Request <$> got) ++ (Request <$> WithContext.resultChan b ++ [result])
            ++ (Request <$> WithContext.refusing b)
            ++ (Request <$> delete k (WithContext.holding b)) ++ WithContext.launched b
            ≡ₚ (Request <$> got) ++ (Request <$> WithContext.resultChan b)
            ++ (Request <$> WithContext.refusing b)
            ++ (Request <$> WithContext.holding b) ++ WithContext.launched b) as HP.
    { apply Permutation_app_head. rewrite fmap_app, <- app_assoc.
      apply Permutation_app_head. rewrite Hd at 2. simpl.
      apply Permutation_middle. }
    split; [by rewrite HP|]. intros Hc. split; [done|exact HP].
  - destruct (WithContext.holding b !! k) as [result|] eqn:Ek.
    2:{ simpl. rewrite app_nil_r. done. }
    pose proof (delete_Permutation _ _ _ Ek) as Hd.
    destruct (WithContext.ctxDone b) eqn:Ec; simpl; rewrite app_nil_r; [|done].
    split; [|done].
    do 3 apply submseteq_skips_l. apply submseteq_skips_r.
    rewrite Hd at 2. simpl. by apply submseteq_cons.
  - destruct (WithContext.finishing b); simpl; rewrite app_nil_r; done.
  - case_decide; simpl; rewrite app_nil_r; done.
  - destruct (WithContext.resultChan b) as [|result rest] eqn:Er; simpl.
    + rewrite app_nil_r, Er. done.
    + rewrite fmap_app, <- app_assoc. simpl. done.
Qed.

Lemma ctx_inv_length reqs b got :
  ctx_inv reqs b got →
  length got + length (WithContext.resultChan b) + length (WithContext.refusing b)
  + length (WithContext.holding b) + length (WithContext.launched b) ≤ length reqs.
Proof.
  intros (_ & _ & Hp & _). apply submseteq_length in Hp.
  rewrite accounted_eq, !length_app, !length_fmap in Hp. lia.
Qed.

Lemma ctx_step_inv reqs a b got :
  ctx_inv reqs b got →
  ctx_inv reqs (step a b).1 (got ++ (step a b).2).
Proof.
  intros Hinv. pose proof (ctx_inv_length _ _ _ Hinv) as Hlen.
  destruct (step_accounted a b got) as [Hsub Hperm].
  destruct Hinv as (Hcap & Hwg & Hp & Hnc & Hcl). unfold ctx_inv.
  assert (accounted (step a b).1 (got ++ (step a b).2) ⊆+ reqs) as Hp'
    by (by etrans).
  assert (WithContext.ctxDone (step a b).1 = false →
          accounted (step a b).1 (got ++ (step a b).2) ≡ₚ reqs) as Hnc'.
  { intros Hc. destruct (Hperm Hc) as [Hc0 HP]. rewrite HP. by apply Hnc. }
  split_and!; [| | exact Hp' | exact Hnc' |]; clear Hsub Hperm Hp' Hnc'.
  - destruct a as [|k|k|k|k| | |]; cbn [WithContext.step]; try done.
    + destruct (WithContext.launched b !! k); [|done].
      destruct (WithContext.ctxDone b); [done|].
      by destruct (Download _ _).
    + destruct (WithContext.refusing b !! k); [|done]. by case_decide.
    + destruct (WithContext.holding b !! k); [|done]. by case_decide.
    + destruct (WithContext.holding b !! k); [|done].
      by destruct (WithContext.ctxDone b).
    + by destruct (WithContext.finishing b).
    + by case_decide.
    + by destruct (WithContext.resultChan b).
  - destruct a as [|k|k|k|k| | |]; cbn [WithContext.step]; try done.
    + destruct (WithContext.launched b !! k) as [r|] eqn:Ek; [|done].
      pose proof (length_delete _ k (mk_is_Some _ _ Ek)) as Hld.
      pose proof (lookup_lt_Some _ _ _ Ek) as Hlk.
      destruct (WithContext.ctxDone b).
      * simpl. rewrite length_app. simpl. lia.
      * destruct (Download _ _). simpl. rewrite length_app. simpl. lia.
    + destruct (WithContext.refusing b !! k) as [r|] eqn:Ek; [|done].
      pose proof (length_delete _ k (mk_is_Some _ _ Ek)) as Hld.
      pose proof (lookup_lt_Some _ _ _ Ek) as Hlk.
      case_decide; [|done]. simpl. lia.
    + destruct (WithContext.holding b !! k) as [r|] eqn:Ek; [|done].
      pose proof (length_delete _ k (mk_is_Some _ _ Ek)) as Hld.
      pose proof (lookup_lt_Some _ _ _ Ek) as Hlk.
      case_decide; [|done]. simpl. lia.
    + destruct (WithContext.holding b !! k) as [r|] eqn:Ek; [|done].
      pose proof (length_delete _ k (mk_is_Some _ _ Ek)) as Hld.
      pose proof (lookup_lt_Some _ _ _ Ek) as Hlk.
      destruct (WithContext.ctxDone b); [|done]. simpl. lia.
    + destruct (WithContext.finishing b) eqn:Ef; simpl; lia.
    + by case_decide.
    + by destruct (WithContext.resultChan b).
  - destruct a as [|k|k|k|k| | |]; cbn [WithContext.step]; try done.
    + destruct (WithContext.launched b !! k) as [r|] eqn:Ek; [|done].
      pose proof (lookup_lt_Some _ _ _ Ek) as Hlk.
      destruct (WithContext.ctxDone b).
      * simpl. intros Hc. specialize (Hcl Hc). lia.
      * destruct (Download _ _). simpl. intros Hc. specialize (Hcl Hc). lia.
    + destruct (WithContext.refusing b !! k) as [r|] eqn:Ek; [|done].
      case_decide; done.
    + destruct (WithContext.holding b !! k) as [r|] eqn:Ek; [|done].
      case_decide; done.
    + destruct (WithContext.holding b !! k) as [r|] eqn:Ek; [|done].
      by destruct (WithContext.ctxDone b).
    + destruct (WithContext.finishing b) eqn:Ef; [done|]. simpl.
      intros Hc. specialize (Hcl Hc). lia.
    + case_decide; [|done]. simpl. done.
    + by destruct (WithContext.resultChan b).
Qed.

Lemma ctx_exec_inv reqs acts : ∀ b got,
  ctx_inv reqs b got →
  ctx_inv reqs (exec acts b).1 (got ++ (exec acts b).2).
Proof.
  induction acts as [|a acts IH]; intros b got Hinv.
  - simpl. by rewrite app_nil_r.
  - cbn [WithContext.exec].
    pose proof (ctx_step_inv reqs a b got Hinv) as H1.
    destruct (step a b) as [b1 got1]. specialize (IH b1 _ H1).
    destruct (exec acts b1) as [b2 got2]. simpl in *.
    by rewrite app_assoc.
Qed.

Lemma ctx_exec_app acts1 acts2 b :
  exec (acts1 ++ acts2) b =
  ((exec acts2 (exec acts1 b).1).1,
   (exec acts1 b).2 ++ (exec acts2 (exec acts1 b).1).2).
Proof.
  revert b. induction acts1 as [|a acts1 IH]; intros b.
  - simpl. by destruct (exec acts2 b).
  - cbn [app WithContext.exec]. destruct (step a b) as [b1 got1].
    rewrite IH. destruct (exec acts1 b1) as [b2 got2]. simpl.
    destruct (exec acts2 b2) as [b3 got3]. simpl. by rewrite app_assoc.
Qed.

Lemma start_phase (l : list request.Request) : ∀ cap rf hd fin ch g cl (w : World),
  exec (replicate (length l) (WithContext.CStart 0))
    {| WithContext.capacity := cap; WithContext.launched := l;
       WithContext.refusing := rf; WithContext.holding := hd;
       WithContext.finishing := fin; WithContext.resultChan := ch;
       WithContext.wg := g; WithContext.closed := cl;
       WithContext.ctxDone := true; WithContext.world := w |}
  = ({| WithContext.capacity := cap; WithContext.launched := [];
        WithContext.refusing := rf ++ (refused_by ctx_Err <$> l);
        WithContext.holding := hd;
        WithContext.finishing := fin; WithContext.resultChan := ch;
        WithContext.wg := g; WithContext.closed := cl;
        WithContext.ctxDone := true; WithContext.world := w |}, []).
Proof.
  induction l as [|r l IH]; intros cap rf hd fin ch g cl w.
  - simpl. by rewrite app_nil_r.
  - cbn [length replicate WithContext.exec WithContext.step lookup list_lookup
         WithContext.launched WithContext.ctxDone delete list_delete].
    rewrite IH. cbn [app]. rewrite <- app_assoc. done.
Qed.

Lemma refuse_phase (l : list AsyncResult) : ∀ cap lch hd fin ch g cl dn (w : World),
  length ch + length l ≤ cap →
  exec (replicate (length l) (WithContext.CRefuse 0))
    {| WithContext.capacity := cap; WithContext.launched := lch;
       WithContext.refusing := l; WithContext.holding := hd;
       WithContext.finishing := fin; WithContext.resultChan := ch;
       WithContext.wg := g; WithContext.closed := cl;
       WithContext.ctxDone := dn; WithContext.world := w |}
  = ({| WithContext.capacity := cap; WithContext.launched := lch;
        WithContext.refusing := []; WithContext.holding := hd;
        WithContext.finishing := length l + fin; WithContext.resultChan := ch ++ l;
        WithContext.wg := g; WithContext.closed := cl;
        WithContext.ctxDone := dn; WithContext.world := w |}, []).
Proof.
  induction l as [|r l IH]; intros cap lch hd fin ch g cl dn w Hroom.
  - simpl. by rewrite app_nil_r.
  - cbn [length] in Hroom.
    cbn [length replicate WithContext.exec WithContext.step lookup list_lookup
         WithContext.refusing WithContext.resultChan WithContext.capacity
         delete list_delete].
    rewrite decide_True by lia.
    cbn [WithContext.launched WithContext.holding WithContext.finishing
         WithContext.wg WithContext.closed WithContext.ctxDone WithContext.world].
    rewrite IH by (rewrite length_app; simpl; lia).
    cbn [app length]. rewrite <- app_assoc.
    replace (length l + S fin) with (S (length l + fin)) by lia. done.
Qed.

Lemma ctx_done_phase (n : nat) : ∀ cap lch rf hd fin ch g cl dn (w : World),
  exec (replicate n WithContext.CDone)
    {| WithContext.capacity := cap; WithContext.launched := lch;
       WithContext.refusing := rf; WithContext.holding := hd;
       WithContext.finishing := n + fin; WithContext.resultChan := ch;
       WithContext.wg := n + g; WithContext.closed := cl;
       WithContext.ctxDone := dn; WithContext.world := w |}
  = ({| WithContext.capacity := cap; WithContext.launched := lch;
        WithContext.refusing := rf; WithContext.holding := hd;
        WithContext.finishing := fin; WithContext.resultChan := ch;
        WithContext.wg := g; WithContext.closed := cl;
        WithContext.ctxDone := dn; WithContext.world := w |}, []).
Proof.
  induction n as [|n IH]; intros cap lch rf hd fin ch g cl dn w; [done|].
  cbn [replicate WithContext.exec WithContext.step WithContext.finishing Nat.add].
  cbn [WithContext.capacity WithContext.launched WithContext.refusing
       WithContext.holding WithContext.resultChan WithContext.wg
       WithContext.closed WithContext.ctxDone WithContext.world].
  replace (S (n + g) - 1) with (n + g) by lia.
  by rewrite IH.
Qed.

Lemma ctx_done_all (n : nat) cap lch rf hd ch cl dn (w : World) :
  exec (replicate n WithContext.CDone)
    {| WithContext.capacity := cap; WithContext.launched := lch;
       WithContext.refusing := rf; WithContext.holding := hd;
       WithContext.finishing := n; WithContext.resultChan := ch;
       WithContext.wg := n; WithContext.closed := cl;
       WithContext.ctxDone := dn; WithContext.world := w |}
  = ({| WithContext.capacity := cap; WithContext.launched := lch;
        WithContext.refusing := rf; WithContext.holding := hd;
        WithContext.finishing := 0; WithContext.resultChan := ch;
        WithContext.wg := 0; WithContext.closed := cl;
        WithContext.ctxDone := dn; WithContext.world := w |}, []).
Proof.
  pose proof (ctx_done_phase n cap lch rf hd 0 ch 0 cl dn w) as H.
  by rewrite !Nat.add_0_r in H.
Qed.

Lemma ctx_recv_phase (l : list AsyncResult) : ∀ cap lch rf hd fin g cl dn (w : World),
  exec (replicate (length l) WithContext.CRecv)
    {| WithContext.capacity := cap; WithContext.launched := lch;
       WithContext.refusing := rf; WithContext.holding := hd;
       WithContext.finishing := fin; WithContext.resultChan := l;
       WithContext.wg := g; WithContext.closed := cl;
       WithContext.ctxDone := dn; WithContext.world := w |}
  = ({| WithContext.capacity := cap; WithContext.launched := lch;
        WithContext.refusing := rf; WithContext.holding := hd;
        WithContext.finishing := fin; WithContext.resultChan := [];
        WithContext.wg := g; WithContext.closed := cl;
        WithContext.ctxDone := dn; WithContext.world := w |}, l).
Proof.
  induction l as [|r l IH]; intros cap lch rf hd fin g cl dn w; [done|].
  cbn [length replicate WithContext.exec WithContext.step WithContext.resultChan].
  cbn [WithContext.capacity WithContext.launched WithContext.refusing
       WithContext.holding WithContext.finishing WithContext.wg
       WithContext.closed WithContext.ctxDone WithContext.world].
  by rewrite IH.
Qed.

Lemma refuse_all_spec (reqs : list request.Request) (w : World) :
  exec (refuse_all (length reqs)) (WithContext.DownloadBatchWithContext true reqs w)
  = ({| WithContext.capacity := length reqs; WithContext.launched := [];
        WithContext.refusing := []; WithContext.holding := [];
        WithContext.finishing := 0; WithContext.resultChan := [];
        WithContext.wg := 0; WithContext.closed := true;
        WithContext.ctxDone := true; WithContext.world := w |},
     refused_by ctx_Err <$> reqs).
Proof.
  unfold refuse_all, WithContext.DownloadBatchWithContext.
  rewrite ctx_exec_app, start_phase. cbn [fst snd app].
  rewrite ctx_exec_app.
  replace (replicate (length reqs) (WithContext.CRefuse 0))
    with (replicate (length (refused_by ctx_Err <$> reqs)) (WithContext.CRefuse 0))
    by (by rewrite length_fmap).
  rewrite refuse_phase by (rewrite length_fmap; simpl; lia).
  cbn [fst snd app]. rewrite length_fmap, Nat.add_0_r.
  rewrite ctx_exec_app, ctx_done_all. cbn [fst snd app].
  cbn [WithContext.exec WithContext.step WithContext.wg]. rewrite decide_True by done.
  cbn [WithContext.capacity WithContext.launched WithContext.refusing
       WithContext.holding WithContext.finishing WithContext.resultChan
       WithContext.closed WithContext.ctxDone WithContext.world].
  replace (replicate (length reqs) WithContext.CRecv)
    with (replicate (length (refused_by ctx_Err <$> reqs)) WithContext.CRecv)
    by (by rewrite length_fmap).
  by rewrite ctx_recv_phase.
Qed.

(** Once the context is done no fetch is started. *)
Lemma done_step a b :
  WithContext.ctxDone b = true →
  WithContext.ctxDone (step a b).1 = true ∧
  WithContext.world (step a b).1 = WithContext.world b ∧
  (WithContext.holding b = [] → WithContext.holding (step a b).1 = []).
Proof.
  intros Hd. destruct a as [|k|k|k|k| | |]; cbn [WithContext.step].
  - done.
  - destruct (WithContext.launched b !! k); [|done]. by rewrite Hd.
  - destruct (WithContext.refusing b !! k); [|done]. by case_decide.
  - destruct (WithContext.holding b !! k) eqn:Ek; [|done].
    case_decide; [|done]. cbn. split_and!; [done|done|].
    intros Hh. by rewrite Hh in Ek.
  - destruct (WithContext.holding b !! k) eqn:Ek; [|done].
    rewrite Hd. cbn. split_and!; [done|done|].
    intros Hh. by rewrite Hh in Ek.
  - by destruct (WithContext.finishing b).
  - by case_decide.
  - by destruct (WithContext.resultChan b).
Qed.

Lemma done_exec acts : ∀ b,
  WithContext.ctxDone b = true →
  WithContext.ctxDone (exec acts b).1 = true ∧
  WithContext.world (exec acts b).1 = WithContext.world b ∧
  (WithContext.holding b = [] → WithContext.holding (exec acts b).1 = []).
Proof.
  induction acts as [|a acts IH]; intros b Hd; [done|].
  cbn [WithContext.exec]. destruct (done_step a b Hd) as (H1 & H2 & H3).
  destruct (step a b) as [b1 got1]. cbn [fst] in *.
  destruct (IH b1 H1) as (H4 & H5 & H6).
  destruct (exec acts b1) as [b2 got2]. cbn [fst] in *.
  split_and!; [done|congruence|]. intros Hh. by apply H6, H3.
Qed.

(** Under a context that is done, with no fetched outcome waiting,
    every outcome is a refusal and none is lost. *)
Lemma refusals_step a b got :
  WithContext.ctxDone b = true → WithContext.holding b = [] →
  refusals ctx_Err (step a b).1 (got ++ (step a b).2) ≡ₚ refusals ctx_Err b got.
Proof.
  intros Hd Hh. unfold refusals.
  destruct a as [|k|k|k|k| | |]; cbn [WithContext.step].
  - simpl. by rewrite app_nil_r.
  - destruct (WithContext.launched b !! k) as [r|] eqn:Ek.
    2:{ simpl. by rewrite app_nil_r. }
    pose proof (delete_Permutation _ _ _ Ek) as Hp.
    rewrite Hd. simpl. rewrite app_nil_r.
    rewrite Hp at 2. rewrite fmap_cons, <- !app_assoc.
    do 3 apply Permutation_app_head. done.
  - destruct (WithContext.refusing b !! k) as [x|] eqn:Ek.
    2:{ simpl. by rewrite app_nil_r. }
    pose proof (delete_Permutation _ _ _ Ek) as Hp.
    case_decide; simpl; rewrite app_nil_r; [|done].
    rewrite Hp at 2. apply Permutation_app_tail. apply Permutation_app_head.
    rewrite <- app_assoc. apply Permutation_app_head. simpl. done.
  - rewrite Hh, lookup_nil. simpl. by rewrite app_nil_r.
  - rewrite Hh, lookup_nil. simpl. by rewrite app_nil_r.
  - destruct (WithContext.finishing b); simpl; by rewrite app_nil_r.
  - case_decide; simpl; by rewrite app_nil_r.
  - destruct (WithContext.resultChan b) as [|x rest] eqn:Er; simpl.
    + by rewrite app_nil_r, Er.
    + rewrite <- !app_assoc. simpl. by rewrite <- !app_assoc.
Qed.

Lemma refusals_exec acts : ∀ b got,
  WithContext.ctxDone b = true → WithContext.holding b = [] →
  refusals ctx_Err (exec acts b).1 (got ++ (exec acts b).2) ≡ₚ refusals ctx_Err b got.
Proof.
  induction acts as [|a acts IH]; intros b got Hd Hh.
  - simpl. by rewrite app_nil_r.
  - cbn [WithContext.exec].
    pose proof (refusals_step a b got Hd Hh) as H1.
    destruct (done_step a b Hd) as (H2 & _ & H3). specialize (H3 Hh).
    destruct (step a b) as [b1 got1]. cbn [fst snd] in *.
    specialize (IH b1 (got ++ got1) H2 H3).
    destruct (exec acts b1) as [b2 got2]. cbn [fst snd] in *.
    rewrite app_assoc. by rewrite IH.
Qed.

(** X29.  In every interleaving of a [DownloadBatchWithContext] over N
    requests, no request gets more than one outcome, the buffer always
    has room for a goroutine that sends, and the channel is closed only
    when every goroutine has ended.  While the context is not done no
    outcome is lost: when the channel is closed the outcomes received
    and buffered are those of the N requests, one each.  Once the
    context is done no fetch is started, in any interleaving: the
    outside world stays as it is.  Under a context that is done from
    the start, in every interleaving, nothing is fetched and every
    outcome is one without response whose error is [ctx.Err()]; none
    is lost, so when the channel is closed every request has got
    exactly that outcome; and there is a schedule that closes the
    channel and delivers these outcomes in the order of the requests.
    Unlike [DownloadBatch], a fetch can end without any outcome: when
    the context is cancelled after the fetch, the goroutine may leave
    by the [ctx.Done()] case, and the channel is closed empty. *)
Theorem batch_under_a_context_delivers_at_most_one_outcome_per_request :
  (∀ (acts : list WithContext.Action) (done : bool) (reqs : list request.Request)
     (w : World),
     let r := exec acts (WithContext.DownloadBatchWithContext done reqs w) in
     (Request <$> r.2 ++ WithContext.resultChan r.1) ⊆+ reqs ∧
     (WithContext.refusing r.1 ≠ [] ∨ WithContext.holding r.1 ≠ [] →
      length (WithContext.resultChan r.1) < WithContext.capacity r.1) ∧
     (WithContext.closed r.1 = true →
      WithContext.launched r.1 = [] ∧ WithContext.refusing r.1 = [] ∧
      WithContext.holding r.1 = [] ∧ WithContext.finishing r.1 = 0 ∧
      (WithContext.ctxDone r.1 = false →
       (Request <$> r.2 ++ WithContext.resultChan r.1) ≡ₚ reqs))) ∧
  (∀ (acts : list WithContext.Action) (b : WithContext.t World),
     WithContext.ctxDone b = true →
     WithContext.ctxDone (exec acts b).1 = true ∧
     WithContext.world (exec acts b).1 = WithContext.world b) ∧
  (∀ (acts : list WithContext.Action) (reqs : list request.Request) (w : World),
     let r := exec acts (WithContext.DownloadBatchWithContext true reqs w) in
     WithContext.world r.1 = w ∧
     WithContext.holding r.1 = [] ∧
     (r.2 ++ WithContext.resultChan r.1 ++ WithContext.refusing r.1)
       ++ (refused_by ctx_Err <$> WithContext.launched r.1)
       ≡ₚ (refused_by ctx_Err <$> reqs) ∧
     (WithContext.closed r.1 = true →
      r.2 ++ WithContext.resultChan r.1 ≡ₚ (refused_by ctx_Err <$> reqs))) ∧
  (∀ (reqs : list request.Request) (w : World),
     let r := exec (refuse_all (length reqs))
                (WithContext.DownloadBatchWithContext true reqs w) in
     r.2 = (refused_by ctx_Err <$> reqs) ∧
     WithContext.closed r.1 = true ∧ WithContext.resultChan r.1 = [] ∧
     WithContext.world r.1 = w) ∧
  (∀ (req : request.Request) (w : World),
     let r := exec [WithContext.CStart 0; WithContext.CCancel; WithContext.CDrop 0;
                    WithContext.CDone; WithContext.CClose]
                (WithContext.DownloadBatchWithContext false [req] w) in
     r.2 = [] ∧ WithContext.closed r.1 = true ∧ WithContext.resultChan r.1 = [] ∧
     WithContext.world r.1 = (Download req w).2).
Proof.
  assert (∀ (acts : list WithContext.Action) (done : bool) (reqs : list request.Request)
            (w : World),
     let r := exec acts (WithContext.DownloadBatchWithContext done reqs w) in
     (Request <$> r.2 ++ WithContext.resultChan r.1) ⊆+ reqs ∧
     (WithContext.refusing r.1 ≠ [] ∨ WithContext.holding r.1 ≠ [] →
      length (WithContext.resultChan r.1) < WithContext.capacity r.1) ∧
     (WithContext.closed r.1 = true →
      WithContext.launched r.1 = [] ∧ WithContext.refusing r.1 = [] ∧
      WithContext.holding r.1 = [] ∧ WithContext.finishing r.1 = 0 ∧
      (WithContext.ctxDone r.1 = false →
       (Request <$> r.2 ++ WithContext.resultChan r.1) ≡ₚ reqs))) as Hall.
  { intros acts done reqs w r.
    pose proof (ctx_exec_inv reqs acts _ [] (ctx_inv_init done reqs w)) as Hinv.
    fold r in Hinv. cbn [app] in Hinv.
    pose proof (ctx_inv_length _ _ _ Hinv) as Hlen.
    destruct Hinv as (Hcap & Hwg & Hp & Hnc & Hcl).
    assert ((Request <$> r.2 ++ WithContext.resultChan r.1) ⊆+ accounted r.1 r.2) as Hsub.
    { rewrite accounted_eq, fmap_app.
      apply submseteq_skips_l. by apply submseteq_inserts_r. }
    split_and!.
    + by etrans.
    + rewrite Hcap. intros [H|H].
      * destruct (WithContext.refusing r.1); [done|]. simpl in Hlen. lia.
      * destruct (WithContext.holding r.1); [done|]. simpl in Hlen. lia.
    + intros Hc. specialize (Hcl Hc). rewrite Hcl in Hwg.
      assert (WithContext.launched r.1 = []) as E1
        by (destruct (WithContext.launched r.1); [done|simpl in Hwg; lia]).
      assert (WithContext.refusing r.1 = []) as E2
        by (destruct (WithContext.refusing r.1); [done|simpl in Hwg; lia]).
      assert (WithContext.holding r.1 = []) as E3
        by (destruct (WithContext.holding r.1); [done|simpl in Hwg; lia]).
      split_and!; [done|done|done|lia|].
      intros Hd. specialize (Hnc Hd). rewrite <- Hnc.
      unfold accounted. rewrite E1, E2, E3. by rewrite !app_nil_r. }
  split_and!.
  - exact Hall.
  - intros acts b Hd. destruct (done_exec acts b Hd) as (H1 & H2 & _). done.
  - intros acts reqs w r.
    destruct (done_exec acts (WithContext.DownloadBatchWithContext true reqs w) eq_refl)
      as (_ & Hw & Hh). specialize (Hh eq_refl). fold r in Hw, Hh.
    pose proof (refusals_exec acts (WithContext.DownloadBatchWithContext true reqs w) []
                  eq_refl eq_refl) as Hp.
    fold r in Hp. unfold refusals in Hp. cbn in Hp.
    split_and!; [exact Hw|exact Hh|exact Hp|].
    intros Hc. destruct (Hall acts true reqs w) as (_ & _ & Hcl).
    fold r in Hcl. destruct (Hcl Hc) as (E1 & E2 & _).
    rewrite E1, E2 in Hp. cbn in Hp. by rewrite !app_nil_r in Hp.
  - intros reqs w r. unfold r. rewrite refuse_all_spec. done.
  - intros req w r. unfold r.
    unfold WithContext.DownloadBatchWithContext.
    cbn [WithContext.exec WithContext.step WithContext.launched WithContext.ctxDone
         WithContext.world lookup list_lookup length].
    destruct (Download req w) as [res w']. cbn. done.
Qed.

End ContextFacts.
